(** * Strawberry collection core: backend reconciliation, compilation
      classifier and the grouping index of the collection model.

    Shallow embedding of
    - [src/collection/collectionbackend.cpp] (CollectionBackend: AddOrUpdateSongs,
      UpdateSongsBySongID, CompilationsNeedUpdating, UpdateCompilations,
      ForceCompilation),
    - the collection model appended to it (CollectionModel: SongsDiscovered,
      SongsDeleted, CreateCompilationArtistNode, ContainerKey, DividerKey,
      DividerDisplayText, ItemFromSong, FinishItem, the sort-text helpers),
    - [src/collection/collectionquery.cpp] (QueryOptions::Matches).

    QString is modelled as [string]; a QChar is an [ascii] (one code unit).
    SQL tables are lists of rows in ROWID insertion order; the model tree is an
    arena of items addressed by pointers ([nat]) with explicit parent links. *)

From Stdlib Require Import ZArith String Ascii List Bool Lia.
From Stdlib Require Import Decimal DecimalString DecimalZ DecimalPos.
From stdpp Require Import base option gmap strings list fin_maps.

Open Scope Z_scope.

(* ===================================================================== *)
(** ** Qt text primitives *)
(* ===================================================================== *)

Module Qt.

(** [tr(...)]: the untranslated source text. *)
Definition tr (s : string) : string := s.

Definition isEmpty (s : string) : bool :=
  match s with EmptyString => true | String _ _ => false end.

(** [s[0]]; reading past the end is an assertion failure, hence [option]. *)
Definition at0 (s : string) : option ascii :=
  match s with EmptyString => None | String c _ => Some c end.

Definition of_char (c : ascii) : string := String c EmptyString.

Fixpoint startsWith (s p : string) : bool :=
  match p, s with
  | EmptyString, _ => true
  | String _ _, EmptyString => false
  | String a p', String b s' => if Ascii.eqb a b then startsWith s' p' else false
  end.

(** [s.contains(f)] for a literal needle. *)
Fixpoint contains (s f : string) : bool :=
  startsWith s f ||
  match s with
  | EmptyString => false
  | String _ s' => contains s' f
  end.

(** [s.right(n)], [s.left(n)] for [0 <= n <= s.length()]. *)
Definition right (s : string) (n : nat) : string :=
  String.substring (String.length s - n) n s.
Definition left (s : string) (n : nat) : string :=
  String.substring 0 n s.

Fixpoint repeated (s : string) (n : nat) : string :=
  match n with O => EmptyString | S n' => s +:+ repeated s n' end.

(** [QString::number(int)] *)
Definition number (n : Z) : string := NilZero.string_of_int (Z.to_int n).

(** [QChar::isSpace] on the ASCII range. *)
Definition isSpace (c : ascii) : bool :=
  let n := nat_of_ascii c in
  (Nat.eqb n 32 || (Nat.leb 9 n && Nat.leb n 13))%bool.

Fixpoint trim_left (s : string) : string :=
  match s with
  | String c s' => if isSpace c then trim_left s' else s
  | EmptyString => EmptyString
  end.

Fixpoint rev_string (s : string) (acc : string) : string :=
  match s with
  | EmptyString => acc
  | String c s' => rev_string s' (String c acc)
  end.

Definition trimmed (s : string) : string :=
  rev_string (trim_left (rev_string (trim_left s) EmptyString)) EmptyString.

Definition int_min : Z := - 2 ^ 31.
Definition int_max : Z := 2 ^ 31 - 1.

(** Arithmetic on [int]: a result outside the range wraps around modulo
    2^32, as the two's complement instructions of the compiled code do. *)
Definition wrap_int (z : Z) : Z := (z - int_min) mod 2 ^ 32 + int_min.
Definition int_add (a b : Z) : Z := wrap_int (a + b).
Definition int_mul (a b : Z) : Z := wrap_int (a * b).

(** [QString::toInt()]: surrounding white space is skipped, an optional sign
    and decimal digits are read; anything else, or a value outside [int],
    gives 0. *)
Definition toInt (s : string) : Z :=
  let t := trimmed s in
  let t' := match t with
            | String c r =>
                if Ascii.eqb c "+" then (if startsWith r "-" then "x" else r) else t
            | EmptyString => t
            end in
  match NilZero.int_of_string t' with
  | Some i => let z := Z.of_int i in
              if ((int_min <=? z)%Z && (z <=? int_max)%Z)%bool then z else 0
  | None => 0
  end.

(** [QString("%1").arg(number, width, 10, QChar('0'))]: zero padding goes to
    the right of the sign. *)
Definition arg_zero_padded (n : Z) (width : nat) : string :=
  if (n <? 0)%Z then
    let d := number (- n) in
    "-" +:+ repeated "0" (width - 1 - String.length d) +:+ d
  else
    let d := number n in
    repeated "0" (width - String.length d) +:+ d.

Definition qMax (a b : Z) : Z := Z.max a b.

Definition is_decimal_digit (c : ascii) : bool :=
  match c with
  | "0" | "1" | "2" | "3" | "4" | "5" | "6" | "7" | "8" | "9" => true
  | _ => false
  end%char.


(** The characters of a string all satisfy [p]. *)
Fixpoint forall_chars (p : ascii → bool) (s : string) : bool :=
  match s with
  | EmptyString => true
  | String c s' => p c && forall_chars p s'
  end.

(** [url.toString(QUrl::PreferLocalFile | QUrl::RemoveFilename)]: everything
    after the last '/' of the path is removed, the '/' itself is kept. *)
Fixpoint remove_filename (s : string) : string :=
  match s with
  | EmptyString => EmptyString
  | String c s' =>
      if contains s' "/" then String c (remove_filename s')
      else if Ascii.eqb c "/" then "/" else EmptyString
  end.

End Qt.

(* ===================================================================== *)
(** ** Song *)
(* ===================================================================== *)

Module Song.

(** The fields of [Song] that the collection core reads or writes. [id] is
    the ROWID of the songs table (-1: not persisted), [valid] is
    [Song::is_valid()].  [playcount], [skipcount] and [lastplayed] stand for
    the statistics columns. *)
Record t : Type := mk {
  id : Z;
  valid : bool;
  song_id : string;
  title : string;
  album : string;
  artist : string;
  albumartist : string;
  album_id : string;
  track : Z;
  disc : Z;
  year : Z;
  originalyear : Z;
  genre : string;
  composer : string;
  performer : string;
  grouping : string;
  url : string;
  directory_id : Z;
  filetype : Z;
  samplerate : Z;
  bitdepth : Z;
  bitrate : Z;
  compilation : bool;
  compilation_detected : bool;
  compilation_on : bool;
  compilation_off : bool;
  unavailable : bool;
  ctime : Z;
  mtime : Z;
  playcount : Z;
  skipcount : Z;
  lastplayed : Z
}.

Definition set_id (v : Z) (s : t) : t :=
  mk v (valid s) (song_id s) (title s) (album s) (artist s) (albumartist s)
     (album_id s) (track s) (disc s) (year s) (originalyear s) (genre s)
     (composer s) (performer s) (grouping s) (url s) (directory_id s)
     (filetype s) (samplerate s) (bitdepth s) (bitrate s) (compilation s)
     (compilation_detected s) (compilation_on s) (compilation_off s)
     (unavailable s) (ctime s) (mtime s) (playcount s) (skipcount s)
     (lastplayed s).

Definition set_valid (v : bool) (s : t) : t :=
  mk (id s) v (song_id s) (title s) (album s) (artist s) (albumartist s)
     (album_id s) (track s) (disc s) (year s) (originalyear s) (genre s)
     (composer s) (performer s) (grouping s) (url s) (directory_id s)
     (filetype s) (samplerate s) (bitdepth s) (bitrate s) (compilation s)
     (compilation_detected s) (compilation_on s) (compilation_off s)
     (unavailable s) (ctime s) (mtime s) (playcount s) (skipcount s)
     (lastplayed s).

Definition set_albumartist (v : string) (s : t) : t :=
  mk (id s) (valid s) (song_id s) (title s) (album s) (artist s) v (album_id
     s) (track s) (disc s) (year s) (originalyear s) (genre s) (composer s)
     (performer s) (grouping s) (url s) (directory_id s) (filetype s)
     (samplerate s) (bitdepth s) (bitrate s) (compilation s)
     (compilation_detected s) (compilation_on s) (compilation_off s)
     (unavailable s) (ctime s) (mtime s) (playcount s) (skipcount s)
     (lastplayed s).

Definition set_artist (v : string) (s : t) : t :=
  mk (id s) (valid s) (song_id s) (title s) (album s) v (albumartist s)
     (album_id s) (track s) (disc s) (year s) (originalyear s) (genre s)
     (composer s) (performer s) (grouping s) (url s) (directory_id s)
     (filetype s) (samplerate s) (bitdepth s) (bitrate s) (compilation s)
     (compilation_detected s) (compilation_on s) (compilation_off s)
     (unavailable s) (ctime s) (mtime s) (playcount s) (skipcount s)
     (lastplayed s).

Definition set_album (v : string) (s : t) : t :=
  mk (id s) (valid s) (song_id s) (title s) v (artist s) (albumartist s)
     (album_id s) (track s) (disc s) (year s) (originalyear s) (genre s)
     (composer s) (performer s) (grouping s) (url s) (directory_id s)
     (filetype s) (samplerate s) (bitdepth s) (bitrate s) (compilation s)
     (compilation_detected s) (compilation_on s) (compilation_off s)
     (unavailable s) (ctime s) (mtime s) (playcount s) (skipcount s)
     (lastplayed s).

Definition set_album_id (v : string) (s : t) : t :=
  mk (id s) (valid s) (song_id s) (title s) (album s) (artist s) (albumartist
     s) v (track s) (disc s) (year s) (originalyear s) (genre s) (composer s)
     (performer s) (grouping s) (url s) (directory_id s) (filetype s)
     (samplerate s) (bitdepth s) (bitrate s) (compilation s)
     (compilation_detected s) (compilation_on s) (compilation_off s)
     (unavailable s) (ctime s) (mtime s) (playcount s) (skipcount s)
     (lastplayed s).

Definition set_disc (v : Z) (s : t) : t :=
  mk (id s) (valid s) (song_id s) (title s) (album s) (artist s) (albumartist
     s) (album_id s) (track s) v (year s) (originalyear s) (genre s) (composer
     s) (performer s) (grouping s) (url s) (directory_id s) (filetype s)
     (samplerate s) (bitdepth s) (bitrate s) (compilation s)
     (compilation_detected s) (compilation_on s) (compilation_off s)
     (unavailable s) (ctime s) (mtime s) (playcount s) (skipcount s)
     (lastplayed s).

Definition set_year (v : Z) (s : t) : t :=
  mk (id s) (valid s) (song_id s) (title s) (album s) (artist s) (albumartist
     s) (album_id s) (track s) (disc s) v (originalyear s) (genre s) (composer
     s) (performer s) (grouping s) (url s) (directory_id s) (filetype s)
     (samplerate s) (bitdepth s) (bitrate s) (compilation s)
     (compilation_detected s) (compilation_on s) (compilation_off s)
     (unavailable s) (ctime s) (mtime s) (playcount s) (skipcount s)
     (lastplayed s).

Definition set_originalyear (v : Z) (s : t) : t :=
  mk (id s) (valid s) (song_id s) (title s) (album s) (artist s) (albumartist
     s) (album_id s) (track s) (disc s) (year s) v (genre s) (composer s)
     (performer s) (grouping s) (url s) (directory_id s) (filetype s)
     (samplerate s) (bitdepth s) (bitrate s) (compilation s)
     (compilation_detected s) (compilation_on s) (compilation_off s)
     (unavailable s) (ctime s) (mtime s) (playcount s) (skipcount s)
     (lastplayed s).

Definition set_grouping (v : string) (s : t) : t :=
  mk (id s) (valid s) (song_id s) (title s) (album s) (artist s) (albumartist
     s) (album_id s) (track s) (disc s) (year s) (originalyear s) (genre s)
     (composer s) (performer s) v (url s) (directory_id s) (filetype s)
     (samplerate s) (bitdepth s) (bitrate s) (compilation s)
     (compilation_detected s) (compilation_on s) (compilation_off s)
     (unavailable s) (ctime s) (mtime s) (playcount s) (skipcount s)
     (lastplayed s).

Definition set_genre (v : string) (s : t) : t :=
  mk (id s) (valid s) (song_id s) (title s) (album s) (artist s) (albumartist
     s) (album_id s) (track s) (disc s) (year s) (originalyear s) v (composer
     s) (performer s) (grouping s) (url s) (directory_id s) (filetype s)
     (samplerate s) (bitdepth s) (bitrate s) (compilation s)
     (compilation_detected s) (compilation_on s) (compilation_off s)
     (unavailable s) (ctime s) (mtime s) (playcount s) (skipcount s)
     (lastplayed s).

Definition set_composer (v : string) (s : t) : t :=
  mk (id s) (valid s) (song_id s) (title s) (album s) (artist s) (albumartist
     s) (album_id s) (track s) (disc s) (year s) (originalyear s) (genre s) v
     (performer s) (grouping s) (url s) (directory_id s) (filetype s)
     (samplerate s) (bitdepth s) (bitrate s) (compilation s)
     (compilation_detected s) (compilation_on s) (compilation_off s)
     (unavailable s) (ctime s) (mtime s) (playcount s) (skipcount s)
     (lastplayed s).

Definition set_performer (v : string) (s : t) : t :=
  mk (id s) (valid s) (song_id s) (title s) (album s) (artist s) (albumartist
     s) (album_id s) (track s) (disc s) (year s) (originalyear s) (genre s)
     (composer s) v (grouping s) (url s) (directory_id s) (filetype s)
     (samplerate s) (bitdepth s) (bitrate s) (compilation s)
     (compilation_detected s) (compilation_on s) (compilation_off s)
     (unavailable s) (ctime s) (mtime s) (playcount s) (skipcount s)
     (lastplayed s).

Definition set_filetype (v : Z) (s : t) : t :=
  mk (id s) (valid s) (song_id s) (title s) (album s) (artist s) (albumartist
     s) (album_id s) (track s) (disc s) (year s) (originalyear s) (genre s)
     (composer s) (performer s) (grouping s) (url s) (directory_id s) v
     (samplerate s) (bitdepth s) (bitrate s) (compilation s)
     (compilation_detected s) (compilation_on s) (compilation_off s)
     (unavailable s) (ctime s) (mtime s) (playcount s) (skipcount s)
     (lastplayed s).

Definition set_samplerate (v : Z) (s : t) : t :=
  mk (id s) (valid s) (song_id s) (title s) (album s) (artist s) (albumartist
     s) (album_id s) (track s) (disc s) (year s) (originalyear s) (genre s)
     (composer s) (performer s) (grouping s) (url s) (directory_id s)
     (filetype s) v (bitdepth s) (bitrate s) (compilation s)
     (compilation_detected s) (compilation_on s) (compilation_off s)
     (unavailable s) (ctime s) (mtime s) (playcount s) (skipcount s)
     (lastplayed s).

Definition set_bitdepth (v : Z) (s : t) : t :=
  mk (id s) (valid s) (song_id s) (title s) (album s) (artist s) (albumartist
     s) (album_id s) (track s) (disc s) (year s) (originalyear s) (genre s)
     (composer s) (performer s) (grouping s) (url s) (directory_id s)
     (filetype s) (samplerate s) v (bitrate s) (compilation s)
     (compilation_detected s) (compilation_on s) (compilation_off s)
     (unavailable s) (ctime s) (mtime s) (playcount s) (skipcount s)
     (lastplayed s).

Definition set_bitrate (v : Z) (s : t) : t :=
  mk (id s) (valid s) (song_id s) (title s) (album s) (artist s) (albumartist
     s) (album_id s) (track s) (disc s) (year s) (originalyear s) (genre s)
     (composer s) (performer s) (grouping s) (url s) (directory_id s)
     (filetype s) (samplerate s) (bitdepth s) v (compilation s)
     (compilation_detected s) (compilation_on s) (compilation_off s)
     (unavailable s) (ctime s) (mtime s) (playcount s) (skipcount s)
     (lastplayed s).

Definition set_compilation_detected (v : bool) (s : t) : t :=
  mk (id s) (valid s) (song_id s) (title s) (album s) (artist s) (albumartist
     s) (album_id s) (track s) (disc s) (year s) (originalyear s) (genre s)
     (composer s) (performer s) (grouping s) (url s) (directory_id s)
     (filetype s) (samplerate s) (bitdepth s) (bitrate s) (compilation s) v
     (compilation_on s) (compilation_off s) (unavailable s) (ctime s) (mtime
     s) (playcount s) (skipcount s) (lastplayed s).

Definition set_compilation_on (v : bool) (s : t) : t :=
  mk (id s) (valid s) (song_id s) (title s) (album s) (artist s) (albumartist
     s) (album_id s) (track s) (disc s) (year s) (originalyear s) (genre s)
     (composer s) (performer s) (grouping s) (url s) (directory_id s)
     (filetype s) (samplerate s) (bitdepth s) (bitrate s) (compilation s)
     (compilation_detected s) v (compilation_off s) (unavailable s) (ctime s)
     (mtime s) (playcount s) (skipcount s) (lastplayed s).

Definition set_compilation_off (v : bool) (s : t) : t :=
  mk (id s) (valid s) (song_id s) (title s) (album s) (artist s) (albumartist
     s) (album_id s) (track s) (disc s) (year s) (originalyear s) (genre s)
     (composer s) (performer s) (grouping s) (url s) (directory_id s)
     (filetype s) (samplerate s) (bitdepth s) (bitrate s) (compilation s)
     (compilation_detected s) (compilation_on s) v (unavailable s) (ctime s)
     (mtime s) (playcount s) (skipcount s) (lastplayed s).

(** [Song()]: the invalid song. *)
Definition empty : t :=
  let e := EmptyString in
  mk (-1) false e e e e e e (-1) (-1) (-1) (-1) e e e e e (-1) 0
     (-1) (-1) (-1) false false false false false (-1) (-1) 0 0 (-1).

(** Modelled from the spec: [Song::is_compilation] is declared in core/song.h,
    which is not part of the sources; the data model fixes it as
    (compilation OR compilation_detected OR compilation_on) AND NOT
    compilation_off. *)
Definition is_compilation (s : t) : bool :=
  (compilation s || compilation_detected s || compilation_on s)
  && negb (compilation_off s).

(** Modelled from the spec: [Song::effective_albumartist] (core/song.h): the
    album-artist field if present, otherwise the track artist field. *)
Definition effective_albumartist (s : t) : string :=
  if Qt.isEmpty (albumartist s) then artist s else albumartist s.

(** Modelled from the spec: [Song::effective_originalyear] (core/song.h): the
    original year when it is set, otherwise the year. *)
Definition effective_originalyear (s : t) : Z :=
  if (originalyear s <=? 0)%Z then year s else originalyear s.

(** Modelled from the spec: [Song::IsMetadataEqual] (core/song.cpp, not part
    of the sources) compares every user-visible field, excluding the internal
    id and the statistics. *)
Definition IsMetadataEqual (a b : t) : bool :=
  String.eqb (title a) (title b) && String.eqb (album a) (album b)
  && String.eqb (artist a) (artist b)
  && String.eqb (albumartist a) (albumartist b)
  && String.eqb (album_id a) (album_id b)
  && Z.eqb (track a) (track b) && Z.eqb (disc a) (disc b)
  && Z.eqb (year a) (year b) && Z.eqb (originalyear a) (originalyear b)
  && String.eqb (genre a) (genre b) && String.eqb (composer a) (composer b)
  && String.eqb (performer a) (performer b)
  && String.eqb (grouping a) (grouping b)
  && String.eqb (url a) (url b) && Z.eqb (filetype a) (filetype b)
  && Z.eqb (samplerate a) (samplerate b) && Z.eqb (bitdepth a) (bitdepth b)
  && Z.eqb (bitrate a) (bitrate b)
  && Bool.eqb (compilation a) (compilation b).

End Song.

Definition SongList : Type := list Song.t.

Module Ext.
(** Library functions of Qt and of core/song.cpp whose tables are not part of
    the sources (Unicode properties, case mapping, regular expressions,
    floating-point formatting, file-type names).  The collection model is
    parametric in them. *)
Class Text : Type := {
  (** [QChar::isDigit] *)
  isDigit : ascii → bool;
  (** [QChar::decompositionTag() != QChar::NoDecomposition] *)
  hasDecomposition : ascii → bool;
  (** [QChar::decomposition] *)
  decomposition : ascii → string;
  (** [QString::toLower], [QString::toUpper] *)
  toLower : string → string;
  toUpper : string → string;
  (** [text.remove(QRegularExpression("[^\\w ]", UseUnicodePropertiesOption))] *)
  remove_non_word : string → string;
  (** [QString::number(samplerate / 1000.0, 'G', 5)] *)
  number_kHz_G5 : Z → string;
  (** [Song::kArticles] *)
  kArticles : list string;
  (** [album.contains(Song::kAlbumRemoveDisc)] *)
  contains_kAlbumRemoveDisc : string → bool;
  (** [Song::TextForFiletype], by the song's file type *)
  TextForFiletype : Z → string;
  (** [Song::TitleWithCompilationArtist] *)
  TitleWithCompilationArtist : Song.t → string;
  (** A character with a decomposition tag has a decomposition, and the
      space is no digit. *)
  decomposition_nonempty :
    ∀ c, hasDecomposition c = true → decomposition c ≠ EmptyString;
  space_is_no_digit : isDigit " "%char = false
}.
End Ext.

(* ===================================================================== *)
(** ** QMap<QString, V> *)
(* ===================================================================== *)

(** A [QMap] keyed by [QString]: an association list kept in ascending key
    order, which is the order its iterators visit. *)
Module QMap.
Section Defs.
Context {V : Type}.

Definition t : Type := list (string * V).

Fixpoint insert (k : string) (v : V) (m : t) : t :=
  match m with
  | [] => [(k, v)]
  | (k', v') :: m' =>
      match String.compare k k' with
      | Lt => (k, v) :: m
      | Eq => (k, v) :: m'
      | Gt => (k', v') :: insert k v m'
      end
  end.

Fixpoint find (k : string) (m : t) : option V :=
  match m with
  | [] => None
  | (k', v') :: m' => if String.eqb k k' then Some v' else find k m'
  end.

Definition contains (k : string) (m : t) : bool :=
  match find k m with Some _ => true | None => false end.

(** [m[k]] on a non-const map: a default-constructed value is inserted
    when the key is absent. *)
Definition value_or (d : V) (k : string) (m : t) : V :=
  match find k m with Some v => v | None => d end.

Definition values (m : t) : list V := map snd m.
Definition keys (m : t) : list string := map fst m.

(** A map filled by one [insert] per row of a result set. *)
Definition fill {R} (key : R → string) (val : R → V) (rows : list R) (m : t) : t :=
  fold_left (λ m r, insert (key r) (val r) m) rows m.
End Defs.
Arguments t : clear implicits.
End QMap.

(* ===================================================================== *)
(** ** CollectionBackend *)
(* ===================================================================== *)

Module Backend.

(** One row of the songs table: ROWID, the columns of [Song::kColumnSpec] as
    bound by [Song::BindToQuery], and the two derived columns the backend
    reads and writes by name. *)
Record Row : Type := mkRow {
  ROWID : Z;
  cols : Song.t;
  compilation_effective : bool;
  effective_albumartist : string
}.

(** One row of the full-text table ([Song::kFtsColumnSpec]). *)
Record FtsRow : Type := mkFtsRow { fts_ROWID : Z; fts_cols : Song.t }.

Record Db : Type := mkDb {
  songs : list Row;
  fts : list FtsRow;
  dirs : list Z  (** ROWIDs of the directories table *)
}.

(** SQL statements the backend prepares, named by what they do. *)
Inductive Stmt : Type :=
| SELECT_dir (id : Z)
| SELECT_songs_by_rowid (id : Z)
| SELECT_songs_by_song_id (song_id : string)
| SELECT_songs_available
| UPDATE_song (id : Z)
| UPDATE_fts (id : Z)
| INSERT_song
| INSERT_fts (id : Z)
| DELETE_song (id : Z)
| DELETE_fts (id : Z)
| SELECT_compilation_info
| SELECT_songs_by_url (url : string)
| UPDATE_compilation_detected (url : string) (detected : bool)
| SELECT_songs_by_album (album : string) (artist : string)
| UPDATE_compilation_forced (album : string) (artist : string) (on : bool).

Definition is_write (s : Stmt) : bool :=
  match s with
  | UPDATE_song _ | UPDATE_fts _ | INSERT_song | INSERT_fts _
  | DELETE_song _ | DELETE_fts _
  | UPDATE_compilation_detected _ _ | UPDATE_compilation_forced _ _ _ => true
  | _ => false
  end.

Inductive Signal : Type :=
| SongsDeleted (l : SongList)
| SongsDiscovered (l : SongList)
| UpdateTotalSongCountAsync
| UpdateTotalArtistCountAsync
| UpdateTotalAlbumCountAsync.

(** The backend object with its database connection.  [pending] fixes the
    outcome of the next calls of [SqlQuery::Exec] ([true]: success; once the
    list is used up every call succeeds); [log] records each executed
    statement with its outcome; [emitted] are the signals emitted so far. *)
Record World : Type := mkWorld {
  db : Db;
  dirs_table_ : string;
  pending : list bool;
  log : list (Stmt * bool);
  emitted : list Signal
}.

Definition set_db (d : Db) (w : World) : World :=
  mkWorld d (dirs_table_ w) (pending w) (log w) (emitted w).
Definition set_songs (l : list Row) (d : Db) : Db := mkDb l (fts d) (dirs d).
Definition set_fts (l : list FtsRow) (d : Db) : Db := mkDb (songs d) l (dirs d).
Definition emit (s : Signal) (w : World) : World :=
  mkWorld (db w) (dirs_table_ w) (pending w) (log w) (emitted w ++ [s]).

(** A slot either runs to its end or leaves through an early [return]. *)
Inductive Res (A : Type) : Type :=
| Ok (a : A)
| Returned.
Arguments Ok {A} a.
Arguments Returned {A}.

Definition B (A : Type) : Type := World → Res A * World.

Definition ret {A} (a : A) : B A := λ w, (Ok a, w).
Definition early_return {A} : B A := λ w, (Returned, w).
Definition bind {A C} (c : B A) (k : A → B C) : B C :=
  λ w, match c w with
       | (Ok a, w') => k a w'
       | (Returned, w') => (Returned, w')
       end.

Notation "'let!' x ':=' c 'in' k" := (bind c (λ x, k))
  (at level 10, x name, c at level 200, k at level 200,
   format "'[v' 'let!'  x  ':='  c  'in' '/' k ']'").
Notation "'run!' c 'in' k" := (bind c (λ _, k))
  (at level 10, c at level 200, k at level 200,
   format "'[v' 'run!'  c  'in' '/' k ']'").

Fixpoint for_each {A S} (l : list A) (body : A → S → B S) (s : S) : B S :=
  match l with
  | [] => ret s
  | x :: l' => let! s' := body x s in for_each l' body s'
  end.

(** [SqlQuery::Exec]: the outcome is taken from [pending]; a statement that
    succeeds applies its effect to the database. *)
Definition Exec (s : Stmt) (effect : Db → Db) : B bool := λ w,
  let '(ok, rest) := match pending w with
                     | [] => (true, [])
                     | b :: r => (b, r)
                     end in
  (Ok ok, mkWorld (if ok then effect (db w) else db w) (dirs_table_ w) rest
                  (log w ++ [(s, ok)]) (emitted w)).

Definition get_db : B Db := λ w, (Ok (db w), w).

(** [Song::InitFromQuery(q, true)] and [Song::BindToQuery]. *)
Definition InitFromQuery (r : Row) : Song.t :=
  Song.set_valid true (Song.set_id (ROWID r) (cols r)).
Definition BindToQuery (s : Song.t) (rowid : Z) : Row :=
  mkRow rowid s (Song.is_compilation s) (Song.effective_albumartist s).
Definition BindToFtsQuery (s : Song.t) (rowid : Z) : FtsRow := mkFtsRow rowid s.

(** [QSqlQuery::lastInsertId] for a ROWID table: one more than the largest
    ROWID in use. *)
Definition lastInsertId (rows : list Row) : Z :=
  1 + fold_right (λ r m, Z.max (ROWID r) m) 0 rows.

Definition sql_update_song (id : Z) (s : Song.t) (d : Db) : Db :=
  set_songs (map (λ r, if (ROWID r =? id)%Z then BindToQuery s (ROWID r) else r)
                 (songs d)) d.
Definition sql_update_fts (id : Z) (s : Song.t) (d : Db) : Db :=
  set_fts (map (λ r, if (fts_ROWID r =? id)%Z then BindToFtsQuery s id else r)
               (fts d)) d.
Definition sql_insert_song (s : Song.t) (d : Db) : Db :=
  set_songs (songs d ++ [BindToQuery s (lastInsertId (songs d))]) d.
Definition sql_insert_fts (id : Z) (s : Song.t) (d : Db) : Db :=
  set_fts (fts d ++ [BindToFtsQuery s id]) d.
Definition sql_delete_song (id : Z) (d : Db) : Db :=
  set_songs (filter (λ r, ROWID r ≠ id) (songs d)) d.
Definition sql_delete_fts (id : Z) (d : Db) : Db :=
  set_fts (filter (λ r, fts_ROWID r ≠ id) (fts d)) d.

Definition is_available (r : Row) : bool := negb (Song.unavailable (cols r)).

(** [GetSongsById(QStringList() << id, db)]; a failed query is reported and
    gives the empty list. *)
Definition GetSongsById (id : Z) : B SongList :=
  let! d := get_db in
  let! ok := Exec (SELECT_songs_by_rowid id) (λ d, d) in
  if ok then ret (map InitFromQuery (filter (λ r, ROWID r = id) (songs d)))
  else ret [].

Definition GetSongById (id : Z) : B Song.t :=
  let! l := GetSongsById id in
  ret (match l with [] => Song.empty | s :: _ => s end).

(** *** The statement text of [GetSongsBySongId]

    [GetSongsBySongId] binds no value: it pastes every id between single
    quotes into the text [SONG_ID IN (...)].  What the statement selects is
    what SQLite reads between the parentheses.  SQLite reads a string
    literal from a single quote to the next single quote that is not
    doubled, a doubled quote inside standing for one quote; literals are
    separated by commas, and white space between them is skipped. *)

(** After the opening quote: the value of the literal and the text that
    follows its closing quote; [None] when the literal is not closed. *)
Fixpoint sql_string_literal (s : string) : option (string * string) :=
  match s with
  | EmptyString => None
  | String c s' =>
      if Ascii.eqb c "'" then
        match s' with
        | String c' s'' =>
            if Ascii.eqb c' "'" then
              match sql_string_literal s'' with
              | Some (lit, rest) => Some (String "'" lit, rest)
              | None => None
              end
            else Some (EmptyString, s')
        | EmptyString => Some (EmptyString, EmptyString)
        end
      else
        match sql_string_literal s' with
        | Some (lit, rest) => Some (String c lit, rest)
        | None => None
        end
  end.

(** Space, tab, line feed, form feed and carriage return. *)
Definition sql_space (c : ascii) : bool :=
  let n := nat_of_ascii c in
  (Nat.eqb n 32 || Nat.eqb n 9 || Nat.eqb n 10 || Nat.eqb n 12 || Nat.eqb n 13)%bool.

Fixpoint skip_sql_space (s : string) : string :=
  match s with
  | String c s' => if sql_space c then skip_sql_space s' else s
  | EmptyString => EmptyString
  end.

(** A comma-separated list of string literals; [None] for any other text.
    Every literal takes two characters at least, so [fuel] above the length
    of the text is enough. *)
Fixpoint sql_literal_list (fuel : nat) (s : string) : option (list string) :=
  match fuel with
  | O => None
  | S fuel' =>
      match skip_sql_space s with
      | String c s1 =>
          if Ascii.eqb c "'" then
            match sql_string_literal s1 with
            | Some (lit, rest) =>
                match skip_sql_space rest with
                | EmptyString => Some [lit]
                | String c2 rest' =>
                    if Ascii.eqb c2 ","
                    then cons lit <$> sql_literal_list fuel' rest'
                    else None
                end
            | None => None
            end
          else None
      | EmptyString => None
      end
  end.

Definition IN_list (text : string) : option (list string) :=
  sql_literal_list (S (String.length text)) text.

(** [GetSongsBySongId(QStringList() << song_id, db)], the one call the
    backend makes: [in] is the id between single quotes.  The rows selected
    are those whose song_id is one of the literals SQLite reads in [in]: an
    id without a single quote is read back as it is, an id with quotes is
    read as other literals.  A text that is no list of literals (an open
    literal, which SQLite rejects, or another SQL expression, which this
    model does not read) gives the empty list of the error path. *)
Definition GetSongsBySongId (song_id : string) : B SongList :=
  let in_ := "'" +:+ song_id +:+ "'" in
  let! d := get_db in
  let! ok := Exec (SELECT_songs_by_song_id song_id) (λ d, d) in
  if ok then
    match IN_list in_ with
    | Some ids =>
        ret (map InitFromQuery
                 (filter (λ r, Song.song_id (cols r) ∈ ids) (songs d)))
    | None => ret []
    end
  else ret [].

Definition GetSongBySongId (song_id : string) : B Song.t :=
  let! l := GetSongsBySongId song_id in
  ret (match l with [] => Song.empty | s :: _ => s end).

(** The local lists [added_songs] and [deleted_songs] of a slot. *)
Record Delta : Type := mkDelta { added_songs : SongList; deleted_songs : SongList }.

(** [if (!q.Exec()) { db_->ReportErrors(q); return; }] *)
Definition exec_or_return (s : Stmt) (effect : Db → Db) : B unit :=
  let! ok := Exec s effect in
  if ok then ret tt else early_return.

(** The sanity check at the head of the loop of [AddOrUpdateSongs]:
    [false] stands for [continue]. *)
Definition check_dir (song : Song.t) : B bool := λ w,
  (if negb (Qt.isEmpty (dirs_table_ w)) then
     let! d := get_db in
     run! exec_or_return (SELECT_dir (Song.directory_id song)) (λ d, d) in
     ret (bool_decide (Song.directory_id song ∈ dirs d))
   else ret true) w.

(** "Create new song": the tail of the loop body of [AddOrUpdateSongs]. *)
Definition create_new_song (song : Song.t) (acc : Delta) : B Delta :=
  let! d := get_db in
  run! exec_or_return INSERT_song (sql_insert_song song) in
  let id := lastInsertId (songs d) in
  if bool_decide (id = -1) then early_return
  else ret (mkDelta (added_songs acc ++ [Song.set_id id song]) (deleted_songs acc)).

(** The body of [for (const Song &song : songs)] in [AddOrUpdateSongs]. *)
Definition AddOrUpdateSongs_body (song : Song.t) (acc : Delta) : B Delta :=
  let! dir_exists := check_dir song in
  if negb dir_exists then ret acc
  else if bool_decide (Song.id song ≠ -1) then
    (* This song exists in the DB. *)
    let! old_song := GetSongById (Song.id song) in
    if negb (Song.valid old_song) then ret acc
    else
      run! exec_or_return (UPDATE_song (Song.id song))
                     (sql_update_song (Song.id song) song) in
      run! exec_or_return (UPDATE_fts (Song.id song))
                     (sql_update_fts (Song.id song) song) in
      ret (mkDelta (added_songs acc ++ [song]) (deleted_songs acc ++ [old_song]))
  else if negb (Qt.isEmpty (Song.song_id song)) then
    (* Song has a unique id, check if the song exists. *)
    let! old_song := GetSongBySongId (Song.song_id song) in
    if Song.valid old_song && bool_decide (Song.id old_song ≠ -1) then
      let new_song := Song.set_id (Song.id old_song) song in
      run! exec_or_return (UPDATE_song (Song.id new_song))
                     (sql_update_song (Song.id new_song) new_song) in
      ret (mkDelta (added_songs acc ++ [new_song])
                    (deleted_songs acc ++ [old_song]))
    else create_new_song song acc
  else create_new_song song acc.

(** Modelled from the spec: [ScopedTransaction] (core/scopedtransaction.h, not
    part of the sources) opens a transaction; leaving the scope without
    [Commit()] rolls the transaction back.  [run_transaction] runs the body
    of a slot and restores the database when the body returned early. *)
Definition run_transaction {A} (body : B A) (w : World) : Res A * World :=
  match body w with
  | (Ok a, w') => (Ok a, w')
  | (Returned, w') => (Returned, set_db (db w) w')
  end.

(** The signals at the end of [AddOrUpdateSongs] and [UpdateSongsBySongID]. *)
Definition emit_delta (acc : Delta) (w : World) : World :=
  let w1 := if bool_decide (deleted_songs acc ≠ [])
            then emit (SongsDeleted (deleted_songs acc)) w else w in
  let w2 := if bool_decide (added_songs acc ≠ [])
            then emit (SongsDiscovered (added_songs acc)) w1 else w1 in
  emit UpdateTotalAlbumCountAsync
    (emit UpdateTotalArtistCountAsync (emit UpdateTotalSongCountAsync w2)).

Definition AddOrUpdateSongs (songs : SongList) (w : World) : World :=
  match run_transaction
          (for_each songs AddOrUpdateSongs_body (mkDelta [] [])) w with
  | (Ok acc, w') => emit_delta acc w'
  | (Returned, w') => w'
  end.

(** [ExecCollectionQuery(&query, old_songs)] with the default query: every
    available row, inserted into the map under its [song_id]. *)
Definition ExecCollectionQuery_SongMap : B (option (QMap.t Song.t)) :=
  let! d := get_db in
  let! ok := Exec SELECT_songs_available (λ d, d) in
  if ok then
    ret (Some (QMap.fill (λ r, Song.song_id (cols r)) InitFromQuery
                         (filter (λ r, is_available r = true) (songs d)) []))
  else ret None.

(** "Add or update songs": body of the first loop of [UpdateSongsBySongID]. *)
Definition UpdateSongsBySongID_add (old_songs : QMap.t Song.t)
    (new_song : Song.t) (acc : Delta) : B Delta :=
  match QMap.find (Song.song_id new_song) old_songs with
  | Some old_song =>
      if negb (Song.IsMetadataEqual new_song old_song) then
        run! exec_or_return (UPDATE_song (Song.id old_song))
                       (sql_update_song (Song.id old_song) new_song) in
        run! exec_or_return (UPDATE_fts (Song.id old_song))
                       (sql_update_fts (Song.id old_song) new_song) in
        ret (mkDelta (added_songs acc ++ [Song.set_id (Song.id old_song) new_song])
                      (deleted_songs acc ++ [old_song]))
      else ret acc
  | None =>
      (let! d := get_db in
       run! exec_or_return INSERT_song (sql_insert_song new_song) in
       let id := lastInsertId (songs d) in
       if bool_decide (id = -1) then early_return
       else
         run! exec_or_return (INSERT_fts id) (sql_insert_fts id new_song) in
         ret (mkDelta (added_songs acc ++ [Song.set_id id new_song])
                      (deleted_songs acc)))
  end.

(** "Delete songs": body of the second loop. *)
Definition UpdateSongsBySongID_delete (new_songs : QMap.t Song.t)
    (old_song : Song.t) (acc : Delta) : B Delta :=
  if negb (QMap.contains (Song.song_id old_song) new_songs) then
    run! exec_or_return (DELETE_song (Song.id old_song))
                   (sql_delete_song (Song.id old_song)) in
    run! exec_or_return (DELETE_fts (Song.id old_song))
                   (sql_delete_fts (Song.id old_song)) in
    ret (mkDelta (added_songs acc) (deleted_songs acc ++ [old_song]))
  else ret acc.

Definition UpdateSongsBySongID_run (new_songs : QMap.t Song.t) : B Delta :=
  let! old := ExecCollectionQuery_SongMap in
  match old with
  | None => early_return
  | Some old_songs =>
      (let! acc := for_each (QMap.values new_songs)
                            (UpdateSongsBySongID_add old_songs) (mkDelta [] []) in
       for_each (QMap.values old_songs)
                (UpdateSongsBySongID_delete new_songs) acc)
  end.

Definition UpdateSongsBySongID (new_songs : QMap.t Song.t) (w : World) : World :=
  match run_transaction (UpdateSongsBySongID_run new_songs) w with
  | (Ok acc, w') => emit_delta acc w'
  | (Returned, w') => w'
  end.

(** *** Compilation classifier *)

Record CompilationInfo : Type := mkCompilationInfo {
  urls : list string;
  artists : list string;
  has_compilation_detected : Z;
  has_not_compilation_detected : Z
}.

Definition CompilationInfo_default : CompilationInfo := mkCompilationInfo [] [] 0 0.

(** [ORDER BY album]: a stable sort of the selected rows on the album column. *)
Fixpoint insert_by_album (r : Row) (l : list Row) : list Row :=
  match l with
  | [] => [r]
  | r' :: l' =>
      match String.compare (Song.album (cols r)) (Song.album (cols r')) with
      | Lt => r :: l
      | _ => r' :: insert_by_album r l'
      end
  end.
Definition order_by_album (l : list Row) : list Row :=
  fold_left (λ acc r, insert_by_album r acc) l [].

(** The body of [while (q.next())] in [CompilationsNeedUpdating]. *)
Definition collect_compilation_info (compilation_info : QMap.t CompilationInfo)
    (r : Row) : QMap.t CompilationInfo :=
  let artist := effective_albumartist r in
  let album := Song.album (cols r) in
  let url := Song.url (cols r) in
  let compilation_detected := Song.compilation_detected (cols r) in
  (* Ignore songs that don't have an album field set *)
  if Qt.isEmpty album then compilation_info
  else
    (* Find the directory the song is in *)
    let directory := Qt.remove_filename url in
    let key := directory +:+ album in
    let info := QMap.value_or CompilationInfo_default key compilation_info in
    let artists' := if bool_decide (artist ∈ artists info) then artists info
                    else artists info ++ [artist] in
    QMap.insert key
      (if compilation_detected
       then mkCompilationInfo (urls info ++ [url]) artists'
              (has_compilation_detected info + 1) (has_not_compilation_detected info)
       else mkCompilationInfo (urls info ++ [url]) artists'
              (has_compilation_detected info) (has_not_compilation_detected info + 1))
      compilation_info.

Definition url_matches (url : string) (r : Row) : bool :=
  String.eqb (Song.url (cols r)) url && is_available r.

(** The UPDATE of [UpdateCompilations], applied to one row. *)
Definition set_row_compilation_detected (detected : bool) (r : Row) : Row :=
  mkRow (ROWID r) (Song.set_compilation_detected detected (cols r))
        ((Song.compilation (cols r) || detected || Song.compilation_on (cols r))
         && negb (Song.compilation_off (cols r)))
        (effective_albumartist r).

Definition sql_update_compilation_detected (url : string) (detected : bool)
    (d : Db) : Db :=
  set_songs (map (λ r, if url_matches url r
                       then set_row_compilation_detected detected r else r)
                 (songs d)) d.

Definition UpdateCompilations (acc : Delta) (url : string)
    (compilation_detected : bool) : B (bool * Delta) :=
  (* Get song, so we can tell the model its updated *)
  let! d := get_db in
  let! ok := Exec (SELECT_songs_by_url url) (λ d, d) in
  if ok then
    let found := map InitFromQuery (filter (λ r, url_matches url r = true) (songs d)) in
    let acc' := mkDelta
        (added_songs acc ++ map (Song.set_compilation_detected compilation_detected) found)
        (deleted_songs acc ++ found) in
    (* Update the song *)
    let! ok2 := Exec (UPDATE_compilation_detected url compilation_detected)
                     (sql_update_compilation_detected url compilation_detected) in
    ret (ok2, acc')
  else ret (false, acc).

(** The body of [for (const QUrl &url : info.urls)]; the result of
    [UpdateCompilations] is not looked at. *)
Definition mark_url (info : CompilationInfo) (url : string) (acc : Delta) : B Delta :=
  if bool_decide (1 < Z.of_nat (length (artists info))) then
    (* This directory+album is a compilation. *)
    if bool_decide (0 < has_not_compilation_detected info) then
      let! r := UpdateCompilations acc url true in ret (snd r)
    else ret acc
  else
    if bool_decide (0 < has_compilation_detected info) then
      let! r := UpdateCompilations acc url false in ret (snd r)
    else ret acc.

Definition mark_info (info : CompilationInfo) (acc : Delta) : B Delta :=
  for_each (urls info) (mark_url info) acc.

Definition CompilationsNeedUpdating (w : World) : World :=
  match Exec SELECT_compilation_info (λ d, d) w with
  | (Ok true, w1) =>
      let rows := order_by_album (filter (λ r, is_available r = true) (songs (db w1))) in
      let compilation_info := fold_left collect_compilation_info rows [] in
      (* Now mark the songs that we think are in compilations *)
      match run_transaction
              (for_each (QMap.values compilation_info) mark_info (mkDelta [] [])) w1 with
      | (Ok acc, w2) =>
          if bool_decide (deleted_songs acc ≠ [])
          then emit (SongsDiscovered (added_songs acc))
                    (emit (SongsDeleted (deleted_songs acc)) w2)
          else w2
      | (Returned, w2) => w2
      end
  | (_, w1) => w1
  end.

(** *** Manual compilation override *)

Definition album_artist_matches (album artist : string) (r : Row) : bool :=
  String.eqb (Song.album (cols r)) album
  && (Qt.isEmpty artist || String.eqb (Song.artist (cols r)) artist)
  && is_available r.

(** The UPDATE of [ForceCompilation], applied to one row. *)
Definition set_row_compilation_forced (on : bool) (r : Row) : Row :=
  let compilation_on := on in
  let compilation_off := negb on in
  mkRow (ROWID r)
        (Song.set_compilation_off compilation_off
           (Song.set_compilation_on compilation_on (cols r)))
        ((Song.compilation (cols r) || Song.compilation_detected (cols r)
          || compilation_on) && negb compilation_off)
        (effective_albumartist r).

Definition sql_update_compilation_forced (album artist : string) (on : bool)
    (d : Db) : Db :=
  set_songs (map (λ r, if album_artist_matches album artist r
                       then set_row_compilation_forced on r else r)
                 (songs d)) d.

Definition select_by_album (album artist : string) : B SongList :=
  let! d := get_db in
  run! exec_or_return (SELECT_songs_by_album album artist) (λ d, d) in
  ret (map InitFromQuery
           (filter (λ r, album_artist_matches album artist r = true) (songs d))).

(** The body of [for (const QString &artist : artists)] in [ForceCompilation]. *)
Definition ForceCompilation_body (album : string) (on : bool) (artist : string)
    (acc : Delta) : B Delta :=
  (* Get the songs before they're updated *)
  let! before := select_by_album album artist in
  (* Update the songs *)
  run! exec_or_return (UPDATE_compilation_forced album artist on)
                      (sql_update_compilation_forced album artist on) in
  (* Now get the updated songs *)
  let! after := select_by_album album artist in
  ret (mkDelta (added_songs acc ++ after) (deleted_songs acc ++ before)).

Definition ForceCompilation (album : string) (artists : list string) (on : bool)
    (w : World) : World :=
  match for_each artists (ForceCompilation_body album on) (mkDelta [] []) w with
  | (Ok acc, w') =>
      if bool_decide (added_songs acc ≠ [] ∨ deleted_songs acc ≠ [])
      then emit (SongsDiscovered (added_songs acc))
                (emit (SongsDeleted (deleted_songs acc)) w')
      else w'
  | (Returned, w') => w'
  end.

End Backend.

(* ===================================================================== *)
(** ** CollectionModel: the grouping index *)
(* ===================================================================== *)

Module Model.

Inductive GroupBy : Type :=
| GroupBy_None | GroupBy_AlbumArtist | GroupBy_Artist | GroupBy_Album
| GroupBy_AlbumDisc | GroupBy_YearAlbum | GroupBy_YearAlbumDisc
| GroupBy_OriginalYearAlbum | GroupBy_OriginalYearAlbumDisc | GroupBy_Disc
| GroupBy_Year | GroupBy_OriginalYear | GroupBy_Genre | GroupBy_Composer
| GroupBy_Performer | GroupBy_Grouping | GroupBy_FileType | GroupBy_Format
| GroupBy_Samplerate | GroupBy_Bitdepth | GroupBy_Bitrate | GroupByCount.

Global Instance GroupBy_eq_dec : EqDecision GroupBy.
Proof. solve_decision. Defined.

Record Grouping : Type := mkGrouping { first : GroupBy; second : GroupBy; third : GroupBy }.

(** [Grouping::operator[]]: an index out of range is logged and gives [first]. *)
Definition Grouping_at (g : Grouping) (i : Z) : GroupBy :=
  if (i =? 0)%Z then first g
  else if (i =? 1)%Z then second g
  else if (i =? 2)%Z then third g
  else first g.

(** Modelled from the spec: [IsArtistGroupBy] and [IsAlbumGroupBy] are static
    members declared in collectionmodel.h, which is not part of the sources.
    The artist-like dimensions are Artist and AlbumArtist; the album-like ones
    are the six dimensions that carry an album. *)
Definition IsArtistGroupBy (by_ : GroupBy) : bool :=
  match by_ with GroupBy_Artist | GroupBy_AlbumArtist => true | _ => false end.

Definition IsAlbumGroupBy (by_ : GroupBy) : bool :=
  match by_ with
  | GroupBy_Album | GroupBy_YearAlbum | GroupBy_AlbumDisc | GroupBy_YearAlbumDisc
  | GroupBy_OriginalYearAlbum | GroupBy_OriginalYearAlbumDisc => true
  | _ => false
  end.

Inductive ItemType : Type :=
| Type_Root | Type_Divider | Type_Container | Type_Song | Type_LoadingIndicator.

Global Instance ItemType_eq_dec : EqDecision ItemType.
Proof. solve_decision. Defined.

(** A [CollectionItem*]: an address in the arena of items. *)
Definition ptr : Type := nat.

(** [CollectionItem] (a [SimpleTreeItem]): [row] is the position among the
    children of [parent]; [parent] is a non-owning back pointer. *)
Record CollectionItem : Type := mkItem {
  type : ItemType;
  row : nat;
  parent : option ptr;
  children : list ptr;
  key : string;
  display_text : string;
  sort_text : string;
  container_level : Z;
  compilation_artist_node_ : option ptr;
  metadata : Song.t
}.

Definition set_row (v : nat) (i : CollectionItem) : CollectionItem :=
  mkItem (type i) v (parent i) (children i) (key i) (display_text i)
         (sort_text i) (container_level i) (compilation_artist_node_ i) (metadata i).
Definition set_children (v : list ptr) (i : CollectionItem) : CollectionItem :=
  mkItem (type i) (row i) (parent i) v (key i) (display_text i)
         (sort_text i) (container_level i) (compilation_artist_node_ i) (metadata i).
Definition set_key (v : string) (i : CollectionItem) : CollectionItem :=
  mkItem (type i) (row i) (parent i) (children i) v (display_text i)
         (sort_text i) (container_level i) (compilation_artist_node_ i) (metadata i).
Definition set_display_text (v : string) (i : CollectionItem) : CollectionItem :=
  mkItem (type i) (row i) (parent i) (children i) (key i) v
         (sort_text i) (container_level i) (compilation_artist_node_ i) (metadata i).
Definition set_sort_text (v : string) (i : CollectionItem) : CollectionItem :=
  mkItem (type i) (row i) (parent i) (children i) (key i) (display_text i)
         v (container_level i) (compilation_artist_node_ i) (metadata i).
Definition set_container_level (v : Z) (i : CollectionItem) : CollectionItem :=
  mkItem (type i) (row i) (parent i) (children i) (key i) (display_text i)
         (sort_text i) v (compilation_artist_node_ i) (metadata i).
Definition set_compilation_artist_node_ (v : option ptr) (i : CollectionItem)
    : CollectionItem :=
  mkItem (type i) (row i) (parent i) (children i) (key i) (display_text i)
         (sort_text i) (container_level i) v (metadata i).
Definition set_metadata (v : Song.t) (i : CollectionItem) : CollectionItem :=
  mkItem (type i) (row i) (parent i) (children i) (key i) (display_text i)
         (sort_text i) (container_level i) (compilation_artist_node_ i) v.

(** [QueryOptions]: [max_age_] is -1 when no recency window is set, [filter_]
    is [None] for a null string. *)
Record QueryOptions : Type := mkQueryOptions {
  max_age_ : Z;
  filter_ : option string
}.

(** The model object.  [heap] is the arena of live items and [next_ptr] the
    next address handed out by [new]; [now] is the clock read by
    [QueryOptions::Matches]. *)
Record CollectionModel : Type := mkModel {
  heap : gmap ptr CollectionItem;
  next_ptr : ptr;
  root_ : ptr;
  group_by_ : Grouping;
  container_nodes_0 : gmap string ptr;
  container_nodes_1 : gmap string ptr;
  container_nodes_2 : gmap string ptr;
  song_nodes_ : gmap Z ptr;
  divider_nodes_ : gmap string ptr;
  show_dividers_ : bool;
  query_options_ : QueryOptions;
  now : Z
}.

Definition set_heap (h : gmap ptr CollectionItem) (m : CollectionModel) : CollectionModel :=
  mkModel h (next_ptr m) (root_ m) (group_by_ m) (container_nodes_0 m)
          (container_nodes_1 m) (container_nodes_2 m) (song_nodes_ m)
          (divider_nodes_ m) (show_dividers_ m) (query_options_ m) (now m).
Definition set_next_ptr (n : ptr) (m : CollectionModel) : CollectionModel :=
  mkModel (heap m) n (root_ m) (group_by_ m) (container_nodes_0 m)
          (container_nodes_1 m) (container_nodes_2 m) (song_nodes_ m)
          (divider_nodes_ m) (show_dividers_ m) (query_options_ m) (now m).
Definition set_song_nodes_ (v : gmap Z ptr) (m : CollectionModel) : CollectionModel :=
  mkModel (heap m) (next_ptr m) (root_ m) (group_by_ m) (container_nodes_0 m)
          (container_nodes_1 m) (container_nodes_2 m) v
          (divider_nodes_ m) (show_dividers_ m) (query_options_ m) (now m).
Definition set_divider_nodes_ (v : gmap string ptr) (m : CollectionModel) : CollectionModel :=
  mkModel (heap m) (next_ptr m) (root_ m) (group_by_ m) (container_nodes_0 m)
          (container_nodes_1 m) (container_nodes_2 m) (song_nodes_ m)
          v (show_dividers_ m) (query_options_ m) (now m).

(** [container_nodes_[i]] for the array of three maps. *)
Definition container_nodes_ (m : CollectionModel) (i : Z) : option (gmap string ptr) :=
  if (i =? 0)%Z then Some (container_nodes_0 m)
  else if (i =? 1)%Z then Some (container_nodes_1 m)
  else if (i =? 2)%Z then Some (container_nodes_2 m)
  else None.

Definition set_container_nodes_ (i : Z) (v : gmap string ptr) (m : CollectionModel)
    : CollectionModel :=
  mkModel (heap m) (next_ptr m) (root_ m) (group_by_ m)
          (if (i =? 0)%Z then v else container_nodes_0 m)
          (if (i =? 1)%Z then v else container_nodes_1 m)
          (if (i =? 2)%Z then v else container_nodes_2 m)
          (song_nodes_ m) (divider_nodes_ m) (show_dividers_ m)
          (query_options_ m) (now m).

Section Items.
Context `{Ext.Text}.

Definition TextOrUnknown (text : string) : string :=
  if Qt.isEmpty text then Qt.tr "Unknown" else text.

Definition PrettyYearAlbum (year : Z) (album : string) : string :=
  if (year <=? 0)%Z then TextOrUnknown album
  else Qt.number year +:+ " - " +:+ TextOrUnknown album.

Definition PrettyAlbumDisc (album : string) (disc : Z) : string :=
  if (disc <=? 0)%Z || Ext.contains_kAlbumRemoveDisc album then TextOrUnknown album
  else TextOrUnknown album +:+ " - (Disc " +:+ Qt.number disc +:+ ")".

Definition PrettyYearAlbumDisc (year : Z) (album : string) (disc : Z) : string :=
  let str := if (year <=? 0)%Z then TextOrUnknown album
             else Qt.number year +:+ " - " +:+ TextOrUnknown album in
  if negb (Ext.contains_kAlbumRemoveDisc album) && (0 <? disc)%Z
  then str +:+ " - (Disc " +:+ Qt.number disc +:+ ")"
  else str.

Definition PrettyDisc (disc : Z) : string :=
  "Disc " +:+ Qt.number (Qt.qMax 1 disc).

Definition SortText (text : string) : string :=
  let text := if Qt.isEmpty text then " unknown" else Ext.toLower text in
  Ext.remove_non_word text.

(** The loop over [Song::kArticles] with its [break]. *)
Fixpoint move_article (articles : list string) (artist : string) : string :=
  match articles with
  | [] => artist
  | i :: rest =>
      if Qt.startsWith artist i then
        let ilen := String.length i in
        Qt.right artist (String.length artist - ilen) +:+ ", " +:+ Qt.left i (ilen - 1)
      else move_article rest artist
  end.

Definition SortTextForArtist (artist : string) : string :=
  move_article Ext.kArticles (SortText artist).

Definition SortTextForNumber (number : Z) : string :=
  Qt.arg_zero_padded number 4.

(** The number is computed in [int]: [qMax(0, disc) * 1000 + qMax(0, track)]
    wraps around for a disc number above 2147483. *)
Definition SortTextForSong (song : Song.t) : string :=
  let ret := Qt.number (Qt.int_add (Qt.int_mul (Qt.qMax 0 (Song.disc song)) 1000)
                                   (Qt.qMax 0 (Song.track song))) in
  Qt.repeated "0" (6 - String.length ret) +:+ ret +:+ Song.url song.

Definition with_album_id (key : string) (song : Song.t) : string :=
  if negb (Qt.isEmpty (Song.album_id song)) then key +:+ "-" +:+ Song.album_id song
  else key.

Definition ContainerKey (type : GroupBy) (song : Song.t) : string :=
  match type with
  | GroupBy_AlbumArtist => TextOrUnknown (Song.effective_albumartist song)
  | GroupBy_Artist => TextOrUnknown (Song.artist song)
  | GroupBy_Album => with_album_id (TextOrUnknown (Song.album song)) song
  | GroupBy_AlbumDisc =>
      with_album_id (PrettyAlbumDisc (Song.album song) (Song.disc song)) song
  | GroupBy_YearAlbum =>
      with_album_id (PrettyYearAlbum (Song.year song) (Song.album song)) song
  | GroupBy_YearAlbumDisc =>
      with_album_id
        (PrettyYearAlbumDisc (Song.year song) (Song.album song) (Song.disc song)) song
  | GroupBy_OriginalYearAlbum =>
      with_album_id
        (PrettyYearAlbum (Song.effective_originalyear song) (Song.album song)) song
  | GroupBy_OriginalYearAlbumDisc =>
      with_album_id
        (PrettyYearAlbumDisc (Song.effective_originalyear song) (Song.album song)
                             (Song.disc song)) song
  | GroupBy_Disc => PrettyDisc (Song.disc song)
  | GroupBy_Year => Qt.number (Qt.qMax 0 (Song.year song))
  | GroupBy_OriginalYear => Qt.number (Qt.qMax 0 (Song.effective_originalyear song))
  | GroupBy_Genre => TextOrUnknown (Song.genre song)
  | GroupBy_Composer => TextOrUnknown (Song.composer song)
  | GroupBy_Performer => TextOrUnknown (Song.performer song)
  | GroupBy_Grouping => TextOrUnknown (Song.grouping song)
  | GroupBy_FileType => Ext.TextForFiletype (Song.filetype song)
  | GroupBy_Samplerate => Qt.number (Qt.qMax 0 (Song.samplerate song))
  | GroupBy_Bitdepth => Qt.number (Qt.qMax 0 (Song.bitdepth song))
  | GroupBy_Bitrate => Qt.number (Qt.qMax 0 (Song.bitrate song))
  | GroupBy_Format =>
      if (Song.samplerate song <=? 0)%Z then Ext.TextForFiletype (Song.filetype song)
      else if (Song.bitdepth song <=? 0)%Z then
        Ext.TextForFiletype (Song.filetype song) +:+ " ("
          +:+ Ext.number_kHz_G5 (Song.samplerate song) +:+ ")"
      else
        Ext.TextForFiletype (Song.filetype song) +:+ " ("
          +:+ Ext.number_kHz_G5 (Song.samplerate song) +:+ "/"
          +:+ Qt.number (Song.bitdepth song) +:+ ")"
  | GroupBy_None | GroupByCount => EmptyString
  end.

(** [DividerKey]: [None] is the failed assertion of reading [decomposition[0]]
    of an empty decomposition. *)
Definition DividerKey (type : GroupBy) (item : CollectionItem) : option string :=
  match Qt.at0 (sort_text item) with
  | None => Some EmptyString
  | Some c =>
      match type with
      | GroupBy_AlbumArtist | GroupBy_Artist | GroupBy_Album | GroupBy_AlbumDisc
      | GroupBy_Composer | GroupBy_Performer | GroupBy_Grouping | GroupBy_Disc
      | GroupBy_Genre | GroupBy_Format | GroupBy_FileType =>
          if Ext.isDigit c then Some "0"
          else if Ascii.eqb c " " then Some EmptyString
          else if Ext.hasDecomposition c then
            match Qt.at0 (Ext.decomposition c) with
            | Some d => Some (Qt.of_char d)
            | None => None
            end
          else Some (Qt.of_char c)
      | GroupBy_Year | GroupBy_OriginalYear =>
          Some (SortTextForNumber (Qt.toInt (sort_text item) / 10 * 10))
      | GroupBy_YearAlbum | GroupBy_YearAlbumDisc =>
          Some (SortTextForNumber (Song.year (metadata item)))
      | GroupBy_OriginalYearAlbum | GroupBy_OriginalYearAlbumDisc =>
          Some (SortTextForNumber (Song.effective_originalyear (metadata item)))
      | GroupBy_Samplerate => Some (SortTextForNumber (Song.samplerate (metadata item)))
      | GroupBy_Bitdepth => Some (SortTextForNumber (Song.bitdepth (metadata item)))
      | GroupBy_Bitrate => Some (SortTextForNumber (Song.bitrate (metadata item)))
      | GroupBy_None | GroupByCount => Some EmptyString
      end
  end.

Definition DividerDisplayText (type : GroupBy) (key : string) : string :=
  match type with
  | GroupBy_AlbumArtist | GroupBy_Artist | GroupBy_Album | GroupBy_AlbumDisc
  | GroupBy_Composer | GroupBy_Performer | GroupBy_Disc | GroupBy_Grouping
  | GroupBy_Genre | GroupBy_FileType | GroupBy_Format =>
      if String.eqb key "0" then "0-9" else Ext.toUpper key
  | GroupBy_YearAlbum | GroupBy_YearAlbumDisc
  | GroupBy_OriginalYearAlbum | GroupBy_OriginalYearAlbumDisc =>
      if String.eqb key "0000" then Qt.tr "Unknown" else Ext.toUpper key
  | GroupBy_Year | GroupBy_OriginalYear =>
      if String.eqb key "0000" then Qt.tr "Unknown"
      else Qt.number (Qt.toInt key)  (* To remove leading 0s *)
  | GroupBy_Samplerate | GroupBy_Bitdepth | GroupBy_Bitrate =>
      if String.eqb key "000" then Qt.tr "Unknown"
      else Qt.number (Qt.toInt key)  (* To remove leading 0s *)
  | GroupBy_None | GroupByCount => EmptyString
  end.

(** [QueryOptions::Matches] (collectionquery.cpp). *)
Definition Matches (o : QueryOptions) (now : Z) (song : Song.t) : bool :=
  if negb (max_age_ o =? -1)%Z && (Song.ctime song <=? now - max_age_ o)%Z then false
  else
    match filter_ o with
    | Some f =>
        Qt.contains (Ext.toLower (Song.artist song)) (Ext.toLower f)
        || Qt.contains (Ext.toLower (Song.album song)) (Ext.toLower f)
        || Qt.contains (Ext.toLower (Song.title song)) (Ext.toLower f)
    | None => true
    end.

(** *** Items in the arena *)

(** An operation of the model either fails an assertion or dereferences a
    dangling pointer ([None]), or gives a result and the new model state. *)
Definition M (A : Type) : Type := CollectionModel → option (A * CollectionModel).

Definition ret {A} (a : A) : M A := λ m, Some (a, m).
Definition crash {A} : M A := λ _, None.
Definition bind {A C} (c : M A) (k : A → M C) : M C :=
  λ m, match c m with
       | Some (a, m') => k a m'
       | None => None
       end.

Notation "'let!' x ':=' c 'in' k" := (bind c (λ x, k))
  (at level 10, x name, c at level 200, k at level 200,
   format "'[v' 'let!'  x  ':='  c  'in' '/' k ']'").
Notation "'run!' c 'in' k" := (bind c (λ _, k))
  (at level 10, c at level 200, k at level 200,
   format "'[v' 'run!'  c  'in' '/' k ']'").

Fixpoint for_each {A} (l : list A) (body : A → M unit) : M unit :=
  match l with
  | [] => ret tt
  | x :: l' => run! body x in for_each l' body
  end.

Definition get : M CollectionModel := λ m, Some (m, m).
Definition modify (f : CollectionModel → CollectionModel) : M unit :=
  λ m, Some (tt, f m).

(** [*p] *)
Definition deref (p : ptr) : M CollectionItem :=
  λ m, match heap m !! p with Some i => Some (i, m) | None => None end.

(** [p->field = ...] *)
Definition update (p : ptr) (f : CollectionItem → CollectionItem) : M unit :=
  let! i := deref p in
  modify (λ m, set_heap (<[p := f i]> (heap m)) m).

(** Modelled from the spec: the constructor [CollectionItem(type, parent)]
    and [SimpleTreeItem::Delete] are declared in collectionitem.h and
    simpletreeitem.h, which are not part of the sources.  A new item is
    appended to the children of its parent and takes that position as its
    row; it starts with container level -1, no compilation-artist node and
    empty metadata.  [Delete(row)] detaches the child at [row], destroys it
    with everything below it and decrements the row of every later sibling. *)
Definition new_CollectionItem (ty : ItemType) (parent_ : ptr) : M ptr :=
  let! p := deref parent_ in
  let! m := get in
  let item := next_ptr m in
  run! modify (λ m,
         set_next_ptr (S item)
           (set_heap (<[item := mkItem ty (length (children p)) (Some parent_) []
                                       EmptyString EmptyString EmptyString (-1)
                                       None Song.empty]> (heap m)) m)) in
  run! update parent_ (set_children (children p ++ [item])) in
  ret item.

Fixpoint destroy (fuel : nat) (p : ptr) (h : gmap ptr CollectionItem)
    : gmap ptr CollectionItem :=
  match h !! p with
  | None => h
  | Some i =>
      match fuel with
      | O => delete p h
      | S fuel' => fold_left (λ h c, destroy fuel' c h) (children i) (delete p h)
      end
  end.

Definition Delete (parent_ : ptr) (child_row : nat) : M unit :=
  let! p := deref parent_ in
  match children p !! child_row with
  | None => crash
  | Some child =>
      let rest := take child_row (children p) ++ drop (S child_row) (children p) in
      run! update parent_ (set_children rest) in
      run! modify (λ m, set_heap (destroy (size (heap m)) child (heap m)) m) in
      (* Adjust row numbers of those below it *)
      for_each (drop child_row rest) (λ c, update c (λ i, set_row (row i - 1)%nat i))
  end.

(** [IsCompilationArtistNode(node)]: [node == node->parent->compilation_artist_node_]. *)
Definition IsCompilationArtistNode (node : ptr) : M bool :=
  let! n := deref node in
  match parent n with
  | None => crash
  | Some pp =>
      let! p := deref pp in
      ret (bool_decide (compilation_artist_node_ p = Some node))
  end.

(** [QSet::operator<<] on a set kept as a duplicate-free list. *)
Definition qset_insert {A} `{EqDecision A} (x : A) (l : list A) : list A :=
  if bool_decide (x ∈ l) then l else l ++ [x].

Definition qset_remove {A} `{EqDecision A} (x : A) (l : list A) : list A :=
  filter (λ y, y ≠ x) l.

(** *** Insertion *)

Definition CreateCompilationArtistNode (parent_ : ptr) : M ptr :=
  let! p := deref parent_ in
  match compilation_artist_node_ p with
  | Some _ => crash  (* Q_ASSERT(parent->compilation_artist_node_ == nullptr) *)
  | None =>
      let! m := get in
      let! node := new_CollectionItem Type_Container parent_ in
      run! update parent_ (set_compilation_artist_node_ (Some node)) in
      run! update node (λ i,
             set_container_level (container_level p + 1)
               (set_sort_text " various"
                  (set_display_text (Qt.tr "Various artists")
                     (set_key ((if bool_decide (parent_ ≠ root_ m)
                                   && negb (Qt.isEmpty (key p))
                                then key p else EmptyString)
                               +:+ Qt.tr "Various artists")
                        (set_compilation_artist_node_ None i))))) in
      ret node
  end.

Definition InitItem (type : GroupBy) (parent_ : ptr) (container_level : Z) : M ptr :=
  let item_type := if bool_decide (type = GroupBy_None) then Type_Song
                   else Type_Container in
  (* Initialize the item depending on what type it's meant to be *)
  let! item := new_CollectionItem item_type parent_ in
  run! update item (λ i, set_container_level container_level
                           (set_compilation_artist_node_ None i)) in
  ret item.

(** The [switch (type)] of [ItemFromSong]: the metadata summary, the part of
    the key contributed by this level, the display text and the sort text. *)
Definition ItemFromSong_switch (group_by_0 : GroupBy) (type : GroupBy) (s : Song.t)
    (container_level : Z) (md : Song.t) : Song.t * string * string * string :=
  match type with
  | GroupBy_AlbumArtist =>
      (Song.set_albumartist (Song.effective_albumartist s) md, ContainerKey type s,
       TextOrUnknown (Song.effective_albumartist s),
       SortTextForArtist (Song.effective_albumartist s))
  | GroupBy_Artist =>
      (Song.set_artist (Song.artist s) md, ContainerKey type s,
       TextOrUnknown (Song.artist s), SortTextForArtist (Song.artist s))
  | GroupBy_Album =>
      (Song.set_album_id (Song.album_id s) (Song.set_album (Song.album s) md),
       ContainerKey type s, TextOrUnknown (Song.album s),
       SortTextForArtist (Song.album s))
  | GroupBy_AlbumDisc =>
      (Song.set_disc (Song.disc s)
         (Song.set_album_id (Song.album_id s) (Song.set_album (Song.album s) md)),
       ContainerKey type s, PrettyAlbumDisc (Song.album s) (Song.disc s),
       Song.album s +:+ SortTextForNumber (Qt.qMax 0 (Song.disc s)))
  | GroupBy_YearAlbum =>
      (Song.set_grouping (Song.grouping s)
         (Song.set_album_id (Song.album_id s)
            (Song.set_album (Song.album s) (Song.set_year (Song.year s) md))),
       ContainerKey type s, PrettyYearAlbum (Song.year s) (Song.album s),
       SortTextForNumber (Qt.qMax 0 (Song.year s)) +:+ Song.grouping s +:+ Song.album s)
  | GroupBy_YearAlbumDisc =>
      (Song.set_disc (Song.disc s)
         (Song.set_album_id (Song.album_id s)
            (Song.set_album (Song.album s) (Song.set_year (Song.year s) md))),
       ContainerKey type s,
       PrettyYearAlbumDisc (Song.year s) (Song.album s) (Song.disc s),
       SortTextForNumber (Qt.qMax 0 (Song.year s)) +:+ Song.album s
         +:+ SortTextForNumber (Qt.qMax 0 (Song.disc s)))
  | GroupBy_OriginalYearAlbum =>
      (Song.set_grouping (Song.grouping s)
         (Song.set_album_id (Song.album_id s)
            (Song.set_album (Song.album s)
               (Song.set_originalyear (Song.originalyear s)
                  (Song.set_year (Song.year s) md)))),
       ContainerKey type s,
       PrettyYearAlbum (Song.effective_originalyear s) (Song.album s),
       SortTextForNumber (Qt.qMax 0 (Song.effective_originalyear s))
         +:+ Song.grouping s +:+ Song.album s)
  | GroupBy_OriginalYearAlbumDisc =>
      (Song.set_grouping (Song.grouping s)
         (Song.set_disc (Song.disc s)
            (Song.set_album_id (Song.album_id s)
               (Song.set_album (Song.album s)
                  (Song.set_originalyear (Song.originalyear s)
                     (Song.set_year (Song.year s) md))))),
       ContainerKey type s,
       PrettyYearAlbumDisc (Song.effective_originalyear s) (Song.album s) (Song.disc s),
       SortTextForNumber (Qt.qMax 0 (Song.effective_originalyear s)) +:+ Song.album s
         +:+ SortTextForNumber (Qt.qMax 0 (Song.disc s)))
  | GroupBy_Disc =>
      let disc := Qt.qMax 0 (Song.disc s) in
      (Song.set_disc (Song.disc s) md, ContainerKey type s, PrettyDisc disc,
       SortTextForNumber disc)
  | GroupBy_Year =>
      let year := Qt.qMax 0 (Song.year s) in
      (Song.set_year (Song.year s) md, ContainerKey type s, Qt.number year,
       SortTextForNumber year +:+ " ")
  | GroupBy_OriginalYear =>
      let year := Qt.qMax 0 (Song.effective_originalyear s) in
      (Song.set_originalyear (Song.effective_originalyear s) md, ContainerKey type s,
       Qt.number year, SortTextForNumber year +:+ " ")
  | GroupBy_Genre =>
      (Song.set_genre (Song.genre s) md, ContainerKey type s,
       TextOrUnknown (Song.genre s), SortTextForArtist (Song.genre s))
  | GroupBy_Composer =>
      (Song.set_composer (Song.composer s) md, ContainerKey type s,
       TextOrUnknown (Song.composer s), SortTextForArtist (Song.composer s))
  | GroupBy_Performer =>
      (Song.set_performer (Song.performer s) md, ContainerKey type s,
       TextOrUnknown (Song.performer s), SortTextForArtist (Song.performer s))
  | GroupBy_Grouping =>
      (Song.set_grouping (Song.grouping s) md, ContainerKey type s,
       TextOrUnknown (Song.grouping s), SortTextForArtist (Song.grouping s))
  | GroupBy_FileType =>
      (Song.set_filetype (Song.filetype s) md, ContainerKey type s,
       Ext.TextForFiletype (Song.filetype s), Ext.TextForFiletype (Song.filetype s))
  | GroupBy_Format =>
      let key := ContainerKey type s in
      (Song.set_bitdepth (Song.bitdepth s)
         (Song.set_samplerate (Song.samplerate s)
            (Song.set_filetype (Song.filetype s) md)),
       key, key, key)
  | GroupBy_Samplerate =>
      let samplerate := Qt.qMax 0 (Song.samplerate s) in
      (Song.set_samplerate (Song.samplerate s) md, ContainerKey type s,
       Qt.number samplerate, SortTextForNumber samplerate +:+ " ")
  | GroupBy_Bitdepth =>
      let bitdepth := Qt.qMax 0 (Song.bitdepth s) in
      (Song.set_bitdepth (Song.bitdepth s) md, ContainerKey type s,
       Qt.number bitdepth, SortTextForNumber bitdepth +:+ " ")
  | GroupBy_Bitrate =>
      let bitrate := Qt.qMax 0 (Song.bitrate s) in
      (Song.set_bitrate (Song.bitrate s) md, ContainerKey type s,
       Qt.number bitrate, SortTextForNumber bitrate +:+ " ")
  | GroupBy_None | GroupByCount =>
      (s, TextOrUnknown (Song.title s), Ext.TitleWithCompilationArtist s,
       if (container_level =? 1)%Z && negb (IsAlbumGroupBy group_by_0)
       then SortText (Song.title s) else SortTextForSong s)
  end.

Definition FinishItem (type : GroupBy) (create_divider : bool) (item : ptr) : M unit :=
  let! m := get in
  (* Create the divider entry if we're supposed to *)
  if create_divider && show_dividers_ m then
    let! i := deref item in
    match DividerKey type i with
    | None => crash
    | Some divider_key =>
        run! (if negb (Qt.isEmpty divider_key)
              then update item (set_sort_text (divider_key +:+ " " +:+ sort_text i))
              else ret tt) in
        if negb (Qt.isEmpty divider_key)
           && bool_decide (divider_nodes_ m !! divider_key = None) then
          let! divider := new_CollectionItem Type_Divider (root_ m) in
          run! update divider (λ d,
                 set_sort_text (divider_key +:+ "  ")
                   (set_display_text (DividerDisplayText type divider_key)
                      (set_key divider_key d))) in
          modify (λ m, set_divider_nodes_ (<[divider_key := divider]> (divider_nodes_ m)) m)
        else ret tt
    end
  else ret tt.

Definition ItemFromSong (type : GroupBy) (create_divider : bool) (parent_ : ptr)
    (s : Song.t) (container_level : Z) : M ptr :=
  let! item := InitItem type parent_ container_level in
  let! m := get in
  let! p := deref parent_ in
  let! i := deref item in
  let prefix := if bool_decide (parent_ ≠ root_ m) && negb (Qt.isEmpty (key p))
                then key p +:+ "-" else key i in
  let fields := ItemFromSong_switch (Grouping_at (group_by_ m) 0) type s
                                    (Model.container_level i) (metadata i) in
  run! update item (λ i,
         set_sort_text (snd fields)
           (set_display_text (snd (fst fields))
              (set_key (prefix +:+ snd (fst (fst fields)))
                 (set_metadata (fst (fst (fst fields))) i)))) in
  run! FinishItem type create_divider item in
  ret item.

(** The loop [for (int i = 0; i < 3; ++i)] of [SongsDiscovered], entered at
    level [i] with [n] levels left; the result is the container that takes the
    song node. *)
Fixpoint find_container (n : nat) (i : Z) (song : Song.t) (container : ptr)
    (key : string) : M ptr :=
  match n with
  | O => ret container
  | S n' =>
      let! m := get in
      let type := Grouping_at (group_by_ m) i in
      if bool_decide (type = GroupBy_None) then ret container
      else
        let key := if negb (Qt.isEmpty key) then key +:+ "-" else key in
        (* Special case: if the song is a compilation and the current GroupBy
           level is Artists, then we want the Various Artists node *)
        if IsArtistGroupBy type && Song.is_compilation song then
          let! c := deref container in
          let! va := match compilation_artist_node_ c with
                     | None => CreateCompilationArtistNode container
                     | Some va => ret va
                     end in
          let! v := deref va in
          find_container n' (i + 1) song va (Model.key v)
        else
          (* Otherwise find the proper container at this level based on the
             item's key *)
          let key := key +:+ ContainerKey type song in
          match container_nodes_ m i with
          | None => crash
          | Some nodes =>
              (* Does it exist already? *)
              match nodes !! key with
              | Some c => find_container n' (i + 1) song c key
              | None =>
                  (* Create the container *)
                  let! c := ItemFromSong type (i =? 0)%Z container song i in
                  run! modify (λ m, set_container_nodes_ i (<[key := c]> nodes) m) in
                  find_container n' (i + 1) song c key
              end
          end
  end.

(** The body of [for (const Song &song : songs)] in [SongsDiscovered]. *)
Definition SongsDiscovered_body (song : Song.t) : M unit :=
  let! m := get in
  (* Sanity check to make sure we don't add songs that are outside the user's filter *)
  if negb (Matches (query_options_ m) (now m) song) then ret tt
  (* Hey, we've already got that one! *)
  else if bool_decide (is_Some (song_nodes_ m !! Song.id song)) then ret tt
  else
    let! container := find_container 3 0 song (root_ m) EmptyString in
    let! node := ItemFromSong GroupBy_None false container song (-1) in
    modify (λ m, set_song_nodes_ (<[Song.id song := node]> (song_nodes_ m)) m).

Definition SongsDiscovered (songs : SongList) : M unit :=
  for_each songs SongsDiscovered_body.

(** *** Removal *)

Fixpoint fold_each {A S} (l : list A) (body : A → S → M S) (s : S) : M S :=
  match l with
  | [] => ret s
  | x :: l' => let! s' := body x s in fold_each l' body s'
  end.

(** The body of the first loop of [SongsDeleted]: delete the song node and
    remember its parent. *)
Definition delete_song_node (song : Song.t) (parents : list ptr) : M (list ptr) :=
  let! m := get in
  match song_nodes_ m !! Song.id song with
  | Some node =>
      let! n := deref node in
      match parent n with
      | None => crash
      | Some node_parent =>
          let parents := if bool_decide (node_parent ≠ root_ m)
                         then qset_insert node_parent parents else parents in
          run! Delete node_parent (row n) in
          run! modify (λ m, set_song_nodes_ (delete (Song.id song) (song_nodes_ m)) m) in
          ret parents
      end
  | None => ret parents
  end.

(** The body of [for (CollectionItem *node : parents_copy)]; the state is the
    set [parents] and the set [divider_keys]. *)
Definition delete_if_empty (node : ptr) (st : list ptr * list string)
    : M (list ptr * list string) :=
  let parents := qset_remove node (fst st) in
  let divider_keys := snd st in
  let! n := deref node in
  if negb (bool_decide (children n = [])) then ret (parents, divider_keys)
  else
    match parent n with
    | None => crash
    | Some node_parent =>
        let! m := get in
        (* Consider its parent for the next round *)
        let parents := if bool_decide (node_parent ≠ root_ m)
                       then qset_insert node_parent parents else parents in
        (* Maybe consider its divider node *)
        let! divider_keys :=
          (if (container_level n =? 0)%Z then
             match DividerKey (Grouping_at (group_by_ m) 0) n with
             | None => crash
             | Some k => ret (qset_insert k divider_keys)
             end
           else ret divider_keys) in
        (* Special case the Various Artists node *)
        let! is_va := IsCompilationArtistNode node in
        run! (if is_va then update node_parent (set_compilation_artist_node_ None)
              else
                match container_nodes_ m (container_level n) with
                | None => crash
                | Some nodes =>
                    if bool_decide (is_Some (nodes !! key n)) then
                      modify (set_container_nodes_ (container_level n)
                                                   (delete (key n) nodes))
                    else ret tt
                end) in
        (* It was empty - delete it *)
        run! Delete node_parent (row n) in
        ret (parents, divider_keys)
    end.

(** [while (!parents.isEmpty())]; every round either empties the set or
    deletes an item, so [fuel] rounds bounded by the number of items suffice.
    Running out of fuel is reported as [None]. *)
Fixpoint delete_empty_parents (fuel : nat) (parents : list ptr)
    (divider_keys : list string) : M (list string) :=
  match parents with
  | [] => ret divider_keys
  | _ :: _ =>
      match fuel with
      | O => crash
      | S fuel' =>
          let! st := fold_each parents delete_if_empty (parents, divider_keys) in
          delete_empty_parents fuel' (fst st) (snd st)
      end
  end.

(** [std::any_of] *)
Fixpoint any_of {A} (l : list A) (pred : A → M bool) : M bool :=
  match l with
  | [] => ret false
  | x :: l' => let! b := pred x in if b then ret true else any_of l' pred
  end.

(** The body of the loop "Delete empty dividers". *)
Definition delete_empty_divider (divider_key : string) : M unit :=
  let! m := get in
  match divider_nodes_ m !! divider_key with
  | None => ret tt
  | Some divider =>
      (* Look to see if there are any other items still under this divider *)
      let container_nodes := map snd (map_to_list (container_nodes_0 m)) in
      let! still_used :=
        any_of container_nodes (λ node,
          let! n := deref node in
          match DividerKey (Grouping_at (group_by_ m) 0) n with
          | None => crash
          | Some k => ret (String.eqb k divider_key)
          end) in
      if still_used then ret tt
      else
        (* Remove the divider *)
        let! d := deref divider in
        run! Delete (root_ m) (row d) in
        modify (λ m, set_divider_nodes_ (delete divider_key (divider_nodes_ m)) m)
  end.

Definition SongsDeleted (songs : SongList) : M unit :=
  (* Delete the actual song nodes first, keeping track of each parent so we
     might check to see if they're empty later. *)
  let! parents := fold_each songs delete_song_node [] in
  (* Now delete empty parents *)
  let! m := get in
  let! divider_keys := delete_empty_parents (S (size (heap m))) parents [] in
  (* Delete empty dividers *)
  for_each divider_keys delete_empty_divider.

(** *** Reset *)

(** [BeginReset]: the tree is destroyed, the maps are cleared, and a new root
    is allocated. *)
Definition Reset (m : CollectionModel) : CollectionModel :=
  let root := next_ptr m in
  mkModel {[ root := mkItem Type_Root 0%nat None [] EmptyString EmptyString EmptyString
                            (-1) None Song.empty ]}
          (S root) root (group_by_ m) ∅ ∅ ∅ ∅ ∅ (show_dividers_ m)
          (query_options_ m) (now m).

(** The model as constructed, with its configuration. *)
Definition new_model (g : Grouping) (show_dividers : bool) (o : QueryOptions)
    (now : Z) : CollectionModel :=
  Reset (mkModel ∅ 0%nat 0%nat g ∅ ∅ ∅ ∅ ∅ show_dividers o now).

End Items.

End Model.

(* ===================================================================== *)
(** ** A concrete text library *)
(* ===================================================================== *)

(** An instance of [Ext.Text] on the Latin-1 range, used to run the model on
    concrete inputs: ASCII digits and case mapping, the accented letters
    U+00C0..U+00FF with their base letters, and the English articles. *)
Module Latin1.

Definition code (c : ascii) : nat := nat_of_ascii c.

Definition isDigit (c : ascii) : bool :=
  (Nat.leb 48 (code c) && Nat.leb (code c) 57)%bool.

Definition is_upper (c : ascii) : bool := (Nat.leb 65 (code c) && Nat.leb (code c) 90)%bool.
Definition is_lower (c : ascii) : bool := (Nat.leb 97 (code c) && Nat.leb (code c) 122)%bool.

Definition lower_char (c : ascii) : ascii :=
  if is_upper c then ascii_of_nat (code c + 32) else c.
Definition upper_char (c : ascii) : ascii :=
  if is_lower c then ascii_of_nat (code c - 32) else c.

Fixpoint map_string (f : ascii → ascii) (s : string) : string :=
  match s with
  | EmptyString => EmptyString
  | String c s' => String (f c) (map_string f s')
  end.

Fixpoint filter_string (f : ascii → bool) (s : string) : string :=
  match s with
  | EmptyString => EmptyString
  | String c s' => if f c then String c (filter_string f s') else filter_string f s'
  end.

(** [\w] or a space. *)
Definition is_word_or_space (c : ascii) : bool :=
  (is_upper c || is_lower c || isDigit c || Nat.eqb (code c) 95
   || Nat.eqb (code c) 32 || Nat.leb 192 (code c))%bool.

(** The base letter of an accented Latin-1 letter. *)
Definition base_letter (c : ascii) : option ascii :=
  let n := code c in
  if (Nat.leb 192 n && Nat.leb n 197)%bool then Some "A"%char
  else if (Nat.leb 200 n && Nat.leb n 203)%bool then Some "E"%char
  else if (Nat.leb 204 n && Nat.leb n 207)%bool then Some "I"%char
  else if (Nat.leb 210 n && Nat.leb n 214)%bool then Some "O"%char
  else if (Nat.leb 217 n && Nat.leb n 220)%bool then Some "U"%char
  else if (Nat.leb 224 n && Nat.leb n 229)%bool then Some "a"%char
  else if (Nat.leb 232 n && Nat.leb n 235)%bool then Some "e"%char
  else if (Nat.leb 236 n && Nat.leb n 239)%bool then Some "i"%char
  else if (Nat.leb 242 n && Nat.leb n 246)%bool then Some "o"%char
  else if (Nat.leb 249 n && Nat.leb n 252)%bool then Some "u"%char
  else None.

Definition hasDecomposition (c : ascii) : bool :=
  match base_letter c with Some _ => true | None => false end.

(** The base letter followed by a stand-in for the combining mark. *)
Definition decomposition (c : ascii) : string :=
  match base_letter c with
  | Some b => String b (String "'"%char EmptyString)
  | None => EmptyString
  end.

(** Kilohertz with up to three decimals, trailing zeros removed. *)
Definition number_kHz_G5 (samplerate : Z) : string :=
  let whole := Qt.number (samplerate / 1000) in
  let frac := samplerate mod 1000 in
  if (frac =? 0)%Z then whole
  else if (frac mod 100 =? 0)%Z then whole +:+ "." +:+ Qt.number (frac / 100)
  else if (frac mod 10 =? 0)%Z then
    whole +:+ "." +:+ Qt.arg_zero_padded (frac / 10) 2
  else whole +:+ "." +:+ Qt.arg_zero_padded frac 3.

Definition TextForFiletype (filetype : Z) : string :=
  if (filetype =? 2)%Z then "FLAC"
  else if (filetype =? 5)%Z then "Ogg Vorbis"
  else if (filetype =? 6)%Z then "MP3"
  else "Unknown".

Definition TitleWithCompilationArtist (s : Song.t) : string :=
  let title := if Qt.isEmpty (Song.title s) then Song.url s else Song.title s in
  if Song.is_compilation s && negb (Qt.isEmpty (Song.artist s))
     && negb (Qt.contains (map_string lower_char (Song.artist s)) "various")
  then Song.artist s +:+ " - " +:+ title
  else title.

Definition decomposition_nonempty (c : ascii) :
  hasDecomposition c = true → decomposition c ≠ EmptyString.
Proof.
  unfold hasDecomposition, decomposition.
  destruct (base_letter c); [discriminate | discriminate].
Qed.

Global Instance text : Ext.Text := {|
  Ext.isDigit := isDigit;
  Ext.hasDecomposition := hasDecomposition;
  Ext.decomposition := decomposition;
  Ext.toLower := map_string lower_char;
  Ext.toUpper := map_string upper_char;
  Ext.remove_non_word := filter_string is_word_or_space;
  Ext.number_kHz_G5 := number_kHz_G5;
  Ext.kArticles := ["the "; "a "; "an "];
  Ext.contains_kAlbumRemoveDisc := λ album, Qt.contains album "(Disc ";
  Ext.TextForFiletype := TextForFiletype;
  Ext.TitleWithCompilationArtist := TitleWithCompilationArtist;
  Ext.decomposition_nonempty := decomposition_nonempty;
  Ext.space_is_no_digit := eq_refl
|}.

End Latin1.

(* ===================================================================== *)
(** ** Properties stated by the specification *)
(* ===================================================================== *)

Module Spec.
Import Backend.

(** The invariant of the data model on one row of the songs table:
    compilation_effective = (compilation OR compilation_detected OR
    compilation_on) AND NOT compilation_off. *)
Definition compilation_invariant (r : Row) : Prop :=
  compilation_effective r
  = (Song.compilation (cols r) || Song.compilation_detected (cols r)
     || Song.compilation_on (cols r)) && negb (Song.compilation_off (cols r)).

Definition table_invariant (d : Db) : Prop :=
  Forall compilation_invariant (songs d).

(** Every write statement of a log succeeded / some write statement failed. *)
Definition writes_succeeded (l : list (Stmt * bool)) : Prop :=
  ∀ s b, (s, b) ∈ l → is_write s = true → b = true.

Definition a_write_failed (l : list (Stmt * bool)) : Prop :=
  ∃ s, (s, false) ∈ l ∧ is_write s = true.

(** *** Match-key selection *)


Definition row_by_song_id (d : Db) (song_id : string) : option Row :=
  head (filter (λ r, Song.song_id (cols r) = song_id) (songs d)).



(** The delta [AddOrUpdateSongs] emits for a batch, read off the signals. *)
Definition emitted_delta (l : list Signal) : Delta :=
  mkDelta (concat (map (λ s, match s with SongsDiscovered x => x | _ => [] end) l))
          (concat (map (λ s, match s with SongsDeleted x => x | _ => [] end) l)).




(** *** Idempotence of a reconciliation *)

(** The delta emitted by one call of a slot. *)
Definition call_delta (slot : World → World) (w : World) : Delta :=
  emitted_delta (drop (length (emitted w)) (emitted (slot w))).

(** Applying the slot a second time yields an empty delta. *)
Definition second_call_is_silent (slot : World → World) (w : World) : Prop :=
  call_delta slot (slot w) = mkDelta [] [].

Definition sid (r : Row) : string := Song.song_id (cols r).

Definition available_rows (rows : list Row) : list Row :=
  filter (λ r, is_available r = true) rows.

(** The map handed to [UpdateSongsBySongID] is keyed by the song_id of its
    values, and its songs are available. *)
Record well_keyed (new_songs : QMap.t Song.t) : Prop := {
  keyed_by_song_id : ∀ k s, (k, s) ∈ new_songs → Song.song_id s = k;
  values_available : ∀ k s, (k, s) ∈ new_songs → Song.unavailable s = false;
  keys_nodup : NoDup (QMap.keys new_songs)
}.

(** ROWID is a key of the songs table, and no two available rows share a
    song_id. *)
Record well_formed_table (rows : list Row) : Prop := {
  rowids_nodup : NoDup (map ROWID rows);
  song_ids_nodup : NoDup (map sid (available_rows rows))
}.

(** The map [old_songs] read at the start of [UpdateSongsBySongID]. *)
Definition old_songs_of (rows : list Row) : QMap.t Song.t :=
  QMap.fill sid InitFromQuery (available_rows rows) [].

(** What the two loops of [UpdateSongsBySongID] do to the songs table when
    every statement succeeds. *)
Definition add_step (old_songs : QMap.t Song.t) (new_song : Song.t)
    (rows : list Row) : list Row :=
  match QMap.find (Song.song_id new_song) old_songs with
  | Some old_song =>
      if Song.IsMetadataEqual new_song old_song then rows
      else map (λ r, if (ROWID r =? Song.id old_song)%Z
                     then BindToQuery new_song (ROWID r) else r) rows
  | None => rows ++ [BindToQuery new_song (lastInsertId rows)]
  end.

Definition delete_step (new_songs : QMap.t Song.t) (old_song : Song.t)
    (rows : list Row) : list Row :=
  if QMap.contains (Song.song_id old_song) new_songs then rows
  else filter (λ r, ROWID r ≠ Song.id old_song) rows.

(** The invariant of the first loop: [done] are the new songs handled so
    far, [rows0] is the table the call started from. *)
Record add_invariant (rows0 : list Row) (done : SongList) (rows : list Row) : Prop := {
  add_rowids : NoDup (map ROWID rows);
  add_equal : ∀ r s, r ∈ rows → is_available r = true → s ∈ done →
                     sid r = Song.song_id s →
                     Song.IsMetadataEqual s (InitFromQuery r) = true;
  add_untouched : ∀ r, r ∈ rows → is_available r = true →
                       sid r ∉ map Song.song_id done → r ∈ rows0;
  add_present : ∀ s, s ∈ done →
                     ∃ r, r ∈ rows ∧ is_available r = true ∧ sid r = Song.song_id s;
  add_kept : ∀ r0, r0 ∈ rows0 → is_available r0 = true →
                   sid r0 ∉ map Song.song_id done → r0 ∈ rows;
  add_rowid_kept : ∀ r0, r0 ∈ rows0 → is_available r0 = true →
                         ∃ r, r ∈ rows ∧ ROWID r = ROWID r0 ∧ sid r = sid r0
                              ∧ is_available r = true
}.

(** The invariant of the second loop: [rows1] is the table after the first
    loop, [done] are the old songs handled so far. *)
Record delete_invariant (new_songs : QMap.t Song.t) (rows1 : list Row)
    (done : SongList) (rows : list Row) : Prop := {
  delete_sub : ∀ r, r ∈ rows → r ∈ rows1;
  delete_kept : ∀ r, r ∈ rows1 → sid r ∈ QMap.keys new_songs → r ∈ rows;
  delete_gone : ∀ o r, o ∈ done → Song.song_id o ∉ QMap.keys new_songs →
                       r ∈ rows → ROWID r ≠ Song.id o
}.

(** The table after a successful [UpdateSongsBySongID]: the available rows
    are exactly the new songs, each with equal metadata. *)
Record reconciled (new_songs : QMap.t Song.t) (rows : list Row) : Prop := {
  reconciled_only : ∀ r, r ∈ rows → is_available r = true →
                         sid r ∈ QMap.keys new_songs;
  reconciled_equal : ∀ r s, r ∈ rows → is_available r = true →
                            s ∈ QMap.values new_songs → sid r = Song.song_id s →
                            Song.IsMetadataEqual s (InitFromQuery r) = true;
  reconciled_all : ∀ s, s ∈ QMap.values new_songs →
                        ∃ r, r ∈ rows ∧ is_available r = true ∧ sid r = Song.song_id s
}.

(** *** Compilation classifier *)

(** The group of a record in the words of the specification: the available
    records with the same containing directory and the same album name. *)
Definition same_group (r r' : Row) : bool :=
  String.eqb (Qt.remove_filename (Song.url (cols r)))
             (Qt.remove_filename (Song.url (cols r')))
  && String.eqb (Song.album (cols r)) (Song.album (cols r')).

Definition group_of (rows : list Row) (r : Row) : list Row :=
  filter (λ r', same_group r r' = true) (available_rows rows).

(** The distinct effective artists of a list of rows, by exact string
    equality. *)
Definition distinct_artists (rows : list Row) : list string :=
  remove_dups (map effective_albumartist rows).

(** A table is classified as specified when every available record with an
    album is flagged exactly when its group has more than one distinct
    effective artist. *)
Definition classified_as_specified (rows : list Row) : Prop :=
  ∀ r, r ∈ available_rows rows → Song.album (cols r) ≠ EmptyString →
       Song.compilation_detected (cols r)
       = bool_decide (1 < length (distinct_artists (group_of rows r)))%nat.

(** *** Dividers *)

(** The dimensions whose divider is a character of the sort text, and the
    granularity of the numeric dimensions by value. *)
Definition is_text_dimension (type : Model.GroupBy) : bool :=
  match type with
  | Model.GroupBy_AlbumArtist | Model.GroupBy_Artist | Model.GroupBy_Album
  | Model.GroupBy_AlbumDisc | Model.GroupBy_Composer | Model.GroupBy_Performer
  | Model.GroupBy_Grouping | Model.GroupBy_Disc | Model.GroupBy_Genre
  | Model.GroupBy_Format | Model.GroupBy_FileType => true
  | _ => false
  end.






(** [preserves I c]: running [c] keeps the database inside [I]. *)
Definition preserves {A} (I : Db → Prop) (c : B A) : Prop :=
  ∀ w, I (db w) → I (db (snd (c w))).

(** [tracked c]: [c] emits nothing, only appends to the log, and when it runs
    to its end every write it logged has succeeded. *)
Definition tracked {A} (c : B A) : Prop :=
  ∀ w, emitted (snd (c w)) = emitted w
       ∧ ∃ l, log (snd (c w)) = log w ++ l
              ∧ (∀ a, fst (c w) = Ok a → writes_succeeded l).

End Spec.


(* ===================================================================== *)
(** ** Well-formed grouping indexes *)
(* ===================================================================== *)

Module Index.
Import Model.

(** The pointers the insertion path follows are live, new items get unused
    addresses, every compilation-artist node carries the fixed sort text, and
    no divider is registered under the empty key. *)
Record wf (m : CollectionModel) : Prop := {
  wf_root : is_Some (heap m !! root_ m);
  wf_fresh : ∀ p, is_Some (heap m !! p) → (p < next_ptr m)%nat;
  wf_containers : ∀ i nodes k c, container_nodes_ m i = Some nodes →
                                 nodes !! k = Some c → is_Some (heap m !! c);
  wf_various : ∀ p i va, heap m !! p = Some i →
                         compilation_artist_node_ i = Some va →
                         ∃ v, heap m !! va = Some v ∧ sort_text v = " various";
  wf_dividers : divider_nodes_ m !! EmptyString = None
}.

(** [extends m m']: what the insertion path never changes on the way from
    [m] to [m']: the configuration, the root, and of every existing item its
    type, parent, key, display text, level, metadata and an assigned
    compilation-artist node. *)
Record extends (m m' : CollectionModel) : Prop := {
  ext_root : root_ m' = root_ m;
  ext_group_by : group_by_ m' = group_by_ m;
  ext_show_dividers : show_dividers_ m' = show_dividers_ m;
  ext_query_options : query_options_ m' = query_options_ m;
  ext_now : now m' = now m;
  ext_next : (next_ptr m ≤ next_ptr m')%nat;
  ext_heap : ∀ p i, heap m !! p = Some i →
                    ∃ i', heap m' !! p = Some i'
                          ∧ type i' = type i ∧ parent i' = parent i
                          ∧ key i' = key i
                          ∧ display_text i' = display_text i
                          ∧ container_level i' = container_level i
                          ∧ metadata i' = metadata i
                          ∧ (∀ va, compilation_artist_node_ i = Some va →
                                   compilation_artist_node_ i' = Some va)
}.

(** [unreferenced m p]: no item has [p] as its compilation-artist node. *)
Definition unreferenced (m : CollectionModel) (p : ptr) : Prop :=
  ∀ q k, heap m !! q = Some k → compilation_artist_node_ k ≠ Some p.

(** The state after [new CollectionItem(ty, parent_)] followed by assignments
    to the new item ([fin]) and to the parent [p] ([finp]). *)
Definition allocated (ty : ItemType) (parent_ : ptr) (p : CollectionItem)
    (finp fin : CollectionItem → CollectionItem) (m : CollectionModel)
    : CollectionModel :=
  let item := next_ptr m in
  let new := mkItem ty (length (children p)) (Some parent_) [] EmptyString
                    EmptyString EmptyString (-1) None Song.empty in
  set_heap (<[parent_ := finp (set_children (children p ++ [item]) p)]>
              (<[item := fin new]> (heap m)))
           (set_next_ptr (S item) m).

(** An assignment to an existing item that [extends] and [wf] tolerate. *)
Definition keeps (f : CollectionItem → CollectionItem) : Prop :=
  ∀ i, type (f i) = type i ∧ parent (f i) = parent i ∧ key (f i) = key i
       ∧ display_text (f i) = display_text i
       ∧ container_level (f i) = container_level i
       ∧ metadata (f i) = metadata i
       ∧ sort_text (f i) = sort_text i.

(** The maps that only container and song insertions change. *)
Definition same_index (m m' : CollectionModel) : Prop :=
  container_nodes_1 m' = container_nodes_1 m
  ∧ container_nodes_2 m' = container_nodes_2 m
  ∧ song_nodes_ m' = song_nodes_ m.

(** What the descent of [SongsDiscovered] from level [i] guarantees about the
    container [c] it returns and the state [m'] it leaves: below the first
    level it touches neither the top-level map nor the dividers. *)
Definition descended (i : Z) (m : CollectionModel) (c : ptr) (m' : CollectionModel)
    : Prop :=
  wf m' ∧ extends m m' ∧ is_Some (heap m' !! c)
  ∧ song_nodes_ m' = song_nodes_ m
  ∧ ((0 < i)%Z → container_nodes_0 m' = container_nodes_0 m
                 ∧ divider_nodes_ m' = divider_nodes_ m).

(** [total c m Q]: run from [m], [c] returns normally, with a result and a
    final state related by [Q]. *)
Definition total {A} (c : CollectionModel → option (A * CollectionModel))
    (m : CollectionModel) (Q : A → CollectionModel → Prop) : Prop :=
  ∃ a m', c m = Some (a, m') ∧ Q a m'.

(** The redirection of a compilation [song] at level [i] below [container]
    (the item [c]): the descent goes on from the compilation-artist node [va]
    of [container]: the one it has, or a new Container "Various artists"
    created as its child; no container map and no divider changes. *)
Definition redirected_to_various `{Ext.Text} (n : nat) (i : Z) (song : Song.t)
    (container : ptr) (c : CollectionItem) (key0 : string) (m : CollectionModel)
    : Prop :=
  ∃ va v m1 c1,
    find_container (S n) i song container key0 m
    = find_container n (i + 1) song va (key v) m1
    ∧ wf m1 ∧ extends m m1
    ∧ heap m1 !! container = Some c1 ∧ compilation_artist_node_ c1 = Some va
    ∧ heap m1 !! va = Some v ∧ sort_text v = " various"
    ∧ container_nodes_0 m1 = container_nodes_0 m
    ∧ container_nodes_1 m1 = container_nodes_1 m
    ∧ container_nodes_2 m1 = container_nodes_2 m
    ∧ divider_nodes_ m1 = divider_nodes_ m
    ∧ song_nodes_ m1 = song_nodes_ m
    ∧ (∀ va0, compilation_artist_node_ c = Some va0 → va = va0 ∧ m1 = m)
    ∧ (compilation_artist_node_ c = None →
       va = next_ptr m
       ∧ key v = (if bool_decide (container ≠ root_ m) && negb (Qt.isEmpty (key c))
                  then key c else EmptyString) +:+ "Various artists"
       ∧ display_text v = "Various artists"
       ∧ type v = Type_Container ∧ parent v = Some container
       ∧ children v = []
       ∧ container_level v = (container_level c + 1)%Z).

(** What the insertion of a compilation [song] at an artist-like first level
    makes of [m]: the root has its compilation-artist node [va]: the one it
    had, or a new Container created for it; no top-level container is
    registered and no divider is made; the song node [leaf] is new, and is a
    child of the container [c] the descent from [va] returns.  That is [va]
    itself when there is no second level; with exactly one more level that
    is not artist-like it is the container registered under the key path of
    [va] and the record, a new child of [va] when none is registered. *)
Definition placed_under_various `{Ext.Text} (m : CollectionModel) (song : Song.t)
    (m' : CollectionModel) : Prop :=
  ∃ root root' va v leaf item c,
    heap m !! root_ m = Some root
    ∧ heap m' !! root_ m = Some root'
    ∧ compilation_artist_node_ root' = Some va
    ∧ heap m' !! va = Some v ∧ sort_text v = " various"
    ∧ (∀ va0, compilation_artist_node_ root = Some va0 → va = va0)
    ∧ (compilation_artist_node_ root = None →
       va = next_ptr m ∧ key v = "Various artists"
       ∧ display_text v = "Various artists"
       ∧ type v = Type_Container ∧ parent v = Some (root_ m)
       ∧ container_level v = (container_level root + 1)%Z)
    ∧ container_nodes_0 m' = container_nodes_0 m
    ∧ divider_nodes_ m' = divider_nodes_ m
    ∧ song_nodes_ m' = <[Song.id song := leaf]> (song_nodes_ m)
    ∧ heap m !! leaf = None
    ∧ heap m' !! leaf = Some item
    ∧ type item = Type_Song ∧ metadata item = song ∧ parent item = Some c
    ∧ is_Some (heap m' !! c)
    ∧ (second (group_by_ m) = GroupBy_None → c = va)
    ∧ (second (group_by_ m) ≠ GroupBy_None →
       IsArtistGroupBy (second (group_by_ m)) = false →
       third (group_by_ m) = GroupBy_None →
       let path := (if negb (Qt.isEmpty (key v)) then key v +:+ "-" else key v)
                   +:+ ContainerKey (second (group_by_ m)) song in
       match container_nodes_1 m !! path with
       | Some c1 => c = c1
       | None => container_nodes_1 m' !! path = Some c
                 ∧ ∃ ci, heap m' !! c = Some ci ∧ type ci = Type_Container
                         ∧ parent ci = Some va
       end).

(** Assignments that leave the place of an item in the tree alone, and
    assignments that change nothing but the compilation-artist node. *)
Definition keeps_shape (f : CollectionItem → CollectionItem) : Prop :=
  ∀ i, type (f i) = type i ∧ row (f i) = row i ∧ parent (f i) = parent i
       ∧ children (f i) = children i.

Definition keeps_node (f : CollectionItem → CollectionItem) : Prop :=
  ∀ i, type (f i) = type i ∧ row (f i) = row i ∧ parent (f i) = parent i
       ∧ children (f i) = children i ∧ key (f i) = key i
       ∧ display_text (f i) = display_text i ∧ sort_text (f i) = sort_text i
       ∧ container_level (f i) = container_level i ∧ metadata (f i) = metadata i.

(** Two items that are the same but for the sort text and the metadata other
    than the song id. *)
Definition alike (a b : CollectionItem) : Prop :=
  type a = type b ∧ row a = row b ∧ parent a = parent b
  ∧ children a = children b ∧ key a = key b
  ∧ display_text a = display_text b
  ∧ container_level a = container_level b
  ∧ compilation_artist_node_ a = compilation_artist_node_ b
  ∧ Song.id (metadata a) = Song.id (metadata b).

(** [consistent m]: the maps of the model agree with the tree.
    - the root is a Root item with the empty key and no parent, and the only
      item without a parent;
    - a container registered at level [i] under [k] is a live Container whose
      own key is [k] and whose level is [i];
    - a song node registered under an id is a live Song item that holds a
      song of that id;
    - a divider registered under [k] is a live Divider below the root, with
      key [k] and the display text of the first dimension for [k];
    - a compilation-artist node is a live Container below its owner, and is
      registered in no container map;
    - an item is the child of its parent at position [row], and a child at
      position [k] has row [k] and that parent; only the root and containers
      have children, and only the root has type Root;
    - a Container that is not the compilation-artist node of its parent has a
      level from 0 to 2. *)
Record consistent `{Ext.Text} (m : CollectionModel) : Prop := {
  cs_wf : wf m;
  cs_root : ∃ r, heap m !! root_ m = Some r ∧ type r = Type_Root
                 ∧ key r = EmptyString ∧ parent r = None;
  cs_containers : ∀ i nodes k c,
      container_nodes_ m i = Some nodes → nodes !! k = Some c →
      ∃ it, heap m !! c = Some it ∧ type it = Type_Container
            ∧ key it = k ∧ container_level it = i;
  cs_songs : ∀ id n,
      song_nodes_ m !! id = Some n →
      ∃ it, heap m !! n = Some it ∧ type it = Type_Song
            ∧ Song.id (metadata it) = id;
  cs_dividers : ∀ k d,
      divider_nodes_ m !! k = Some d →
      ∃ it, heap m !! d = Some it ∧ type it = Type_Divider ∧ key it = k
            ∧ parent it = Some (root_ m)
            ∧ display_text it = DividerDisplayText (first (group_by_ m)) k;
  cs_various : ∀ p i va,
      heap m !! p = Some i → compilation_artist_node_ i = Some va →
      ∃ v, heap m !! va = Some v ∧ type v = Type_Container ∧ parent v = Some p;
  cs_parent : ∀ c it p,
      heap m !! c = Some it → parent it = Some p →
      ∃ pi, heap m !! p = Some pi ∧ children pi !! row it = Some c;
  cs_children : ∀ p pi k c,
      heap m !! p = Some pi → children pi !! k = Some c →
      ∃ it, heap m !! c = Some it ∧ parent it = Some p ∧ row it = k;
  cs_orphan : ∀ c it, heap m !! c = Some it → parent it = None → c = root_ m;
  cs_fertile : ∀ p pi k c,
      heap m !! p = Some pi → children pi !! k = Some c →
      type pi = Type_Root ∨ type pi = Type_Container;
  cs_root_only : ∀ c it, heap m !! c = Some it → type it = Type_Root → c = root_ m;
  cs_unregistered : ∀ p i va l nodes k,
      heap m !! p = Some i → compilation_artist_node_ i = Some va →
      container_nodes_ m l = Some nodes → nodes !! k ≠ Some va;
  cs_level : ∀ c it p pi,
      heap m !! c = Some it → type it = Type_Container →
      parent it = Some p → heap m !! p = Some pi →
      compilation_artist_node_ pi ≠ Some c →
      (0 ≤ container_level it ≤ 2)%Z
}.

(** What [SimpleTreeItem::Delete] makes of the item [i] at [q] when the
    childless item [child], the child at position [r] of [parent_], is
    deleted: the parent loses that child, the later siblings move up by one
    row, and a compilation-artist pointer to [child] is null. *)
Definition shift (child parent_ : ptr) (r : nat) (q : ptr) (i : CollectionItem)
    : CollectionItem :=
  mkItem (type i)
         (if bool_decide (parent i = Some parent_ ∧ (r < row i)%nat)
          then (row i - 1)%nat else row i)
         (parent i)
         (if bool_decide (q = parent_) then delete r (children i) else children i)
         (key i) (display_text i) (sort_text i) (container_level i)
         (if bool_decide (compilation_artist_node_ i = Some child) then None
          else compilation_artist_node_ i)
         (metadata i).

Definition detached_heap (h : gmap ptr CollectionItem) (child parent_ : ptr)
    (r : nat) (h' : gmap ptr CollectionItem) : Prop :=
  ∀ q, h' !! q = if bool_decide (q = child) then None
                 else shift child parent_ r q <$> h !! q.

(** [detached m child parent_ r m']: [m'] is [m] without the item [child],
    and no map of [m'] has an entry that [m] does not have or that points to
    [child]. *)
Record detached (m : CollectionModel) (child parent_ : ptr) (r : nat)
    (m' : CollectionModel) : Prop := {
  dt_heap : detached_heap (heap m) child parent_ r (heap m');
  dt_next : next_ptr m' = next_ptr m;
  dt_root : root_ m' = root_ m;
  dt_group_by : group_by_ m' = group_by_ m;
  dt_show_dividers : show_dividers_ m' = show_dividers_ m;
  dt_query_options : query_options_ m' = query_options_ m;
  dt_now : now m' = now m;
  dt_containers : ∀ l nodes' k c,
      container_nodes_ m' l = Some nodes' → nodes' !! k = Some c →
      c ≠ child ∧ ∃ nodes, container_nodes_ m l = Some nodes ∧ nodes !! k = Some c;
  dt_songs : ∀ id n,
      song_nodes_ m' !! id = Some n → n ≠ child ∧ song_nodes_ m !! id = Some n;
  dt_dividers : ∀ k d,
      divider_nodes_ m' !! k = Some d → d ≠ child ∧ divider_nodes_ m !! k = Some d
}.

(** [m'] is [m] with items removed: every item left keeps what identifies it,
    and no map has an entry that [m] does not have. *)
Record pruned (m m' : CollectionModel) : Prop := {
  pr_root : root_ m' = root_ m;
  pr_next : next_ptr m' = next_ptr m;
  pr_group_by : group_by_ m' = group_by_ m;
  pr_show_dividers : show_dividers_ m' = show_dividers_ m;
  pr_query_options : query_options_ m' = query_options_ m;
  pr_now : now m' = now m;
  pr_heap : ∀ q i', heap m' !! q = Some i' →
      ∃ i, heap m !! q = Some i ∧ type i' = type i ∧ parent i' = parent i
           ∧ key i' = key i ∧ display_text i' = display_text i
           ∧ sort_text i' = sort_text i ∧ container_level i' = container_level i
           ∧ metadata i' = metadata i;
  pr_containers : ∀ l nodes' k c,
      container_nodes_ m' l = Some nodes' → nodes' !! k = Some c →
      ∃ nodes, container_nodes_ m l = Some nodes ∧ nodes !! k = Some c;
  pr_songs : ∀ id n, song_nodes_ m' !! id = Some n → song_nodes_ m !! id = Some n;
  pr_dividers : ∀ k d, divider_nodes_ m' !! k = Some d → divider_nodes_ m !! k = Some d
}.

(** Every pointer of [l] is a live container. *)
Definition live_containers (m : CollectionModel) (l : list ptr) : Prop :=
  ∀ p, p ∈ l → ∃ pi, heap m !! p = Some pi ∧ type pi = Type_Container.

(** [GroupByCount] is the number of dimensions, not a dimension. *)
Definition valid_grouping (g : Grouping) : Prop :=
  first g ≠ GroupByCount ∧ second g ≠ GroupByCount ∧ third g ≠ GroupByCount.

(** What one round of the loop of [SongsDiscovered] does for [song]: nothing
    when the song does not pass the filter or has a node already; otherwise
    one new Song item that holds the song is registered under its id, and
    no other registration of a song changes. *)
Definition discovered `{Ext.Text} (m : CollectionModel) (song : Song.t)
    (m' : CollectionModel) : Prop :=
  if negb (Matches (query_options_ m) (now m) song)
     || bool_decide (is_Some (song_nodes_ m !! Song.id song))
  then m' = m
  else ∃ leaf it,
         song_nodes_ m' = <[Song.id song := leaf]> (song_nodes_ m)
         ∧ heap m !! leaf = None
         ∧ heap m' !! leaf = Some it
         ∧ type it = Type_Song ∧ metadata it = song.

(** The states reached from a fresh model by insertions only. *)
Inductive inserted `{Ext.Text} (g : Grouping) (show_dividers : bool)
    (o : QueryOptions) (now : Z) : CollectionModel → Prop :=
| inserted_new : inserted g show_dividers o now (new_model g show_dividers o now)
| inserted_step m songs m' :
    inserted g show_dividers o now m →
    SongsDiscovered songs m = Some (tt, m') →
    inserted g show_dividers o now m'.

End Index.

(* ===================================================================== *)
(** ** The songs below an item *)
(* ===================================================================== *)

Module ChildSongs.
Import Model.

(** Items are allocated at increasing addresses, each below a parent that is
    there already: every live item is older than the allocation counter and
    younger than its parent. *)
Definition ordered (m : CollectionModel) : Prop :=
  ∀ c it, heap m !! c = Some it →
          (c < next_ptr m)%nat ∧ ∀ p, parent it = Some p → (p < c)%nat.

(** [c] keeps the items ordered whenever it returns. *)
Definition keeps_order {A} (c : M A) : Prop :=
  ∀ m a m', c m = Some (a, m') → ordered m → ordered m'.

(** Modelled from the spec: [CollectionItem::SortText()] is declared in
    simpletreeitem.h, which is not part of the sources; it returns the sort
    text of the item.  [CompareItems] compares the sort texts of two items
    as strings ([Role_SortText] is never an [int]). *)
Definition CompareItems (m : CollectionModel) (a b : ptr) : bool :=
  match heap m !! a, heap m !! b with
  | Some ia, Some ib =>
      match String.compare (sort_text ia) (sort_text ib) with
      | Lt => true
      | _ => false
      end
  | _, _ => false
  end.

(** What [GetChildSongs] collects: [urls], [songs] and the set [song_ids]. *)
Record Collected : Type := mkCollected {
  urls : list string;
  songs : SongList;
  song_ids : list Z
}.

(** One admissible [std::sort]: insertion from the left. *)
Fixpoint insert_sorted {A} (lt : A → A → bool) (x : A) (l : list A) : list A :=
  match l with
  | [] => [x]
  | y :: l' => if lt y x then y :: insert_sorted lt x l' else x :: l
  end.
Definition insertion_sort {A} (lt : A → A → bool) (l : list A) : list A :=
  foldr (insert_sorted lt) [] l.

Section Sorting.
(** [std::sort(first, last, comp)] puts the range in some order that [comp]
    accepts; which one, among equivalent elements, is not specified. *)
Variable sort : (ptr → ptr → bool) → list ptr → list ptr.

(** [GetChildSongs(item, urls, songs, song_ids)].  The recursion follows the
    children; [fuel] bounds its depth.  Sorting the children dereferences
    each of them, so a dangling child is a crash. *)
Fixpoint GetChildSongs (fuel : nat) (m : CollectionModel) (item : ptr)
    (acc : Collected) : option Collected :=
  match fuel with
  | O => None
  | S fuel' =>
      match heap m !! item with
      | None => None
      | Some i =>
          match type i with
          | Type_Container =>
              if forallb (λ c, bool_decide (is_Some (heap m !! c))) (children i) then
                let children := sort (CompareItems m) (children i) in
                fold_left (λ acc child,
                             match acc with
                             | Some acc => GetChildSongs fuel' m child acc
                             | None => None
                             end) children (Some acc)
              else None
          | Type_Song =>
              let urls := urls acc ++ [Song.url (metadata i)] in
              if bool_decide (Song.id (metadata i) ∈ song_ids acc)
              then Some (mkCollected urls (songs acc) (song_ids acc))
              else Some (mkCollected urls (songs acc ++ [metadata i])
                                     (song_ids acc ++ [Song.id (metadata i)]))
          | _ => Some acc
          end
      end
  end.

(** [GetChildSongs(indexes)] for the items that the indexes stand for; an
    item is at most as deep as there are addresses. *)
Definition GetChildSongs_of (m : CollectionModel) (items : list ptr)
    : option SongList :=
  songs <$> fold_left (λ acc item,
                         match acc with
                         | Some acc => GetChildSongs (next_ptr m) m item acc
                         | None => None
                         end) items (Some (mkCollected [] [] [])).

End Sorting.

(** [leaf] is [item] or is reached from it through the children of
    containers. *)
Inductive below (m : CollectionModel) : ptr → ptr → Prop :=
| below_refl item : below m item item
| below_child item i child leaf :
    heap m !! item = Some i → type i = Type_Container → child ∈ children i →
    below m child leaf → below m item leaf.

(** [song] is cached in a Song item at or below one of [items]. *)
Definition song_below (m : CollectionModel) (items : list ptr) (song : Song.t) : Prop :=
  ∃ item leaf it, item ∈ items ∧ below m item leaf ∧ heap m !! leaf = Some it
                  ∧ type it = Type_Song ∧ metadata it = song.

(** The list [songs] and the set [song_ids] agree, and no id is twice in the
    list. *)
Definition coherent (acc : Collected) : Prop :=
  NoDup (map Song.id (songs acc))
  ∧ ∀ id, id ∈ song_ids acc ↔ id ∈ map Song.id (songs acc).

(** From [acc] to [acc'], the songs at or below [items] were collected: every
    new song is cached there, and every id cached there is in the set. *)
Definition collected_from (m : CollectionModel) (items : list ptr)
    (acc acc' : Collected) : Prop :=
  coherent acc'
  ∧ (∀ s, s ∈ songs acc' → s ∈ songs acc ∨ song_below m items s)
  ∧ (∀ id, id ∈ song_ids acc'
           ↔ id ∈ song_ids acc ∨ ∃ s, song_below m items s ∧ Song.id s = id).

End ChildSongs.

(* ===================================================================== *)
(** ** The cache size setting *)
(* ===================================================================== *)

Module Cache.

Definition qint64_min : Z := - 2 ^ 63.
Definition qint64_max : Z := 2 ^ 63 - 1.

(** The loop [do { size *= 1024; unit -= 1; } while (unit > 0)] of
    [CollectionModel::MaximumCacheSize]; a product outside [qint64] is
    undefined behaviour, which is [None], as is running out of [fuel]. *)
Fixpoint scale (fuel : nat) (size unit : Z) : option Z :=
  match fuel with
  | O => None
  | S fuel' =>
      let size := size * 1024 in
      if (qint64_min <=? size) && (size <=? qint64_max) then
        let unit := unit - 1 in
        if 0 <? unit then scale fuel' size unit else Some size
      else None
  end.

(** [MaximumCacheSize(s, size_id, size_unit_id, cache_size_default)], from the
    two settings as [toInt()] reads them: the size, and the unit
    (0 for KB, 1 for MB, ...). *)
Definition MaximumCacheSize (size_setting unit_setting : Z) : option Z :=
  let size := size_setting in
  let unit := unit_setting + 1 in
  if Qt.int_max <? unit then None  (* [int] overflow of [toInt() + 1] *)
  else scale (S (Z.to_nat unit)) size unit.

End Cache.

(* ===================================================================== *)
(** ** CollectionQuery (collectionquery.cpp) *)
(* ===================================================================== *)

Module Query.

(** A [QVariant], as far as [CollectionQuery] tells its values apart. *)
Inductive QVariant : Type :=
| VInt (n : Z)                  (** [QMetaType::Int] *)
| VLongLong (n : Z)             (** [qint64] *)
| VString (s : option string)   (** a [QString]; [None] is the null string *)
| VStringList (l : list string).

(** [QVariant::toStringList]: a string list as it is, a string as the list
    of that one string, anything else as the empty list. *)
Definition toStringList (v : QVariant) : list string :=
  match v with
  | VStringList l => l
  | VString (Some s) => [s]
  | VString None => [EmptyString]
  | VInt _ | VLongLong _ => []
  end.

Inductive QueryMode : Type :=
| QueryMode_All | QueryMode_Duplicates | QueryMode_Untagged.

Global Instance QueryMode_eq_dec : EqDecision QueryMode.
Proof. solve_decision. Defined.

(** [QueryOptions], as far as the constructor of [CollectionQuery] reads it. *)
Record Options : Type := mkOptions { max_age : Z; query_mode : QueryMode }.

Record t : Type := mk {
  songs_table_ : string;
  column_spec_ : string;
  order_by_ : string;
  where_clauses_ : list string;
  bound_values_ : list QVariant;
  include_unavailable_ : bool;
  duplicates_only_ : bool;
  limit_ : Z
}.

Definition add_clause (clause : string) (values : list QVariant) (q : t) : t :=
  mk (songs_table_ q) (column_spec_ q) (order_by_ q) (where_clauses_ q ++ [clause])
     (bound_values_ q ++ values) (include_unavailable_ q) (duplicates_only_ q)
     (limit_ q).

(** The constructor; [now] is [QDateTime::currentDateTime().toSecsSinceEpoch()]. *)
Definition new (now : Z) (songs_table : string) (options : Options) : t :=
  let q0 := mk songs_table EmptyString EmptyString [] [] false false (-1) in
  let q1 := if bool_decide (max_age options ≠ -1)
            then add_clause "ctime > ?" [VLongLong (now - max_age options)] q0
            else q0 in
  let q2 := mk (songs_table_ q1) (column_spec_ q1) (order_by_ q1) (where_clauses_ q1)
               (bound_values_ q1) (include_unavailable_ q1)
               (bool_decide (query_mode options = QueryMode_Duplicates)) (limit_ q1) in
  if bool_decide (query_mode options = QueryMode_Untagged)
  then add_clause "(artist = '' OR album = '' OR title ='')" [] q2
  else q2.

Definition GetInnerQuery (q : t) : string :=
  if duplicates_only_ q then
    " INNER JOIN (select * from duplicated_songs) dsongs        "
    +:+ "ON (%songs_table.artist = dsongs.dup_artist       "
    +:+ "AND %songs_table.album = dsongs.dup_album     "
    +:+ "AND %songs_table.title = dsongs.dup_title)    "
  else EmptyString.

(** [op.compare("IN", Qt::CaseInsensitive) == 0] *)
Definition is_IN (op : string) : bool :=
  match op with
  | String a (String b EmptyString) =>
      (Ascii.eqb a "I" || Ascii.eqb a "i") && (Ascii.eqb b "N" || Ascii.eqb b "n")
  | _ => false
  end.

Definition AddWhere (column : string) (value : QVariant) (op : string) (q : t) : t :=
  (* Ignore 'literal' for IN *)
  if is_IN op then
    let values := toStringList value in
    let final := map (λ _ : string, "?") values in
    add_clause (column +:+ " IN (" +:+ String.concat "," final +:+ ")")
               (map (λ single_value, VString (Some single_value)) values) q
  else
    match value with
    | VInt n =>
        (* Do integers inline *)
        add_clause (column +:+ " " +:+ op +:+ " " +:+ Qt.number n) [] q
    | VString None =>
        add_clause (column +:+ " " +:+ op +:+ " ?") [VString (Some EmptyString)] q
    | _ => add_clause (column +:+ " " +:+ op +:+ " ?") [value] q
    end.

Definition AddWhereArtist (value : QVariant) (q : t) : t :=
  add_clause "((artist = ? AND albumartist = '') OR albumartist = ?)" [value; value] q.

Definition AddCompilationRequirement (compilation : bool) (q : t) : t :=
  add_clause ("+compilation_effective = " +:+ Qt.number (if compilation then 1 else 0))
             [] q.

(** [QString::replace(before, after)] for a non-empty [before]: the
    occurrences are replaced from left to right, and the text put in is not
    looked at again.  [skip] characters of the occurrence just replaced are
    still to be dropped. *)
Fixpoint replace_from (before after s : string) (skip : nat) : string :=
  match s with
  | EmptyString => EmptyString
  | String c s' =>
      match skip with
      | S k => replace_from before after s' k
      | O =>
          if Qt.startsWith s before
          then after +:+ replace_from before after s' (String.length before - 1)
          else String c (replace_from before after s' 0)
      end
  end.

Definition replace (before after s : string) : string := replace_from before after s 0.

(** The text that [Exec] prepares; the values it binds are [bound_values_],
    in their order. *)
Definition sql (q : t) : string :=
  let sql := "SELECT " +:+ column_spec_ q +:+ " FROM " +:+ songs_table_ q +:+ " "
             +:+ GetInnerQuery q in
  let where_clauses := if negb (include_unavailable_ q)
                       then where_clauses_ q ++ ["unavailable = 0"]
                       else where_clauses_ q in
  let sql := if negb (bool_decide (where_clauses = []))
             then sql +:+ " WHERE " +:+ String.concat " AND " where_clauses else sql in
  let sql := if negb (Qt.isEmpty (order_by_ q))
             then sql +:+ " ORDER BY " +:+ order_by_ q else sql in
  let sql := if bool_decide (limit_ q ≠ -1)
             then sql +:+ " LIMIT " +:+ Qt.number (limit_ q) else sql in
  replace "%songs_table" (songs_table_ q) sql.

(** The number of positional placeholders of a statement. *)
Fixpoint placeholders (s : string) : nat :=
  match s with
  | EmptyString => 0
  | String c s' => (if Ascii.eqb c "?" then 1 else 0) + placeholders s'
  end.

(** Every placeholder of the clauses has its value. *)
Definition well_bound (q : t) : Prop :=
  placeholders (String.concat " AND " (where_clauses_ q)) = length (bound_values_ q).

(** The query of [ForceCompilation] for an album and an artist. *)
Definition by_album_and_artist : t :=
  AddWhere "artist" (VString (Some "A")) "="
    (AddWhere "album" (VString (Some "X")) "="
       (mk "songs" ("ROWID, " +:+ "title, album, artist") EmptyString [] [] false false
           (-1))).

End Query.

(* ===================================================================== *)
(** ** What the manual compilation override leaves *)
(* ===================================================================== *)

Module Override.
Import Backend.

(** A song with the flags that [ForceCompilation(album, artists, on)] binds:
    [compilation_on = on], [compilation_off = !on]. *)
Definition force_song (on : bool) (s : Song.t) : Song.t :=
  Song.set_compilation_off (negb on) (Song.set_compilation_on on s).

(** The rows the UPDATE statements of [ForceCompilation] select, over all the
    artists of the call. *)
Definition selected (album : string) (artists : list string) (r : Row) : bool :=
  existsb (λ artist, album_artist_matches album artist r) artists.

(** The songs table with the selected rows overridden. *)
Definition forced_rows (album : string) (artists : list string) (on : bool)
    (rows : list Row) : list Row :=
  map (λ r, if selected album artists r then set_row_compilation_forced on r else r)
      rows.

(** The songs [ForceCompilation] reads "before they're updated", artist by
    artist: for the artist at position [i], the rows that match it in the
    table as the updates for the artists before it left it. *)
Definition reported (album : string) (artists : list string) (on : bool)
    (rows : list Row) : SongList :=
  concat (imap (λ i artist,
                  map InitFromQuery
                      (filter (λ r, album_artist_matches album artist r = true)
                              (forced_rows album (take i artists) on rows)))
               artists).

End Override.

(* ===================================================================== *)
(** ** The other entry points of the collection model *)
(* ===================================================================== *)

Module Lifecycle.
Import Model.

Section WithText.
Context `{Ext.Text}.

(** The body of the loop of [CollectionModel::SongsSlightlyChanged]:
    [if (song_nodes_.contains(song.id())) song_nodes_[song.id()]->metadata = song]. *)
Definition SongsSlightlyChanged_body (song : Song.t) : M unit :=
  bind get (λ m,
    match song_nodes_ m !! Song.id song with
    | Some node => update node (set_metadata song)
    | None => ret tt
    end).

Definition SongsSlightlyChanged (songs : SongList) : M unit :=
  for_each songs SongsSlightlyChanged_body.

(** [CollectionModel::set_show_dividers] *)
Definition set_show_dividers (show_dividers : bool) (m : CollectionModel)
    : CollectionModel :=
  if bool_decide (show_dividers ≠ show_dividers_ m) then
    Reset (mkModel (heap m) (next_ptr m) (root_ m) (group_by_ m)
                   (container_nodes_0 m) (container_nodes_1 m) (container_nodes_2 m)
                   (song_nodes_ m) (divider_nodes_ m) show_dividers
                   (query_options_ m) (now m))
  else m.

(** [CollectionModel::ResetAsyncFinished(songs, id)], where [init_id_] is the
    id of the last [Init]: the answer to an older [Init] is dropped. *)
Definition ResetAsyncFinished (songs : SongList) (id init_id_ : Z) : M unit :=
  if bool_decide (id ≠ init_id_) then ret tt
  else bind (modify Reset) (λ _, SongsDiscovered songs).

(** The states of the index: a new model, and what the slots connected to the
    backend's signals and the setters make of a state. *)
Inductive reachable (g : Grouping) (o : QueryOptions) (now : Z)
    : CollectionModel → Prop :=
| reachable_new show_dividers : reachable g o now (new_model g show_dividers o now)
| reachable_SongsDiscovered m songs m' :
    reachable g o now m → SongsDiscovered songs m = Some (tt, m') →
    reachable g o now m'
| reachable_SongsDeleted m songs m' :
    reachable g o now m → SongsDeleted songs m = Some (tt, m') →
    reachable g o now m'
| reachable_SongsSlightlyChanged m songs m' :
    reachable g o now m → SongsSlightlyChanged songs m = Some (tt, m') →
    reachable g o now m'
| reachable_Reset m : reachable g o now m → reachable g o now (Reset m)
| reachable_set_show_dividers m show_dividers :
    reachable g o now m → reachable g o now (set_show_dividers show_dividers m)
| reachable_ResetAsyncFinished m songs id init_id_ m' :
    reachable g o now m → ResetAsyncFinished songs id init_id_ m = Some (tt, m') →
    reachable g o now m'.

(** The [Song] that the node of [i] caches after [SongsSlightlyChanged songs]:
    the last song of the batch with its id, if there is one. *)
Definition refreshed_metadata (songs : SongList) (i : CollectionItem) : Song.t :=
  default (metadata i)
          (last (filter (λ s, Song.id s = Song.id (metadata i)) songs)).

(** [m'] is [m] with the cached songs of the registered nodes refreshed from
    [songs], and nothing else changed. *)
Definition refreshed (songs : SongList) (m m' : CollectionModel) : Prop :=
  m' = set_heap (heap m') m
  ∧ ∀ q, heap m' !! q
         = (λ i, if bool_decide (song_nodes_ m !! Song.id (metadata i) = Some q)
                 then set_metadata (refreshed_metadata songs i) i else i)
           <$> heap m !! q.

(** The first song of the batch with the id [id] that passes the filter. *)
Definition first_match (o : QueryOptions) (now : Z) (id : Z) (songs : SongList)
    : option Song.t :=
  head (filter (λ s, Song.id s = id ∧ Matches o now s = true) songs).

(** What [SongsDiscovered songs] registers: what was registered stays, with
    the song it had; exactly the ids of the songs of the batch that pass the
    filter are added; and a new id gets a Song item that holds the first
    such song of the batch. *)
Definition registered_after (songs : SongList) (m m' : CollectionModel) : Prop :=
  (∀ id n it, song_nodes_ m !! id = Some n → heap m !! n = Some it →
              song_nodes_ m' !! id = Some n
              ∧ ∃ it', heap m' !! n = Some it' ∧ metadata it' = metadata it)
  ∧ (∀ id, is_Some (song_nodes_ m' !! id)
           ↔ is_Some (song_nodes_ m !! id)
             ∨ ∃ song, song ∈ songs ∧ Song.id song = id
                       ∧ Matches (query_options_ m) (Model.now m) song = true)
  ∧ (∀ id song,
       song_nodes_ m !! id = None →
       first_match (query_options_ m) (Model.now m) id songs = Some song →
       ∃ n it, song_nodes_ m' !! id = Some n ∧ heap m' !! n = Some it
               ∧ type it = Type_Song ∧ metadata it = song).

(** The level and the key under which the loop of [SongsDiscovered] looks up
    or registers the last container for [song], entered at level [i] with the
    key [key] and [n] levels left; [at_] when the loop ends at once. *)
Fixpoint key_path (g : Grouping) (song : Song.t) (n : nat) (i : Z) (key : string)
    (at_ : option (Z * string)) : option (Z * string) :=
  match n with
  | O => at_
  | S n' =>
      let type := Grouping_at g i in
      if bool_decide (type = GroupBy_None) then at_
      else
        let key := if negb (Qt.isEmpty key) then key +:+ "-" else key in
        let key := key +:+ ContainerKey type song in
        key_path g song n' (i + 1) key (Some (i, key))
  end.

(** No level of the grouping sends [song] to a compilation-artist node. *)
Definition plain (g : Grouping) (song : Song.t) : Prop :=
  ∀ i, IsArtistGroupBy (Grouping_at g i) && Song.is_compilation song = false.

(** [c] is the root, or the container registered at a level under a key. *)
Definition filed_at (m : CollectionModel) (c : ptr) (at_ : option (Z * string))
    : Prop :=
  match at_ with
  | None => c = root_ m
  | Some (l, k) => ∃ nodes, container_nodes_ m l = Some nodes ∧ nodes !! k = Some c
  end.

(** Every container registered in [m] is registered in [m'], at the same
    level under the same key. *)
Definition registrations_kept (m m' : CollectionModel) : Prop :=
  ∀ l nodes k c, container_nodes_ m l = Some nodes → nodes !! k = Some c →
                 ∃ nodes', container_nodes_ m' l = Some nodes' ∧ nodes' !! k = Some c.

(** Where the loop body of [SongsDiscovered] files a new [song] that no level
    redirects: in a new Song item below the container that is registered
    under the key path of the song, with the title as display text and
    disc, track and url as sort text. *)
Definition filed (m : CollectionModel) (song : Song.t) (m' : CollectionModel) : Prop :=
  ∃ leaf it c,
    song_nodes_ m' = <[Song.id song := leaf]> (song_nodes_ m)
    ∧ heap m !! leaf = None
    ∧ heap m' !! leaf = Some it
    ∧ type it = Type_Song ∧ metadata it = song
    ∧ parent it = Some c
    ∧ display_text it = Ext.TitleWithCompilationArtist song
    ∧ sort_text it = SortTextForSong song
    ∧ filed_at m' c (key_path (group_by_ m) song 3 0 EmptyString None)
    ∧ registrations_kept m m'.

(** What [SongsDeleted songs] unregisters. *)
Definition unregistered_after (songs : SongList) (m m' : CollectionModel) : Prop :=
  ∀ id, song_nodes_ m' !! id
        = if bool_decide (id ∈ map Song.id songs) then None
          else song_nodes_ m !! id.

End WithText.

End Lifecycle.


(* ===================================================================== *)
(** ** Concrete collections *)
(* ===================================================================== *)

Module Examples.
Import Backend.

(** A valid song with the given identity and tags; everything else as in
    [Song()]. *)
Definition track (id : Z) (song_id artist album url : string) : Song.t :=
  let e := EmptyString in
  Song.mk id true song_id "title" album artist e e (-1) (-1) (-1) (-1) e e e e
          url (-1) 0 (-1) (-1) (-1) false false false false false (-1) (-1) 0 0 (-1).

(** A backend without directories table, with the given rows. *)
Definition world_of (rows : list Song.t) : World :=
  mkWorld (mkDb (map (λ s, BindToQuery s (Song.id s)) rows) [] []) EmptyString [] [] [].

(** Two persisted records, one of them with song_id "abc". *)
Definition two_records : World :=
  world_of [track 1 "abc" "Artist" "Old album" "/music/a.mp3";
            track 2 "xyz" "Artist" "Other album" "/music/b.mp3"].

(** A candidate that carries the internal id of the second record and the
    song_id of the first. *)
Definition candidate_id2_abc : Song.t :=
  track 2 "abc" "Artist" "New album" "/music/a.mp3".

(** A candidate that was never persisted and has no song_id. *)
Definition fresh_candidate : Song.t :=
  track (-1) EmptyString "Artist" "Album" "/music/c.mp3".

(** A candidate with song_id "abc" whose metadata equals the persisted
    record. *)
Definition unchanged_abc : Song.t :=
  track (-1) "abc" "Artist" "Old album" "/music/a.mp3".

(** A whole-library batch keyed by song_id: "abc" with a new album, and a
    song that is not persisted yet; "xyz" is gone. *)
Definition new_library : QMap.t Song.t :=
  QMap.insert "abc" (track (-1) "abc" "Artist" "New album" "/music/a.mp3")
    (QMap.insert "new" (track (-1) "new" "Artist" "Album" "/music/n.mp3") []).

(** Two records in two different directories, by two artists; each is alone
    in its directory and album, and "/m/a/" followed by "x" reads the same as
    "/m/" followed by "a/x". *)
Definition two_directories : World :=
  world_of [track 1 EmptyString "P" "x" "/m/a/1.mp3";
            track 2 EmptyString "Q" "a/x" "/m/2.mp3"].

(** The two records again, on a connection whose second statement fails. *)
Definition second_statement_fails : World :=
  mkWorld (db two_records) EmptyString [true; false] [] [].

(** Scenario A: two records of one album in one directory, by two artists. *)
Definition scenario_A : World :=
  world_of [track 1 EmptyString "A" "X" "/music/x/1.mp3";
            track 2 EmptyString "B" "X" "/music/x/2.mp3"].

(** One persisted record with song_id "a", and a candidate that was never
    persisted whose song_id holds two quotes and a comma. *)
Definition one_record : World :=
  world_of [track 1 "a" "Artist" "Old album" "/music/a.mp3"].
Definition candidate_quoted : Song.t :=
  track (-1) "a','b" "Artist" "New album" "/music/a.mp3".


End Examples.

(** Indexes built with the Latin-1 text library. *)
Module IndexExamples.
Import Model.

Definition options_all : QueryOptions := mkQueryOptions (-1) None.

Definition by_albumartist_album : Grouping :=
  mkGrouping GroupBy_AlbumArtist GroupBy_Album GroupBy_None.
Definition by_albumartist : Grouping :=
  mkGrouping GroupBy_AlbumArtist GroupBy_None GroupBy_None.
Definition by_year : Grouping :=
  mkGrouping GroupBy_Year GroupBy_None GroupBy_None.

(** The index as constructed, with dividers shown. *)
Definition empty_index (g : Grouping) : CollectionModel :=
  new_model g true options_all 0.

(** The state a command leaves; the state it started from if it fails. *)
Definition state_after {A} (c : M A) (m : CollectionModel) : CollectionModel :=
  match c m with Some (_, m') => m' | None => m end.

(** What the view shows of the item at [p]. *)
Definition node_view (m : CollectionModel) (p : ptr)
    : option (ItemType * option ptr * list ptr * string * string * string) :=
  (λ i, (type i, parent i, children i, key i, display_text i, sort_text i))
    <$> heap m !! p.

(** Scenario B: a track with compilation_on, artist "A", no album artist. *)
Definition compilation_track : Song.t :=
  Song.set_compilation_on true (Examples.track 1 EmptyString "A" "X" "/music/x/1.mp3").

Definition scenario_B : CollectionModel :=
  state_after (SongsDiscovered (H := Latin1.text) [compilation_track])
              (empty_index by_albumartist_album).

(** A record that was never inserted. *)
Definition unknown_track : Song.t :=
  Examples.track 7 EmptyString "B" "Y" "/music/y/7.mp3".

(** Scenario C: records with the shared album artist "A". *)
Definition shared_artist_track (k : nat) : Song.t :=
  Examples.track (Z.of_nat k) EmptyString "A" "X" "/music/x/1.mp3".
Definition shared_artist (from n : nat) : SongList :=
  map shared_artist_track (seq from n).

Definition scenario_C_500 : CollectionModel :=
  state_after (SongsDiscovered (H := Latin1.text) (shared_artist 1 500))
              (empty_index by_albumartist).
Definition scenario_C_1 : CollectionModel :=
  state_after (SongsDeleted (H := Latin1.text) (shared_artist 1 499)) scenario_C_500.
Definition scenario_C_0 : CollectionModel :=
  state_after (SongsDeleted (H := Latin1.text) (shared_artist 500 1)) scenario_C_1.

(** One record of the year 1999 in an index grouped by year. *)
Definition track_of_1999 : Song.t :=
  Song.set_year 1999 (Examples.track 1 EmptyString "A" "X" "/music/x/1.mp3").

Definition year_index : CollectionModel :=
  state_after (SongsDiscovered (H := Latin1.text) [track_of_1999]) (empty_index by_year).
Definition year_index_emptied : CollectionModel :=
  state_after (SongsDeleted (H := Latin1.text) [track_of_1999]) year_index.

(** Top-level items for the divider keys: a name that starts with a digit,
    one that starts with an accented letter, and the compilation-artist
    node's sort text. *)
Definition item_sorted_as (s : string) : CollectionItem :=
  mkItem Type_Container 0%nat None [] EmptyString EmptyString s 0 None Song.empty.

End IndexExamples.

Module OrderExamples.
Import Model.

(** Two records of the years 1999 and 2005 in an index grouped by year. *)
Definition track_of_2005 : Song.t :=
  Song.set_year 2005 (Examples.track 2 EmptyString "B" "Y" "/music/y/2.mp3").

Definition two_years : CollectionModel :=
  IndexExamples.state_after
    (SongsDiscovered (H := Latin1.text) [track_of_2005; IndexExamples.track_of_1999])
    (IndexExamples.empty_index IndexExamples.by_year).

End OrderExamples.

Module KeyPathExamples.
Import Model.

(** A record whose album artist is literally "Various artists", album "X". *)
Definition various_named_track : Song.t :=
  Song.set_albumartist "Various artists"
    (Examples.track 2 EmptyString "B" "X" "/music/x/2.mp3").

(** The index grouped by album artist and album after that record, and after
    the compilation track of Scenario B was delivered next. *)
Definition literal_various : CollectionModel :=
  IndexExamples.state_after
    (SongsDiscovered (H := Latin1.text) [various_named_track])
    (IndexExamples.empty_index IndexExamples.by_albumartist_album).

Definition literal_various_B : CollectionModel :=
  IndexExamples.state_after
    (SongsDiscovered (H := Latin1.text) [IndexExamples.compilation_track])
    literal_various.

End KeyPathExamples.

(* ===================================================================== *)
(** ** Reasoning about backend slots *)
(* ===================================================================== *)

Module BackendLogic.
Import Backend Spec.

Lemma preserves_ret {A} (I : Db → Prop) (a : A) : preserves I (ret a).
Proof. intros w Hw. exact Hw. Qed.

Lemma preserves_early_return {A} (I : Db → Prop) : preserves I (@early_return A).
Proof. intros w Hw. exact Hw. Qed.

Lemma preserves_get_db (I : Db → Prop) : preserves I get_db.
Proof. intros w Hw. exact Hw. Qed.

Lemma preserves_bind {A C} (I : Db → Prop) (c : B A) (k : A → B C) :
  preserves I c → (∀ a, preserves I (k a)) → preserves I (bind c k).
Proof.
  intros Hc Hk w Hw. unfold bind.
  specialize (Hc w Hw). destruct (c w) as [[a|] w']; simpl in *.
  - apply Hk, Hc.
  - exact Hc.
Qed.

Lemma preserves_Exec (I : Db → Prop) (s : Stmt) (effect : Db → Db) :
  (∀ d, I d → I (effect d)) → preserves I (Exec s effect).
Proof.
  intros He w Hw. unfold Exec.
  destruct (pending w) as [|[] r]; simpl; auto.
Qed.

Lemma preserves_exec_or_return (I : Db → Prop) (s : Stmt) (effect : Db → Db) :
  (∀ d, I d → I (effect d)) → preserves I (exec_or_return s effect).
Proof.
  intros He. apply preserves_bind; [by apply preserves_Exec|].
  intros []; [apply preserves_ret | apply preserves_early_return].
Qed.

Lemma preserves_for_each {A S} (I : Db → Prop) (l : list A) (body : A → S → B S) :
  (∀ x s, preserves I (body x s)) → ∀ s, preserves I (for_each l body s).
Proof.
  intros Hb. induction l as [|x l IH]; intros s; simpl.
  - apply preserves_ret.
  - apply preserves_bind; [apply Hb | apply IH].
Qed.

Lemma preserves_if {A} (I : Db → Prop) (b : bool) (c1 c2 : B A) :
  preserves I c1 → preserves I c2 → preserves I (if b then c1 else c2).
Proof. by destruct b. Qed.

Lemma preserves_run_transaction {A} (I : Db → Prop) (c : B A) :
  preserves I c → ∀ w, I (db w) → I (db (snd (run_transaction c w))).
Proof.
  intros Hc w Hw. unfold run_transaction.
  specialize (Hc w Hw). destruct (c w) as [[a|] w']; simpl in *; auto.
Qed.

Lemma db_emit (s : Signal) (w : World) : db (emit s w) = db w.
Proof. reflexivity. Qed.

Lemma db_emit_delta (acc : Delta) (w : World) : db (emit_delta acc w) = db w.
Proof. unfold emit_delta. repeat case_bool_decide; reflexivity. Qed.

End BackendLogic.

(* ===================================================================== *)
(** ** The compilation invariant *)
(* ===================================================================== *)

Module CompilationInvariant.
Import Backend BackendLogic Spec.

Lemma set_row_compilation_detected_inv (detected : bool) (r : Row) :
  compilation_invariant (set_row_compilation_detected detected r).
Proof. reflexivity. Qed.

Lemma set_row_compilation_forced_inv (on : bool) (r : Row) :
  compilation_invariant (set_row_compilation_forced on r).
Proof. reflexivity. Qed.

Lemma BindToQuery_inv (s : Song.t) (rowid : Z) :
  compilation_invariant (BindToQuery s rowid).
Proof. reflexivity. Qed.

Lemma Forall_map_if {A} (P : A → Prop) (c : A → bool) (f : A → A) (l : list A) :
  (∀ x, P (f x)) → Forall P l → Forall P (map (λ x, if c x then f x else x) l).
Proof.
  intros Hf Hl. apply Forall_map. eapply Forall_impl; [exact Hl|].
  intros x Hx. simpl. destruct (c x); auto.
Qed.

Lemma sql_update_song_inv id s d :
  table_invariant d → table_invariant (sql_update_song id s d).
Proof.
  unfold table_invariant, sql_update_song. simpl. intros Hd.
  apply Forall_map. eapply Forall_impl; [exact Hd|].
  intros r Hr. simpl. destruct (ROWID r =? id); [apply BindToQuery_inv | exact Hr].
Qed.

Lemma sql_insert_song_inv s d :
  table_invariant d → table_invariant (sql_insert_song s d).
Proof.
  unfold table_invariant, sql_insert_song. simpl. intros Hd.
  apply Forall_app. split; [exact Hd|].
  constructor; [apply BindToQuery_inv | constructor].
Qed.

Lemma sql_delete_song_inv id d :
  table_invariant d → table_invariant (sql_delete_song id d).
Proof.
  unfold table_invariant, sql_delete_song. simpl. intros Hd.
  rewrite Forall_forall in Hd. apply Forall_forall. intros r Hr.
  apply list_elem_of_filter in Hr. apply Hd, Hr.
Qed.

Lemma sql_update_compilation_detected_inv url detected d :
  table_invariant d → table_invariant (sql_update_compilation_detected url detected d).
Proof.
  unfold table_invariant, sql_update_compilation_detected. simpl.
  apply Forall_map_if. apply set_row_compilation_detected_inv.
Qed.

Lemma sql_update_compilation_forced_inv album artist on d :
  table_invariant d → table_invariant (sql_update_compilation_forced album artist on d).
Proof.
  unfold table_invariant, sql_update_compilation_forced. simpl.
  apply Forall_map_if. apply set_row_compilation_forced_inv.
Qed.

Create HintDb inv.
Local Hint Resolve preserves_ret preserves_early_return preserves_get_db
  sql_update_song_inv sql_insert_song_inv sql_delete_song_inv
  sql_update_compilation_detected_inv sql_update_compilation_forced_inv : inv.

Ltac preserve :=
  repeat first
    [ progress intros
    | apply preserves_ret | apply preserves_early_return | apply preserves_get_db
    | apply preserves_bind
    | apply preserves_exec_or_return
    | apply preserves_Exec
    | apply preserves_for_each
    | apply preserves_if
    | match goal with
      | |- preserves _ (match ?x with _ => _ end) => destruct x
      end
    | solve [eauto with inv] ].

Lemma GetSongById_preserves id : preserves table_invariant (GetSongById id).
Proof. unfold GetSongById, GetSongsById. preserve. Qed.

Lemma GetSongBySongId_preserves sid : preserves table_invariant (GetSongBySongId sid).
Proof. unfold GetSongBySongId, GetSongsBySongId. preserve. Qed.

Lemma check_dir_preserves song : preserves table_invariant (check_dir song).
Proof.
  intros w Hw. unfold check_dir.
  destruct (negb (Qt.isEmpty (dirs_table_ w))); [|exact Hw].
  revert w Hw. change (preserves table_invariant
    (bind get_db (λ d, bind (exec_or_return (SELECT_dir (Song.directory_id song)) (λ d, d))
       (λ _, ret (bool_decide (Song.directory_id song ∈ dirs d)))))).
  preserve.
Qed.

Lemma create_new_song_preserves song acc :
  preserves table_invariant (create_new_song song acc).
Proof. unfold create_new_song. preserve. Qed.

Lemma AddOrUpdateSongs_body_preserves song acc :
  preserves table_invariant (AddOrUpdateSongs_body song acc).
Proof.
  unfold AddOrUpdateSongs_body.
  apply preserves_bind; [apply check_dir_preserves|]. intros dir_exists.
  apply preserves_if; [preserve|].
  apply preserves_if.
  - apply preserves_bind; [apply GetSongById_preserves|]. preserve.
  - apply preserves_if.
    + apply preserves_bind; [apply GetSongBySongId_preserves|]. intros old.
      apply preserves_if; [preserve | apply create_new_song_preserves].
    + apply create_new_song_preserves.
Qed.

Lemma AddOrUpdateSongs_inv songs w :
  table_invariant (db w) → table_invariant (db (AddOrUpdateSongs songs w)).
Proof.
  intros Hw. unfold AddOrUpdateSongs.
  pose proof (preserves_run_transaction table_invariant
    (for_each songs AddOrUpdateSongs_body (mkDelta [] []))
    (preserves_for_each _ _ _ AddOrUpdateSongs_body_preserves _) w Hw) as Ht.
  destruct (run_transaction _ w) as [[acc|] w']; simpl in Ht.
  - by rewrite db_emit_delta.
  - exact Ht.
Qed.

Lemma UpdateSongsBySongID_inv new_songs w :
  table_invariant (db w) → table_invariant (db (UpdateSongsBySongID new_songs w)).
Proof.
  intros Hw. unfold UpdateSongsBySongID.
  assert (preserves table_invariant (UpdateSongsBySongID_run new_songs)) as Hp.
  { unfold UpdateSongsBySongID_run, ExecCollectionQuery_SongMap,
      UpdateSongsBySongID_add, UpdateSongsBySongID_delete. preserve. }
  pose proof (preserves_run_transaction _ _ Hp w Hw) as Ht.
  destruct (run_transaction _ w) as [[acc|] w']; simpl in Ht.
  - by rewrite db_emit_delta.
  - exact Ht.
Qed.

Lemma CompilationsNeedUpdating_inv w :
  table_invariant (db w) → table_invariant (db (CompilationsNeedUpdating w)).
Proof.
  intros Hw. unfold CompilationsNeedUpdating.
  pose proof (preserves_Exec table_invariant SELECT_compilation_info (λ d, d)
                (λ d Hd, Hd) w Hw) as H1.
  destruct (Exec SELECT_compilation_info _ w) as [[[]|] w1]; simpl in *; try exact H1.
  match goal with |- context [run_transaction ?c w1] =>
    assert (preserves table_invariant c) as Hp end.
  { unfold mark_info, mark_url, UpdateCompilations. preserve. }
  pose proof (preserves_run_transaction _ _ Hp w1 H1) as Ht.
  destruct (run_transaction _ w1) as [[acc|] w2]; simpl in *; [|exact Ht].
  case_bool_decide; [exact Ht | exact Ht].
Qed.

Lemma ForceCompilation_inv album artists on w :
  table_invariant (db w) → table_invariant (db (ForceCompilation album artists on w)).
Proof.
  intros Hw. unfold ForceCompilation.
  match goal with |- context [for_each ?l ?b ?s w] =>
    assert (preserves table_invariant (for_each l b s)) as Hp end.
  { unfold ForceCompilation_body, select_by_album. preserve. }
  specialize (Hp w Hw).
  destruct (for_each _ _ _ w) as [[acc|] w']; simpl in *; [|exact Hp].
  case_bool_decide; exact Hp.
Qed.

(** C5. Every operation that writes a compilation flag keeps
    compilation_effective = (compilation OR compilation_detected OR
    compilation_on) AND NOT compilation_off: the classifier's per-row update
    and the manual override recompute the column by this formula on every row
    they touch, whatever its value was before, rows are persisted with the
    column bound to the same formula, and so a table that satisfies the
    invariant satisfies it after a reconciliation, after a classifier pass and
    after a manual override. *)
Theorem C5_compilation_effective_invariant (w : World)
    (Hw : table_invariant (db w)) :
  (∀ detected r, compilation_invariant (set_row_compilation_detected detected r))
  ∧ (∀ on r, compilation_invariant (set_row_compilation_forced on r))
  ∧ (∀ s rowid, compilation_invariant (BindToQuery s rowid))
  ∧ table_invariant (db (CompilationsNeedUpdating w))
  ∧ (∀ album artists on, table_invariant (db (ForceCompilation album artists on w)))
  ∧ (∀ songs, table_invariant (db (AddOrUpdateSongs songs w))
              ∧ table_invariant (db (CompilationsNeedUpdating (AddOrUpdateSongs songs w))))
  ∧ (∀ new_songs, table_invariant (db (UpdateSongsBySongID new_songs w))).
Proof.
  repeat split.
  - by apply CompilationsNeedUpdating_inv.
  - intros. by apply ForceCompilation_inv.
  - by apply AddOrUpdateSongs_inv.
  - by apply CompilationsNeedUpdating_inv, AddOrUpdateSongs_inv.
  - intros. by apply UpdateSongsBySongID_inv.
Qed.

Lemma C5_compilation_effective_invariant_witness :
  table_invariant (db (CompilationsNeedUpdating Examples.scenario_A))
  ∧ table_invariant (db (ForceCompilation "X" ["A"] true Examples.scenario_A)).
Proof.
  assert (Hw : table_invariant (db Examples.scenario_A)).
  { vm_compute. repeat constructor. }
  pose proof (C5_compilation_effective_invariant Examples.scenario_A Hw)
    as (_ & _ & _ & Hc & Hf & _).
  split; [exact Hc | apply Hf].
Defined.

End CompilationInvariant.

(* ===================================================================== *)
(** ** Failed writes and the transaction *)
(* ===================================================================== *)

Module Transaction.
Import Backend BackendLogic Spec.

Local Arguments emit_delta : simpl never.

Lemma writes_succeeded_nil : writes_succeeded [].
Proof. intros s b Hin. by apply elem_of_nil in Hin. Qed.

Lemma writes_succeeded_app l1 l2 :
  writes_succeeded l1 → writes_succeeded l2 → writes_succeeded (l1 ++ l2).
Proof.
  intros H1 H2 s b Hin Hw. apply elem_of_app in Hin as [Hin|Hin]; eauto.
Qed.

Lemma writes_succeeded_read s b : is_write s = false → writes_succeeded [(s, b)].
Proof.
  intros Hr s' b' Hin Hw. apply list_elem_of_singleton in Hin.
  inversion Hin; subst. congruence.
Qed.

Lemma writes_succeeded_ok s : writes_succeeded [(s, true)].
Proof.
  intros s' b' Hin Hw. apply list_elem_of_singleton in Hin. by inversion Hin.
Qed.

Lemma tracked_ret {A} (a : A) : tracked (ret a).
Proof.
  intros w. split; [done|]. exists []. rewrite app_nil_r.
  split; [done|]. intros _ _. apply writes_succeeded_nil.
Qed.

Lemma tracked_early_return {A} : tracked (@early_return A).
Proof.
  intros w. split; [done|]. exists []. rewrite app_nil_r.
  split; [done|]. intros a Ha. discriminate Ha.
Qed.

Lemma tracked_get_db : tracked get_db.
Proof.
  intros w. split; [done|]. exists []. rewrite app_nil_r.
  split; [done|]. intros _ _. apply writes_succeeded_nil.
Qed.

Lemma tracked_bind {A C} (c : B A) (k : A → B C) :
  tracked c → (∀ a, tracked (k a)) → tracked (bind c k).
Proof.
  intros Hc Hk w. unfold bind.
  destruct (Hc w) as [He (l1 & Hl1 & Hok1)].
  destruct (c w) as [[a|] w'] eqn:Hcw; simpl in *.
  - destruct (Hk a w') as [He2 (l2 & Hl2 & Hok2)].
    split; [congruence|]. exists (l1 ++ l2).
    split; [by rewrite Hl2, Hl1, app_assoc|].
    intros c' Hc'. apply writes_succeeded_app; eauto.
  - split; [done|]. exists l1. split; [done|]. intros a Ha. discriminate Ha.
Qed.

Lemma tracked_Exec_read s effect : is_write s = false → tracked (Exec s effect).
Proof.
  intros Hr w. unfold Exec.
  destruct (pending w) as [|b r]; simpl; (split; [done|]);
    eexists; (split; [reflexivity|]); intros _ _; by apply writes_succeeded_read.
Qed.

Lemma tracked_exec_or_return s effect : tracked (exec_or_return s effect).
Proof.
  intros w. unfold exec_or_return, bind, Exec.
  destruct (pending w) as [|[] r]; simpl; (split; [done|]);
    eexists; (split; [reflexivity|]); intros a Ha;
    first [apply writes_succeeded_ok | discriminate Ha].
Qed.

Lemma tracked_for_each {A S} (l : list A) (body : A → S → B S) :
  (∀ x s, tracked (body x s)) → ∀ s, tracked (for_each l body s).
Proof.
  intros Hb. induction l as [|x l IH]; intros s; simpl.
  - apply tracked_ret.
  - apply tracked_bind; [apply Hb | apply IH].
Qed.

Lemma tracked_if {A} (b : bool) (c1 c2 : B A) :
  tracked c1 → tracked c2 → tracked (if b then c1 else c2).
Proof. by destruct b. Qed.

Ltac track :=
  repeat first
    [ progress intros
    | apply tracked_ret | apply tracked_early_return | apply tracked_get_db
    | apply tracked_exec_or_return
    | apply tracked_bind
    | apply tracked_Exec_read; reflexivity
    | apply tracked_for_each
    | apply tracked_if
    | match goal with
      | |- tracked (match ?x with _ => _ end) => destruct x
      end ].

Lemma tracked_check_dir song : tracked (check_dir song).
Proof.
  intros w. unfold check_dir.
  destruct (negb (Qt.isEmpty (dirs_table_ w))).
  - revert w. change (tracked
      (bind get_db (λ d, bind (exec_or_return (SELECT_dir (Song.directory_id song)) (λ d, d))
         (λ _, ret (bool_decide (Song.directory_id song ∈ dirs d)))))).
    track.
  - apply tracked_ret.
Qed.

Lemma tracked_AddOrUpdateSongs_body song acc : tracked (AddOrUpdateSongs_body song acc).
Proof.
  unfold AddOrUpdateSongs_body.
  apply tracked_bind; [apply tracked_check_dir|].
  unfold GetSongById, GetSongsById, GetSongBySongId, GetSongsBySongId, create_new_song.
  track.
Qed.

Lemma tracked_UpdateSongsBySongID_run new_songs :
  tracked (UpdateSongsBySongID_run new_songs).
Proof.
  unfold UpdateSongsBySongID_run, ExecCollectionQuery_SongMap,
    UpdateSongsBySongID_add, UpdateSongsBySongID_delete.
  track.
Qed.

Lemma emitted_set_db d w : emitted (set_db d w) = emitted w.
Proof. reflexivity. Qed.

Lemma log_emit_delta acc w : log (emit_delta acc w) = log w.
Proof. unfold emit_delta. repeat case_bool_decide; reflexivity. Qed.

(** A slot that runs its body in a transaction and emits its delta only after
    the commit. *)
Lemma failed_write_rolls_back (c : B Delta) (w : World) (l : list (Stmt * bool)) :
  tracked c →
  let w' := match run_transaction c w with
            | (Ok acc, w1) => emit_delta acc w1
            | (Returned, w1) => w1
            end in
  log w' = log w ++ l → a_write_failed l →
  db w' = db w ∧ emitted w' = emitted w.
Proof.
  intros Hc w' Hlog (s & Hin & Hw). subst w'. unfold run_transaction in *.
  destruct (Hc w) as [He (l1 & Hl1 & Hok)].
  destruct (c w) as [[acc|] w1]; cbn [fst snd] in He, Hl1, Hok;
    cbv beta iota in Hlog |- *.
  - rewrite log_emit_delta, Hl1 in Hlog. apply app_inv_head in Hlog. subst l1.
    specialize (Hok acc eq_refl s false Hin Hw). discriminate Hok.
  - split; [reflexivity | exact He].
Qed.

(** C3. The row mutations of one reconciliation run inside one transaction:
    when a write statement of the call fails, the call returns with the
    database as it was before the call and without having emitted
    SongsDeleted or SongsDiscovered (or any other signal), both for
    AddOrUpdateSongs and for UpdateSongsBySongID. *)
Theorem C3_failed_write_rolls_back_without_delta (w : World)
    (l : list (Stmt * bool)) (Hfail : a_write_failed l) :
  (∀ songs, log (AddOrUpdateSongs songs w) = log w ++ l →
            db (AddOrUpdateSongs songs w) = db w
            ∧ emitted (AddOrUpdateSongs songs w) = emitted w)
  ∧ (∀ new_songs, log (UpdateSongsBySongID new_songs w) = log w ++ l →
                  db (UpdateSongsBySongID new_songs w) = db w
                  ∧ emitted (UpdateSongsBySongID new_songs w) = emitted w).
Proof.
  split.
  - intros songs Hlog.
    apply (failed_write_rolls_back
             (for_each songs AddOrUpdateSongs_body (mkDelta [] [])) w l); auto.
    apply tracked_for_each, tracked_AddOrUpdateSongs_body.
  - intros new_songs Hlog.
    apply (failed_write_rolls_back (UpdateSongsBySongID_run new_songs) w l); auto.
    apply tracked_UpdateSongsBySongID_run.
Qed.

Lemma C3_failed_write_rolls_back_without_delta_witness :
  db (AddOrUpdateSongs [Examples.candidate_id2_abc] Examples.second_statement_fails)
  = db Examples.second_statement_fails
  ∧ emitted (AddOrUpdateSongs [Examples.candidate_id2_abc]
                              Examples.second_statement_fails) = [].
Proof.
  assert (Hfail : a_write_failed [(SELECT_songs_by_rowid 2, true); (UPDATE_song 2, false)]).
  { exists (UPDATE_song 2). split; [|reflexivity].
    apply elem_of_cons. right. apply elem_of_cons. by left. }
  apply (proj1 (C3_failed_write_rolls_back_without_delta
                  Examples.second_statement_fails _ Hfail)
               [Examples.candidate_id2_abc]).
  vm_compute. reflexivity.
Defined.

End Transaction.

(* ===================================================================== *)
(** ** Match-key selection of AddOrUpdateSongs *)
(* ===================================================================== *)

Module MatchKey.
Import Backend BackendLogic Spec.

Lemma Exec_ok s effect w :
  pending w = [] →
  Exec s effect w
  = (Ok true, mkWorld (effect (db w)) (dirs_table_ w) [] (log w ++ [(s, true)]) (emitted w)).
Proof. intros Hp. unfold Exec. by rewrite Hp. Qed.

Lemma exec_or_return_ok s effect w :
  pending w = [] →
  exec_or_return s effect w
  = (Ok tt, mkWorld (effect (db w)) (dirs_table_ w) [] (log w ++ [(s, true)]) (emitted w)).
Proof. intros Hp. unfold exec_or_return, bind. by rewrite Exec_ok. Qed.

Lemma bind_Ok {A C} (c : B A) (k : A → B C) w a w' :
  c w = (Ok a, w') → bind c k w = k a w'.
Proof. intros Hc. unfold bind. by rewrite Hc. Qed.

Lemma bind_exec_or_return_ok {C} s effect (k : unit → B C) w :
  pending w = [] →
  bind (exec_or_return s effect) k w
  = k tt (mkWorld (effect (db w)) (dirs_table_ w) [] (log w ++ [(s, true)]) (emitted w)).
Proof. intros Hp. apply bind_Ok. by apply exec_or_return_ok. Qed.

Lemma head_map {A C} (f : A → C) (l : list A) : head (map f l) = f <$> head l.
Proof. by destruct l. Qed.

Lemma lastInsertId_fresh rows r : r ∈ rows → ROWID r < lastInsertId rows.
Proof.
  unfold lastInsertId. induction rows as [|r' rows IH]; intros Hin.
  - by apply elem_of_nil in Hin.
  - apply elem_of_cons in Hin as [->|Hin]; simpl; [lia|].
    specialize (IH Hin). lia.
Qed.

Lemma lastInsertId_pos rows : 1 ≤ lastInsertId rows.
Proof. unfold lastInsertId. induction rows; simpl; lia. Qed.










(** The selection of the specification fails on a candidate that carries the
    internal id of one record and the song_id of another: the code updates the
    record with that internal id, the specification selects the record with
    that song_id. *)
(** A song_id with single quotes is not compared as it is: pasted between
    quotes, the id of [candidate_quoted] reads as the two literals 'a' and
    'b', the record with song_id "a" is selected and updated in place. *)
Lemma song_id_with_quotes_is_read_as_sql :
  IN_list ("'" +:+ Song.song_id Examples.candidate_quoted +:+ "'") = Some ["a"; "b"]
  ∧ row_by_song_id (db Examples.one_record) (Song.song_id Examples.candidate_quoted)
    = None
  ∧ ∃ w', AddOrUpdateSongs_body Examples.candidate_quoted (mkDelta [] [])
            Examples.one_record
          = (Ok (mkDelta [Song.set_id 1 Examples.candidate_quoted]
                         [Examples.track 1 "a" "Artist" "Old album" "/music/a.mp3"]),
             w')
          ∧ log w' = [(SELECT_songs_by_song_id "a','b", true); (UPDATE_song 1, true)].
Proof.
  split; [by vm_compute|]. split; [by vm_compute|].
  eexists. split; vm_compute; reflexivity.
Qed.


End MatchKey.

(* ===================================================================== *)
(** ** QMap lemmas *)
(* ===================================================================== *)

Module QMapFacts.

Lemma compare_refl (k : string) : String.compare k k = Eq.
Proof.
  pose proof (String.compare_antisym k k) as H.
  destruct (String.compare k k); [reflexivity | discriminate | discriminate].
Qed.

Lemma compare_Eq (k k' : string) : String.compare k k' = Eq ↔ k = k'.
Proof.
  split; [apply String.compare_eq_iff | intros ->; apply compare_refl].
Qed.

Section Facts.
Context {V : Type}.
Implicit Types (m : QMap.t V) (k : string) (v : V).

Lemma find_insert_eq k v m : QMap.find k (QMap.insert k v m) = Some v.
Proof.
  induction m as [|[k' v'] m IH]; simpl.
  - by rewrite String.eqb_refl.
  - destruct (String.compare k k') eqn:Hc; simpl.
    + by rewrite String.eqb_refl.
    + by rewrite String.eqb_refl.
    + destruct (String.eqb_spec k k') as [->|Hne]; [|exact IH].
      by rewrite compare_refl in Hc.
Qed.

Lemma find_insert_ne k k' v m :
  k ≠ k' → QMap.find k' (QMap.insert k v m) = QMap.find k' m.
Proof.
  intros Hne. induction m as [|[k2 v2] m IH]; simpl.
  - destruct (String.eqb_spec k' k); congruence.
  - destruct (String.compare k k2) eqn:Hc; simpl.
    + apply compare_Eq in Hc. subst k2.
      destruct (String.eqb_spec k' k); congruence.
    + destruct (String.eqb_spec k' k); congruence.
    + destruct (String.eqb_spec k' k2); [reflexivity | exact IH].
Qed.

Lemma elem_of_insert k v m k' v' :
  (k', v') ∈ QMap.insert k v m → (k' = k ∧ v' = v) ∨ (k', v') ∈ m.
Proof.
  induction m as [|[k2 v2] m IH]; simpl; intros Hin.
  - apply list_elem_of_singleton in Hin. inversion Hin. auto.
  - destruct (String.compare k k2).
    + apply elem_of_cons in Hin as [Hin|Hin]; [inversion Hin; auto|].
      right. by apply elem_of_cons; right.
    + apply elem_of_cons in Hin as [Hin|Hin]; [inversion Hin; auto|]. auto.
    + apply elem_of_cons in Hin as [Hin|Hin].
      * right. apply elem_of_cons. auto.
      * destruct (IH Hin) as [?|?]; [auto|]. right. apply elem_of_cons. auto.
Qed.

Lemma find_Some_elem_of k v m : QMap.find k m = Some v → (k, v) ∈ m.
Proof.
  induction m as [|[k' v'] m IH]; simpl; [discriminate|].
  destruct (String.eqb_spec k k') as [->|Hne].
  - intros [= ->]. apply elem_of_cons. auto.
  - intros Hf. apply elem_of_cons. auto.
Qed.

Lemma find_None_not_key k m : QMap.find k m = None → k ∉ QMap.keys m.
Proof.
  unfold QMap.keys. induction m as [|[k' v'] m IH]; simpl.
  - intros _ Hin. by apply elem_of_nil in Hin.
  - destruct (String.eqb_spec k k') as [->|Hne]; [discriminate|].
    intros Hf Hin. apply elem_of_cons in Hin as [?|Hin]; [done|]. by apply IH.
Qed.

Lemma contains_key k m : k ∈ QMap.keys m → QMap.contains k m = true.
Proof.
  intros Hin. unfold QMap.contains.
  destruct (QMap.find k m) eqn:Hf; [reflexivity|].
  by apply find_None_not_key in Hf.
Qed.

Lemma elem_of_values v m : v ∈ QMap.values m ↔ ∃ k, (k, v) ∈ m.
Proof.
  unfold QMap.values. rewrite list_elem_of_fmap. split.
  - intros ([k v'] & -> & Hin). by exists k.
  - intros (k & Hin). by exists (k, v).
Qed.

End Facts.

(** A map filled from a list of rows, as [ExecCollectionQuery] does. *)
Section Fill.
Context {R V : Type} (key : R → string) (val : R → V).

Lemma elem_of_fill rows m k v :
  (k, v) ∈ QMap.fill key val rows m → (k, v) ∈ m ∨ ∃ r, r ∈ rows ∧ key r = k ∧ val r = v.
Proof.
  unfold QMap.fill. revert m. induction rows as [|r rows IH]; simpl; intros m Hin.
  - auto.
  - destruct (IH _ Hin) as [Hm|(r' & Hr' & Hk & Hv)].
    + apply elem_of_insert in Hm as [[-> ->]|Hm]; [|auto].
      right. exists r. split; [apply elem_of_cons; auto | auto].
    + right. exists r'. split; [apply elem_of_cons; auto | auto].
Qed.

Lemma find_fill_None rows m k :
  (∀ r, r ∈ rows → key r ≠ k) →
  QMap.find k (QMap.fill key val rows m) = QMap.find k m.
Proof.
  unfold QMap.fill. revert m. induction rows as [|r rows IH]; simpl; intros m Hne.
  - reflexivity.
  - rewrite IH by (intros r' Hr'; apply Hne, elem_of_cons; auto).
    apply find_insert_ne. apply Hne, elem_of_cons. auto.
Qed.

Lemma find_fill_mono rows m k :
  is_Some (QMap.find k m) → is_Some (QMap.find k (QMap.fill key val rows m)).
Proof.
  unfold QMap.fill. revert m. induction rows as [|r rows IH]; simpl; intros m Hm.
  - exact Hm.
  - apply IH. destruct (decide (key r = k)) as [<-|Hne].
    + rewrite find_insert_eq. eauto.
    + by rewrite find_insert_ne.
Qed.

Lemma find_fill_is_Some rows m k r :
  r ∈ rows → key r = k → is_Some (QMap.find k (QMap.fill key val rows m)).
Proof.
  revert m. induction rows as [|r' rows IH]; intros m Hin Hk.
  - by apply elem_of_nil in Hin.
  - apply elem_of_cons in Hin as [->|Hin].
    + change (is_Some (QMap.find k
                (QMap.fill key val rows (QMap.insert (key r') (val r') m)))).
      apply find_fill_mono. rewrite Hk, find_insert_eq. eauto.
    + by apply (IH (QMap.insert (key r') (val r') m)).
Qed.

End Fill.

End QMapFacts.

(* ===================================================================== *)
(** ** Idempotence of UpdateSongsBySongID *)
(* ===================================================================== *)

Module Idempotence.
Import Backend BackendLogic Spec QMapFacts.

Lemma IsMetadataEqual_InitFromQuery (s : Song.t) (rowid : Z) :
  Song.IsMetadataEqual s (InitFromQuery (BindToQuery s rowid)) = true.
Proof.
  unfold Song.IsMetadataEqual. simpl.
  rewrite !String.eqb_refl, !Z.eqb_refl, Bool.eqb_reflx. reflexivity.
Qed.

Lemma NoDup_map_inj {A C} (f : A → C) (l : list A) x y :
  NoDup (map f l) → x ∈ l → y ∈ l → f x = f y → x = y.
Proof.
  induction l as [|a l IH]; simpl; intros Hnd Hx Hy Hf.
  - by apply elem_of_nil in Hx.
  - apply NoDup_cons in Hnd as [Hna Hnd].
    apply elem_of_cons in Hx as [->|Hx]; apply elem_of_cons in Hy as [->|Hy].
    + reflexivity.
    + exfalso. apply Hna. rewrite Hf. apply list_elem_of_fmap. eauto.
    + exfalso. apply Hna. rewrite <- Hf. apply list_elem_of_fmap. eauto.
    + by apply IH.
Qed.

Lemma elem_of_available r rows :
  r ∈ available_rows rows ↔ r ∈ rows ∧ is_available r = true.
Proof. unfold available_rows. rewrite list_elem_of_filter. tauto. Qed.

Lemma old_find_Some rows k o :
  QMap.find k (old_songs_of rows) = Some o →
  ∃ r, r ∈ rows ∧ is_available r = true ∧ sid r = k ∧ o = InitFromQuery r.
Proof.
  intros Hf. apply find_Some_elem_of, elem_of_fill in Hf as [Hf|(r & Hr & Hk & Hv)].
  - by apply elem_of_nil in Hf.
  - apply elem_of_available in Hr as [? ?]. eauto.
Qed.

Lemma old_find_None rows k r :
  QMap.find k (old_songs_of rows) = None →
  r ∈ rows → is_available r = true → sid r ≠ k.
Proof.
  intros Hf Hr Ha Hk.
  destruct (find_fill_is_Some sid InitFromQuery (available_rows rows) [] k r)
    as [o Ho]; [by apply elem_of_available | done |].
  unfold old_songs_of in Hf. congruence.
Qed.

Lemma old_values rows o :
  o ∈ QMap.values (old_songs_of rows) →
  ∃ r, r ∈ rows ∧ is_available r = true ∧ o = InitFromQuery r.
Proof.
  intros Hv. apply elem_of_values in Hv as [k Hk].
  apply elem_of_fill in Hk as [Hk|(r & Hr & _ & Hv)].
  - by apply elem_of_nil in Hk.
  - apply elem_of_available in Hr as [? ?]. eauto.
Qed.

Lemma old_values_complete rows r :
  NoDup (map sid (available_rows rows)) →
  r ∈ rows → is_available r = true →
  InitFromQuery r ∈ QMap.values (old_songs_of rows).
Proof.
  intros Hnd Hr Ha.
  destruct (find_fill_is_Some sid InitFromQuery (available_rows rows) [] (sid r) r)
    as [o Ho]; [by apply elem_of_available | done |].
  apply old_find_Some in Ho as Ho'. destruct Ho' as (r' & Hr' & Ha' & Hk & ->).
  assert (r' = r) as ->.
  { eapply (NoDup_map_inj sid); eauto; by apply elem_of_available. }
  apply elem_of_values. exists (sid r). by apply find_Some_elem_of.
Qed.

Lemma InitFromQuery_song_id r : Song.song_id (InitFromQuery r) = sid r.
Proof. reflexivity. Qed.

Lemma InitFromQuery_id r : Song.id (InitFromQuery r) = ROWID r.
Proof. reflexivity. Qed.

Lemma not_elem_of_snoc {A} (x y : A) (l : list A) :
  (x ∉ (l ++ [y])) ↔ ((x ∉ l) ∧ (x ≠ y)).
Proof. rewrite elem_of_app, list_elem_of_singleton. tauto. Qed.

Lemma map_snoc {A C} (f : A → C) (l : list A) (x : A) :
  map f (l ++ [x]) = map f l ++ [f x].
Proof. by rewrite map_app. Qed.

Section AddStep.
Context (rows0 : list Row) (Hwf : well_formed_table rows0).
Context (done : SongList) (s : Song.t) (rows : list Row).
Context (Hinv : add_invariant rows0 done rows).
Context (Hnew : Song.song_id s ∉ map Song.song_id done).
Context (Havail : Song.unavailable s = false).

Local Lemma done_sid_ne s' : s' ∈ done → Song.song_id s' ≠ Song.song_id s.
Proof.
  intros Hs' Heq. apply Hnew. rewrite <- Heq.
  apply list_elem_of_fmap. eauto.
Qed.

Lemma add_invariant_equal o :
  QMap.find (Song.song_id s) (old_songs_of rows0) = Some o →
  Song.IsMetadataEqual s o = true →
  add_invariant rows0 (done ++ [s]) rows.
Proof.
  intros Hf Heq. apply old_find_Some in Hf as (r0 & Hr0 & Ha0 & Hk0 & ->).
  destruct Hinv as [I1 I2 I3 I4 I5 I6].
  assert (Hr0' : r0 ∈ rows) by (apply I5; auto; congruence).
  split; auto.
  - intros r s' Hr Ha Hs' Hsid.
    apply elem_of_app in Hs' as [Hs'|Hs']; [eauto|].
    apply list_elem_of_singleton in Hs'. subst s'.
    assert (r ∈ rows0) as Hrin by (apply I3; auto; congruence).
    assert (r = r0) as ->; [|exact Heq].
    eapply (NoDup_map_inj sid); [apply (song_ids_nodup _ Hwf) | | | congruence];
      by apply elem_of_available.
  - intros r Hr Ha Hsid. rewrite map_snoc in Hsid.
    apply not_elem_of_snoc in Hsid as [Hsid _]. auto.
  - intros s' Hs'. apply elem_of_app in Hs' as [Hs'|Hs']; [eauto|].
    apply list_elem_of_singleton in Hs'. subst s'. eauto.
  - intros r Hr Ha Hsid. rewrite map_snoc in Hsid.
    apply not_elem_of_snoc in Hsid as [Hsid _]. auto.
Qed.

Lemma add_invariant_update o :
  QMap.find (Song.song_id s) (old_songs_of rows0) = Some o →
  add_invariant rows0 (done ++ [s])
    (map (λ r, if (ROWID r =? Song.id o)%Z then BindToQuery s (ROWID r) else r) rows).
Proof.
  intros Hf. apply old_find_Some in Hf as (r0 & Hr0 & Ha0 & Hk0 & ->).
  rewrite InitFromQuery_id.
  destruct Hinv as [I1 I2 I3 I4 I5 I6].
  assert (Hr0' : r0 ∈ rows) by (apply I5; auto; congruence).
  assert (Hsame : ∀ r, r ∈ rows → ROWID r = ROWID r0 → r = r0).
  { intros r Hr Hid. by eapply (NoDup_map_inj ROWID). }
  assert (Hsame0 : ∀ r, r ∈ rows0 → ROWID r = ROWID r0 → r = r0).
  { intros r Hr Hid.
    eapply (NoDup_map_inj ROWID); [apply (rowids_nodup _ Hwf) | | |]; done. }
  assert (Hnew_available : ∀ i, is_available (BindToQuery s i) = true).
  { intros i. unfold is_available. simpl. by rewrite Havail. }
  set (upd := λ r, if (ROWID r =? ROWID r0)%Z then BindToQuery s (ROWID r) else r).
  assert (Hupd_id : ∀ r, ROWID (upd r) = ROWID r).
  { intros r. unfold upd. by destruct (ROWID r =? ROWID r0). }
  assert (Hupd_other : ∀ r, r ∈ rows → r ≠ r0 → upd r = r).
  { intros r Hr Hne. unfold upd.
    destruct (Z.eqb_spec (ROWID r) (ROWID r0)) as [Hid|]; [|done].
    by apply Hsame in Hid. }
  assert (Hupd_r0 : upd r0 = BindToQuery s (ROWID r0)).
  { unfold upd. by rewrite Z.eqb_refl. }
  split.
  - rewrite map_map. erewrite map_ext; [exact I1|]. intros r. apply Hupd_id.
  - intros r' s' Hr' Ha Hs' Hsid.
    apply list_elem_of_fmap in Hr' as (r & -> & Hr).
    destruct (decide (ROWID r = ROWID r0)) as [Hrid|Hrid];
      [apply (Hsame r Hr) in Hrid; subst r
      |assert (Hne : r ≠ r0) by (intros ->; by apply Hrid)].
    + rewrite Hupd_r0 in *.
      apply elem_of_app in Hs' as [Hs'|Hs'].
      * exfalso. by apply (done_sid_ne s').
      * apply list_elem_of_singleton in Hs'. subst s'.
        apply IsMetadataEqual_InitFromQuery.
    + rewrite Hupd_other in * by done.
      apply elem_of_app in Hs' as [Hs'|Hs']; [eauto|].
      apply list_elem_of_singleton in Hs'. subst s'.
      exfalso. apply Hne.
      assert (r ∈ rows0) as Hrin by (apply I3; auto; congruence).
      eapply (NoDup_map_inj sid); [apply (song_ids_nodup _ Hwf) | | | congruence];
        by apply elem_of_available.
  - intros r' Hr' Ha Hsid. rewrite map_snoc in Hsid.
    apply not_elem_of_snoc in Hsid as [Hsid Hne'].
    apply list_elem_of_fmap in Hr' as (r & -> & Hr).
    destruct (decide (ROWID r = ROWID r0)) as [Hrid|Hrid];
      [apply (Hsame r Hr) in Hrid; subst r
      |assert (Hne : r ≠ r0) by (intros ->; by apply Hrid)].
    + rewrite Hupd_r0 in Hne'. by exfalso.
    + rewrite Hupd_other in * by done. auto.
  - intros s' Hs'. apply elem_of_app in Hs' as [Hs'|Hs'].
    + destruct (I4 s' Hs') as (r & Hr & Ha & Hsid).
      exists r. split; [|done].
      apply list_elem_of_fmap. exists r. split; [|done].
      symmetry. apply Hupd_other; [done|]. intros ->.
      apply (done_sid_ne s'); [done|]. congruence.
    + apply list_elem_of_singleton in Hs'. subst s'.
      exists (BindToQuery s (ROWID r0)). split; [|by split].
      apply list_elem_of_fmap. exists r0. by rewrite Hupd_r0.
  - intros r Hr Ha Hsid. rewrite map_snoc in Hsid.
    apply not_elem_of_snoc in Hsid as [Hsid Hne'].
    apply list_elem_of_fmap. exists r. split; [|by apply I5].
    symmetry. apply Hupd_other; [by apply I5|]. intros ->. by apply Hne'.
  - intros r Hr Ha. destruct (I6 r Hr Ha) as (r' & Hr' & Hid & Hsid & Ha').
    exists (upd r'). split; [apply list_elem_of_fmap; eauto|].
    destruct (decide (ROWID r' = ROWID r0)) as [Hrid|Hrid];
      [apply (Hsame r' Hr') in Hrid; subst r'
      |assert (Hne : r' ≠ r0) by (intros ->; by apply Hrid)].
    + rewrite Hupd_r0. simpl. split; [done|]. split; [|apply Hnew_available].
      assert (r = r0) as -> by (by apply Hsame0). done.
    + rewrite Hupd_other by done. auto.
Qed.

Lemma add_invariant_insert :
  QMap.find (Song.song_id s) (old_songs_of rows0) = None →
  add_invariant rows0 (done ++ [s]) (rows ++ [BindToQuery s (lastInsertId rows)]).
Proof.
  intros Hf.
  destruct Hinv as [I1 I2 I3 I4 I5 I6].
  assert (Hnew_available : ∀ i, is_available (BindToQuery s i) = true).
  { intros i. unfold is_available. simpl. by rewrite Havail. }
  assert (Hno : ∀ r, r ∈ rows → is_available r = true → sid r ≠ Song.song_id s).
  { intros r Hr Ha Hsid.
    assert (r ∈ rows0) as Hrin by (apply I3; auto; congruence).
    by eapply old_find_None. }
  split.
  - rewrite map_snoc. apply NoDup_app. split; [exact I1|]. split.
    + intros x Hx Hx'. apply list_elem_of_singleton in Hx'. subst x.
      apply list_elem_of_fmap in Hx as (r & Hid & Hr).
      pose proof (MatchKey.lastInsertId_fresh _ _ Hr). simpl in Hid. lia.
    + apply NoDup_singleton.
  - intros r s' Hr Ha Hs' Hsid.
    apply elem_of_app in Hr as [Hr|Hr]; apply elem_of_app in Hs' as [Hs'|Hs'].
    + eauto.
    + apply list_elem_of_singleton in Hs'. subst s'. exfalso. by eapply Hno.
    + apply list_elem_of_singleton in Hr. subst r. exfalso.
      by apply (done_sid_ne s').
    + apply list_elem_of_singleton in Hr. apply list_elem_of_singleton in Hs'.
      subst. apply IsMetadataEqual_InitFromQuery.
  - intros r Hr Ha Hsid. rewrite map_snoc in Hsid.
    apply not_elem_of_snoc in Hsid as [Hsid Hne'].
    apply elem_of_app in Hr as [Hr|Hr]; [auto|].
    apply list_elem_of_singleton in Hr. subst r. by exfalso.
  - intros s' Hs'. apply elem_of_app in Hs' as [Hs'|Hs'].
    + destruct (I4 s' Hs') as (r & Hr & Ha & Hsid).
      exists r. split; [apply elem_of_app; auto | done].
    + apply list_elem_of_singleton in Hs'. subst s'.
      eexists. split; [apply elem_of_app; right; by apply list_elem_of_singleton|].
      by split.
  - intros r Hr Ha Hsid. rewrite map_snoc in Hsid.
    apply not_elem_of_snoc in Hsid as [Hsid _]. apply elem_of_app. auto.
  - intros r Hr Ha. destruct (I6 r Hr Ha) as (r' & Hr' & ?).
    exists r'. split; [apply elem_of_app; auto | done].
Qed.

Lemma add_invariant_step :
  add_invariant rows0 (done ++ [s]) (add_step (old_songs_of rows0) s rows).
Proof.
  unfold add_step.
  destruct (QMap.find _ _) as [o|] eqn:Hf.
  - destruct (Song.IsMetadataEqual s o) eqn:Heq.
    + by eapply add_invariant_equal.
    + by apply add_invariant_update.
  - by apply add_invariant_insert.
Qed.

End AddStep.

Lemma add_invariant_init rows0 :
  well_formed_table rows0 → add_invariant rows0 [] rows0.
Proof.
  intros Hwf. split; auto.
  - apply (rowids_nodup _ Hwf).
  - intros r s _ _ Hs. by apply elem_of_nil in Hs.
  - intros s Hs. by apply elem_of_nil in Hs.
  - intros r Hr Ha. eauto.
Qed.

Lemma add_invariant_fold rows0 (rest : SongList) :
  well_formed_table rows0 →
  ∀ done rows,
    NoDup (map Song.song_id (done ++ rest)) →
    (∀ s, s ∈ rest → Song.unavailable s = false) →
    add_invariant rows0 done rows →
    add_invariant rows0 (done ++ rest)
      (fold_left (λ rows s, add_step (old_songs_of rows0) s rows) rest rows).
Proof.
  intros Hwf. induction rest as [|s rest IH]; intros done rows Hnd Hav Hinv; simpl.
  - by rewrite app_nil_r.
  - replace (done ++ s :: rest) with ((done ++ [s]) ++ rest) in *
      by (by rewrite <- app_assoc).
    apply IH; [done | intros s' Hs'; apply Hav, elem_of_cons; auto |].
    apply add_invariant_step; [done | done | | apply Hav, elem_of_cons; auto].
    rewrite map_app, map_snoc in Hnd.
    apply NoDup_app in Hnd as [Hnd _]. apply NoDup_app in Hnd as (_ & Hnd & _).
    intros Hin. apply (Hnd _ Hin). by apply list_elem_of_singleton.
Qed.

Lemma find_Some_key {V} (m : QMap.t V) k v :
  QMap.find k m = Some v → k ∈ QMap.keys m.
Proof.
  intros Hf. apply find_Some_elem_of in Hf.
  apply list_elem_of_fmap. by exists (k, v).
Qed.

Lemma contains_true_key {V} (m : QMap.t V) k :
  QMap.contains k m = true → k ∈ QMap.keys m.
Proof.
  unfold QMap.contains. destruct (QMap.find k m) eqn:Hf; [|discriminate].
  intros _. by eapply find_Some_key.
Qed.

Lemma delete_invariant_step new_songs rows0 vals rows1 done o rows :
  add_invariant rows0 vals rows1 →
  (∃ r0, r0 ∈ rows0 ∧ is_available r0 = true ∧ o = InitFromQuery r0) →
  delete_invariant new_songs rows1 done rows →
  delete_invariant new_songs rows1 (done ++ [o]) (delete_step new_songs o rows).
Proof.
  intros Hadd (r0 & Hr0 & Ha0 & ->) [K0 K1 K3]. unfold delete_step.
  rewrite InitFromQuery_song_id, InitFromQuery_id.
  destruct (QMap.contains (sid r0) new_songs) eqn:Hc.
  - split; auto. intros o r Ho Hk Hr.
    apply elem_of_app in Ho as [Ho|Ho]; [eauto|].
    apply list_elem_of_singleton in Ho. subst o.
    exfalso. apply Hk. rewrite InitFromQuery_song_id. by apply contains_true_key.
  - assert (Hnk : sid r0 ∉ QMap.keys new_songs).
    { intros Hin. apply contains_key in Hin. congruence. }
    split.
    + intros r Hr. apply list_elem_of_filter in Hr as [_ Hr]. auto.
    + intros r Hr Hk. apply list_elem_of_filter. split; [|auto].
      intros Hid.
      destruct (add_rowid_kept _ _ _ Hadd r0 Hr0 Ha0) as (r' & Hr' & Hid' & Hsid' & _).
      assert (r = r').
      { eapply (NoDup_map_inj ROWID); [apply (add_rowids _ _ _ Hadd) | | |]; try done.
        congruence. }
      subst r'. apply Hnk. congruence.
    + intros o r Ho Hk Hr. apply list_elem_of_filter in Hr as [Hne Hr].
      apply elem_of_app in Ho as [Ho|Ho]; [eauto|].
      apply list_elem_of_singleton in Ho. by subst o.
Qed.

Lemma delete_invariant_fold new_songs rows0 vals rows1 (rest : SongList) :
  add_invariant rows0 vals rows1 →
  (∀ o, o ∈ rest → ∃ r0, r0 ∈ rows0 ∧ is_available r0 = true ∧ o = InitFromQuery r0) →
  ∀ done rows,
    delete_invariant new_songs rows1 done rows →
    delete_invariant new_songs rows1 (done ++ rest)
      (fold_left (λ rows o, delete_step new_songs o rows) rest rows).
Proof.
  intros Hadd. induction rest as [|o rest IH]; intros Hold done rows Hinv; simpl.
  - by rewrite app_nil_r.
  - replace (done ++ o :: rest) with ((done ++ [o]) ++ rest)
      by (by rewrite <- app_assoc).
    apply IH; [intros o' Ho'; apply Hold, elem_of_cons; auto |].
    eapply delete_invariant_step; [done | apply Hold, elem_of_cons; auto | done].
Qed.

Lemma well_keyed_keys new_songs :
  well_keyed new_songs → map Song.song_id (QMap.values new_songs) = QMap.keys new_songs.
Proof.
  intros Hk. unfold QMap.values, QMap.keys. rewrite map_map.
  apply map_ext_in. intros [k s] Hin. simpl.
  apply (keyed_by_song_id _ Hk). by apply list_elem_of_In.
Qed.

(** The table after the two loops. *)
Lemma reconciled_after new_songs rows0 :
  well_keyed new_songs → well_formed_table rows0 →
  reconciled new_songs
    (fold_left (λ rows o, delete_step new_songs o rows)
       (QMap.values (old_songs_of rows0))
       (fold_left (λ rows s, add_step (old_songs_of rows0) s rows)
          (QMap.values new_songs) rows0)).
Proof.
  intros Hk Hwf.
  set (rows1 := fold_left _ (QMap.values new_songs) rows0).
  assert (Hadd : add_invariant rows0 (QMap.values new_songs) rows1).
  { apply (add_invariant_fold rows0 (QMap.values new_songs) Hwf [] rows0).
    - simpl. rewrite well_keyed_keys by done. apply (keys_nodup _ Hk).
    - intros s Hs. apply elem_of_values in Hs as [k Hs].
      by apply (values_available _ Hk k).
    - by apply add_invariant_init. }
  assert (Hdel : delete_invariant new_songs rows1 (QMap.values (old_songs_of rows0))
                   (fold_left (λ rows o, delete_step new_songs o rows)
                      (QMap.values (old_songs_of rows0)) rows1)).
  { apply (delete_invariant_fold new_songs rows0 _ rows1 _ Hadd
             (λ o Ho, old_values rows0 o Ho) [] rows1).
    split; auto. intros o r Ho. by apply elem_of_nil in Ho. }
  destruct Hadd as [I1 I2 I3 I4 I5 I6]. destruct Hdel as [K0 K1 K3].
  split.
  - intros r Hr Ha.
    destruct (decide (sid r ∈ QMap.keys new_songs)) as [|Hnk]; [done|].
    exfalso.
    assert (r ∈ rows0) as Hr0.
    { apply I3; [by apply K0 | done |]. by rewrite well_keyed_keys. }
    apply (K3 (InitFromQuery r) r); [|done|done|done].
    apply old_values_complete; [apply (song_ids_nodup _ Hwf) | done | done].
  - intros r s Hr Ha Hs Hsid. eapply I2; eauto.
  - intros s Hs. destruct (I4 s Hs) as (r & Hr & Ha & Hsid).
    exists r. split; [|done]. apply K1; [done|].
    rewrite Hsid, <- well_keyed_keys by done.
    apply list_elem_of_fmap. eauto.
Qed.

(** *** The loops, statement by statement *)

Lemma add_body_ok old_songs s acc w :
  pending w = [] →
  ∃ acc' w', UpdateSongsBySongID_add old_songs s acc w = (Ok acc', w')
             ∧ pending w' = []
             ∧ songs (db w') = add_step old_songs s (songs (db w)).
Proof.
  intros Hp. unfold UpdateSongsBySongID_add, add_step.
  destruct (QMap.find (Song.song_id s) old_songs) as [o|].
  - destruct (Song.IsMetadataEqual s o); cbn [negb].
    + eexists _, _. split; [reflexivity|]. split; [done | reflexivity].
    + rewrite MatchKey.bind_exec_or_return_ok by done.
      rewrite MatchKey.bind_exec_or_return_ok by done.
      eexists _, _. split; [reflexivity|]. split; reflexivity.
  - unfold bind at 1. unfold get_db.
    rewrite MatchKey.bind_exec_or_return_ok by done.
    rewrite bool_decide_eq_false_2
      by (pose proof (MatchKey.lastInsertId_pos (songs (db w))); lia).
    rewrite MatchKey.bind_exec_or_return_ok by done.
    eexists _, _. split; [reflexivity|]. split; reflexivity.
Qed.

Lemma delete_body_ok new_songs o acc w :
  pending w = [] →
  ∃ acc' w', UpdateSongsBySongID_delete new_songs o acc w = (Ok acc', w')
             ∧ pending w' = []
             ∧ songs (db w') = delete_step new_songs o (songs (db w)).
Proof.
  intros Hp. unfold UpdateSongsBySongID_delete, delete_step.
  destruct (QMap.contains (Song.song_id o) new_songs); cbn [negb].
  - eexists _, _. split; [reflexivity|]. split; [done | reflexivity].
  - rewrite MatchKey.bind_exec_or_return_ok by done.
    rewrite MatchKey.bind_exec_or_return_ok by done.
    eexists _, _. split; [reflexivity|]. split; reflexivity.
Qed.

Lemma for_each_ok {A} (l : list A) (body : A → Delta → B Delta)
    (step : A → list Row → list Row) :
  (∀ x acc w, pending w = [] →
     ∃ acc' w', body x acc w = (Ok acc', w') ∧ pending w' = []
                ∧ songs (db w') = step x (songs (db w))) →
  ∀ acc w, pending w = [] →
    ∃ acc' w', for_each l body acc w = (Ok acc', w') ∧ pending w' = []
               ∧ songs (db w') = fold_left (λ rows x, step x rows) l (songs (db w)).
Proof.
  intros Hb. induction l as [|x l IH]; intros acc w Hp; simpl.
  - eexists _, _. split; [reflexivity|]. split; [done | reflexivity].
  - destruct (Hb x acc w Hp) as (acc1 & w1 & Hx & Hp1 & Hs1).
    destruct (IH acc1 w1 Hp1) as (acc2 & w2 & Hl & Hp2 & Hs2).
    exists acc2, w2. split; [by rewrite (MatchKey.bind_Ok _ _ _ _ _ Hx)|].
    split; [done|]. by rewrite Hs2, Hs1.
Qed.

Lemma for_each_noop {A} (l : list A) (body : A → Delta → B Delta) acc w :
  (∀ x, x ∈ l → body x acc w = (Ok acc, w)) → for_each l body acc w = (Ok acc, w).
Proof.
  induction l as [|x l IH]; intros Hb; simpl; [reflexivity|].
  rewrite (MatchKey.bind_Ok _ _ _ _ _ (Hb x ltac:(apply elem_of_cons; auto))).
  apply IH. intros y Hy. apply Hb, elem_of_cons. auto.
Qed.

Lemma ExecCollectionQuery_ok w :
  pending w = [] →
  ExecCollectionQuery_SongMap w
  = (Ok (Some (old_songs_of (songs (db w)))),
     mkWorld (db w) (dirs_table_ w) [] (log w ++ [(SELECT_songs_available, true)])
             (emitted w)).
Proof.
  intros Hp. unfold ExecCollectionQuery_SongMap, bind, get_db.
  by rewrite MatchKey.Exec_ok.
Qed.

(** A successful call leaves the table reconciled. *)
Lemma UpdateSongsBySongID_reconciles new_songs w :
  well_keyed new_songs → well_formed_table (songs (db w)) → pending w = [] →
  pending (UpdateSongsBySongID new_songs w) = []
  ∧ reconciled new_songs (songs (db (UpdateSongsBySongID new_songs w))).
Proof.
  intros Hk Hwf Hp. unfold UpdateSongsBySongID, run_transaction, UpdateSongsBySongID_run.
  rewrite (MatchKey.bind_Ok _ _ _ _ _ (ExecCollectionQuery_ok w Hp)).
  set (w0 := mkWorld _ _ _ _ _).
  destruct (for_each_ok (QMap.values new_songs)
              (UpdateSongsBySongID_add (old_songs_of (songs (db w))))
              (add_step (old_songs_of (songs (db w)))) (add_body_ok _)
              (mkDelta [] []) w0 eq_refl) as (acc1 & w1 & H1 & Hp1 & Hs1).
  rewrite (MatchKey.bind_Ok _ _ _ _ _ H1).
  destruct (for_each_ok (QMap.values (old_songs_of (songs (db w))))
              (UpdateSongsBySongID_delete new_songs)
              (delete_step new_songs) (delete_body_ok _)
              acc1 w1 Hp1) as (acc2 & w2 & H2 & Hp2 & Hs2).
  rewrite H2. split.
  - unfold emit_delta. by repeat case_bool_decide.
  - rewrite db_emit_delta, Hs2, Hs1. by apply reconciled_after.
Qed.

(** On a reconciled table the call writes nothing and emits an empty delta. *)
Lemma UpdateSongsBySongID_silent new_songs w :
  well_keyed new_songs → reconciled new_songs (songs (db w)) → pending w = [] →
  UpdateSongsBySongID new_songs w
  = emit_delta (mkDelta [] [])
      (mkWorld (db w) (dirs_table_ w) [] (log w ++ [(SELECT_songs_available, true)])
               (emitted w)).
Proof.
  intros Hk [R1 R2 R3] Hp.
  unfold UpdateSongsBySongID, run_transaction, UpdateSongsBySongID_run.
  rewrite (MatchKey.bind_Ok _ _ _ _ _ (ExecCollectionQuery_ok w Hp)).
  set (w0 := mkWorld _ _ _ _ _).
  rewrite (MatchKey.bind_Ok _ _ w0 (mkDelta [] []) w0).
  - rewrite for_each_noop; [reflexivity|].
    intros o Ho. apply old_values in Ho as (r & Hr & Ha & ->).
    unfold UpdateSongsBySongID_delete. rewrite InitFromQuery_song_id.
    by rewrite contains_key by (by apply R1).
  - apply for_each_noop. intros s Hs.
    unfold UpdateSongsBySongID_add.
    destruct (R3 s Hs) as (r & Hr & Ha & Hsid).
    destruct (find_fill_is_Some sid InitFromQuery (available_rows (songs (db w))) []
                (Song.song_id s) r) as [o Ho]; [by apply elem_of_available | done |].
    fold (old_songs_of (songs (db w))) in Ho. rewrite Ho.
    apply old_find_Some in Ho as (r' & Hr' & Ha' & Hsid' & ->).
    by rewrite (R2 r' s).
Qed.

Lemma emitted_emit_delta_nil w :
  emitted (emit_delta (mkDelta [] []) w)
  = emitted w ++ [UpdateTotalSongCountAsync; UpdateTotalArtistCountAsync;
                  UpdateTotalAlbumCountAsync].
Proof.
  unfold emit_delta, emit. cbn [added_songs deleted_songs].
  rewrite !bool_decide_eq_false_2 by (intros Hn; by apply Hn).
  simpl. by rewrite <- !app_assoc.
Qed.

(** C2 (as the code has it). The whole-library reconciliation
    [UpdateSongsBySongID] is idempotent on unchanged metadata: when the batch
    is keyed by the song_id of its (available) songs, ROWID is a key of the
    table, no two available rows share a song_id and every statement
    succeeds, a second call with the same batch emits an empty added/removed
    delta, leaves every row as it is and executes no statement but the
    initial SELECT. *)
Theorem C2_UpdateSongsBySongID_idempotent (w : World) (new_songs : QMap.t Song.t)
    (Hk : well_keyed new_songs) (Hwf : well_formed_table (songs (db w)))
    (Hp : pending w = []) :
  let w1 := UpdateSongsBySongID new_songs w in
  let w2 := UpdateSongsBySongID new_songs w1 in
  second_call_is_silent (UpdateSongsBySongID new_songs) w
  ∧ db w2 = db w1
  ∧ log w2 = log w1 ++ [(SELECT_songs_available, true)].
Proof.
  intros w1 w2.
  destruct (UpdateSongsBySongID_reconciles new_songs w Hk Hwf Hp) as [Hp1 Hrec].
  fold w1 in Hp1, Hrec.
  pose proof (UpdateSongsBySongID_silent new_songs w1 Hk Hrec Hp1) as Hs.
  fold w2 in Hs.
  split; [|split].
  - unfold second_call_is_silent, call_delta. fold w1. fold w2.
    rewrite Hs, emitted_emit_delta_nil. simpl emitted.
    rewrite drop_app_length. reflexivity.
  - rewrite Hs. by rewrite db_emit_delta.
  - rewrite Hs. by rewrite Transaction.log_emit_delta.
Qed.

Lemma C2_UpdateSongsBySongID_idempotent_witness :
  second_call_is_silent (UpdateSongsBySongID Examples.new_library) Examples.two_records.
Proof.
  refine (proj1 (C2_UpdateSongsBySongID_idempotent Examples.two_records
                   Examples.new_library _ _ eq_refl)).
  - split.
    + intros k s Hin. vm_compute in Hin.
      repeat (apply elem_of_cons in Hin as [Hin|Hin]; [by inversion Hin|]).
      by apply elem_of_nil in Hin.
    + intros k s Hin. vm_compute in Hin.
      repeat (apply elem_of_cons in Hin as [Hin|Hin]; [by inversion Hin|]).
      by apply elem_of_nil in Hin.
    + apply (bool_decide_unpack _). vm_compute. exact I.
  - split; apply (bool_decide_unpack _); vm_compute; exact I.
Defined.

(** [AddOrUpdateSongs] is not idempotent: a candidate that matches a persisted
    record by song_id and has the very same metadata is written and emitted
    again on every call. *)
Lemma C2_AddOrUpdateSongs_is_not_idempotent :
  ¬ second_call_is_silent (AddOrUpdateSongs [Examples.unchanged_abc])
                          Examples.two_records.
Proof.
  unfold second_call_is_silent, call_delta. vm_compute. intros H. discriminate H.
Qed.

End Idempotence.

(* ===================================================================== *)
(** ** The compilation classifier *)
(* ===================================================================== *)

Module Classifier.
Import Backend BackendLogic Spec.

(** The table of [Examples.two_directories] is classified as specified before
    the pass: no record is flagged and every group has one artist. *)
Lemma two_directories_classified :
  classified_as_specified (songs (db Examples.two_directories)).
Proof.
  intros r Hr Ha. vm_compute in Hr.
  repeat (apply elem_of_cons in Hr as [->|Hr]; [vm_compute; reflexivity|]).
  by apply elem_of_nil in Hr.
Qed.

(** C4. [CompilationsNeedUpdating] keys its groups by the
    concatenation directory + album.  On two records that lie in different
    directories, with one effective artist each, the two keys coincide: the
    pass flags both records as compilation_detected, writes two rows and emits
    a delta, although each record is alone in its (directory, album) group. *)
Theorem C4_directory_album_key_collision :
  let w := CompilationsNeedUpdating Examples.two_directories in
  map (λ r, (Song.url (cols r), Song.album (cols r), effective_albumartist r,
             Song.compilation_detected (cols r))) (songs (db w))
  = [("/m/a/1.mp3", "x", "P", true); ("/m/2.mp3", "a/x", "Q", true)]
  ∧ map (λ r, length (distinct_artists (group_of (songs (db w)) r))) (songs (db w))
    = [1%nat; 1%nat]
  ∧ ¬ classified_as_specified (songs (db w))
  ∧ emitted_delta (emitted w) ≠ mkDelta [] [].
Proof.
  split; [vm_compute; reflexivity|]. split; [vm_compute; reflexivity|]. split.
  - intros Hc.
    specialize (Hc (BindToQuery
                      (Song.set_compilation_detected true
                         (Examples.track 1 EmptyString "P" "x" "/m/a/1.mp3")) 1)).
    vm_compute in Hc. specialize (Hc ltac:(constructor) ltac:(discriminate)).
    discriminate Hc.
  - vm_compute. intros H. discriminate H.
Qed.

End Classifier.

(* ===================================================================== *)
(** ** Numbers in sort texts *)
(* ===================================================================== *)

Module Numbers.
Import Qt.











Lemma string_of_uint_digits (u : uint) :
  forall_chars is_decimal_digit (NilEmpty.string_of_uint u) = true.
Proof. induction u; simpl; auto. Qed.










End Numbers.

(* ===================================================================== *)
(** ** Divider keys and divider texts *)
(* ===================================================================== *)

Module Dividers.
Import Model Spec.

Section WithText.
Context `{Ext.Text}.





End WithText.

End Dividers.

(* ===================================================================== *)
(** ** Reasoning about the model's commands *)
(* ===================================================================== *)

Module ModelLogic.
Import Model Index.

Lemma bind_Some {A C} (c : M A) (k : A → M C) m a m' :
  c m = Some (a, m') → bind c k m = k a m'.
Proof. intros Hc. unfold bind. by rewrite Hc. Qed.

Lemma deref_Some p i m : heap m !! p = Some i → deref p m = Some (i, m).
Proof. intros Hp. unfold deref. by rewrite Hp. Qed.

Lemma update_Some p f i m :
  heap m !! p = Some i →
  update p f m = Some (tt, set_heap (<[p := f i]> (heap m)) m).
Proof. intros Hp. unfold update. by rewrite (bind_Some _ _ _ _ _ (deref_Some p i m Hp)). Qed.

Lemma total_ret {A} (a : A) m (Q : A → CollectionModel → Prop) :
  Q a m → total (ret a) m Q.
Proof. intros HQ. by exists a, m. Qed.

Lemma total_bind {A C} (c : M A) (k : A → M C) m (Q : C → CollectionModel → Prop) :
  total c m (λ a m1, total (k a) m1 Q) → total (bind c k) m Q.
Proof.
  intros (a & m1 & Hc & b & m2 & Hk & HQ). exists b, m2.
  by rewrite (bind_Some _ _ _ _ _ Hc).
Qed.

Lemma total_mono {A} (c : M A) m (Q Q' : A → CollectionModel → Prop) :
  total c m Q → (∀ a m', Q a m' → Q' a m') → total c m Q'.
Proof. intros (a & m' & Hc & HQ) Himp. exists a, m'. auto. Qed.

Lemma total_get m (Q : CollectionModel → CollectionModel → Prop) :
  Q m m → total get m Q.
Proof. intros HQ. by exists m, m. Qed.

Lemma total_modify f m (Q : unit → CollectionModel → Prop) :
  Q tt (f m) → total (modify f) m Q.
Proof. intros HQ. by exists tt, (f m). Qed.

Lemma total_deref p i m (Q : CollectionItem → CollectionModel → Prop) :
  heap m !! p = Some i → Q i m → total (deref p) m Q.
Proof. intros Hp HQ. exists i, m. by rewrite (deref_Some p i m Hp). Qed.

Lemma total_eq {A} (c : M A) m a m' (Q : A → CollectionModel → Prop) :
  c m = Some (a, m') → Q a m' → total c m Q.
Proof. intros Hc HQ. by exists a, m'. Qed.

(** *** Reflexivity and transitivity of [extends] *)

Lemma extends_refl m : extends m m.
Proof. split; try done. intros p i Hp. exists i. by repeat split. Qed.

Lemma extends_trans m1 m2 m3 : extends m1 m2 → extends m2 m3 → extends m1 m3.
Proof.
  intros [Hr1 Hg1 Hs1 Hq1 Hn1 Hx1 Hh1] [Hr2 Hg2 Hs2 Hq2 Hn2 Hx2 Hh2].
  split; try congruence; [lia|].
  intros p i Hp.
  destruct (Hh1 p i Hp) as (i2 & Hp2 & Ht & Hpa & Hk & Hd & Hl & Hm & Hv).
  destruct (Hh2 p i2 Hp2) as (i3 & Hp3 & Ht3 & Hpa3 & Hk3 & Hd3 & Hl3 & Hm3 & Hv3).
  exists i3. repeat split; try congruence. intros va Hva. auto.
Qed.

(** *** Well-formedness under the elementary state changes *)

Lemma wf_unreferenced_fresh m : wf m → unreferenced m (next_ptr m).
Proof.
  intros Hwf q k Hq Hslot.
  destruct (wf_various m Hwf q k _ Hq Hslot) as (v & Hv & _).
  pose proof (wf_fresh m Hwf (next_ptr m) (mk_is_Some _ _ Hv)). lia.
Qed.

Lemma wf_fresh_None m : wf m → heap m !! next_ptr m = None.
Proof.
  intros Hwf. destruct (heap m !! next_ptr m) eqn:E; [|done].
  pose proof (wf_fresh m Hwf (next_ptr m) (mk_is_Some _ _ E)). lia.
Qed.

(** [new]: an item without compilation-artist node at the next address. *)
Lemma wf_alloc m new :
  wf m → compilation_artist_node_ new = None →
  wf (set_next_ptr (S (next_ptr m)) (set_heap (<[next_ptr m := new]> (heap m)) m)).
Proof.
  intros Hwf Hnew. pose proof (wf_fresh_None m Hwf) as Hnone.
  split; cbn.
  - destruct (wf_root m Hwf) as [r Hr].
    destruct (decide (next_ptr m = root_ m)) as [e|n]; [congruence|].
    rewrite lookup_insert_ne; eauto.
  - intros p [i Hp]. destruct (decide (next_ptr m = p)) as [<-|n]; [lia|].
    rewrite lookup_insert_ne in Hp by done.
    pose proof (wf_fresh m Hwf p (mk_is_Some _ _ Hp)). lia.
  - intros i nodes k c Hn Hk.
    destruct (wf_containers m Hwf i nodes k c Hn Hk) as [x Hx].
    destruct (decide (next_ptr m = c)) as [<-|n]; [congruence|].
    rewrite lookup_insert_ne; eauto.
  - intros p i va Hp Hslot.
    destruct (decide (next_ptr m = p)) as [<-|n].
    + rewrite lookup_insert_eq in Hp. congruence.
    + rewrite lookup_insert_ne in Hp by done.
      destruct (wf_various m Hwf p i va Hp Hslot) as (v & Hv & Hs).
      exists v. split; [|done].
      destruct (decide (next_ptr m = va)) as [<-|n']; [congruence|].
      by rewrite lookup_insert_ne.
  - apply (wf_dividers m Hwf).
Qed.

(** [p->field = ...] on an existing item: the new value keeps the
    compilation-artist node or takes a valid one, and keeps the sort text
    unless the item is nobody's compilation-artist node. *)
Lemma wf_update m p i j :
  wf m → heap m !! p = Some i →
  (∀ va, compilation_artist_node_ j = Some va →
         compilation_artist_node_ i = Some va
         ∨ (∃ v, heap m !! va = Some v ∧ va ≠ p ∧ sort_text v = " various")) →
  (sort_text j = sort_text i ∨ unreferenced m p) →
  wf (set_heap (<[p := j]> (heap m)) m).
Proof.
  intros Hwf Hp Hslot Hsort.
  assert (Hkeep : ∀ va v, heap m !! va = Some v → sort_text v = " various" →
            (∃ q k, heap m !! q = Some k ∧ compilation_artist_node_ k = Some va) →
            ∃ v', <[p := j]> (heap m) !! va = Some v' ∧ sort_text v' = " various").
  { intros va v Hva Hs (q & k & Hq & Hk).
    destruct (decide (p = va)) as [->|n].
    - exists j. rewrite lookup_insert_eq. split; [done|].
      destruct Hsort as [Heq|Hun]; [congruence|].
      exfalso. exact (Hun q k Hq Hk).
    - exists v. by rewrite lookup_insert_ne. }
  split; cbn.
  - destruct (wf_root m Hwf) as [r Hr].
    destruct (decide (p = root_ m)) as [->|n].
    + rewrite lookup_insert_eq. eauto.
    + rewrite lookup_insert_ne; eauto.
  - intros q [k Hq]. destruct (decide (p = q)) as [<-|n].
    + apply (wf_fresh m Hwf). eauto.
    + rewrite lookup_insert_ne in Hq by done. apply (wf_fresh m Hwf). eauto.
  - intros l nodes k c Hn Hk.
    destruct (wf_containers m Hwf l nodes k c Hn Hk) as [x Hx].
    destruct (decide (p = c)) as [->|n].
    + rewrite lookup_insert_eq. eauto.
    + rewrite lookup_insert_ne; eauto.
  - intros q k va Hq Hk.
    destruct (decide (p = q)) as [<-|n].
    + rewrite lookup_insert_eq in Hq. injection Hq as <-.
      destruct (Hslot va Hk) as [Hold|(v & Hv & Hne & Hs)].
      * destruct (wf_various m Hwf p i va Hp Hold) as (v & Hv & Hs).
        apply (Hkeep va v Hv Hs). eauto.
      * exists v. by rewrite lookup_insert_ne.
    + rewrite lookup_insert_ne in Hq by done.
      destruct (wf_various m Hwf q k va Hq Hk) as (v & Hv & Hs).
      apply (Hkeep va v Hv Hs). eauto.
  - apply (wf_dividers m Hwf).
Qed.

Lemma wf_set_container_nodes m i nodes k c :
  wf m → container_nodes_ m i = Some nodes → is_Some (heap m !! c) →
  wf (set_container_nodes_ i (<[k := c]> nodes) m).
Proof.
  intros Hwf Hn Hc. split; cbn; try apply Hwf.
  intros l nodes' k' c' Hn' Hk'.
  assert (Hcases : (∃ l0 n0, container_nodes_ m l0 = Some n0 ∧ n0 !! k' = Some c')
                   ∨ c' = c).
  { clear Hc. revert Hn Hn' Hk'. unfold container_nodes_, set_container_nodes_. cbn.
    intros Hn Hn' Hk'.
    assert (Hold : ∀ l0 n0, container_nodes_ m l0 = Some n0 → n0 !! k' = Some c' →
              (∃ l0 n0, container_nodes_ m l0 = Some n0 ∧ n0 !! k' = Some c') ∨ c' = c)
      by (intros l0 n0 H0 H1; left; eauto).
    assert (Hnew : <[k := c]> nodes !! k' = Some c' →
              (∃ l0 n0, container_nodes_ m l0 = Some n0 ∧ n0 !! k' = Some c') ∨ c' = c).
    { intros Hl. destruct (decide (k = k')) as [->|ne].
      - rewrite lookup_insert_eq in Hl. right. congruence.
      - rewrite lookup_insert_ne in Hl by done. left. exists i, nodes. split; [|done].
        unfold container_nodes_. exact Hn. }
    destruct (l =? 0)%Z eqn:E0; [|destruct (l =? 1)%Z eqn:E1;
                                   [|destruct (l =? 2)%Z eqn:E2; [|done]]];
      injection Hn' as <-.
    - destruct (i =? 0)%Z; [by apply Hnew|]. by apply (Hold 0%Z (container_nodes_0 m)).
    - destruct (i =? 1)%Z; [by apply Hnew|]. by apply (Hold 1%Z (container_nodes_1 m)).
    - destruct (i =? 2)%Z; [by apply Hnew|]. by apply (Hold 2%Z (container_nodes_2 m)). }
  destruct Hcases as [(l0 & n0 & Hl0 & Hk0)| ->]; [|done].
  apply (wf_containers m Hwf l0 n0 k' c' Hl0 Hk0).
Qed.

Lemma wf_set_song_nodes m v : wf m → wf (set_song_nodes_ v m).
Proof. intros Hwf. split; cbn; apply Hwf. Qed.

Lemma wf_set_divider_nodes m k d :
  wf m → k ≠ EmptyString →
  wf (set_divider_nodes_ (<[k := d]> (divider_nodes_ m)) m).
Proof.
  intros Hwf Hk. split; cbn; try apply Hwf.
  rewrite lookup_insert_ne by done. apply Hwf.
Qed.

(** *** Allocation *)

Lemma new_CollectionItem_Some ty parent_ p m :
  heap m !! parent_ = Some p → heap m !! next_ptr m = None →
  new_CollectionItem ty parent_ m
  = Some (next_ptr m, allocated ty parent_ p id id m).
Proof.
  intros Hp Hfresh. unfold new_CollectionItem.
  rewrite (bind_Some _ _ _ _ _ (deref_Some _ _ _ Hp)).
  rewrite (bind_Some get _ m m m eq_refl).
  unfold bind at 1, modify at 1.
  assert (parent_ ≠ next_ptr m) as Hne by congruence.
  erewrite (bind_Some (update parent_ _)); [reflexivity|].
  erewrite update_Some; [reflexivity|].
  cbn. by rewrite lookup_insert_ne.
Qed.

Lemma allocated_fin ty parent_ p finp fin g m item :
  heap m !! parent_ = Some p → heap m !! next_ptr m = None →
  item = next_ptr m →
  set_heap (<[item := g (fin (mkItem ty (length (children p)) (Some parent_) []
                                     EmptyString EmptyString EmptyString (-1)
                                     None Song.empty))]>
              (heap (allocated ty parent_ p finp fin m)))
           (allocated ty parent_ p finp fin m)
  = allocated ty parent_ p finp (g ∘ fin) m.
Proof.
  intros Hp Hfresh ->. assert (parent_ ≠ next_ptr m) as Hne by congruence.
  unfold allocated, set_heap, set_next_ptr. cbn. f_equal.
  rewrite (insert_insert_ne _ (next_ptr m) parent_) by done.
  by rewrite insert_insert_eq.
Qed.

Lemma allocated_set ty parent_ p finp fin j m item :
  heap m !! parent_ = Some p → heap m !! next_ptr m = None →
  item = next_ptr m →
  set_heap (<[item := j]> (heap (allocated ty parent_ p finp fin m)))
           (allocated ty parent_ p finp fin m)
  = allocated ty parent_ p finp (λ _, j) m.
Proof.
  intros Hp Hfresh ->. assert (parent_ ≠ next_ptr m) as Hne by congruence.
  unfold allocated, set_heap, set_next_ptr. cbn. f_equal.
  rewrite (insert_insert_ne _ (next_ptr m) parent_) by done.
  by rewrite insert_insert_eq.
Qed.

Lemma allocated_finp ty parent_ p finp fin g m :
  heap m !! parent_ = Some p →
  set_heap (<[parent_ := g (finp (set_children (children p ++ [next_ptr m]) p))]>
              (heap (allocated ty parent_ p finp fin m)))
           (allocated ty parent_ p finp fin m)
  = allocated ty parent_ p (g ∘ finp) fin m.
Proof.
  intros Hp. unfold allocated, set_heap, set_next_ptr. cbn. f_equal.
  by rewrite insert_insert_eq.
Qed.

Lemma allocated_lookup_item ty parent_ p finp fin m :
  heap m !! parent_ = Some p → heap m !! next_ptr m = None →
  heap (allocated ty parent_ p finp fin m) !! next_ptr m
  = Some (fin (mkItem ty (length (children p)) (Some parent_) [] EmptyString
                      EmptyString EmptyString (-1) None Song.empty)).
Proof.
  intros Hp Hfresh. assert (parent_ ≠ next_ptr m) as Hne by congruence.
  cbn. rewrite lookup_insert_ne by done. by rewrite lookup_insert_eq.
Qed.

Lemma allocated_lookup_parent ty parent_ p finp fin m :
  heap (allocated ty parent_ p finp fin m) !! parent_
  = Some (finp (set_children (children p ++ [next_ptr m]) p)).
Proof. cbn. by rewrite lookup_insert_eq. Qed.

Lemma allocated_lookup_other ty parent_ p finp fin m q :
  q ≠ parent_ → q ≠ next_ptr m →
  heap (allocated ty parent_ p finp fin m) !! q = heap m !! q.
Proof. intros H1 H2. cbn. by rewrite !lookup_insert_ne. Qed.

Lemma keeps_id : keeps id.
Proof. intros i. by repeat split. Qed.

Lemma wf_allocated ty parent_ p finp fin m :
  wf m → heap m !! parent_ = Some p →
  keeps finp →
  (∀ i, compilation_artist_node_ i = None → compilation_artist_node_ (fin i) = None) →
  ((∀ i, compilation_artist_node_ (finp i) = compilation_artist_node_ i)
   ∨ ((∀ i, compilation_artist_node_ (finp i) = Some (next_ptr m))
      ∧ (∀ i, sort_text (fin i) = " various"))) →
  wf (allocated ty parent_ p finp fin m).
Proof.
  intros Hwf Hp Hkeep Hfin Hslot.
  pose proof (wf_fresh_None m Hwf) as Hfresh.
  assert (parent_ ≠ next_ptr m) as Hne by congruence.
  set (new := mkItem ty (length (children p)) (Some parent_) [] EmptyString
                     EmptyString EmptyString (-1) None Song.empty).
  pose proof (wf_alloc m (fin new) Hwf (Hfin new eq_refl)) as Hwfa.
  set (ma := set_next_ptr (S (next_ptr m))
               (set_heap (<[next_ptr m := fin new]> (heap m)) m)) in *.
  assert (Hpa : heap ma !! parent_ = Some p) by (cbn; by rewrite lookup_insert_ne).
  apply (wf_update ma parent_ p
           (finp (set_children (children p ++ [next_ptr m]) p)) Hwfa Hpa).
  - intros va Hva. destruct Hslot as [Hsame|[Hnode Hsort]].
    + left. by rewrite Hsame in Hva.
    + right. rewrite Hnode in Hva. injection Hva as <-.
      exists (fin new). cbn. rewrite lookup_insert_eq. repeat split; [congruence|apply Hsort].
  - left. by destruct (Hkeep (set_children (children p ++ [next_ptr m]) p))
      as (_ & _ & _ & _ & _ & _ & ->).
Qed.

Lemma extends_allocated ty parent_ p finp fin m :
  wf m → heap m !! parent_ = Some p →
  keeps finp →
  (∀ va, compilation_artist_node_ p = Some va →
         compilation_artist_node_ (finp (set_children (children p ++ [next_ptr m]) p))
         = Some va) →
  extends m (allocated ty parent_ p finp fin m).
Proof.
  intros Hwf Hp Hkeep Hslot.
  pose proof (wf_fresh_None m Hwf) as Hfresh.
  split; try done; [cbn; lia|].
  intros q i Hq.
  destruct (decide (q = parent_)) as [->|Hne].
  - rewrite allocated_lookup_parent. eexists. split; [done|].
    assert (i = p) as -> by congruence.
    destruct (Hkeep (set_children (children p ++ [next_ptr m]) p))
      as (-> & -> & -> & -> & -> & -> & _).
    repeat split. exact Hslot.
  - assert (q ≠ next_ptr m) by congruence.
    rewrite allocated_lookup_other by done. exists i. by repeat split.
Qed.

Lemma unreferenced_allocated ty parent_ p finp fin m :
  wf m → heap m !! parent_ = Some p →
  (∀ i, compilation_artist_node_ (finp i) = compilation_artist_node_ i) →
  (∀ i, compilation_artist_node_ i = None → compilation_artist_node_ (fin i) = None) →
  unreferenced (allocated ty parent_ p finp fin m) (next_ptr m).
Proof.
  intros Hwf Hp Hfinp Hfin q k Hq Hk.
  pose proof (wf_fresh_None m Hwf) as Hfresh.
  pose proof (wf_unreferenced_fresh m Hwf) as Hun.
  destruct (decide (q = parent_)) as [->|Hne].
  - rewrite allocated_lookup_parent in Hq. injection Hq as <-.
    rewrite Hfinp in Hk. exact (Hun parent_ p Hp Hk).
  - destruct (decide (q = next_ptr m)) as [->|Hne'].
    + rewrite allocated_lookup_item in Hq by done. injection Hq as <-.
      rewrite Hfin in Hk; done.
    + rewrite allocated_lookup_other in Hq by done. exact (Hun q k Hq Hk).
Qed.

Lemma extends_config m m' :
  heap m' = heap m → next_ptr m' = next_ptr m → root_ m' = root_ m →
  group_by_ m' = group_by_ m → show_dividers_ m' = show_dividers_ m →
  query_options_ m' = query_options_ m → now m' = now m →
  extends m m'.
Proof.
  intros Hh Hn Hr Hg Hs Hq Hw. split; try done; [lia|].
  intros p i Hp. exists i. rewrite Hh. by repeat split.
Qed.

Lemma extends_update m p i j :
  heap m !! p = Some i →
  type j = type i → parent j = parent i → key j = key i →
  display_text j = display_text i →
  container_level j = container_level i → metadata j = metadata i →
  (∀ va, compilation_artist_node_ i = Some va → compilation_artist_node_ j = Some va) →
  extends m (set_heap (<[p := j]> (heap m)) m).
Proof.
  intros Hp Ht Hpa Hk Hd Hl Hm Hv. split; try done.
  intros q k Hq. cbn. destruct (decide (p = q)) as [<-|Hne].
  - rewrite lookup_insert_eq. exists j. assert (k = i) as -> by congruence.
    by repeat split.
  - rewrite lookup_insert_ne by done. exists k. by repeat split.
Qed.

End ModelLogic.

(* ===================================================================== *)
(** ** Removal of records that have no node *)
(* ===================================================================== *)

Module Removal.
Import Model ModelLogic.

Section WithText.
Context `{Ext.Text}.

Lemma delete_song_node_absent song parents m :
  song_nodes_ m !! Song.id song = None →
  delete_song_node song parents m = Some (parents, m).
Proof.
  intros Hnone. unfold delete_song_node.
  rewrite (bind_Some get _ m m m eq_refl). by rewrite Hnone.
Qed.

Lemma delete_song_nodes_absent songs parents m :
  (∀ s, s ∈ songs → song_nodes_ m !! Song.id s = None) →
  fold_each songs delete_song_node parents m = Some (parents, m).
Proof.
  induction songs as [|s songs IH]; intros Hall; [done|].
  cbn [fold_each].
  rewrite (bind_Some _ _ m parents m).
  - apply IH. intros s' Hs'. apply Hall. by right.
  - apply delete_song_node_absent, Hall. by left.
Qed.

(** C9.  A removal for record ids that have no Song node returns normally and
    leaves the whole model as it was: the arena of items, the three container
    maps, the song-node map and the divider map.  Within any batch, a record
    without a node leaves the model and the set of parents to prune as they
    are, so the rest of the batch is processed as if it were not there. *)
Theorem C9_removal_of_unknown_id_is_noop (m : CollectionModel) :
  (∀ songs, (∀ s, s ∈ songs → song_nodes_ m !! Song.id s = None) →
            SongsDeleted songs m = Some (tt, m))
  ∧ (∀ song parents, song_nodes_ m !! Song.id song = None →
                     delete_song_node song parents m = Some (parents, m))
  ∧ (∀ song rest, song_nodes_ m !! Song.id song = None →
                  SongsDeleted (song :: rest) m = SongsDeleted rest m).
Proof.
  split; [|split].
  - intros songs Hall. unfold SongsDeleted.
    rewrite (bind_Some _ _ m [] m (delete_song_nodes_absent songs [] m Hall)).
    rewrite (bind_Some get _ m m m eq_refl).
    reflexivity.
  - intros song parents. apply delete_song_node_absent.
  - intros song rest Hnone. unfold SongsDeleted, bind at 1 3.
    cbn [fold_each]. unfold bind at 1.
    by rewrite (delete_song_node_absent song [] m Hnone).
Qed.

End WithText.

End Removal.

(* ===================================================================== *)
(** ** Insertion into the grouping index *)
(* ===================================================================== *)

Module Insertion.
Import Model Index ModelLogic.

Section WithText.
Context `{Ext.Text}.

(** The assignments [CreateCompilationArtistNode] makes to the new node. *)
Lemma CreateCompilationArtistNode_Some parent_ p m :
  wf m → heap m !! parent_ = Some p → compilation_artist_node_ p = None →
  CreateCompilationArtistNode parent_ m
  = Some (next_ptr m,
          allocated Type_Container parent_ p
            (set_compilation_artist_node_ (Some (next_ptr m)))
            (λ i, set_container_level (container_level p + 1)
                    (set_sort_text " various"
                       (set_display_text (Qt.tr "Various artists")
                          (set_key ((if bool_decide (parent_ ≠ root_ m)
                                        && negb (Qt.isEmpty (key p))
                                     then key p else EmptyString)
                                    +:+ Qt.tr "Various artists")
                             (set_compilation_artist_node_ None i))))) m).
Proof.
  intros Hwf Hp Hslot. pose proof (wf_fresh_None m Hwf) as Hfresh.
  unfold CreateCompilationArtistNode.
  rewrite (bind_Some _ _ _ _ _ (deref_Some _ _ _ Hp)). rewrite Hslot.
  rewrite (bind_Some get _ m m m eq_refl).
  rewrite (bind_Some _ _ _ _ _ (new_CollectionItem_Some _ _ _ _ Hp Hfresh)).
  erewrite (bind_Some (update parent_ _));
    [|apply update_Some, allocated_lookup_parent].
  unfold id at 1. rewrite (allocated_finp _ _ _ id id _ m Hp).
  erewrite (bind_Some (update (next_ptr m) _));
    [|apply update_Some, allocated_lookup_item; done].
  rewrite (allocated_fin _ _ _ _ id _ m (next_ptr m) Hp Hfresh eq_refl).
  reflexivity.
Qed.

Lemma InitItem_Some type parent_ level p m :
  wf m → heap m !! parent_ = Some p →
  InitItem type parent_ level m
  = Some (next_ptr m,
          allocated (if bool_decide (type = GroupBy_None) then Type_Song
                     else Type_Container) parent_ p id
            (λ i, set_container_level level (set_compilation_artist_node_ None i)) m).
Proof.
  intros Hwf Hp. pose proof (wf_fresh_None m Hwf) as Hfresh.
  unfold InitItem.
  rewrite (bind_Some _ _ _ _ _ (new_CollectionItem_Some _ _ _ _ Hp Hfresh)).
  erewrite (bind_Some (update (next_ptr m) _));
    [|apply update_Some, allocated_lookup_item; done].
  rewrite (allocated_fin _ _ _ _ id _ m (next_ptr m) Hp Hfresh eq_refl).
  reflexivity.
Qed.

(** [DividerKey] always returns: a character with a decomposition tag has a
    non-empty decomposition. *)
Lemma DividerKey_total type i : ∃ k, DividerKey type i = Some k.
Proof.
  unfold DividerKey. destruct (Qt.at0 (sort_text i)) as [c|]; [|eauto].
  destruct type; eauto;
    (destruct (Ext.isDigit c); [eauto|]; destruct (Ascii.eqb c " "); [eauto|];
     destruct (Ext.hasDecomposition c) eqn:Hdec; [|eauto];
     pose proof (Ext.decomposition_nonempty c Hdec) as Hne;
     destruct (Ext.decomposition c); [done|]; cbn; eauto).
Qed.

Lemma isEmpty_false k : Qt.isEmpty k = false → k ≠ EmptyString.
Proof. by intros Hk ->. Qed.

(** [FinishItem] on an item that is nobody's compilation-artist node. *)
Lemma FinishItem_spec type create_divider item i m :
  wf m → heap m !! item = Some i → unreferenced m item →
  total (FinishItem type create_divider item) m
    (λ _ m', wf m' ∧ extends m m' ∧ same_index m m'
             ∧ container_nodes_0 m' = container_nodes_0 m
             ∧ (create_divider = false → divider_nodes_ m' = divider_nodes_ m)).
Proof.
  intros Hwf Hi Hun.
  assert (Hsame : total (ret tt) m
    (λ _ m', wf m' ∧ extends m m' ∧ same_index m m'
             ∧ container_nodes_0 m' = container_nodes_0 m
             ∧ (create_divider = false → divider_nodes_ m' = divider_nodes_ m))).
  { apply total_ret.
    split; [done|split; [apply extends_refl|split; [by repeat split|by split]]]. }
  unfold FinishItem. apply total_bind, total_get.
  destruct create_divider; [|exact Hsame].
  destruct (show_dividers_ m); [|exact Hsame]. cbn [andb].
  apply total_bind, (total_deref item i); [done|].
  destruct (DividerKey_total type i) as [k ->].
  destruct (Qt.isEmpty k) eqn:Hk; cbn [negb andb].
  { apply total_bind, total_ret. exact Hsame. }
  apply total_bind. eapply total_eq; [by apply update_Some|].
  set (m1 := set_heap _ m).
  assert (Hwf1 : wf m1).
  { apply (wf_update m item i); [done..|by left|by right]. }
  assert (Hext1 : extends m m1) by (by apply (extends_update m item i)).
  destruct (bool_decide (divider_nodes_ m !! k = None)).
  - destruct (wf_root m1 Hwf1) as [r Hr].
    pose proof (wf_fresh_None m1 Hwf1) as Hfresh1.
    apply total_bind.
    eapply total_eq; [exact (new_CollectionItem_Some _ _ _ _ Hr Hfresh1)|].
    apply total_bind.
    eapply total_eq; [apply update_Some, allocated_lookup_item; done|].
    rewrite (allocated_fin _ _ _ _ id _ m1 (next_ptr m1) Hr Hfresh1 eq_refl).
    apply total_modify.
    set (m2 := allocated _ _ _ _ _ m1).
    assert (Hwf2 : wf m2).
    { apply wf_allocated; [done|done|apply keeps_id|done|by left]. }
    assert (Hext2 : extends m1 m2).
    { apply extends_allocated; [done|done|apply keeps_id|done]. }
    split; [|split; [|split; [by repeat split|by split]]].
    + apply (wf_set_divider_nodes m2); [done|by apply isEmpty_false].
    + eapply extends_trans; [exact Hext1|].
      eapply extends_trans; [exact Hext2|]. by apply extends_config.
  - apply total_ret.
    split; [done|split; [done|split; [by repeat split|by split]]].
Qed.

(** [ItemFromSong]: the new item is at the next address, below [parent_],
    with the type, level and metadata of its dimension. *)
Lemma ItemFromSong_spec type create_divider parent_ s level p m :
  wf m → heap m !! parent_ = Some p →
  total (ItemFromSong type create_divider parent_ s level) m
    (λ item m',
       item = next_ptr m ∧ wf m' ∧ extends m m' ∧ same_index m m'
       ∧ container_nodes_0 m' = container_nodes_0 m
       ∧ (create_divider = false → divider_nodes_ m' = divider_nodes_ m)
       ∧ ∃ it, heap m' !! item = Some it
               ∧ Model.type it = (if bool_decide (type = GroupBy_None) then Type_Song
                                  else Type_Container)
               ∧ parent it = Some parent_
               ∧ container_level it = level
               ∧ metadata it
                 = fst (fst (fst (ItemFromSong_switch (Grouping_at (group_by_ m) 0)
                                    type s level Song.empty)))).
Proof.
  intros Hwf Hp. pose proof (wf_fresh_None m Hwf) as Hfresh.
  unfold ItemFromSong.
  apply total_bind.
  eapply total_eq; [exact (InitItem_Some type parent_ level p m Hwf Hp)|].
  apply total_bind, total_get.
  apply total_bind. eapply total_deref; [apply allocated_lookup_parent|].
  apply total_bind. eapply total_deref; [by apply allocated_lookup_item|].
  apply total_bind.
  eapply total_eq; [apply update_Some, allocated_lookup_item; done|].
  rewrite (allocated_set _ _ _ _ _ _ m (next_ptr m) Hp Hfresh eq_refl).
  set (m1 := allocated _ _ _ _ _ m).
  assert (Hwf1 : wf m1).
  { apply wf_allocated; [done|done|apply keeps_id|done|by left]. }
  assert (Hext1 : extends m m1).
  { apply extends_allocated; [done|done|apply keeps_id|done]. }
  assert (Hun1 : unreferenced m1 (next_ptr m)).
  { apply unreferenced_allocated; done. }
  pose proof (allocated_lookup_item _ parent_ p id _ m Hp Hfresh
              : heap m1 !! next_ptr m = Some _) as Hit.
  apply total_bind.
  eapply total_mono; [exact (FinishItem_spec type create_divider _ _ m1 Hwf1 Hit Hun1)|].
  intros [] m2 (Hwf2 & Hext2 & Hidx & Hc0 & Hdiv).
  apply total_ret.
  split; [done|]. split; [done|].
  split; [by eapply extends_trans|].
  split; [exact Hidx|]. split; [exact Hc0|]. split; [exact Hdiv|].
  destruct (ext_heap _ _ Hext2 _ _ Hit) as (it & Hit2 & Ht & Hpa & _ & _ & Hl & Hm & _).
  exists it. split; [done|]. rewrite Ht, Hpa, Hl, Hm. cbn.
  repeat split.
Qed.

Lemma container_nodes_same m m' i :
  same_index m m' → container_nodes_0 m' = container_nodes_0 m →
  container_nodes_ m' i = container_nodes_ m i.
Proof. intros (H1 & H2 & _) H0. unfold container_nodes_. by rewrite H0, H1, H2. Qed.

Lemma container_nodes_in_range m i :
  (0 ≤ i < 3)%Z → ∃ nodes, container_nodes_ m i = Some nodes.
Proof.
  intros Hi. unfold container_nodes_.
  destruct (i =? 0)%Z eqn:E0; [eauto|]. destruct (i =? 1)%Z eqn:E1; [eauto|].
  destruct (i =? 2)%Z eqn:E2; [eauto|]. lia.
Qed.

(** The descent returns, in a well-formed state, a live container. *)
Lemma find_container_spec n :
  ∀ i song container key m,
    wf m → is_Some (heap m !! container) → (0 ≤ i)%Z → (i + Z.of_nat n ≤ 3)%Z →
    total (find_container n i song container key) m (descended i m).
Proof.
  induction n as [|n IH]; intros i song container key m Hwf [c Hc] Hi Hn.
  { apply total_ret. split; [done|]. split; [apply extends_refl|].
    split; [eauto|]. split; [done|]. done. }
  cbn [find_container]. apply total_bind, total_get.
  destruct (bool_decide (Grouping_at (group_by_ m) i = GroupBy_None)).
  { apply total_ret. split; [done|]. split; [apply extends_refl|].
    split; [eauto|]. split; [done|]. done. }
  set (type := Grouping_at (group_by_ m) i).
  destruct (IsArtistGroupBy type && Song.is_compilation song).
  - (* the Various Artists node *)
    apply total_bind, (total_deref container c); [done|].
    destruct (compilation_artist_node_ c) as [va|] eqn:Hslot.
    + apply total_bind, total_ret.
      destruct (wf_various m Hwf container c va Hc Hslot) as (v & Hv & _).
      apply total_bind, (total_deref va v); [done|].
      eapply total_mono; [apply (IH (i + 1)%Z song va _ m); eauto; lia|].
      intros c' m' (Hwf' & Hext' & Hc' & Hs' & Hd').
      split; [done|]. split; [done|]. split; [done|]. split; [done|].
      intros _. apply Hd'. lia.
    + pose proof (wf_fresh_None m Hwf) as Hfresh.
      apply total_bind.
      eapply total_eq; [exact (CreateCompilationArtistNode_Some _ _ m Hwf Hc Hslot)|].
      set (m1 := allocated _ _ _ _ _ m).
      assert (Hwf1 : wf m1).
      { apply wf_allocated; [done|done|done|done|by right]. }
      assert (Hext1 : extends m m1).
      { apply extends_allocated; [done|done|done|]. intros va Hva. congruence. }
      apply total_bind.
      eapply total_deref; [by apply allocated_lookup_item|].
      eapply total_mono; [apply (IH (i + 1)%Z song (next_ptr m) _ m1); try done; try lia|].
      * eexists. by apply allocated_lookup_item.
      * intros c' m' (Hwf' & Hext' & Hc' & Hs' & Hd').
        split; [done|]. split; [by eapply extends_trans|]. split; [done|].
        split; [done|]. intros _. apply Hd'. lia.
  - (* the container of this level, by key *)
    destruct (container_nodes_in_range m i) as [nodes Hnodes]; [lia|].
    rewrite Hnodes.
    set (key' := (if negb (Qt.isEmpty key) then key +:+ "-" else key)
                 +:+ ContainerKey type song).
    destruct (nodes !! key') as [c'|] eqn:Hlook.
    + eapply total_mono;
        [apply (IH (i + 1)%Z song c' _ m);
         [done|exact (wf_containers m Hwf i nodes key' c' Hnodes Hlook)|lia|lia]|].
      intros c2 m' (Hwf' & Hext' & Hc' & Hs' & Hd').
      split; [done|]. split; [done|]. split; [done|]. split; [done|].
      intros _. apply Hd'. lia.
    + apply total_bind.
      eapply total_mono; [exact (ItemFromSong_spec type (i =? 0)%Z container song i c m Hwf Hc)|].
      intros item m1 (-> & Hwf1 & Hext1 & Hidx & Hc0 & Hdiv & it & Hit & _).
      apply total_bind, total_modify.
      set (m2 := set_container_nodes_ i _ m1).
      assert (Hwf2 : wf m2).
      { apply wf_set_container_nodes; [done| |eauto].
        by rewrite (container_nodes_same m m1 i Hidx Hc0). }
      assert (Hext2 : extends m1 m2) by (by apply extends_config).
      eapply total_mono;
        [apply (IH (i + 1)%Z song (next_ptr m) _ m2); [done|by exists it|lia|lia]|].
      intros c2 m' (Hwf' & Hext' & Hc' & Hs' & Hd').
      split; [done|].
      split; [eapply extends_trans; [exact Hext1|by eapply extends_trans]|].
      split; [done|].
      split; [rewrite Hs'; cbn; apply Hidx|].
      intros Hpos. destruct Hd' as [Hd0 Hdd]; [lia|].
      rewrite Hd0, Hdd. cbn.
      assert ((i =? 0)%Z = false) as Hi0 by lia. rewrite Hi0 in *.
      split; [done|]. by apply Hdiv.
Qed.

(** Every insertion returns and keeps the index well formed. *)
Lemma SongsDiscovered_body_spec song m :
  wf m → total (SongsDiscovered_body song) m (λ _ m', wf m' ∧ extends m m').
Proof.
  intros Hwf. unfold SongsDiscovered_body. apply total_bind, total_get.
  destruct (negb (Matches (query_options_ m) (now m) song)).
  { apply total_ret. split; [done|apply extends_refl]. }
  destruct (bool_decide (is_Some (song_nodes_ m !! Song.id song))).
  { apply total_ret. split; [done|apply extends_refl]. }
  apply total_bind.
  eapply total_mono;
    [apply (find_container_spec 3 0%Z song (root_ m) EmptyString m Hwf);
     [apply (wf_root m Hwf)|lia|lia]|].
  intros c m1 (Hwf1 & Hext1 & [ci Hci] & _).
  apply total_bind.
  eapply total_mono;
    [exact (ItemFromSong_spec GroupBy_None false c song (-1) ci m1 Hwf1 Hci)|].
  intros node m2 (_ & Hwf2 & Hext2 & _).
  apply total_modify. split; [by apply wf_set_song_nodes|].
  eapply extends_trans; [exact Hext1|].
  eapply extends_trans; [exact Hext2|]. by apply extends_config.
Qed.

Lemma SongsDiscovered_spec songs :
  ∀ m, wf m → total (SongsDiscovered songs) m (λ _ m', wf m' ∧ extends m m').
Proof.
  induction songs as [|song songs IH]; intros m Hwf.
  { apply total_ret. split; [done|apply extends_refl]. }
  cbn [SongsDiscovered for_each]. apply total_bind.
  eapply total_mono; [exact (SongsDiscovered_body_spec song m Hwf)|].
  intros [] m1 [Hwf1 Hext1].
  eapply total_mono; [exact (IH m1 Hwf1)|].
  intros [] m2 [Hwf2 Hext2]. split; [done|by eapply extends_trans].
Qed.

Lemma wf_new_model g show_dividers o now : wf (new_model g show_dividers o now).
Proof.
  split; cbn -[singletonM].
  - rewrite lookup_singleton_eq. eauto.
  - intros p [i Hp]. destruct (decide (p = 0%nat)) as [->|Hne]; [lia|].
    by rewrite lookup_singleton_ne in Hp.
  - intros i nodes k c Hn Hk. unfold container_nodes_ in Hn. cbn in Hn.
    destruct (i =? 0)%Z; [|destruct (i =? 1)%Z; [|destruct (i =? 2)%Z; [|done]]];
      injection Hn as <-; by rewrite lookup_empty in Hk.
  - intros p i va Hp Hslot. destruct (decide (p = 0%nat)) as [->|Hne].
    + rewrite lookup_singleton_eq in Hp. injection Hp as <-. done.
    + by rewrite lookup_singleton_ne in Hp.
  - apply lookup_empty.
Qed.

Lemma inserted_wf g show_dividers o now m :
  inserted g show_dividers o now m → wf m.
Proof.
  induction 1 as [|m songs m' _ IH Hstep]; [apply wf_new_model|].
  destruct (SongsDiscovered_spec songs m IH) as ([] & m2 & Heq & Hwf2 & _).
  congruence.
Qed.

(** A level of the descent for a compilation under an artist-like dimension:
    the container's compilation-artist node is used, and created when the
    container has none. *)
Lemma various_at_level n i song container c key0 m :
  wf m → heap m !! container = Some c →
  IsArtistGroupBy (Grouping_at (group_by_ m) i) = true →
  Song.is_compilation song = true →
  redirected_to_various n i song container c key0 m.
Proof.
  intros Hwf Hc Hartist Hcomp. unfold redirected_to_various.
  assert (Hstep : find_container (S n) i song container key0 m
                  = bind (match compilation_artist_node_ c with
                          | None => CreateCompilationArtistNode container
                          | Some va => ret va
                          end)
                         (λ va, bind (deref va)
                                  (λ v, find_container n (i + 1) song va (key v))) m).
  { cbn [find_container]. rewrite (bind_Some get _ m m m eq_refl).
    rewrite bool_decide_eq_false_2 by (intros E; rewrite E in Hartist; discriminate).
    rewrite Hartist, Hcomp. cbn [andb].
    by rewrite (bind_Some _ _ _ _ _ (deref_Some _ _ _ Hc)). }
  rewrite Hstep. clear Hstep.
  destruct (compilation_artist_node_ c) as [va|] eqn:Hslot.
  - destruct (wf_various m Hwf _ _ va Hc Hslot) as (v & Hv & Hsort).
    exists va, v, m, c.
    rewrite (bind_Some (ret va) _ m va m eq_refl).
    rewrite (bind_Some _ _ _ _ _ (deref_Some _ _ _ Hv)).
    split; [done|]. split; [done|]. split; [apply extends_refl|].
    do 9 (split; [done|]). split; [by intros va0 [= ->]|]. done.
  - pose proof (wf_fresh_None m Hwf) as Hfresh.
    pose proof (CreateCompilationArtistNode_Some _ _ m Hwf Hc Hslot) as Hcreate.
    set (m1 := allocated _ _ _ _ _ m) in Hcreate.
    pose proof (allocated_lookup_item Type_Container container c _ _ m Hc Hfresh
                : heap m1 !! next_ptr m = Some _) as Hv.
    eexists (next_ptr m), _, m1, _.
    rewrite (bind_Some _ _ _ _ _ Hcreate).
    rewrite (bind_Some _ _ _ _ _ (deref_Some _ _ _ Hv)).
    split; [done|].
    split; [apply wf_allocated; [done|done|done|done|by right]|].
    split; [apply extends_allocated; [done|done|done|]; intros va Hva; congruence|].
    split; [apply allocated_lookup_parent|].
    split; [done|]. split; [exact Hv|].
    do 6 (split; [done|]). split; [done|]. intros _. by repeat split.
Qed.

(** The first level: the root's compilation-artist node. *)
Lemma first_level_various song m root :
  wf m → heap m !! root_ m = Some root →
  IsArtistGroupBy (first (group_by_ m)) = true →
  Song.is_compilation song = true →
  ∃ va v m1 root1,
    find_container 3 0 song (root_ m) EmptyString m
    = find_container 2 1 song va (key v) m1
    ∧ wf m1 ∧ extends m m1
    ∧ heap m1 !! root_ m = Some root1 ∧ compilation_artist_node_ root1 = Some va
    ∧ heap m1 !! va = Some v ∧ sort_text v = " various"
    ∧ container_nodes_0 m1 = container_nodes_0 m
    ∧ container_nodes_1 m1 = container_nodes_1 m
    ∧ divider_nodes_ m1 = divider_nodes_ m
    ∧ song_nodes_ m1 = song_nodes_ m
    ∧ (∀ va0, compilation_artist_node_ root = Some va0 → va = va0 ∧ m1 = m)
    ∧ (compilation_artist_node_ root = None →
       va = next_ptr m ∧ key v = "Various artists"
       ∧ display_text v = "Various artists"
       ∧ Model.type v = Type_Container ∧ parent v = Some (root_ m)
       ∧ children v = []
       ∧ container_level v = (container_level root + 1)%Z).
Proof.
  intros Hwf Hroot Hartist Hcomp.
  destruct (various_at_level 2 0%Z song (root_ m) root EmptyString m
              Hwf Hroot Hartist Hcomp)
    as (va & v & m1 & root1 & Heq & Hwf1 & Hext1 & Hroot1 & Hslot1 & Hv & Hsort
        & Hc0 & Hc1 & _ & Hdiv & Hsong & Hold & Hnew).
  exists va, v, m1, root1.
  do 11 (split; [done|]). split; [exact Hold|].
  intros Hnone. destruct (Hnew Hnone) as (Hva & Hkey & Hrest).
  split; [done|]. split; [|exact Hrest].
  rewrite Hkey. by rewrite bool_decide_eq_false_2 by (intros E; by apply E).
Qed.

Lemma compilation_redirect song m :
  wf m →
  IsArtistGroupBy (first (group_by_ m)) = true →
  Song.is_compilation song = true →
  Matches (query_options_ m) (now m) song = true →
  song_nodes_ m !! Song.id song = None →
  ∃ m', SongsDiscovered_body song m = Some (tt, m') ∧ wf m'
        ∧ placed_under_various m song m'.
Proof.
  intros Hwf Hartist Hcomp Hmatch Hnew.
  destruct (wf_root m Hwf) as [root Hroot].
  destruct (first_level_various song m root Hwf Hroot Hartist Hcomp)
    as (va & v & m1 & root1 & Hfirst & Hwf1 & Hext1 & Hroot1 & Hslot1 & Hv1 & Hsort1
        & Hc01 & Hc11 & Hdiv1 & Hsong1 & Hold & Hcreated).
  destruct (find_container_spec 2 1%Z song va (key v) m1 Hwf1 (mk_is_Some _ _ Hv1))
    as (c & m2 & Hdescent & Hwf2 & Hext2 & [ci Hci] & Hsong2 & Hframe2); [lia|lia|].
  destruct Hframe2 as [Hc02 Hdiv2]; [lia|].
  destruct (ItemFromSong_spec GroupBy_None false c song (-1) ci m2 Hwf2 Hci)
    as (leaf & m3 & Hleaf & -> & Hwf3 & Hext3 & Hidx3 & Hc03 & Hdiv3
        & item & Hitem & Htype & Hparent & _ & Hmeta).
  exists (set_song_nodes_ (<[Song.id song := next_ptr m2]> (song_nodes_ m3)) m3).
  split.
  { unfold SongsDiscovered_body. rewrite (bind_Some get _ m m m eq_refl).
    rewrite Hmatch. cbn [negb].
    rewrite bool_decide_eq_false_2 by (rewrite Hnew; by intros [? ?]).
    unfold bind at 1. rewrite Hfirst, Hdescent.
    by rewrite (bind_Some _ _ _ _ _ Hleaf). }
  split; [by apply wf_set_song_nodes|].
  assert (Hext13 : extends m1 m3) by (by eapply extends_trans).
  destruct (ext_heap _ _ Hext13 _ _ Hroot1)
    as (root3 & Hroot3 & _ & _ & _ & _ & _ & _ & Hslot3).
  destruct (ext_heap _ _ Hext13 _ _ Hv1)
    as (v3 & Hv3 & Htv & Hpv & Hkv & Hdv & Hlv & _ & _).
  destruct (wf_various m3 Hwf3 _ _ va Hroot3 (Hslot3 va Hslot1)) as (v3' & Hv3' & Hsort3).
  assert (v3' = v3) as -> by congruence.
  destruct (ext_heap _ _ Hext3 _ _ Hci) as (ci3 & Hci3 & _).
  exists root, root3, va, v3, (next_ptr m2), item, c. cbn.
  split; [done|]. split; [done|]. split; [by apply Hslot3|].
  split; [done|]. split; [done|].
  split; [intros va0 Hva0; by destruct (Hold va0 Hva0)|].
  split.
  { intros Hnone. destruct (Hcreated Hnone) as (-> & Hk & Hd & Ht & Hp & _ & Hl).
    rewrite Hkv, Hdv, Htv, Hpv, Hlv. by repeat split. }
  split; [congruence|]. split; [rewrite Hdiv3 by done; congruence|].
  split; [destruct Hidx3 as (_ & _ & ->); congruence|].
  split.
  { destruct (heap m !! next_ptr m2) eqn:E; [|done].
    pose proof (wf_fresh m Hwf _ (mk_is_Some _ _ E)).
    pose proof (ext_next _ _ Hext1). pose proof (ext_next _ _ Hext2). lia. }
  split; [done|]. split; [done|]. split; [by rewrite Hmeta|]. split; [done|].
  split; [eauto|].
  split.
  { intros Hsecond. revert Hdescent. cbn [find_container].
    rewrite (bind_Some get _ m1 m1 m1 eq_refl).
    rewrite (ext_group_by _ _ Hext1).
    change (Grouping_at (group_by_ m) 1) with (second (group_by_ m)).
    rewrite Hsecond. rewrite bool_decide_eq_true_2 by done.
    by intros [= -> _]. }
  intros Hsecond Hnoartist Hthird. rewrite Hkv. cbn zeta.
  revert Hdescent. cbn [find_container].
  rewrite (bind_Some get _ m1 m1 m1 eq_refl).
  rewrite (ext_group_by _ _ Hext1).
  change (Grouping_at (group_by_ m) 1) with (second (group_by_ m)).
  rewrite bool_decide_eq_false_2 by done. rewrite Hnoartist. cbn [andb].
  change (container_nodes_ m1 1) with (Some (container_nodes_1 m1)).
  rewrite Hc11.
  set (path := (if negb (Qt.isEmpty (key v)) then key v +:+ "-" else key v)
               +:+ ContainerKey (second (group_by_ m)) song).
  destruct (container_nodes_1 m !! path) as [c1|] eqn:Hpath.
  { rewrite (bind_Some get _ m1 m1 m1 eq_refl).
    rewrite (ext_group_by _ _ Hext1).
    change (Grouping_at (group_by_ m) (1 + 1)) with (third (group_by_ m)).
    rewrite Hthird. rewrite bool_decide_eq_true_2 by done. by intros [= -> _]. }
  destruct (ItemFromSong_spec (second (group_by_ m)) (1 =? 0)%Z va song 1 v m1 Hwf1 Hv1)
    as (c1 & m2a & Hnewc & -> & Hwf2a & Hext2a & Hidx2a & _ & _
        & it & Hit & Htypec & Hparentc & _).
  rewrite (bind_Some _ _ _ _ _ Hnewc).
  unfold bind at 1, modify at 1.
  rewrite (bind_Some get _ _ _ _ eq_refl). cbn [group_by_ set_container_nodes_].
  rewrite (ext_group_by _ _ Hext2a), (ext_group_by _ _ Hext1).
  change (Grouping_at (group_by_ m) (1 + 1)) with (third (group_by_ m)).
  rewrite Hthird. rewrite bool_decide_eq_true_2 by done.
  intros [= <- <-].
  split.
  - destruct Hidx3 as (-> & _ & _). cbn. apply lookup_insert_eq.
  - assert (Hit2 : heap (set_container_nodes_ 1 (<[path := next_ptr m1]>
                                                   (container_nodes_1 m)) m2a)
                   !! next_ptr m1 = Some it) by exact Hit.
    destruct (ext_heap _ _ Hext3 _ _ Hit2) as (cj & Hcj & Htc & Hpc & _).
    exists cj. split; [done|]. rewrite Htc, Hpc, Htypec.
    rewrite bool_decide_eq_false_2 by done. done.
Qed.

Lemma DividerKey_leading_space type item rest :
  Spec.is_text_dimension type = true →
  sort_text item = String " " rest →
  DividerKey type item = Some EmptyString.
Proof.
  intros Htext Hsort. unfold DividerKey. rewrite Hsort. cbn [Qt.at0].
  rewrite Ext.space_is_no_digit.
  destruct type; try discriminate Htext; reflexivity.
Qed.

Lemma FinishItem_empty_key type create_divider item i m :
  heap m !! item = Some i → DividerKey type i = Some EmptyString →
  FinishItem type create_divider item m = Some (tt, m).
Proof.
  intros Hi Hkey. unfold FinishItem. rewrite (bind_Some get _ m m m eq_refl).
  destruct (create_divider && show_dividers_ m); [|done].
  rewrite (bind_Some _ _ _ _ _ (deref_Some _ _ _ Hi)). by rewrite Hkey.
Qed.


(** C10.  In every state reached from a new index by insertions, no divider
    is registered under the empty key; every compilation-artist node has the
    sort text " various", so its divider key under each text-like dimension is
    the empty key; creating the node leaves the divider map as it is; and
    [FinishItem] on an item whose divider key is empty changes nothing. *)
Theorem C10_various_artists_never_has_a_divider g show_dividers o now m :
  inserted g show_dividers o now m →
  divider_nodes_ m !! EmptyString = None
  ∧ (∀ p i va, heap m !! p = Some i → compilation_artist_node_ i = Some va →
       ∃ v, heap m !! va = Some v ∧ sort_text v = " various"
            ∧ (∀ type, Spec.is_text_dimension type = true →
                       DividerKey type v = Some EmptyString
                       ∧ divider_nodes_ m !! EmptyString = None))
  ∧ (∀ parent_ p, heap m !! parent_ = Some p → compilation_artist_node_ p = None →
       ∃ m' v, CreateCompilationArtistNode parent_ m = Some (next_ptr m, m')
               ∧ heap m' !! next_ptr m = Some v ∧ sort_text v = " various"
               ∧ divider_nodes_ m' = divider_nodes_ m)
  ∧ (∀ type create_divider item i,
       heap m !! item = Some i → DividerKey type i = Some EmptyString →
       FinishItem type create_divider item m = Some (tt, m)).
Proof.
  intros Hins. pose proof (inserted_wf _ _ _ _ _ Hins) as Hwf.
  split; [apply (wf_dividers m Hwf)|]. split; [|split].
  - intros p i va Hp Hslot.
    destruct (wf_various m Hwf p i va Hp Hslot) as (v & Hv & Hsort).
    exists v. split; [done|]. split; [done|]. intros type Htext.
    split; [by eapply DividerKey_leading_space|apply (wf_dividers m Hwf)].
  - intros parent_ p Hp Hslot. pose proof (wf_fresh_None m Hwf) as Hfresh.
    eexists _, _. split; [exact (CreateCompilationArtistNode_Some _ _ m Hwf Hp Hslot)|].
    split; [by apply allocated_lookup_item|]. done.
  - intros type create_divider item i. apply FinishItem_empty_key.
Qed.

End WithText.

(** What the insertion of a compilation record does at the artist-like
    levels.  At every such level the descent goes on from the
    compilation-artist node of the container it has reached, which is
    created as a Container "Various artists" when the container has none,
    and no keyed container is looked up or registered at that level
    ([redirected_to_various]).  For every well-formed index whose first
    dimension is artist-like and every compilation record that passes the
    filter and has no node yet, the insertion returns with no top-level
    container registered for the record, and the song node hangs below the
    container the descent from the node returns ([placed_under_various]): at
    the next level that is the container registered under the key path of
    the node, whoever its parent is.  From the empty index (Scenario B) the
    result is root > "Various artists" > "X" > the track. *)
Lemma compilation_descends_from_the_various_artists_node :
  (∀ (T : Ext.Text) (n : nat) (i : Z) (song : Song.t) (container : ptr)
     (c : CollectionItem) (key0 : string) (m : CollectionModel),
     wf m → heap m !! container = Some c →
     IsArtistGroupBy (Grouping_at (group_by_ m) i) = true →
     Song.is_compilation song = true →
     redirected_to_various n i song container c key0 m)
  ∧ (∀ (T : Ext.Text) (m : CollectionModel) (song : Song.t),
       wf m →
       IsArtistGroupBy (first (group_by_ m)) = true →
       Song.is_compilation song = true →
       Matches (query_options_ m) (now m) song = true →
       song_nodes_ m !! Song.id song = None →
       ∃ m', SongsDiscovered_body song m = Some (tt, m') ∧ wf m'
             ∧ placed_under_various m song m')
  ∧ (SongsDiscovered (H := Latin1.text) [IndexExamples.compilation_track]
       (IndexExamples.empty_index IndexExamples.by_albumartist_album)
     = Some (tt, IndexExamples.scenario_B)
     ∧ map (IndexExamples.node_view IndexExamples.scenario_B) [0; 1; 2; 3]%nat
       = [Some (Type_Root, None, [1%nat], EmptyString, EmptyString, EmptyString);
          Some (Type_Container, Some 0%nat, [2%nat], "Various artists",
                "Various artists", " various");
          Some (Type_Container, Some 1%nat, [3%nat], "Various artists-X", "X", "x");
          Some (Type_Song, Some 2%nat, [], "Various artists-X-title", "A - title",
                "000000/music/x/1.mp3")]
     ∧ size (heap IndexExamples.scenario_B) = 4%nat
     ∧ map_to_list (container_nodes_0 IndexExamples.scenario_B) = []
     ∧ map_to_list (divider_nodes_ IndexExamples.scenario_B) = []
     ∧ map_to_list (song_nodes_ IndexExamples.scenario_B) = [(1%Z, 3%nat)]).
Proof.
  split; [|split].
  - intros T n i song container c key0 m. apply various_at_level.
  - intros T m song. apply compilation_redirect.
  - vm_compute. by repeat split.
Qed.

End Insertion.

(* ===================================================================== *)
(** ** Dividers, keys and display texts *)
(* ===================================================================== *)

Module DividerTexts.
Import Model Index Spec.



End DividerTexts.

(* ===================================================================== *)
(** ** The scenarios of the specification, run *)
(* ===================================================================== *)

Module Scenarios.
Import Model Index IndexExamples.

Lemma compilation_descends_on_the_empty_index :
  ∃ m', SongsDiscovered_body (H := Latin1.text) compilation_track
          (empty_index by_albumartist_album) = Some (tt, m')
        ∧ wf m'
        ∧ placed_under_various (empty_index by_albumartist_album)
                               compilation_track m'.
Proof.
  apply (proj1 (proj2 Insertion.compilation_descends_from_the_various_artists_node)
           Latin1.text).
  - apply Insertion.wf_new_model.
  - reflexivity.
  - reflexivity.
  - reflexivity.
  - reflexivity.
Qed.

(** C6.  The compilation track of Scenario B is not placed beneath the
    "Various artists" container when the index already holds a record whose
    album artist is literally "Various artists" with the same album.  Both
    insertions return.  The second one creates the compilation-artist node
    of the root (item 5, key "Various artists", sort text " various") and
    continues from it, but the next level looks the album up under the key
    path "Various artists-X", which is the path of the album of the literal
    album artist (item 3, child of item 1).  The track (item 6) becomes a
    child of that album; the new node is left without children, and the
    track is not below it; no top-level container keyed "A" exists. *)
Theorem C6_compilation_track_lands_under_the_literal_album_artist :
  let m := KeyPathExamples.literal_various in
  let m' := KeyPathExamples.literal_various_B in
  SongsDiscovered (H := Latin1.text) [KeyPathExamples.various_named_track]
    (empty_index by_albumartist_album) = Some (tt, m)
  ∧ SongsDiscovered (H := Latin1.text) [compilation_track] m = Some (tt, m')
  ∧ map (node_view m') [0; 1; 2; 3; 4; 5; 6]%nat
    = [Some (Type_Root, None, [1; 2; 5]%nat, EmptyString, EmptyString, EmptyString);
       Some (Type_Container, Some 0%nat, [3%nat], "Various artists",
             "Various artists", "v various artists");
       Some (Type_Divider, Some 0%nat, [], "v", "V", "v  ");
       Some (Type_Container, Some 1%nat, [4; 6]%nat, "Various artists-X", "X", "x");
       Some (Type_Song, Some 3%nat, [], "Various artists-X-title", "title",
             "000000/music/x/2.mp3");
       Some (Type_Container, Some 0%nat, [], "Various artists", "Various artists",
             " various");
       Some (Type_Song, Some 3%nat, [], "Various artists-X-title", "A - title",
             "000000/music/x/1.mp3")]
  ∧ size (heap m') = 7%nat
  ∧ (compilation_artist_node_ <$> heap m !! root_ m) = Some None
  ∧ (compilation_artist_node_ <$> heap m' !! root_ m') = Some (Some 5%nat)
  ∧ song_nodes_ m' !! Song.id compilation_track = Some 6%nat
  ∧ (metadata <$> heap m' !! 6%nat) = Some compilation_track
  ∧ ¬ ChildSongs.below m' 5%nat 6%nat
  ∧ map_to_list (container_nodes_0 m') = [("Various artists", 1%nat)]
  ∧ map_to_list (container_nodes_1 m') = [("Various artists-X", 3%nat)].
Proof.
  cbv zeta.
  split; [vm_compute; reflexivity|]. split; [vm_compute; reflexivity|].
  split; [vm_compute; reflexivity|]. split; [vm_compute; reflexivity|].
  split; [vm_compute; reflexivity|]. split; [vm_compute; reflexivity|].
  split; [vm_compute; reflexivity|]. split; [vm_compute; reflexivity|].
  split; [|split; vm_compute; reflexivity].
  intros Hbelow. inversion Hbelow as [|item i child leaf Hi Hty Hchild Hrest].
  subst. vm_compute in Hi. injection Hi as <-. cbn in Hchild.
  by apply elem_of_nil in Hchild.
Qed.

Lemma scenario_B_inserted :
  inserted (H := Latin1.text) by_albumartist_album true options_all 0 scenario_B.
Proof.
  apply (inserted_step _ _ _ _ _ [compilation_track] _ (inserted_new _ _ _ _)).
  vm_compute. reflexivity.
Qed.

Lemma C10_various_artists_never_has_a_divider_witness :
  divider_nodes_ scenario_B !! EmptyString = None
  ∧ ∃ v, heap scenario_B !! 1%nat = Some v ∧ sort_text v = " various"
         ∧ DividerKey (H := Latin1.text) GroupBy_AlbumArtist v = Some EmptyString.
Proof.
  destruct (Insertion.C10_various_artists_never_has_a_divider
              (H := Latin1.text) by_albumartist_album true options_all 0 scenario_B
              scenario_B_inserted) as (Hempty & Hvarious & _).
  split; [exact Hempty|].
  destruct (Hvarious 0%nat
              (default (item_sorted_as EmptyString) (heap scenario_B !! 0%nat))
              1%nat) as (v & Hv & Hsort & Hkey).
  - vm_compute. reflexivity.
  - vm_compute. reflexivity.
  - exists v. split; [exact Hv|]. split; [exact Hsort|].
    apply (Hkey GroupBy_AlbumArtist). reflexivity.
Defined.

Lemma C9_removal_of_unknown_id_is_noop_witness :
  SongsDeleted (H := Latin1.text) [unknown_track] scenario_B = Some (tt, scenario_B).
Proof.
  apply (proj1 (Removal.C9_removal_of_unknown_id_is_noop (H := Latin1.text) scenario_B)).
  intros s Hs. apply list_elem_of_singleton in Hs. rewrite Hs.
  vm_compute. reflexivity.
Defined.

(** Scenario C: 500 records share the album artist "A".  After the removal of
    499 of them the container "A" and its divider "a" are there, with the one
    remaining song; after the removal of the last one only the root is left. *)
Lemma scenario_C_shared_album_artist :
  SongsDiscovered (H := Latin1.text) (shared_artist 1 500) (empty_index by_albumartist)
  = Some (tt, scenario_C_500)
  ∧ SongsDeleted (H := Latin1.text) (shared_artist 1 499) scenario_C_500
    = Some (tt, scenario_C_1)
  ∧ map (node_view scenario_C_1) [0; 1; 2; 502]%nat
    = [Some (Type_Root, None, [1; 2]%nat, EmptyString, EmptyString, EmptyString);
       Some (Type_Container, Some 0%nat, [502%nat], "A", "A", "a a");
       Some (Type_Divider, Some 0%nat, [], "a", "A", "a  ");
       Some (Type_Song, Some 1%nat, [], "A-title", "title", "000000/music/x/1.mp3")]
  ∧ map_to_list (container_nodes_0 scenario_C_1) = [("A", 1%nat)]
  ∧ map_to_list (divider_nodes_ scenario_C_1) = [("a", 2%nat)]
  ∧ size (heap scenario_C_1) = 4%nat
  ∧ SongsDeleted (H := Latin1.text) (shared_artist 500 1) scenario_C_1
    = Some (tt, scenario_C_0)
  ∧ map_to_list (heap scenario_C_0)
    = [(0%nat, mkItem Type_Root 0 None [] EmptyString EmptyString EmptyString (-1)
                      None Song.empty)]
  ∧ map_to_list (container_nodes_0 scenario_C_0) = []
  ∧ map_to_list (divider_nodes_ scenario_C_0) = []
  ∧ map_to_list (song_nodes_ scenario_C_0) = [].
Proof. vm_compute. by repeat split. Qed.

(** C7.  In an index grouped by year, with dividers, the record of 1999 gets
    the container "1999" and the divider "1990"; [FinishItem] has put the
    divider key in front of the container's sort text, and [DividerKey] reads
    that sort text as the number 0.  The removal of the record returns and
    deletes the song node and the container, and leaves the divider "1990"
    below the root and in the divider map, although no top-level container is
    left. *)
Theorem C7_year_divider_outlives_its_containers :
  SongsDiscovered (H := Latin1.text) [track_of_1999] (empty_index by_year)
  = Some (tt, year_index)
  ∧ map (node_view year_index) [0; 1; 2; 3]%nat
    = [Some (Type_Root, None, [1; 2]%nat, EmptyString, EmptyString, EmptyString);
       Some (Type_Container, Some 0%nat, [3%nat], "1999", "1999", "1990 1999 ");
       Some (Type_Divider, Some 0%nat, [], "1990", "1990", "1990  ");
       Some (Type_Song, Some 1%nat, [], "1999-title", "title", "000000/music/x/1.mp3")]
  ∧ map_to_list (divider_nodes_ year_index) = [("1990", 2%nat)]
  ∧ (DividerKey (H := Latin1.text) GroupBy_Year <$> heap year_index !! 1%nat)
    = Some (Some "0000")
  ∧ SongsDeleted (H := Latin1.text) [track_of_1999] year_index
    = Some (tt, year_index_emptied)
  ∧ map (node_view year_index_emptied) [0; 1; 2; 3]%nat
    = [Some (Type_Root, None, [2%nat], EmptyString, EmptyString, EmptyString);
       None;
       Some (Type_Divider, Some 0%nat, [], "1990", "1990", "1990  ");
       None]
  ∧ map_to_list (container_nodes_0 year_index_emptied) = []
  ∧ map_to_list (song_nodes_ year_index_emptied) = []
  ∧ map_to_list (divider_nodes_ year_index_emptied) = [("1990", 2%nat)].
Proof. vm_compute. by repeat split. Qed.

End Scenarios.

(* ===================================================================== *)
(** ** The maps of the index agree with the tree *)
(* ===================================================================== *)

Module Consistency.
Import Model Index Lifecycle ModelLogic.

Section WithText.
Context `{Ext.Text}.

Lemma keeps_node_keeps f : keeps_node f → keeps f.
Proof.
  intros Hf i. destruct (Hf i) as (Ht & _ & Hp & _ & Hk & Hd & Hs & Hl & Hm).
  by repeat split.
Qed.

Lemma keeps_node_id : keeps_node id.
Proof. intros i. by repeat split. Qed.

Lemma container_nodes_heap m h n :
  ∀ i, container_nodes_ (set_heap h (set_next_ptr n m)) i = container_nodes_ m i.
Proof. done. Qed.

Section Allocated.
Variables (ty : ItemType) (parent_ : ptr) (p : CollectionItem).
Variables (finp fin : CollectionItem → CollectionItem) (m : CollectionModel).
Hypothesis Hp : heap m !! parent_ = Some p.
Hypothesis Hfresh : heap m !! next_ptr m = None.
Hypothesis Hfinp : keeps_node finp.

Let new : CollectionItem :=
  mkItem ty (length (children p)) (Some parent_) [] EmptyString EmptyString
         EmptyString (-1) None Song.empty.
Let m' : CollectionModel := allocated ty parent_ p finp fin m.

Hypothesis Hfin : type (fin new) = ty ∧ row (fin new) = length (children p)
                  ∧ parent (fin new) = Some parent_ ∧ children (fin new) = [].
Hypothesis Hty : ty ≠ Type_Root.
Hypothesis Hptype : type p = Type_Root ∨ type p = Type_Container.

(** Where an item of the new state comes from. *)
Lemma allocated_cases q i' :
  heap m' !! q = Some i' →
  (q = next_ptr m ∧ i' = fin new)
  ∨ (q = parent_ ∧ i' = finp (set_children (children p ++ [next_ptr m]) p))
  ∨ (q ≠ next_ptr m ∧ q ≠ parent_ ∧ heap m !! q = Some i').
Proof.
  intros Hq. assert (parent_ ≠ next_ptr m) as Hne by congruence.
  destruct (decide (q = parent_)) as [->|Hqp].
  - right; left. unfold m' in Hq. rewrite allocated_lookup_parent in Hq.
    split; [done|]. by injection Hq.
  - destruct (decide (q = next_ptr m)) as [->|Hqn].
    + left. unfold m' in Hq. rewrite allocated_lookup_item in Hq by done.
      split; [done|]. by injection Hq.
    + right; right. unfold m' in Hq.
      rewrite allocated_lookup_other in Hq by done. done.
Qed.

(** What becomes of an item of the old state. *)
Lemma allocated_old q i :
  heap m !! q = Some i →
  ∃ i', heap m' !! q = Some i'
        ∧ type i' = type i ∧ row i' = row i ∧ parent i' = parent i
        ∧ key i' = key i ∧ display_text i' = display_text i
        ∧ container_level i' = container_level i ∧ metadata i' = metadata i
        ∧ (∀ k c, children i !! k = Some c → children i' !! k = Some c)
        ∧ (q ≠ parent_ → i' = i).
Proof.
  intros Hq. assert (q ≠ next_ptr m) as Hqn by congruence.
  destruct (decide (q = parent_)) as [->|Hqp].
  - assert (i = p) as -> by congruence.
    eexists. split; [apply allocated_lookup_parent|].
    destruct (Hfinp (set_children (children p ++ [next_ptr m]) p))
      as (-> & -> & -> & -> & -> & -> & _ & -> & ->).
    do 7 (split; [done|]). split; [|done].
    intros k c Hk. cbn. by apply lookup_app_l_Some.
  - exists i. unfold m'. rewrite allocated_lookup_other by done. by repeat split.
Qed.

Lemma consistent_allocated :
  consistent m →
  (∀ i, compilation_artist_node_ i = None → compilation_artist_node_ (fin i) = None) →
  ((∀ i, compilation_artist_node_ (finp i) = compilation_artist_node_ i)
   ∧ (ty = Type_Container → (0 ≤ container_level (fin new) ≤ 2)%Z)
   ∨ ((∀ i, compilation_artist_node_ (finp i) = Some (next_ptr m))
      ∧ (∀ i, sort_text (fin i) = " various") ∧ ty = Type_Container
      ∧ compilation_artist_node_ p = None)) →
  consistent m'.
Proof.
  intros Hcs Hslotn Hslot.
  destruct Hfin as (Hnt & Hnr & Hnp & Hnc).
  assert (Hp' : type (finp (set_children (children p ++ [next_ptr m]) p)) = type p
                ∧ row (finp (set_children (children p ++ [next_ptr m]) p)) = row p
                ∧ parent (finp (set_children (children p ++ [next_ptr m]) p)) = parent p
                ∧ children (finp (set_children (children p ++ [next_ptr m]) p))
                  = children p ++ [next_ptr m]).
  { destruct (Hfinp (set_children (children p ++ [next_ptr m]) p))
      as (-> & -> & -> & -> & _). done. }
  destruct Hp' as (Hpt & Hpr & Hpp & Hpc).
  split.
  - (* wf *)
    apply wf_allocated; [apply Hcs|done|by apply keeps_node_keeps|done|].
    destruct Hslot as [[Hs _]|(Hs & Hv & _)]; [by left|by right].
  - destruct (cs_root m Hcs) as (r & Hr & Ht & Hk & Hpa).
    destruct (allocated_old _ _ Hr) as (r' & Hr' & Ht' & _ & Hpa' & Hk' & _).
    exists r'. split; [exact Hr'|]. repeat split; congruence.
  - intros i nodes k c Hn Hk.
    destruct (cs_containers m Hcs i nodes k c Hn Hk) as (it & Hit & Ht & Hkey & Hl).
    destruct (allocated_old _ _ Hit) as (it' & Hit' & Ht' & _ & _ & Hk' & _ & Hl' & _).
    exists it'. split; [exact Hit'|]. repeat split; congruence.
  - intros id n Hn.
    destruct (cs_songs m Hcs id n Hn) as (it & Hit & Ht & Hid).
    destruct (allocated_old _ _ Hit) as (it' & Hit' & Ht' & _ & _ & _ & _ & _ & Hm' & _).
    exists it'. split; [exact Hit'|]. split; congruence.
  - intros k d Hd.
    destruct (cs_dividers m Hcs k d Hd) as (it & Hit & Ht & Hkey & Hpa & Hdisp).
    destruct (allocated_old _ _ Hit)
      as (it' & Hit' & Ht' & _ & Hpa' & Hk' & Hd' & _).
    exists it'. split; [exact Hit'|].
    split; [congruence|]. split; [congruence|]. split; [by rewrite Hpa'|].
    by rewrite Hd'.
  - intros q i' va Hq Hva.
    destruct (allocated_cases q i' Hq) as [[-> ->]|[[-> ->]|(Hqn & Hqp & Hqm)]].
    + rewrite Hslotn in Hva; done.
    + destruct Hslot as [[Hs _]|(Hs & _ & Htc & _)].
      * rewrite Hs in Hva. cbn in Hva.
        destruct (cs_various m Hcs parent_ p va Hp Hva) as (v & Hv & Ht & Hpa).
        destruct (allocated_old _ _ Hv) as (v' & Hv' & Ht' & _ & Hpa' & _).
        exists v'. split; [exact Hv'|]. split; congruence.
      * rewrite Hs in Hva. injection Hva as <-.
        exists (fin new). split; [by apply allocated_lookup_item|].
        split; congruence.
    + destruct (cs_various m Hcs q i' va Hqm Hva) as (v & Hv & Ht & Hpa).
      destruct (allocated_old _ _ Hv) as (v' & Hv' & Ht' & _ & Hpa' & _).
      exists v'. split; [exact Hv'|]. split; congruence.
  - intros c it' pp Hc Hpar.
    destruct (allocated_cases c it' Hc) as [[-> ->]|[[-> ->]|(Hqn & Hqp & Hqm)]].
    + rewrite Hnp in Hpar. injection Hpar as <-.
      eexists. split; [apply allocated_lookup_parent|].
      rewrite Hpc, Hnr. by apply list_lookup_middle.
    + rewrite Hpp in Hpar. rewrite Hpr.
      destruct (cs_parent m Hcs parent_ p pp Hp Hpar) as (pi & Hpi & Hch).
      destruct (allocated_old _ _ Hpi) as (pi' & Hpi' & _ & _ & _ & _ & _ & _ & _ & Hch').
      exists pi'. split; [exact Hpi'|]. by apply Hch'.
    + destruct (cs_parent m Hcs c it' pp Hqm Hpar) as (pi & Hpi & Hch).
      destruct (allocated_old _ _ Hpi) as (pi' & Hpi' & _ & _ & _ & _ & _ & _ & _ & Hch').
      exists pi'. split; [exact Hpi'|]. by apply Hch'.
  - intros pp pi' k c Hpp' Hk.
    assert (Hold : ∀ pi0, heap m !! pp = Some pi0 → children pi0 !! k = Some c →
                   ∃ it, heap m' !! c = Some it ∧ parent it = Some pp ∧ row it = k).
    { intros pi0 Hpi0 Hk0.
      destruct (cs_children m Hcs pp pi0 k c Hpi0 Hk0) as (it & Hit & Hpa & Hrow).
      destruct (allocated_old _ _ Hit) as (it' & Hit' & _ & Hr' & Hpa' & _).
      exists it'. split; [exact Hit'|]. split; congruence. }
    destruct (allocated_cases pp pi' Hpp') as [[-> ->]|[[-> ->]|(Hqn & Hqp & Hqm)]].
    + rewrite Hnc in Hk. by rewrite lookup_nil in Hk.
    + rewrite Hpc in Hk. apply lookup_app_Some in Hk as [Hk|[Hlen Hk]].
      * by apply (Hold p).
      * apply list_lookup_singleton_Some in Hk as [Hk0 <-].
        exists (fin new). split; [by apply allocated_lookup_item|].
        split; [done|]. rewrite Hnr. lia.
    + by apply (Hold pi').
  - intros c it' Hc Hpar.
    destruct (allocated_cases c it' Hc) as [[-> ->]|[[-> ->]|(Hqn & Hqp & Hqm)]].
    + by rewrite Hnp in Hpar.
    + rewrite Hpp in Hpar. apply (cs_orphan m Hcs parent_ p Hp Hpar).
    + apply (cs_orphan m Hcs c it' Hqm Hpar).
  - intros pp pi' k c Hpp' Hk.
    destruct (allocated_cases pp pi' Hpp') as [[-> ->]|[[-> ->]|(Hqn & Hqp & Hqm)]].
    + rewrite Hnc in Hk. by rewrite lookup_nil in Hk.
    + by rewrite Hpt.
    + apply (cs_fertile m Hcs pp pi' k c Hqm Hk).
  - intros c it' Hc Hroot.
    destruct (allocated_cases c it' Hc) as [[-> ->]|[[-> ->]|(Hqn & Hqp & Hqm)]].
    + congruence.
    + rewrite Hpt in Hroot. apply (cs_root_only m Hcs parent_ p Hp Hroot).
    + apply (cs_root_only m Hcs c it' Hqm Hroot).
  - intros q i' va l nodes k Hq Hva Hn Hk.
    assert (Hlive : is_Some (heap m !! va)).
    { destruct (cs_containers m Hcs l nodes k va Hn Hk) as (it & Hit & _). eauto. }
    destruct (allocated_cases q i' Hq) as [[-> ->]|[[-> ->]|(Hqn & Hqp & Hqm)]].
    + rewrite Hslotn in Hva; done.
    + destruct Hslot as [[Hs _]|(Hs & _)].
      * rewrite Hs in Hva. cbn in Hva.
        apply (cs_unregistered m Hcs parent_ p va l nodes k Hp Hva Hn Hk).
      * rewrite Hs in Hva. injection Hva as <-.
        rewrite Hfresh in Hlive. by destruct Hlive.
    + apply (cs_unregistered m Hcs q i' va l nodes k Hqm Hva Hn Hk).
  - intros c it' pp pi' Hc Htc Hpar Hpp' Hnva.
    assert (Hold : ∀ it pi, heap m !! c = Some it → it' = it ∨ (c = parent_ ∧
                     container_level it' = container_level it ∧ type it' = type it
                     ∧ parent it' = parent it) →
                   heap m !! pp = Some pi →
                   compilation_artist_node_ pi ≠ Some c →
                   (0 ≤ container_level it' ≤ 2)%Z).
    { intros it pi Hit Heq Hpi Hs.
      destruct Heq as [->|(_ & Hl & Ht & Hpa)].
      - apply (cs_level m Hcs c it pp pi Hit Htc Hpar Hpi Hs).
      - rewrite Hl. rewrite Ht in Htc. rewrite Hpa in Hpar.
        apply (cs_level m Hcs c it pp pi Hit Htc Hpar Hpi Hs). }
    assert (Hc_old : c ≠ next_ptr m →
              ∃ it, heap m !! c = Some it
                    ∧ (it' = it ∨ (c = parent_ ∧ container_level it' = container_level it
                                   ∧ type it' = type it ∧ parent it' = parent it))).
    { intros Hcn.
      destruct (allocated_cases c it' Hc) as [[-> ->]|[[-> ->]|(Hqn & Hqp & Hqm)]].
      - done.
      - exists p. split; [done|]. right.
        destruct (Hfinp (set_children (children p ++ [next_ptr m]) p))
          as (-> & _ & -> & _ & _ & _ & _ & -> & _). done.
      - exists it'. split; [done|by left]. }
    destruct (decide (c = next_ptr m)) as [->|Hcn].
    + (* the new item *)
      unfold m' in Hc. rewrite allocated_lookup_item in Hc by done.
      assert (it' = fin new) as -> by (by injection Hc).
      rewrite Hnp in Hpar. injection Hpar as <-.
      unfold m' in Hpp'. rewrite allocated_lookup_parent in Hpp'.
      injection Hpp' as <-.
      destruct Hslot as [[Hs Hl]|(Hs & _)].
      * apply Hl. congruence.
      * by rewrite Hs in Hnva.
    + destruct (Hc_old Hcn) as (it & Hit & Heq).
      destruct (allocated_cases pp pi' Hpp') as [[-> ->]|[[-> ->]|(Hqn & Hqp & Hqm)]].
      * (* the parent cannot be the new item *)
        assert (parent it = Some (next_ptr m)) as Hbad.
        { destruct Heq as [->|(_ & _ & _ & <-)]; done. }
        destruct (cs_parent m Hcs c it _ Hit Hbad) as (pi & Hpi & _). congruence.
      * apply (Hold it p Hit Heq Hp).
        destruct Hslot as [[Hs _]|(_ & _ & _ & Hnone)].
        -- by rewrite Hs in Hnva.
        -- by rewrite Hnone.
      * by apply (Hold it pi' Hit Heq Hqm).
Qed.

End Allocated.

Section Update.
Variables (m : CollectionModel) (q : ptr) (i j : CollectionItem).
Hypothesis Hq : heap m !! q = Some i.
Hypothesis Htype : type j = type i.
Hypothesis Hrow : row j = row i.
Hypothesis Hparent : parent j = parent i.
Hypothesis Hchildren : children j = children i.
Hypothesis Hkey : key j = key i.
Hypothesis Hdisplay : display_text j = display_text i.
Hypothesis Hlevel : container_level j = container_level i.
Hypothesis Hslot : compilation_artist_node_ j = compilation_artist_node_ i.
Hypothesis Hid : Song.id (metadata j) = Song.id (metadata i).

Let m' : CollectionModel := set_heap (<[q := j]> (heap m)) m.

Lemma alike_refl a : alike a a.
Proof. by repeat split. Qed.

Lemma update_old x ix :
  heap m !! x = Some ix → ∃ ix', heap m' !! x = Some ix' ∧ alike ix' ix.
Proof.
  intros Hx. cbn. destruct (decide (q = x)) as [<-|Hne].
  - rewrite lookup_insert_eq. exists j. assert (ix = i) as -> by congruence.
    by repeat split.
  - rewrite lookup_insert_ne by done. exists ix. split; [done|apply alike_refl].
Qed.

Lemma update_new x ix' :
  heap m' !! x = Some ix' → ∃ ix, heap m !! x = Some ix ∧ alike ix' ix.
Proof.
  cbn. intros Hx. destruct (decide (q = x)) as [<-|Hne].
  - rewrite lookup_insert_eq in Hx. injection Hx as <-. exists i. by repeat split.
  - rewrite lookup_insert_ne in Hx by done. exists ix'. split; [done|apply alike_refl].
Qed.

Lemma consistent_update :
  consistent m → (sort_text j = sort_text i ∨ unreferenced m q) → consistent m'.
Proof.
  intros Hcs Hsort. split.
  - apply (wf_update m q i j); [apply Hcs|done| |done].
    intros va Hva. left. congruence.
  - destruct (cs_root m Hcs) as (r & Hr & Ht & Hk & Hpa).
    destruct (update_old _ _ Hr) as (r' & Hr' & Ht' & _ & Hpa' & _ & Hk' & _).
    exists r'. split; [exact Hr'|]. repeat split; congruence.
  - intros l nodes k c Hn Hk.
    destruct (cs_containers m Hcs l nodes k c Hn Hk) as (it & Hit & Ht & Hk0 & Hl).
    destruct (update_old _ _ Hit) as (it' & Hit' & Ht' & _ & _ & _ & Hk' & _ & Hl' & _).
    exists it'. split; [exact Hit'|]. repeat split; congruence.
  - intros id n Hn.
    destruct (cs_songs m Hcs id n Hn) as (it & Hit & Ht & Hid0).
    destruct (update_old _ _ Hit) as (it' & Hit' & Ht' & _ & _ & _ & _ & _ & _ & _ & Hm').
    exists it'. split; [exact Hit'|]. split; congruence.
  - intros k d Hd.
    destruct (cs_dividers m Hcs k d Hd) as (it & Hit & Ht & Hk0 & Hpa & Hdisp).
    destruct (update_old _ _ Hit)
      as (it' & Hit' & Ht' & _ & Hpa' & _ & Hk' & Hd' & _).
    exists it'. split; [exact Hit'|].
    split; [congruence|]. split; [congruence|]. split; [by rewrite Hpa'|].
    by rewrite Hd'.
  - intros x ix' va Hx Hva.
    destruct (update_new _ _ Hx) as (ix & Hix & _ & _ & _ & _ & _ & _ & _ & Hs & _).
    rewrite Hs in Hva.
    destruct (cs_various m Hcs x ix va Hix Hva) as (v & Hv & Ht & Hpa).
    destruct (update_old _ _ Hv) as (v' & Hv' & Ht' & _ & Hpa' & _).
    exists v'. split; [exact Hv'|]. split; congruence.
  - intros c it' pp Hc Hpar.
    destruct (update_new _ _ Hc) as (it & Hit & _ & Hr & Hpa & _).
    rewrite Hpa in Hpar. rewrite Hr.
    destruct (cs_parent m Hcs c it pp Hit Hpar) as (pi & Hpi & Hch).
    destruct (update_old _ _ Hpi) as (pi' & Hpi' & _ & _ & _ & Hch' & _).
    exists pi'. split; [exact Hpi'|]. by rewrite Hch'.
  - intros pp pi' k c Hpp Hk.
    destruct (update_new _ _ Hpp) as (pi & Hpi & _ & _ & _ & Hch & _).
    rewrite Hch in Hk.
    destruct (cs_children m Hcs pp pi k c Hpi Hk) as (it & Hit & Hpa & Hr).
    destruct (update_old _ _ Hit) as (it' & Hit' & _ & Hr' & Hpa' & _).
    exists it'. split; [exact Hit'|]. split; congruence.
  - intros c it' Hc Hpar.
    destruct (update_new _ _ Hc) as (it & Hit & _ & _ & Hpa & _).
    rewrite Hpa in Hpar. apply (cs_orphan m Hcs c it Hit Hpar).
  - intros pp pi' k c Hpp Hk.
    destruct (update_new _ _ Hpp) as (pi & Hpi & Ht & _ & _ & Hch & _).
    rewrite Hch in Hk. rewrite Ht. apply (cs_fertile m Hcs pp pi k c Hpi Hk).
  - intros c it' Hc Hroot.
    destruct (update_new _ _ Hc) as (it & Hit & Ht & _).
    rewrite Ht in Hroot. apply (cs_root_only m Hcs c it Hit Hroot).
  - intros x ix' va l nodes k Hx Hva Hn Hk.
    destruct (update_new _ _ Hx) as (ix & Hix & _ & _ & _ & _ & _ & _ & _ & Hs & _).
    rewrite Hs in Hva.
    apply (cs_unregistered m Hcs x ix va l nodes k Hix Hva Hn Hk).
  - intros c it' pp pi' Hc Htc Hpar Hpp Hnva.
    destruct (update_new _ _ Hc) as (it & Hit & Ht & _ & Hpa & _ & _ & _ & Hl & _).
    destruct (update_new _ _ Hpp) as (pi & Hpi & _ & _ & _ & _ & _ & _ & _ & Hs & _).
    rewrite Ht in Htc. rewrite Hpa in Hpar. rewrite Hs in Hnva. rewrite Hl.
    apply (cs_level m Hcs c it pp pi Hit Htc Hpar Hpi Hnva).
Qed.

End Update.

(** *** Registrations *)

Lemma registered_cases m i nodes k c l nodes' k' c' :
  container_nodes_ m i = Some nodes →
  container_nodes_ (set_container_nodes_ i (<[k := c]> nodes) m) l = Some nodes' →
  nodes' !! k' = Some c' →
  (l = i ∧ k' = k ∧ c' = c)
  ∨ (∃ n0, container_nodes_ m l = Some n0 ∧ n0 !! k' = Some c').
Proof.
  intros Hn Hn' Hk'.
  destruct (Insertion.container_nodes_in_range m l) as [n0 Hn0].
  { revert Hn'. unfold container_nodes_.
    destruct (l =? 0)%Z eqn:E0; [lia|]. destruct (l =? 1)%Z eqn:E1; [lia|].
    destruct (l =? 2)%Z eqn:E2; [lia|done]. }
  assert (Hcase : nodes' = n0 ∨ (l = i ∧ nodes' = <[k := c]> nodes)).
  { revert Hn Hn' Hn0. unfold container_nodes_, set_container_nodes_. cbn.
    intros Hn Hn' Hn0.
    destruct (l =? 0)%Z eqn:E0; [|destruct (l =? 1)%Z eqn:E1;
                                   [|destruct (l =? 2)%Z eqn:E2; [|done]]];
      injection Hn' as <-; injection Hn0 as <-.
    - destruct (i =? 0)%Z eqn:I0; [right; split; [lia|done]|by left].
    - destruct (i =? 1)%Z eqn:I1; [right; split; [lia|done]|by left].
    - destruct (i =? 2)%Z eqn:I2; [right; split; [lia|done]|by left]. }
  destruct Hcase as [->|[-> ->]]; [right; eauto|].
  destruct (decide (k = k')) as [<-|Hne].
  - rewrite lookup_insert_eq in Hk'. left. split; [done|]. split; congruence.
  - rewrite lookup_insert_ne in Hk' by done. right. exists nodes. done.
Qed.

Lemma consistent_register_container m i nodes k c it :
  consistent m → container_nodes_ m i = Some nodes →
  heap m !! c = Some it → type it = Type_Container → key it = k →
  container_level it = i → unreferenced m c →
  consistent (set_container_nodes_ i (<[k := c]> nodes) m).
Proof.
  intros Hcs Hn Hc Ht Hk Hl Hun. split; try apply Hcs.
  - apply wf_set_container_nodes; [apply Hcs|done|eauto].
  - intros l nodes' k' c' Hn' Hk'.
    destruct (registered_cases _ _ _ _ _ _ _ _ _ Hn Hn' Hk')
      as [(-> & -> & ->)|(n0 & Hn0 & Hk0)].
    + by exists it.
    + apply (cs_containers m Hcs l n0 k' c' Hn0 Hk0).
  - intros q i' va l nodes' k' Hq Hva Hn' Hk'.
    destruct (registered_cases _ _ _ _ _ _ _ _ _ Hn Hn' Hk')
      as [(-> & -> & ->)|(n0 & Hn0 & Hk0)].
    + exact (Hun q i' Hq Hva).
    + exact (cs_unregistered m Hcs q i' va l n0 k' Hq Hva Hn0 Hk0).
Qed.

Lemma consistent_register_song m id n it :
  consistent m → heap m !! n = Some it → type it = Type_Song →
  Song.id (metadata it) = id →
  consistent (set_song_nodes_ (<[id := n]> (song_nodes_ m)) m).
Proof.
  intros Hcs Hn Ht Hid. split; try apply Hcs.
  - apply wf_set_song_nodes, Hcs.
  - intros id' n' Hn'. cbn in *. destruct (decide (id = id')) as [<-|Hne].
    + rewrite lookup_insert_eq in Hn'. injection Hn' as <-. by exists it.
    + rewrite lookup_insert_ne in Hn' by done. by apply (cs_songs m Hcs).
Qed.

Lemma consistent_register_divider m k d it :
  consistent m → k ≠ EmptyString → heap m !! d = Some it →
  type it = Type_Divider → key it = k → parent it = Some (root_ m) →
  display_text it = DividerDisplayText (first (group_by_ m)) k →
  consistent (set_divider_nodes_ (<[k := d]> (divider_nodes_ m)) m).
Proof.
  intros Hcs Hne Hd Ht Hk Hp Hdisp. split; try apply Hcs.
  - apply wf_set_divider_nodes; [apply Hcs|done].
  - intros k' d' Hd'. cbn in *. destruct (decide (k = k')) as [<-|Hnek].
    + rewrite lookup_insert_eq in Hd'. injection Hd' as <-. by exists it.
    + rewrite lookup_insert_ne in Hd' by done. by apply (cs_dividers m Hcs).
Qed.

(** *** The insertion path keeps the index consistent *)

Lemma total_and {A} (c : M A) m (Q1 Q2 : A → CollectionModel → Prop) :
  total c m Q1 → total c m Q2 → total c m (λ a m', Q1 a m' ∧ Q2 a m').
Proof.
  intros (a & m1 & Hc & H1) (a' & m2 & Hc' & H2).
  assert (a' = a ∧ m2 = m1) as [-> ->] by (split; congruence).
  exists a, m1. auto.
Qed.

Lemma unreferenced_update m q i j x :
  heap m !! q = Some i →
  compilation_artist_node_ j = compilation_artist_node_ i →
  unreferenced m x → unreferenced (set_heap (<[q := j]> (heap m)) m) x.
Proof.
  intros Hq Hs Hun y k Hy Hk. cbn in Hy.
  destruct (decide (q = y)) as [<-|Hne].
  - rewrite lookup_insert_eq in Hy. injection Hy as <-.
    rewrite Hs in Hk. exact (Hun q i Hq Hk).
  - rewrite lookup_insert_ne in Hy by done. exact (Hun y k Hy Hk).
Qed.

Lemma unreferenced_allocated_other ty parent_ p finp fin m x :
  heap m !! parent_ = Some p → heap m !! next_ptr m = None →
  (∀ i, compilation_artist_node_ (finp i) = compilation_artist_node_ i) →
  (∀ i, compilation_artist_node_ i = None → compilation_artist_node_ (fin i) = None) →
  unreferenced m x → unreferenced (allocated ty parent_ p finp fin m) x.
Proof.
  intros Hp Hfresh Hfinp Hfin Hun q k Hq Hk.
  destruct (decide (q = parent_)) as [->|Hne].
  - rewrite allocated_lookup_parent in Hq. injection Hq as <-.
    rewrite Hfinp in Hk. exact (Hun parent_ p Hp Hk).
  - destruct (decide (q = next_ptr m)) as [->|Hne'].
    + rewrite allocated_lookup_item in Hq by done. injection Hq as <-.
      rewrite Hfin in Hk; done.
    + rewrite allocated_lookup_other in Hq by done. exact (Hun q k Hq Hk).
Qed.

Lemma FinishItem_consistent type create_divider item i m :
  consistent m → heap m !! item = Some i → unreferenced m item →
  (create_divider = true → type = first (group_by_ m)) →
  total (FinishItem type create_divider item) m
    (λ _ m', consistent m' ∧ ∀ x, unreferenced m x → unreferenced m' x).
Proof.
  intros Hcs Hi Hun Htype. pose proof (cs_wf m Hcs) as Hwf.
  assert (Hsame : total (ret tt) m
            (λ _ m', consistent m' ∧ ∀ x, unreferenced m x → unreferenced m' x))
    by (by apply total_ret).
  unfold FinishItem. apply total_bind, total_get.
  destruct create_divider; [|exact Hsame].
  destruct (show_dividers_ m); [|exact Hsame]. cbn [andb].
  apply total_bind, (total_deref item i); [done|].
  destruct (Insertion.DividerKey_total type i) as [k ->].
  destruct (Qt.isEmpty k) eqn:Hk; cbn [negb andb].
  { apply total_bind, total_ret. exact Hsame. }
  apply total_bind. eapply total_eq; [by apply update_Some|].
  set (m1 := set_heap _ m).
  assert (Hcs1 : consistent m1).
  { apply (consistent_update m item i); [done..|by right]. }
  assert (Hun1 : ∀ x, unreferenced m x → unreferenced m1 x).
  { intros x Hx. by apply (unreferenced_update m item i). }
  pose proof (cs_wf m1 Hcs1) as Hwf1.
  destruct (bool_decide (divider_nodes_ m !! k = None)); [|by apply total_ret].
  destruct (cs_root m1 Hcs1) as (r & Hr & Hrt & _).
  pose proof (wf_fresh_None m1 Hwf1) as Hfresh1.
  apply total_bind.
  eapply total_eq; [exact (new_CollectionItem_Some _ _ _ _ Hr Hfresh1)|].
  apply total_bind.
  eapply total_eq; [apply update_Some, allocated_lookup_item; done|].
  rewrite (allocated_fin _ _ _ _ id _ m1 (next_ptr m1) Hr Hfresh1 eq_refl).
  apply total_modify.
  set (m2 := allocated _ _ _ _ _ m1).
  assert (Hcs2 : consistent m2).
  { apply (consistent_allocated _ _ _ _ _ _ Hr Hfresh1 keeps_node_id);
      [done|done|by left|done|done|by left]. }
  split.
  - eapply (consistent_register_divider m2 k (next_ptr m1));
      [done|by apply Insertion.isEmpty_false
      |exact (allocated_lookup_item _ _ _ _ _ m1 Hr Hfresh1)|done|done|done|].
    cbn. by rewrite (Htype eq_refl).
  - intros x Hx. apply (unreferenced_allocated_other _ _ _ _ _ m1 x Hr Hfresh1);
      [done|done|by apply Hun1].
Qed.

Lemma switch_ContainerKey g0 type s level md :
  type ≠ GroupBy_None → type ≠ GroupByCount →
  snd (fst (fst (ItemFromSong_switch g0 type s level md))) = ContainerKey type s.
Proof. intros H1 H2. by destruct type. Qed.

Lemma ItemFromSong_consistent type create_divider parent_ s level p m :
  consistent m → heap m !! parent_ = Some p →
  Model.type p = Type_Root ∨ Model.type p = Type_Container →
  (create_divider = true → type = first (group_by_ m)) →
  (type ≠ GroupBy_None → (0 ≤ level ≤ 2)%Z) →
  total (ItemFromSong type create_divider parent_ s level) m
    (λ item m',
       consistent m' ∧ unreferenced m' item
       ∧ ∃ it, heap m' !! item = Some it
               ∧ key it
                 = (if bool_decide (parent_ ≠ root_ m) && negb (Qt.isEmpty (key p))
                    then key p +:+ "-" else EmptyString)
                   +:+ snd (fst (fst (ItemFromSong_switch
                                        (Grouping_at (group_by_ m) 0) type s level
                                        Song.empty)))).
Proof.
  intros Hcs Hp Hptype Htype Hlevel. pose proof (cs_wf m Hcs) as Hwf.
  pose proof (wf_fresh_None m Hwf) as Hfresh.
  unfold ItemFromSong.
  apply total_bind.
  eapply total_eq; [exact (Insertion.InitItem_Some type parent_ level p m Hwf Hp)|].
  apply total_bind, total_get.
  apply total_bind. eapply total_deref; [apply allocated_lookup_parent|].
  apply total_bind. eapply total_deref; [by apply allocated_lookup_item|].
  apply total_bind.
  eapply total_eq; [apply update_Some, allocated_lookup_item; done|].
  rewrite (allocated_set _ _ _ _ _ _ m (next_ptr m) Hp Hfresh eq_refl).
  set (m1 := allocated _ _ _ _ _ m).
  assert (Hcs1 : consistent m1).
  { apply (consistent_allocated _ _ _ _ _ _ Hp Hfresh keeps_node_id);
      [done|by destruct (bool_decide (type = GroupBy_None))|done|done|done|].
    left. split; [done|]. cbn. intros Hc. apply Hlevel. intros ->.
    by rewrite bool_decide_eq_true_2 in Hc. }
  assert (Hun1 : unreferenced m1 (next_ptr m)).
  { apply unreferenced_allocated; done. }
  pose proof (allocated_lookup_item _ parent_ p id _ m Hp Hfresh
              : heap m1 !! next_ptr m = Some _) as Hit.
  apply total_bind.
  eapply total_mono;
    [exact (total_and _ _ _ _
              (FinishItem_consistent type create_divider _ _ m1 Hcs1 Hit Hun1 Htype)
              (Insertion.FinishItem_spec type create_divider _ _ m1
                 (cs_wf m1 Hcs1) Hit Hun1))|].
  intros [] m2 ((Hcs2 & Hun2) & _ & Hext2 & _).
  apply total_ret. split; [done|]. split; [by apply Hun2|].
  destruct (ext_heap _ _ Hext2 _ _ Hit) as (it & Hit2 & _ & _ & Hk & _).
  exists it. split; [done|]. rewrite Hk. reflexivity.
Qed.

Lemma Grouping_at_valid g i :
  valid_grouping g → Grouping_at g i ≠ GroupByCount.
Proof.
  intros (H1 & H2 & H3). unfold Grouping_at.
  destruct (i =? 0)%Z; [done|]. destruct (i =? 1)%Z; [done|].
  by destruct (i =? 2)%Z.
Qed.

Lemma isEmpty_true k : Qt.isEmpty k = true → k = EmptyString.
Proof. by destruct k. Qed.

(** The key under which [SongsDiscovered] registers a new container is the
    key [ItemFromSong] gives it. *)
Lemma registered_key m container ci key0 CK :
  consistent m → heap m !! container = Some ci → key ci = key0 →
  (if bool_decide (container ≠ root_ m) && negb (Qt.isEmpty (key ci))
   then key ci +:+ "-" else EmptyString) +:+ CK
  = (if negb (Qt.isEmpty key0) then key0 +:+ "-" else key0) +:+ CK.
Proof.
  intros Hcs Hc <-. destruct (Qt.isEmpty (key ci)) eqn:Hk; cbn [negb].
  - rewrite andb_false_r. by rewrite (isEmpty_true _ Hk).
  - rewrite andb_true_r. rewrite bool_decide_eq_true_2; [done|].
    intros ->. destruct (cs_root m Hcs) as (r & Hr & _ & Hkr & _).
    assert (ci = r) as -> by congruence. by rewrite Hkr in Hk.
Qed.

Lemma find_container_consistent n :
  ∀ i song container key0 m ci,
    consistent m → valid_grouping (group_by_ m) →
    heap m !! container = Some ci → key ci = key0 →
    Model.type ci = Type_Root ∨ Model.type ci = Type_Container →
    (0 ≤ i)%Z → (i + Z.of_nat n ≤ 3)%Z →
    total (find_container n i song container key0) m
      (λ c m', consistent m'
               ∧ ∃ ci', heap m' !! c = Some ci'
                        ∧ (Model.type ci' = Type_Root
                           ∨ Model.type ci' = Type_Container)).
Proof.
  induction n as [|n IH];
    intros i song container key0 m ci Hcs Hg Hc Hkey Hct Hi Hn.
  { apply total_ret. eauto. }
  pose proof (cs_wf m Hcs) as Hwf.
  cbn [find_container]. apply total_bind, total_get.
  destruct (bool_decide (Grouping_at (group_by_ m) i = GroupBy_None)) eqn:Hnone.
  { apply total_ret. eauto. }
  apply bool_decide_eq_false_1 in Hnone.
  pose proof (Grouping_at_valid _ i Hg) as Hcount.
  set (type := Grouping_at (group_by_ m) i) in *.
  destruct (IsArtistGroupBy type && Song.is_compilation song).
  - (* the Various Artists node *)
    apply total_bind, (total_deref container ci); [done|].
    destruct (compilation_artist_node_ ci) as [va|] eqn:Hslot.
    + apply total_bind, total_ret.
      destruct (cs_various m Hcs container ci va Hc Hslot) as (v & Hv & Hvt & _).
      apply total_bind, (total_deref va v); [done|].
      apply (IH (i + 1)%Z song va _ m v); try done; try lia. by right.
    + pose proof (wf_fresh_None m Hwf) as Hfresh.
      apply total_bind.
      eapply total_eq;
        [exact (Insertion.CreateCompilationArtistNode_Some _ _ m Hwf Hc Hslot)|].
      set (m1 := allocated _ _ _ _ _ m).
      assert (Hcs1 : consistent m1).
      { apply (consistent_allocated _ _ _ _ _ _ Hc Hfresh);
          [by intros x|done|done|done|done|done|by right]. }
      apply total_bind.
      eapply total_deref; [by apply allocated_lookup_item|].
      eapply (IH (i + 1)%Z song (next_ptr m) _ m1);
        [done|done|by apply allocated_lookup_item|done|by right|lia|lia].
  - (* the container of this level, by key *)
    destruct (Insertion.container_nodes_in_range m i) as [nodes Hnodes]; [lia|].
    rewrite Hnodes.
    set (K := (if negb (Qt.isEmpty key0) then key0 +:+ "-" else key0)
              +:+ ContainerKey type song).
    destruct (nodes !! K) as [c'|] eqn:Hlook.
    + destruct (cs_containers m Hcs i nodes K c' Hnodes Hlook)
        as (it & Hit & Htc & Hk & _).
      apply (IH (i + 1)%Z song c' K m it); try done; try lia. by right.
    + apply total_bind.
      assert (Hdiv : (i =? 0)%Z = true → type = first (group_by_ m)).
      { intros Hi0. apply Z.eqb_eq in Hi0. unfold type. by rewrite Hi0. }
      eapply total_mono;
        [exact (total_and _ _ _ _
                  (ItemFromSong_consistent type (i =? 0)%Z container song i ci m
                     Hcs Hc Hct Hdiv ltac:(lia))
                  (Insertion.ItemFromSong_spec type (i =? 0)%Z container song i ci m
                     Hwf Hc))|].
      intros item m1 ((Hcs1 & Hun1 & it & Hit & Hk)
                      & -> & _ & Hext1 & Hidx & Hc0 & _ & it' & Hit' & Hty & _ & Hl & _).
      assert (it' = it) as -> by congruence.
      rewrite (switch_ContainerKey _ _ _ _ _ Hnone Hcount) in Hk.
      rewrite (registered_key m container ci key0 _ Hcs Hc Hkey) in Hk.
      rewrite bool_decide_eq_false_2 in Hty by done.
      apply total_bind, total_modify.
      set (m2 := set_container_nodes_ i _ m1).
      assert (Hcs2 : consistent m2).
      { apply (consistent_register_container m1 i nodes K (next_ptr m) it);
          try done.
        by rewrite (Insertion.container_nodes_same m m1 i Hidx Hc0). }
      apply (IH (i + 1)%Z song (next_ptr m) K m2 it);
        [done|cbn; by rewrite (ext_group_by _ _ Hext1)|done|done|by right|lia|lia].
Qed.

Lemma SongsDiscovered_body_consistent song m :
  consistent m → valid_grouping (group_by_ m) →
  total (SongsDiscovered_body song) m
    (λ _ m', consistent m' ∧ extends m m' ∧ discovered m song m').
Proof.
  intros Hcs Hg. pose proof (cs_wf m Hcs) as Hwf.
  unfold SongsDiscovered_body, discovered. apply total_bind, total_get.
  destruct (negb (Matches (query_options_ m) (now m) song)); cbn [orb].
  { apply total_ret. split; [done|]. split; [apply extends_refl|done]. }
  destruct (bool_decide (is_Some (song_nodes_ m !! Song.id song))).
  { apply total_ret. split; [done|]. split; [apply extends_refl|done]. }
  destruct (cs_root m Hcs) as (r & Hr & Hrt & Hkr & _).
  apply total_bind.
  eapply total_mono;
    [exact (total_and _ _ _ _
              (find_container_consistent 3 0%Z song (root_ m) EmptyString m r
                 Hcs Hg Hr Hkr (or_introl Hrt) ltac:(lia) ltac:(lia))
              (Insertion.find_container_spec 3 0%Z song (root_ m) EmptyString m Hwf
                 (mk_is_Some _ _ Hr) ltac:(lia) ltac:(lia)))|].
  intros c m1 ((Hcs1 & ci & Hci & Hcit) & Hwf1 & Hext1 & _ & Hsong1 & _).
  apply total_bind.
  eapply total_mono;
    [exact (total_and _ _ _ _
              (ItemFromSong_consistent GroupBy_None false c song (-1) ci m1 Hcs1 Hci
                 Hcit ltac:(done) ltac:(done))
              (Insertion.ItemFromSong_spec GroupBy_None false c song (-1) ci m1
                 Hwf1 Hci))|].
  intros node m2 ((Hcs2 & _ & _)
                  & -> & _ & Hext2 & Hidx & _ & _ & it & Hit & Hty & _ & _ & Hmeta).
  apply total_modify.
  assert (Hmd : metadata it = song) by (by rewrite Hmeta).
  split; [|split].
  - apply (consistent_register_song m2 (Song.id song) (next_ptr m1) it);
      try done. by rewrite Hmd.
  - eapply extends_trans; [exact Hext1|].
    eapply extends_trans; [exact Hext2|]. by apply extends_config.
  - exists (next_ptr m1), it. cbn.
    split; [destruct Hidx as (_ & _ & ->); by rewrite Hsong1|].
    split.
    { destruct (heap m !! next_ptr m1) eqn:E; [|done].
      pose proof (wf_fresh m Hwf _ (mk_is_Some _ _ E)).
      pose proof (ext_next _ _ Hext1). lia. }
    split; [done|]. split; [done|]. done.
Qed.

Lemma SongsDiscovered_consistent songs :
  ∀ m, consistent m → valid_grouping (group_by_ m) →
       total (SongsDiscovered songs) m (λ _ m', consistent m' ∧ extends m m').
Proof.
  induction songs as [|song songs IH]; intros m Hcs Hg.
  { apply total_ret. split; [done|apply extends_refl]. }
  cbn [SongsDiscovered for_each]. apply total_bind.
  eapply total_mono; [exact (SongsDiscovered_body_consistent song m Hcs Hg)|].
  intros [] m1 (Hcs1 & Hext1 & _).
  eapply total_mono; [apply (IH m1 Hcs1); by rewrite (ext_group_by _ _ Hext1)|].
  intros [] m2 [Hcs2 Hext2]. split; [done|by eapply extends_trans].
Qed.

Lemma consistent_new_model g show_dividers o now :
  consistent (new_model g show_dividers o now).
Proof.
  split.
  - apply Insertion.wf_new_model.
  - eexists. split; [apply lookup_singleton_eq|]. done.
  - intros i nodes k c Hn Hk. unfold container_nodes_ in Hn. cbn in Hn.
    destruct (i =? 0)%Z; [|destruct (i =? 1)%Z; [|destruct (i =? 2)%Z; [|done]]];
      injection Hn as <-; by rewrite lookup_empty in Hk.
  - intros id n Hn. unfold new_model, Reset in Hn. cbn [song_nodes_] in Hn.
    by rewrite lookup_empty in Hn.
  - intros k d Hd. unfold new_model, Reset in Hd. cbn [divider_nodes_] in Hd.
    by rewrite lookup_empty in Hd.
  - intros p i va Hp Hslot. cbn -[singletonM] in Hp.
    apply lookup_singleton_Some in Hp as [_ <-]. done.
  - intros c it p Hc Hpar. cbn -[singletonM] in Hc.
    apply lookup_singleton_Some in Hc as [_ <-]. done.
  - intros p pi k c Hp Hk. cbn -[singletonM] in Hp.
    apply lookup_singleton_Some in Hp as [_ <-]. cbn [children] in Hk.
    by rewrite lookup_nil in Hk.
  - intros c it Hc _. cbn -[singletonM] in Hc.
    by apply lookup_singleton_Some in Hc as [<- _].
  - intros p pi k c Hp Hk. cbn -[singletonM] in Hp.
    apply lookup_singleton_Some in Hp as [_ <-]. by left.
  - intros c it Hc _. cbn -[singletonM] in Hc.
    by apply lookup_singleton_Some in Hc as [<- _].
  - intros p i va l nodes k Hp Hslot. cbn -[singletonM] in Hp.
    apply lookup_singleton_Some in Hp as [_ <-]. done.
  - intros c it p pi Hc Htc. cbn -[singletonM] in Hc.
    apply lookup_singleton_Some in Hc as [_ <-]. done.
Qed.

Lemma inserted_consistent g show_dividers o now m :
  valid_grouping g → inserted g show_dividers o now m →
  consistent m ∧ group_by_ m = g ∧ show_dividers_ m = show_dividers
  ∧ query_options_ m = o ∧ Model.now m = now.
Proof.
  intros Hg. induction 1 as [|m songs m' _ (Hcs & Hgm & Hsd & Hqo & Hnow) Hstep].
  { split; [apply consistent_new_model|done]. }
  destruct (SongsDiscovered_consistent songs m Hcs) as ([] & m2 & Heq & Hcs2 & Hext);
    [by rewrite Hgm|].
  assert (m2 = m') as -> by congruence.
  split; [done|].
  rewrite (ext_group_by _ _ Hext), (ext_show_dividers _ _ Hext),
    (ext_query_options _ _ Hext), (ext_now _ _ Hext). done.
Qed.

(** *** Removing a childless item *)

Lemma shift_children_parent child parent_ r i :
  children (shift child parent_ r parent_ i) = delete r (children i).
Proof. cbn. by rewrite bool_decide_eq_true_2. Qed.

Lemma shift_children_other child parent_ r q i :
  q ≠ parent_ → children (shift child parent_ r q i) = children i.
Proof. intros Hq. cbn. by rewrite bool_decide_eq_false_2. Qed.

Lemma shift_row_later child parent_ r q i :
  parent i = Some parent_ → (r < row i)%nat →
  row (shift child parent_ r q i) = (row i - 1)%nat.
Proof. intros Hp Hr. cbn. by rewrite bool_decide_eq_true_2. Qed.

Lemma shift_row_same child parent_ r q i :
  ¬ (parent i = Some parent_ ∧ (r < row i)%nat) →
  row (shift child parent_ r q i) = row i.
Proof. intros Hn. cbn. by rewrite bool_decide_eq_false_2. Qed.

Section Detached.
Variables (m m' : CollectionModel) (child parent_ : ptr) (ci : CollectionItem).
Hypothesis Hcs : consistent m.
Hypothesis Hchild : heap m !! child = Some ci.
Hypothesis Hleaf : children ci = [].
Hypothesis Hparent : parent ci = Some parent_.
Hypothesis Hdt : detached m child parent_ (row ci) m'.

Lemma detached_old q i :
  q ≠ child → heap m !! q = Some i →
  heap m' !! q = Some (shift child parent_ (row ci) q i).
Proof.
  intros Hne Hq. rewrite (dt_heap _ _ _ _ _ Hdt q).
  rewrite bool_decide_eq_false_2 by done. by rewrite Hq.
Qed.

Lemma detached_new q i' :
  heap m' !! q = Some i' →
  q ≠ child ∧ ∃ i, heap m !! q = Some i ∧ i' = shift child parent_ (row ci) q i.
Proof.
  rewrite (dt_heap _ _ _ _ _ Hdt q). case_bool_decide as Hq; [done|].
  intros Hi. split; [done|]. destruct (heap m !! q) as [i|]; [|done].
  exists i. split; [done|]. by injection Hi.
Qed.

Lemma detached_parent_live :
  ∃ pi, heap m !! parent_ = Some pi ∧ children pi !! row ci = Some child
        ∧ parent_ ≠ child.
Proof.
  destruct (cs_parent m Hcs child ci parent_ Hchild Hparent) as (pi & Hpi & Hr).
  exists pi. split; [done|]. split; [done|]. intros ->.
  assert (pi = ci) as -> by congruence. by rewrite Hleaf in Hr.
Qed.

(** The child is nobody's parent. *)
Lemma detached_no_children c it : heap m !! c = Some it → parent it ≠ Some child.
Proof.
  intros Hc Hp. destruct (cs_parent m Hcs c it child Hc Hp) as (pi & Hpi & Hr).
  assert (pi = ci) as -> by congruence. by rewrite Hleaf in Hr.
Qed.

Lemma detached_wf : wf m'.
Proof.
  pose proof (cs_wf m Hcs) as Hwf. split.
  - destruct (cs_root m Hcs) as (r & Hr & _ & _ & Hpr).
    rewrite (dt_root _ _ _ _ _ Hdt).
    erewrite detached_old; [eauto| |exact Hr]. intros E. rewrite E in Hr.
    assert (r = ci) as -> by congruence. congruence.
  - intros q [i' Hq]. destruct (detached_new q i' Hq) as (_ & i & Hi & _).
    rewrite (dt_next _ _ _ _ _ Hdt). apply (wf_fresh m Hwf). eauto.
  - intros l nodes' k c Hn Hk.
    destruct (dt_containers _ _ _ _ _ Hdt l nodes' k c Hn Hk) as (Hne & nodes & Hn0 & Hk0).
    destruct (wf_containers m Hwf l nodes k c Hn0 Hk0) as [it Hit].
    erewrite detached_old; eauto.
  - intros q i' va Hq Hva. destruct (detached_new q i' Hq) as (Hqn & i & Hi & ->).
    cbn in Hva. case_bool_decide as Hs; [done|].
    destruct (wf_various m Hwf q i va Hi Hva) as (v & Hv & Hsort).
    exists (shift child parent_ (row ci) va v). split; [|done].
    apply detached_old; [congruence|done].
  - destruct (divider_nodes_ m' !! EmptyString) as [d|] eqn:Hd; [|done].
    destruct (dt_dividers _ _ _ _ _ Hdt _ _ Hd) as [_ Hd0].
    by rewrite (wf_dividers m Hwf) in Hd0.
Qed.

Lemma consistent_detached : consistent m'.
Proof.
  destruct detached_parent_live as (ppi & Hppi & Hrow & Hpc).
  split.
  - exact detached_wf.
  - destruct (cs_root m Hcs) as (r & Hr & Ht & Hk & Hpr).
    exists (shift child parent_ (row ci) (root_ m) r).
    rewrite (dt_root _ _ _ _ _ Hdt). split; [|done].
    apply detached_old; [|done]. intros E. rewrite E in Hr. congruence.
  - intros l nodes' k c Hn Hk.
    destruct (dt_containers _ _ _ _ _ Hdt l nodes' k c Hn Hk) as (Hne & nodes & Hn0 & Hk0).
    destruct (cs_containers m Hcs l nodes k c Hn0 Hk0) as (it & Hit & Ht & Hkey & Hl).
    exists (shift child parent_ (row ci) c it). split; [by apply detached_old|done].
  - intros id n Hn. destruct (dt_songs _ _ _ _ _ Hdt id n Hn) as [Hne Hn0].
    destruct (cs_songs m Hcs id n Hn0) as (it & Hit & Ht & Hid).
    exists (shift child parent_ (row ci) n it). split; [by apply detached_old|done].
  - intros k d Hd. destruct (dt_dividers _ _ _ _ _ Hdt k d Hd) as [Hne Hd0].
    destruct (cs_dividers m Hcs k d Hd0) as (it & Hit & Ht & Hkey & Hp & Hdisp).
    exists (shift child parent_ (row ci) d it). split; [by apply detached_old|].
    rewrite (dt_root _ _ _ _ _ Hdt), (dt_group_by _ _ _ _ _ Hdt). done.
  - intros q i' va Hq Hva. destruct (detached_new q i' Hq) as (Hqn & i & Hi & ->).
    cbn in Hva. case_bool_decide as Hs; [done|].
    destruct (cs_various m Hcs q i va Hi Hva) as (v & Hv & Ht & Hp).
    exists (shift child parent_ (row ci) va v). split; [|done].
    apply detached_old; [congruence|done].
  - intros c it' pp Hc Hp. destruct (detached_new c it' Hc) as (Hcn & it & Hit & ->).
    change (parent it = Some pp) in Hp.
    destruct (cs_parent m Hcs c it pp Hit Hp) as (pi & Hpi & Hr).
    assert (pp ≠ child) as Hppn.
    { intros ->. by apply (detached_no_children c it). }
    exists (shift child parent_ (row ci) pp pi). split; [by apply detached_old|].
    destruct (decide (pp = parent_)) as [->|Hpp].
    + assert (pi = ppi) as -> by congruence.
      assert (row it ≠ row ci) as Hrne by (intros E; rewrite E in Hr; congruence).
      rewrite shift_children_parent.
      destruct (decide (row ci < row it)%nat) as [Hlt|Hge].
      * rewrite shift_row_later by done.
        rewrite list_lookup_delete_ge by lia.
        replace (S (row it - 1)) with (row it) by lia. done.
      * rewrite shift_row_same by (intros [_ ?]; lia).
        rewrite list_lookup_delete_lt; [done|lia].
    + rewrite shift_children_other by done.
      rewrite shift_row_same; [done|]. intros [E _]. congruence.
  - intros pp pi' k c Hpp Hk. destruct (detached_new pp pi' Hpp) as (Hppn & pi & Hpi & ->).
    destruct (decide (pp = parent_)) as [->|Hp].
    + rewrite shift_children_parent in Hk.
      assert (pi = ppi) as -> by congruence.
      assert (Hk0 : ∃ k0, children ppi !! k0 = Some c ∧ k0 ≠ row ci
                          ∧ ((row ci < k0)%nat ∧ k = (k0 - 1)%nat
                             ∨ ¬ (row ci < k0)%nat ∧ k = k0)).
      { destruct (decide (k < row ci)%nat) as [Hlt|Hge].
        - rewrite list_lookup_delete_lt in Hk by done. exists k.
          split; [done|]. split; [lia|]. right. lia.
        - rewrite list_lookup_delete_ge in Hk by lia. exists (S k).
          split; [done|]. split; [lia|]. left. lia. }
      destruct Hk0 as (k0 & Hk0 & Hne & Hcase).
      destruct (cs_children m Hcs parent_ ppi k0 c Hppi Hk0) as (it & Hit & Hpit & Hrit).
      assert (c ≠ child) as Hcn by (intros ->; congruence).
      exists (shift child parent_ (row ci) c it). split; [by apply detached_old|].
      split; [done|].
      destruct Hcase as [[Hlt ->]|[Hge ->]].
      * rewrite shift_row_later; [lia|done|lia].
      * rewrite shift_row_same; [done|]. intros [_ ?]. lia.
    + rewrite shift_children_other in Hk by done.
      destruct (cs_children m Hcs pp pi k c Hpi Hk) as (it & Hit & Hpit & Hrit).
      assert (c ≠ child) as Hcn by (intros ->; congruence).
      exists (shift child parent_ (row ci) c it). split; [by apply detached_old|].
      split; [done|].
      rewrite shift_row_same; [done|]. intros [E _]. congruence.
  - intros c it' Hc Hp. destruct (detached_new c it' Hc) as (Hcn & it & Hit & ->).
    rewrite (dt_root _ _ _ _ _ Hdt). apply (cs_orphan m Hcs c it Hit Hp).
  - intros pp pi' k c Hpp Hk. destruct (detached_new pp pi' Hpp) as (Hppn & pi & Hpi & ->).
    change (type pi = Type_Root ∨ type pi = Type_Container).
    destruct (decide (pp = parent_)) as [->|Hp].
    + apply (cs_fertile m Hcs parent_ pi (row ci) child Hpi).
      assert (pi = ppi) as -> by congruence. done.
    + rewrite shift_children_other in Hk by done.
      apply (cs_fertile m Hcs pp pi k c Hpi Hk).
  - intros c it' Hc Ht. destruct (detached_new c it' Hc) as (Hcn & it & Hit & ->).
    rewrite (dt_root _ _ _ _ _ Hdt). apply (cs_root_only m Hcs c it Hit Ht).
  - intros q i' va l nodes' k Hq Hva Hn Hk.
    destruct (detached_new q i' Hq) as (Hqn & i & Hi & ->).
    cbn in Hva. case_bool_decide as Hs; [done|].
    destruct (dt_containers _ _ _ _ _ Hdt l nodes' k va Hn Hk) as (_ & nodes & Hn0 & Hk0).
    exact (cs_unregistered m Hcs q i va l nodes k Hi Hva Hn0 Hk0).
  - intros c it' pp pi' Hc Ht Hp Hpp Hnva.
    destruct (detached_new c it' Hc) as (Hcn & it & Hit & ->).
    destruct (detached_new pp pi' Hpp) as (Hppn & pi & Hpi & ->).
    cbn in Ht, Hp, Hnva |- *.
    apply (cs_level m Hcs c it pp pi Hit Ht Hp Hpi).
    intros Hs. apply Hnva. rewrite bool_decide_eq_false_2 by congruence. done.
Qed.

End Detached.

(** *** [SimpleTreeItem::Delete] on a childless item *)

Lemma set_heap_id m : set_heap (heap m) m = m.
Proof. by destruct m. Qed.

Lemma for_each_update (f : CollectionItem → CollectionItem) :
  ∀ l m, NoDup l → (∀ c, c ∈ l → is_Some (heap m !! c)) →
         ∃ h', for_each l (λ c, update c f) m = Some (tt, set_heap h' m)
               ∧ ∀ q, h' !! q = if bool_decide (q ∈ l) then f <$> heap m !! q
                                else heap m !! q.
Proof.
  induction l as [|a l IH]; intros m Hnd Hlive.
  - exists (heap m). split; [cbn; unfold ret; by rewrite set_heap_id|].
    intros q. rewrite bool_decide_eq_false_2; [done|]. apply not_elem_of_nil.
  - apply NoDup_cons in Hnd as [Ha Hnd].
    destruct (Hlive a) as [i Hi]; [by left|].
    set (m1 := set_heap (<[a := f i]> (heap m)) m).
    destruct (IH m1 Hnd) as (h' & Heq & Hh').
    { intros c Hc. cbn. destruct (decide (a = c)) as [<-|Hne].
      - rewrite lookup_insert_eq. eauto.
      - rewrite lookup_insert_ne by done. apply Hlive. by right. }
    exists h'. split.
    + cbn [for_each]. rewrite (bind_Some _ _ _ _ _ (update_Some a f i m Hi)).
      exact Heq.
    + intros q. rewrite Hh'. cbn. destruct (decide (q = a)) as [->|Hne].
      * rewrite bool_decide_eq_false_2 by done.
        rewrite bool_decide_eq_true_2 by (by left).
        rewrite lookup_insert_eq. by rewrite Hi.
      * rewrite lookup_insert_ne by done.
        destruct (decide (q ∈ l)) as [Hin|Hnin].
        -- rewrite !bool_decide_eq_true_2; [done|by right|done].
        -- rewrite !bool_decide_eq_false_2; [done| |done].
           intros [?|?]%elem_of_cons; done.
Qed.

Lemma destroy_leaf fuel p h i :
  h !! p = Some i → children i = [] → destroy fuel p h = delete p h.
Proof. intros Hp Hc. destruct fuel; cbn; rewrite Hp; [done|]. by rewrite Hc. Qed.

Lemma NoDup_children m p pi :
  (∀ k c, children pi !! k = Some c →
          ∃ it, heap m !! c = Some it ∧ parent it = Some p ∧ row it = k) →
  NoDup (children pi).
Proof.
  intros Hch. apply NoDup_alt. intros k1 k2 c H1 H2.
  destruct (Hch k1 c H1) as (it1 & Hit1 & _ & Hr1).
  destruct (Hch k2 c H2) as (it2 & Hit2 & _ & Hr2). congruence.
Qed.

Section Delete.
Variables (m : CollectionModel) (parent_ child : ptr) (pi ci : CollectionItem).
Hypothesis Hp : heap m !! parent_ = Some pi.
Hypothesis Hc : heap m !! child = Some ci.
Hypothesis Hleaf : children ci = [].
Hypothesis Hrow : children pi !! row ci = Some child.
Hypothesis Hchildren : ∀ k c, children pi !! k = Some c →
    ∃ it, heap m !! c = Some it ∧ parent it = Some parent_ ∧ row it = k.
Hypothesis Hparents : ∀ c it, heap m !! c = Some it → parent it = Some parent_ →
    children pi !! row it = Some c.
Hypothesis Hun : unreferenced m child.

Lemma Delete_detached :
  ∃ h', Delete parent_ (row ci) m = Some (tt, set_heap h' m)
        ∧ detached_heap (heap m) child parent_ (row ci) h'.
Proof.
  pose proof (NoDup_children m parent_ pi Hchildren) as Hnd.
  assert (parent_ ≠ child) as Hne.
  { intros ->. assert (pi = ci) as -> by congruence. by rewrite Hleaf in Hrow. }
  set (r := row ci) in *.
  set (rest := take r (children pi) ++ drop (S r) (children pi)).
  assert (Hrest : rest = delete r (children pi)) by (by rewrite delete_take_drop).
  set (m1 := set_heap (<[parent_ := set_children rest pi]> (heap m)) m).
  set (h2 := delete child (heap m1)).
  assert (Hlater : ∀ q, q ∈ drop r rest ↔
            ∃ it, heap m !! q = Some it ∧ parent it = Some parent_ ∧ (r < row it)%nat).
  { intros q. rewrite list_elem_of_lookup. split.
    - intros [j Hj]. rewrite lookup_drop, Hrest in Hj.
      rewrite list_lookup_delete_ge in Hj by lia.
      destruct (Hchildren _ _ Hj) as (it & Hit & Hpa & Hr).
      exists it. split; [done|]. split; [done|]. lia.
    - intros (it & Hit & Hpa & Hr). exists (row it - 1 - r)%nat.
      rewrite lookup_drop, Hrest.
      rewrite list_lookup_delete_ge by lia.
      replace (S (r + (row it - 1 - r))) with (row it) by lia.
      by apply Hparents. }
  assert (Hnotlater : child ∉ drop r rest).
  { rewrite Hlater. intros (it & Hit & _ & Hr). assert (it = ci) as -> by congruence.
    unfold r in Hr. lia. }
  destruct (for_each_update (λ i, set_row (row i - 1)%nat i) (drop r rest)
              (set_heap h2 m1)) as (h' & Heq & Hh').
  { eapply sublist_NoDup; [exact Hnd|].
    etrans; [apply sublist_drop|]. rewrite Hrest. apply sublist_delete. }
  { intros c Hin. pose proof Hin as Hin'. apply Hlater in Hin as (it & Hit & _).
    cbn. unfold h2. rewrite lookup_delete_ne by (intros <-; done).
    cbn. destruct (decide (parent_ = c)) as [<-|Hpc].
    - rewrite lookup_insert_eq. eauto.
    - rewrite lookup_insert_ne by done. eauto. }
  exists h'. split.
  - unfold Delete. rewrite (bind_Some _ _ _ _ _ (deref_Some _ _ _ Hp)).
    fold r. rewrite Hrow. fold rest.
    rewrite (bind_Some _ _ _ _ _ (update_Some parent_ _ pi m Hp)). fold m1.
    unfold bind at 1, modify at 1.
    rewrite (destroy_leaf _ child (heap m1) ci);
      [exact Heq|cbn; by rewrite lookup_insert_ne|done].
  - intros q. rewrite Hh'. cbn. unfold h2. cbn.
    destruct (decide (q = child)) as [->|Hqc].
    + rewrite (bool_decide_eq_true_2 (child = child)) by done.
      rewrite bool_decide_eq_false_2 by done. apply lookup_delete_eq.
    + rewrite (bool_decide_eq_false_2 (q = child)) by done.
      rewrite lookup_delete_ne by done.
      assert (Hbase : <[parent_ := set_children rest pi]> (heap m) !! q
                      = (λ i, if bool_decide (q = parent_) then set_children rest i
                              else i) <$> heap m !! q).
      { destruct (decide (q = parent_)) as [->|Hqp].
        - rewrite lookup_insert_eq, Hp. cbn. by rewrite bool_decide_eq_true_2.
        - rewrite lookup_insert_ne by done.
          destruct (heap m !! q); [|done]. cbn. by rewrite bool_decide_eq_false_2. }
      rewrite Hbase. destruct (heap m !! q) as [it|] eqn:Hit; [|cbn; by match goal with |- (if ?b then _ else _) = _ => destruct b end].
      assert (Hslot : (if bool_decide (compilation_artist_node_ it = Some child)
                       then None else compilation_artist_node_ it)
                      = compilation_artist_node_ it).
      { rewrite bool_decide_eq_false_2; [done|]. apply (Hun q it Hit). }
      destruct (decide (q ∈ drop r rest)) as [Hin|Hnin].
      * rewrite (bool_decide_eq_true_2 _ Hin).
        apply Hlater in Hin as (it' & Hit' & Hpa & Hr).
        assert (it' = it) as -> by congruence.
        cbn. f_equal. unfold shift. rewrite Hslot.
        rewrite (bool_decide_eq_true_2 (parent it = Some parent_ ∧ (r < row it)%nat))
          by done.
        rewrite Hrest. destruct (decide (q = parent_)) as [->|Hqp].
        -- assert (it = pi) as -> by congruence.
           rewrite !bool_decide_eq_true_2 by done. by destruct pi.
        -- rewrite !bool_decide_eq_false_2 by done. by destruct it.
      * rewrite (bool_decide_eq_false_2 _ Hnin).
        cbn. f_equal. unfold shift. rewrite Hslot.
        rewrite (bool_decide_eq_false_2 (parent it = Some parent_ ∧ (r < row it)%nat)).
        2:{ intros [Hpa Hr]. apply Hnin, Hlater. eauto. }
        rewrite Hrest. destruct (decide (q = parent_)) as [->|Hqp].
        -- assert (it = pi) as -> by congruence.
           rewrite !bool_decide_eq_true_2 by done. by destruct pi.
        -- rewrite !bool_decide_eq_false_2 by done. by destruct it.
Qed.

End Delete.

(** *** What a consistent index says about a leaf *)

Lemma leaf_children m c it :
  consistent m → heap m !! c = Some it →
  Model.type it ≠ Type_Root → Model.type it ≠ Type_Container → children it = [].
Proof.
  intros Hcs Hc Hr Hct. destruct (children it) as [|x l] eqn:E; [done|].
  destruct (cs_fertile m Hcs c it 0%nat x Hc) as [?|?]; [by rewrite E|done|done].
Qed.

Lemma has_parent m c it :
  consistent m → heap m !! c = Some it → Model.type it ≠ Type_Root →
  ∃ p pi, parent it = Some p ∧ heap m !! p = Some pi
          ∧ (p ≠ root_ m → Model.type pi = Type_Container).
Proof.
  intros Hcs Hc Hr. destruct (parent it) as [p|] eqn:E.
  - destruct (cs_parent m Hcs c it p Hc E) as (pi & Hpi & Hrow).
    exists p, pi. split; [done|]. split; [done|]. intros Hne.
    destruct (cs_fertile m Hcs p pi _ c Hpi Hrow) as [Hty|Hty]; [|done].
    by destruct Hne; apply (cs_root_only m Hcs p pi).
  - pose proof (cs_orphan m Hcs c it Hc E) as ->.
    destruct (cs_root m Hcs) as (r & Hroot & Hty & _).
    assert (r = it) as -> by congruence. done.
Qed.

Lemma Delete_leaf m m1 child ci parent_ pi :
  consistent m → heap m !! child = Some ci → children ci = [] →
  parent ci = Some parent_ → heap m !! parent_ = Some pi →
  (heap m1 = heap m ∧ compilation_artist_node_ pi ≠ Some child)
  ∨ (heap m1 = <[parent_ := set_compilation_artist_node_ None pi]> (heap m)
     ∧ compilation_artist_node_ pi = Some child) →
  ∃ h', Delete parent_ (row ci) m1 = Some (tt, set_heap h' m1)
        ∧ detached_heap (heap m) child parent_ (row ci) h'.
Proof.
  intros Hcs Hc Hleaf Hpar Hp Hcase.
  destruct (cs_parent m Hcs child ci parent_ Hc Hpar) as (pi' & Hpi' & Hrow).
  assert (pi' = pi) as -> by congruence.
  assert (Hne : parent_ ≠ child).
  { intros ->. assert (pi = ci) as -> by congruence. by rewrite Hleaf in Hrow. }
  assert (Hothers : ∀ q k, q ≠ parent_ → heap m !! q = Some k →
                           compilation_artist_node_ k ≠ Some child).
  { intros q k Hq Hk Hva.
    destruct (cs_various m Hcs q k child Hk Hva) as (v & Hv & _ & Hpv).
    assert (v = ci) as -> by congruence. congruence. }
  assert (Hsiblings : ∀ c it, heap m !! c = Some it → parent it = Some parent_ →
                              children pi !! row it = Some c).
  { intros c it Hit Hpa.
    destruct (cs_parent m Hcs c it parent_ Hit Hpa) as (pj & Hpj & Hr).
    by assert (pj = pi) as -> by congruence. }
  destruct Hcase as [[Hheap Hslot]|[Hheap Hslot]].
  - destruct (Delete_detached m1 parent_ child pi ci) as (h' & Heq & Hdt).
    + by rewrite Hheap.
    + by rewrite Hheap.
    + done.
    + done.
    + rewrite Hheap. intros k c Hk. apply (cs_children m Hcs parent_ pi k c Hp Hk).
    + rewrite Hheap. exact Hsiblings.
    + intros q k. rewrite Hheap. intros Hk.
      destruct (decide (q = parent_)) as [->|Hq];
        [by assert (k = pi) as -> by congruence|by apply (Hothers q k)].
    + exists h'. split; [done|]. by rewrite Hheap in Hdt.
  - destruct (Delete_detached m1 parent_ child (set_compilation_artist_node_ None pi) ci)
      as (h' & Heq & Hdt).
    + rewrite Hheap. apply lookup_insert_eq.
    + rewrite Hheap. by rewrite lookup_insert_ne.
    + done.
    + done.
    + intros k c Hk. cbn in Hk.
      destruct (cs_children m Hcs parent_ pi k c Hp Hk) as (it & Hit & Hpa & Hr).
      rewrite Hheap. destruct (decide (c = parent_)) as [->|Hcp].
      * rewrite lookup_insert_eq. assert (it = pi) as -> by congruence.
        by exists (set_compilation_artist_node_ None pi).
      * rewrite lookup_insert_ne by done. eauto.
    + intros c it. rewrite Hheap. intros Hit Hpa.
      destruct (decide (c = parent_)) as [->|Hcp].
      * rewrite lookup_insert_eq in Hit. injection Hit as <-.
        apply (Hsiblings parent_ pi Hp Hpa).
      * rewrite lookup_insert_ne in Hit by done. by apply Hsiblings.
    + intros q k. rewrite Hheap. destruct (decide (q = parent_)) as [->|Hq].
      * rewrite lookup_insert_eq. by intros [= <-].
      * rewrite lookup_insert_ne by done. by apply Hothers.
    + exists h'. split; [done|]. intros q. rewrite (Hdt q), Hheap.
      case_bool_decide; [done|]. destruct (decide (q = parent_)) as [->|Hq].
      * rewrite lookup_insert_eq, Hp. cbn. f_equal. unfold shift. cbn.
        rewrite Hslot. by rewrite (bool_decide_eq_true_2 (Some child = Some child)).
      * by rewrite lookup_insert_ne.
Qed.

(** *** What a removal of a leaf leaves *)

Lemma pruned_refl m : pruned m m.
Proof.
  split; try done.
  - intros q i' Hq. exists i'. by repeat split.
  - intros l nodes' k c Hn Hk. eauto.
Qed.

Lemma pruned_trans m1 m2 m3 : pruned m1 m2 → pruned m2 m3 → pruned m1 m3.
Proof.
  intros H12 H23. split.
  - by rewrite (pr_root _ _ H23), (pr_root _ _ H12).
  - by rewrite (pr_next _ _ H23), (pr_next _ _ H12).
  - by rewrite (pr_group_by _ _ H23), (pr_group_by _ _ H12).
  - by rewrite (pr_show_dividers _ _ H23), (pr_show_dividers _ _ H12).
  - by rewrite (pr_query_options _ _ H23), (pr_query_options _ _ H12).
  - by rewrite (pr_now _ _ H23), (pr_now _ _ H12).
  - intros q i3 Hq3.
    destruct (pr_heap _ _ H23 q i3 Hq3) as (i2 & Hq2 & ? & ? & ? & ? & ? & ? & ?).
    destruct (pr_heap _ _ H12 q i2 Hq2) as (i1 & Hq1 & ? & ? & ? & ? & ? & ? & ?).
    exists i1. split; [done|]. repeat split; congruence.
  - intros l nodes3 k c Hn Hk.
    destruct (pr_containers _ _ H23 l nodes3 k c Hn Hk) as (nodes2 & Hn2 & Hk2).
    apply (pr_containers _ _ H12 l nodes2 k c Hn2 Hk2).
  - intros id n Hn. by apply (pr_songs _ _ H12), (pr_songs _ _ H23).
  - intros k d Hd. by apply (pr_dividers _ _ H12), (pr_dividers _ _ H23).
Qed.

Lemma detached_pruned m child parent_ ci m' :
  detached m child parent_ (row ci) m' → pruned m m'.
Proof.
  intros Hdt. split.
  - apply (dt_root _ _ _ _ _ Hdt).
  - apply (dt_next _ _ _ _ _ Hdt).
  - apply (dt_group_by _ _ _ _ _ Hdt).
  - apply (dt_show_dividers _ _ _ _ _ Hdt).
  - apply (dt_query_options _ _ _ _ _ Hdt).
  - apply (dt_now _ _ _ _ _ Hdt).
  - intros q i' Hq.
    destruct (detached_new m m' child parent_ ci Hdt q i' Hq) as (_ & i & Hi & ->).
    exists i. by repeat split.
  - intros l nodes' k c Hn Hk.
    by destruct (dt_containers _ _ _ _ _ Hdt l nodes' k c Hn Hk) as [_ ?].
  - intros id n Hn. by destruct (dt_songs _ _ _ _ _ Hdt id n Hn).
  - intros k d Hd. by destruct (dt_dividers _ _ _ _ _ Hdt k d Hd).
Qed.

Lemma detached_live m child parent_ ci m' q i :
  detached m child parent_ (row ci) m' → q ≠ child → heap m !! q = Some i →
  ∃ i', heap m' !! q = Some i' ∧ Model.type i' = Model.type i.
Proof.
  intros Hdt Hq Hi. exists (shift child parent_ (row ci) q i).
  split; [|done]. by apply (detached_old m m' child parent_ ci Hdt).
Qed.

Lemma detached_size m child parent_ ci m' :
  detached m child parent_ (row ci) m' → heap m !! child = Some ci →
  (size (heap m') < size (heap m))%nat.
Proof.
  intros Hdt Hc.
  assert (Hdom : dom (heap m') = dom (heap m) ∖ {[child]}).
  { apply set_eq. intros q.
    rewrite elem_of_difference, !elem_of_dom, not_elem_of_singleton.
    rewrite (dt_heap _ _ _ _ _ Hdt q). case_bool_decide as Hq.
    - split; [by intros [? ?]|by intros [_ ?]].
    - destruct (heap m !! q) as [i|]; cbn.
      + split; [intros _; split; [eauto|done]|eauto].
      + split; [by intros [? ?]|by intros [[? ?] _]]. }
  rewrite <- !size_dom, Hdom.
  rewrite size_difference by (apply singleton_subseteq_l, elem_of_dom; eauto).
  rewrite size_singleton.
  assert (size (dom (heap m)) ≠ 0)%nat; [|lia].
  intros E%size_empty_inv.
  assert (child ∈ dom (heap m)) as Hin by (apply elem_of_dom; eauto).
  apply E in Hin. by apply elem_of_empty in Hin.
Qed.

Lemma live_containers_detached m child parent_ ci m' l :
  detached m child parent_ (row ci) m' → child ∉ l →
  live_containers m l → live_containers m' l.
Proof.
  intros Hdt Hnin Hlive q Hq. destruct (Hlive q Hq) as (qi & Hqi & Hqt).
  destruct (detached_live m child parent_ ci m' q qi Hdt) as (i' & Hi' & Ht');
    [by intros ->|done|].
  exists i'. split; [done|congruence].
Qed.

(** *** [QSet] as a duplicate-free list *)

Lemma elem_of_qset_insert {A} `{EqDecision A} (x y : A) l :
  y ∈ qset_insert x l ↔ y = x ∨ y ∈ l.
Proof.
  unfold qset_insert. case_bool_decide as Hx.
  - split; [by right|]. by intros [->|?].
  - rewrite elem_of_app, list_elem_of_singleton. tauto.
Qed.

Lemma NoDup_qset_insert {A} `{EqDecision A} (x : A) l :
  NoDup l → NoDup (qset_insert x l).
Proof.
  unfold qset_insert. case_bool_decide; [done|]. intros Hnd.
  apply NoDup_app. split; [done|]. split; [|apply NoDup_singleton].
  by intros y Hy ->%list_elem_of_singleton.
Qed.

Lemma elem_of_qset_remove {A} `{EqDecision A} (x y : A) l :
  y ∈ qset_remove x l ↔ y ∈ l ∧ y ≠ x.
Proof. unfold qset_remove. rewrite list_elem_of_filter. tauto. Qed.

Lemma NoDup_qset_remove {A} `{EqDecision A} (x : A) l :
  NoDup l → NoDup (qset_remove x l).
Proof. apply NoDup_filter. Qed.

(** *** The first loop of [SongsDeleted] *)

Lemma delete_song_node_spec song parents m :
  consistent m → NoDup parents → live_containers m parents →
  total (delete_song_node song parents) m (λ parents' m',
    consistent m' ∧ NoDup parents' ∧ live_containers m' parents' ∧ pruned m m'
    ∧ song_nodes_ m' = delete (Song.id song) (song_nodes_ m)).
Proof.
  intros Hcs Hnd Hlive. unfold delete_song_node.
  apply total_bind, total_get.
  destruct (song_nodes_ m !! Song.id song) as [node|] eqn:Hnode.
  2:{ apply total_ret. split; [done|]. split; [done|]. split; [done|].
      split; [apply pruned_refl|]. by rewrite delete_id. }
  destruct (cs_songs m Hcs _ _ Hnode) as (n & Hn & Hty & Hid).
  destruct (has_parent m node n Hcs Hn) as (p & pi & Hpar & Hp & Hpty);
    [by rewrite Hty|].
  assert (Hleaf : children n = [])
    by (apply (leaf_children m node n Hcs Hn); by rewrite Hty).
  destruct (Delete_leaf m m node n p pi Hcs Hn Hleaf Hpar Hp) as (h' & Heq & Hdh).
  { left. split; [done|]. intros Hva.
    destruct (cs_various m Hcs p pi node Hp Hva) as (v & Hv & Hvt & _).
    assert (v = n) as -> by congruence. congruence. }
  apply total_bind. eapply total_eq; [by apply deref_Some|].
  rewrite Hpar.
  apply total_bind. eapply total_eq; [exact Heq|].
  apply total_bind, total_modify. apply total_ret.
  match goal with |- consistent ?x ∧ _ => set (m' := x) end.
  assert (Hdt : detached m node p (row n) m').
  { split; [exact Hdh|done|done|done|done|done|done|..].
    - intros l nodes' k c Hn' Hk. split; [|by exists nodes'].
      intros ->.
      destruct (cs_containers m Hcs l nodes' k node Hn' Hk) as (it & Hit & Hct & _).
      assert (it = n) as -> by congruence. congruence.
    - intros id n' Hn'. cbn in Hn'. apply lookup_delete_Some in Hn' as [Hne Hn'].
      split; [|done]. intros ->.
      destruct (cs_songs m Hcs id node Hn') as (it & Hit & _ & Hid').
      assert (it = n) as -> by congruence. congruence.
    - intros k d Hd. split; [|done]. intros ->.
      destruct (cs_dividers m Hcs k node Hd) as (it & Hit & Hdty & _).
      assert (it = n) as -> by congruence. congruence. }
  split; [by apply (consistent_detached m m' node p n)|].
  split; [case_bool_decide; [by apply NoDup_qset_insert|done]|].
  split; [|split; [by apply (detached_pruned m node p n m')|done]].
  apply (live_containers_detached m node p n m').
  - done.
  - intros Hin.
    assert (node ∈ parents ∨ node = p) as [Hin'| ->].
    { case_bool_decide; [|by left].
      apply elem_of_qset_insert in Hin as [->|?]; [by right|by left]. }
    + destruct (Hlive node Hin') as (it & Hit & Hct).
      assert (it = n) as -> by congruence. congruence.
    + assert (pi = n) as -> by congruence.
      destruct (cs_parent m Hcs p n p Hn Hpar) as (pj & Hpj & Hr).
      assert (pj = n) as -> by congruence. by rewrite Hleaf in Hr.
  - intros q Hq. case_bool_decide as Hroot; [|by apply Hlive].
    apply elem_of_qset_insert in Hq as [->|?]; [|by apply Hlive].
    exists pi. split; [done|by apply Hpty].
Qed.

Lemma delete_song_nodes_spec songs : ∀ parents m,
  consistent m → NoDup parents → live_containers m parents →
  total (fold_each songs delete_song_node parents) m (λ parents' m',
    consistent m' ∧ NoDup parents' ∧ live_containers m' parents' ∧ pruned m m'
    ∧ ∀ id, song_nodes_ m' !! id
            = if bool_decide (id ∈ map Song.id songs) then None
              else song_nodes_ m !! id).
Proof.
  induction songs as [|s songs IH]; intros parents m Hcs Hnd Hlive.
  - apply total_ret. split; [done|]. split; [done|]. split; [done|].
    split; [apply pruned_refl|]. intros id.
    rewrite bool_decide_eq_false_2; [done|apply not_elem_of_nil].
  - cbn [fold_each]. apply total_bind.
    eapply total_mono; [by apply delete_song_node_spec|].
    intros parents1 m1 (Hcs1 & Hnd1 & Hlive1 & Hpr1 & Hsongs1). cbn beta.
    eapply total_mono; [by apply IH|].
    intros parents2 m2 (Hcs2 & Hnd2 & Hlive2 & Hpr2 & Hsongs2).
    split; [done|]. split; [done|]. split; [done|].
    split; [by eapply pruned_trans|].
    intros id. rewrite Hsongs2, Hsongs1. cbn [map].
    destruct (decide (id = Song.id s)) as [->|Hne].
    + rewrite lookup_delete_eq.
      rewrite (bool_decide_eq_true_2 (_ ∈ _ :: _)) by (by left).
      by match goal with |- (if ?b then _ else _) = _ => destruct b end.
    + rewrite lookup_delete_ne by done.
      destruct (decide (id ∈ map Song.id songs)) as [Hin|Hnin].
      * rewrite !bool_decide_eq_true_2; [done|by right|done].
      * rewrite !bool_decide_eq_false_2; [done| |done].
        by intros [?|?]%elem_of_cons.
Qed.

(** *** The second loop of [SongsDeleted] *)

Lemma unregistered_cases m i nodes k l nodes' k' c' :
  container_nodes_ m i = Some nodes →
  container_nodes_ (set_container_nodes_ i (delete k nodes) m) l = Some nodes' →
  nodes' !! k' = Some c' →
  (l ≠ i ∨ k' ≠ k) ∧ ∃ n0, container_nodes_ m l = Some n0 ∧ n0 !! k' = Some c'.
Proof.
  intros Hn Hn' Hk'.
  destruct (Insertion.container_nodes_in_range m l) as [n0 Hn0].
  { revert Hn'. unfold container_nodes_.
    destruct (l =? 0)%Z eqn:E0; [lia|]. destruct (l =? 1)%Z eqn:E1; [lia|].
    destruct (l =? 2)%Z eqn:E2; [lia|done]. }
  assert (Hcase : (l ≠ i ∧ nodes' = n0) ∨ (l = i ∧ nodes' = delete k nodes)).
  { revert Hn Hn' Hn0. unfold container_nodes_, set_container_nodes_. cbn.
    intros Hn Hn' Hn0.
    destruct (l =? 0)%Z eqn:E0; [|destruct (l =? 1)%Z eqn:E1;
                                   [|destruct (l =? 2)%Z eqn:E2; [|done]]];
      injection Hn' as <-; injection Hn0 as <-.
    - destruct (i =? 0)%Z eqn:I0; [right; split; [lia|done]|left; split; [lia|done]].
    - destruct (i =? 1)%Z eqn:I1; [right; split; [lia|done]|left; split; [lia|done]].
    - destruct (i =? 2)%Z eqn:I2; [right; split; [lia|done]|left; split; [lia|done]]. }
  destruct Hcase as [[Hne ->]|[-> ->]].
  - split; [by left|eauto].
  - apply lookup_delete_Some in Hk' as [Hne Hk']. split; [right; congruence|eauto].
Qed.

Lemma delete_if_empty_spec node st m :
  consistent m → live_containers m [node] →
  NoDup (fst st) → live_containers m (fst st) →
  total (delete_if_empty node st) m (λ st' m',
    consistent m' ∧ NoDup (fst st') ∧ live_containers m' (fst st') ∧ pruned m m'
    ∧ song_nodes_ m' = song_nodes_ m
    ∧ (∀ l, node ∉ l → live_containers m l → live_containers m' l)
    ∧ ((m' = m ∧ fst st' = qset_remove node (fst st))
       ∨ (size (heap m') < size (heap m))%nat)).
Proof.
  intros Hcs Hnode Hnd Hlive. destruct (Hnode node) as (n & Hn & Hty); [by left|].
  unfold delete_if_empty. apply total_bind. eapply total_deref; [done|].
  destruct (bool_decide (children n = [])) eqn:Hempty; cbn [negb].
  2:{ apply total_ret. cbn [fst]. split; [done|].
      split; [by apply NoDup_qset_remove|].
      split; [intros q [Hq _]%elem_of_qset_remove; by apply Hlive|].
      split; [apply pruned_refl|]. split; [done|]. split; [done|]. by left. }
  apply bool_decide_eq_true_1 in Hempty.
  destruct (has_parent m node n Hcs Hn) as (p & pi & Hpar & Hp & Hpty);
    [by rewrite Hty|].
  rewrite Hpar. apply total_bind, total_get.
  assert (Hpn : p ≠ node).
  { intros ->. assert (pi = n) as -> by congruence.
    destruct (cs_parent m Hcs node n node Hn Hpar) as (pj & Hpj & Hr).
    assert (pj = n) as -> by congruence. by rewrite Hempty in Hr. }
  set (parents' := if bool_decide (p ≠ root_ m)
                   then qset_insert p (qset_remove node (fst st))
                   else qset_remove node (fst st)).
  assert (Hnd' : NoDup parents').
  { unfold parents'. case_bool_decide;
      [apply NoDup_qset_insert|]; by apply NoDup_qset_remove. }
  assert (Hnin' : node ∉ parents').
  { unfold parents'. intros Hin.
    assert (node ∈ qset_remove node (fst st)) as [_ ?]%elem_of_qset_remove; [|done].
    case_bool_decide; [|done]. by apply elem_of_qset_insert in Hin as [->|?]. }
  assert (Hlive' : live_containers m parents').
  { unfold parents'. intros q Hq.
    assert (q ∈ fst st ∨ (q = p ∧ p ≠ root_ m)) as [Hin|[-> Hne]].
    { case_bool_decide.
      - apply elem_of_qset_insert in Hq as [->|Hq]; [by right|].
        left. by apply elem_of_qset_remove in Hq as [? _].
      - left. by apply elem_of_qset_remove in Hq as [? _]. }
    - by apply Hlive.
    - exists pi. split; [done|by apply Hpty]. }
  clearbody parents'.
  apply total_bind.
  apply (total_mono _ _ (λ _ m1, m1 = m)).
  { destruct (container_level n =? 0)%Z; [|by apply total_ret].
    destruct (Insertion.DividerKey_total (Grouping_at (group_by_ m) 0) n) as [k ->].
    by apply total_ret. }
  intros dk ? ->.
  apply total_bind. eapply total_eq.
  { unfold IsCompilationArtistNode.
    rewrite (bind_Some _ _ _ _ _ (deref_Some _ _ _ Hn)). rewrite Hpar.
    rewrite (bind_Some _ _ _ _ _ (deref_Some _ _ _ Hp)). reflexivity. }
  assert (Hfinish : ∀ m', detached m node p (row n) m' →
    song_nodes_ m' = song_nodes_ m →
    consistent m' ∧ NoDup parents' ∧ live_containers m' parents' ∧ pruned m m'
    ∧ song_nodes_ m' = song_nodes_ m
    ∧ (∀ l, node ∉ l → live_containers m l → live_containers m' l)
    ∧ ((m' = m ∧ parents' = qset_remove node (fst st))
       ∨ (size (heap m') < size (heap m))%nat)).
  { intros m' Hdt Hsongs.
    split; [by apply (consistent_detached m m' node p n)|].
    split; [done|].
    split; [by apply (live_containers_detached m node p n m')|].
    split; [by apply (detached_pruned m node p n m')|].
    split; [done|].
    split; [intros l; by apply (live_containers_detached m node p n m')|].
    right. by apply (detached_size m node p n m'). }
  assert (Hnosong : ∀ id, song_nodes_ m !! id ≠ Some node).
  { intros id Hid. destruct (cs_songs m Hcs id node Hid) as (it & Hit & Hsty & _).
    assert (it = n) as -> by congruence. congruence. }
  assert (Hnodivider : ∀ k, divider_nodes_ m !! k ≠ Some node).
  { intros k Hk. destruct (cs_dividers m Hcs k node Hk) as (it & Hit & Hdty & _).
    assert (it = n) as -> by congruence. congruence. }
  destruct (bool_decide (compilation_artist_node_ pi = Some node)) eqn:Hva.
  - apply bool_decide_eq_true_1 in Hva.
    apply total_bind. eapply total_eq; [by apply update_Some|].
    match goal with |- total _ ?x _ => set (m1 := x) end.
    destruct (Delete_leaf m m1 node n p pi Hcs Hn Hempty Hpar Hp) as (h' & Heq & Hdh);
      [by right|].
    apply total_bind. eapply total_eq; [exact Heq|]. apply total_ret.
    cbn [fst]. apply Hfinish; [|done].
    split; [exact Hdh|done|done|done|done|done|done|..].
    + intros l nodes' k c Hn' Hk. split; [|by exists nodes'].
      intros ->. by apply (cs_unregistered m Hcs p pi node l nodes' k Hp Hva).
    + intros id n' Hn'. split; [|done]. intros ->. by apply (Hnosong id).
    + intros k d Hd. split; [|done]. intros ->. by apply (Hnodivider k).
  - apply bool_decide_eq_false_1 in Hva.
    pose proof (cs_level m Hcs node n p pi Hn Hty Hpar Hp Hva) as Hlevel.
    destruct (Insertion.container_nodes_in_range m (container_level n)) as [nodes Hnodes];
      [lia|].
    rewrite Hnodes.
    destruct (bool_decide (is_Some (nodes !! key n))) eqn:Hreg.
    + apply total_bind, total_modify.
      match goal with |- total _ ?x _ => set (m1 := x) end.
      destruct (Delete_leaf m m1 node n p pi Hcs Hn Hempty Hpar Hp)
        as (h' & Heq & Hdh); [by left|].
      apply total_bind. eapply total_eq; [exact Heq|]. apply total_ret.
      cbn [fst]. apply Hfinish; [|done].
      split; [exact Hdh|done|done|done|done|done|done|..].
      * intros l nodes' k c Hn' Hk.
        destruct (unregistered_cases m _ nodes (key n) l nodes' k c Hnodes Hn' Hk)
          as (Hother & n0 & Hn0 & Hk0).
        split; [|eauto]. intros ->.
        destruct (cs_containers m Hcs l n0 k node Hn0 Hk0) as (it & Hit & _ & Hkey & Hlv).
        assert (it = n) as -> by congruence. by destruct Hother.
      * intros id n' Hn'. split; [|done]. intros ->. by apply (Hnosong id).
      * intros k d Hd. split; [|done]. intros ->. by apply (Hnodivider k).
    + apply bool_decide_eq_false_1 in Hreg.
      apply total_bind, total_ret.
      destruct (Delete_leaf m m node n p pi Hcs Hn Hempty Hpar Hp)
        as (h' & Heq & Hdh); [by left|].
      apply total_bind. eapply total_eq; [exact Heq|]. apply total_ret.
      cbn [fst]. apply Hfinish; [|done].
      split; [exact Hdh|done|done|done|done|done|done|..].
      * intros l nodes' k c Hn' Hk. split; [|by exists nodes'].
        intros ->.
        destruct (cs_containers m Hcs l nodes' k node Hn' Hk)
          as (it & Hit & _ & Hkey & Hlv).
        assert (it = n) as -> by congruence. subst l k.
        change (container_nodes_ m (container_level n) = Some nodes') in Hn'.
        apply Hreg. assert (nodes' = nodes) as -> by congruence. eauto.
      * intros id n' Hn'. split; [|done]. intros ->. by apply (Hnosong id).
      * intros k d Hd. split; [|done]. intros ->. by apply (Hnodivider k).
Qed.

(** One round over [parents_copy]: either nothing was empty and the set ends
    up empty, or an item is gone. *)
Lemma delete_empty_round l : ∀ st m,
  consistent m → NoDup l → live_containers m l →
  NoDup (fst st) → live_containers m (fst st) →
  total (fold_each l delete_if_empty st) m (λ st' m',
    consistent m' ∧ NoDup (fst st') ∧ live_containers m' (fst st') ∧ pruned m m'
    ∧ song_nodes_ m' = song_nodes_ m
    ∧ (size (heap m') ≤ size (heap m))%nat
    ∧ ((∀ x, x ∈ fst st' → x ∈ fst st ∧ x ∉ l)
       ∨ (size (heap m') < size (heap m))%nat)).
Proof.
  induction l as [|node l IH]; intros st m Hcs Hndl Hlivel Hnd Hlive.
  - apply total_ret. split; [done|]. split; [done|]. split; [done|].
    split; [apply pruned_refl|]. split; [done|]. split; [done|].
    left. intros x Hx. split; [done|apply not_elem_of_nil].
  - apply NoDup_cons in Hndl as [Hnin Hndl].
    cbn [fold_each]. apply total_bind.
    eapply total_mono.
    { apply delete_if_empty_spec; [done| |done|done].
      intros q ->%list_elem_of_singleton. apply Hlivel. by left. }
    intros st1 m1 (Hcs1 & Hnd1 & Hlive1 & Hpr1 & Hsongs1 & Hkeep1 & Hcase1). cbn beta.
    eapply total_mono.
    { apply IH; [done|done| |done|done].
      apply Hkeep1; [done|]. intros q Hq. apply Hlivel. by right. }
    intros st2 m2 (Hcs2 & Hnd2 & Hlive2 & Hpr2 & Hsongs2 & Hle2 & Hcase2).
    split; [done|]. split; [done|]. split; [done|].
    split; [by eapply pruned_trans|]. split; [congruence|].
    destruct Hcase1 as [[-> Hst1]|Hlt1].
    + split; [done|]. destruct Hcase2 as [Hsub|Hlt2]; [left|by right].
      intros x Hx. destruct (Hsub x Hx) as [Hx1 Hxl].
      rewrite Hst1 in Hx1. apply elem_of_qset_remove in Hx1 as [Hx1 Hxn].
      split; [done|]. by intros [?|?]%elem_of_cons.
    + split; [lia|]. right. lia.
Qed.

Lemma delete_empty_parents_spec fuel : ∀ parents divider_keys m,
  consistent m → NoDup parents → live_containers m parents →
  (size (heap m) < fuel)%nat →
  total (delete_empty_parents fuel parents divider_keys) m (λ _ m',
    consistent m' ∧ pruned m m' ∧ song_nodes_ m' = song_nodes_ m).
Proof.
  induction fuel as [|fuel IH]; intros parents dk m Hcs Hnd Hlive Hfuel; [lia|].
  destruct parents as [|p ps].
  { apply total_ret. split; [done|]. split; [apply pruned_refl|done]. }
  cbn [delete_empty_parents]. apply total_bind. eapply total_mono; [by apply delete_empty_round|].
  intros st1 m1 (Hcs1 & Hnd1 & Hlive1 & Hpr1 & Hsongs1 & Hle1 & Hcase1). cbn beta.
  destruct Hcase1 as [Hsub|Hlt].
  - assert (fst st1 = []) as ->.
    { destruct (fst st1) as [|x xs]; [done|].
      destruct (Hsub x) as [Hin Hnin]; [by left|]. done. }
    destruct fuel; apply total_ret; done.
  - eapply total_mono; [apply IH; [done|done|done|lia]|].
    intros ? m2 (Hcs2 & Hpr2 & Hsongs2).
    split; [done|]. split; [by eapply pruned_trans|congruence].
Qed.

(** *** The third loop of [SongsDeleted] *)

Lemma any_of_total {A} (l : list A) (pred : A → M bool) m :
  (∀ x, x ∈ l → ∃ b, pred x m = Some (b, m)) →
  ∃ b, any_of l pred m = Some (b, m).
Proof.
  induction l as [|a l IH]; intros Hall; [by exists false|].
  destruct (Hall a) as [b Hb]; [by left|].
  cbn [any_of]. rewrite (bind_Some _ _ _ _ _ Hb).
  destruct b; [by exists true|]. apply IH. intros x Hx. apply Hall. by right.
Qed.

Lemma delete_empty_divider_spec divider_key m :
  consistent m →
  total (delete_empty_divider divider_key) m (λ _ m',
    consistent m' ∧ pruned m m' ∧ song_nodes_ m' = song_nodes_ m).
Proof.
  intros Hcs. unfold delete_empty_divider. apply total_bind, total_get.
  destruct (divider_nodes_ m !! divider_key) as [divider|] eqn:Hdiv.
  2:{ apply total_ret. split; [done|]. split; [apply pruned_refl|done]. }
  match goal with |- total (bind (any_of ?l ?pred) _) _ _ =>
    destruct (any_of_total l pred m) as [b Hb] end.
  { intros c Hc. apply list_elem_of_In, in_map_iff in Hc as ([k c'] & <- & Hin).
    apply list_elem_of_In, elem_of_map_to_list in Hin. cbn [snd].
    destruct (cs_containers m Hcs 0 (container_nodes_0 m) k c' eq_refl Hin)
      as (it & Hit & _).
    rewrite (bind_Some _ _ _ _ _ (deref_Some _ _ _ Hit)).
    destruct (Insertion.DividerKey_total (Grouping_at (group_by_ m) 0) it) as [k' ->].
    by eexists. }
  apply total_bind. eapply total_eq; [exact Hb|].
  destruct b.
  { apply total_ret. split; [done|]. split; [apply pruned_refl|done]. }
  destruct (cs_dividers m Hcs _ _ Hdiv) as (d & Hd & Hty & Hkey & Hpar & _).
  destruct (cs_root m Hcs) as (r & Hr & Hrty & _).
  assert (Hleaf : children d = [])
    by (apply (leaf_children m divider d Hcs Hd); by rewrite Hty).
  destruct (Delete_leaf m m divider d (root_ m) r Hcs Hd Hleaf Hpar Hr)
    as (h' & Heq & Hdh).
  { left. split; [done|]. intros Hva.
    destruct (cs_various m Hcs _ r divider Hr Hva) as (v & Hv & Hvt & _).
    assert (v = d) as -> by congruence. congruence. }
  apply total_bind. eapply total_eq; [by apply deref_Some|].
  apply total_bind. eapply total_eq; [exact Heq|].
  apply total_modify.
  match goal with |- consistent ?x ∧ _ => set (m' := x) end.
  assert (Hdt : detached m divider (root_ m) (row d) m').
  { split; [exact Hdh|done|done|done|done|done|done|..].
    - intros l nodes' k c Hn' Hk. split; [|by exists nodes'].
      intros ->.
      destruct (cs_containers m Hcs l nodes' k divider Hn' Hk) as (it & Hit & Hct & _).
      assert (it = d) as -> by congruence. congruence.
    - intros id n' Hn'. split; [|done]. intros ->.
      destruct (cs_songs m Hcs id divider Hn') as (it & Hit & Hsty & _).
      assert (it = d) as -> by congruence. congruence.
    - intros k d' Hd'. cbn in Hd'. apply lookup_delete_Some in Hd' as [Hne Hd'].
      split; [|done]. intros ->.
      destruct (cs_dividers m Hcs k divider Hd') as (it & Hit & _ & Hkey' & _).
      assert (it = d) as -> by congruence. congruence. }
  split; [by apply (consistent_detached m m' divider (root_ m) d)|].
  split; [by apply (detached_pruned m divider (root_ m) d m')|done].
Qed.

Lemma delete_empty_dividers_spec divider_keys : ∀ m,
  consistent m →
  total (for_each divider_keys delete_empty_divider) m (λ _ m',
    consistent m' ∧ pruned m m' ∧ song_nodes_ m' = song_nodes_ m).
Proof.
  induction divider_keys as [|k l IH]; intros m Hcs.
  - apply total_ret. split; [done|]. split; [apply pruned_refl|done].
  - cbn [for_each]. apply total_bind.
    eapply total_mono; [by apply delete_empty_divider_spec|].
    intros ? m1 (Hcs1 & Hpr1 & Hsongs1). cbn beta.
    eapply total_mono; [by apply IH|].
    intros ? m2 (Hcs2 & Hpr2 & Hsongs2).
    split; [done|]. split; [by eapply pruned_trans|congruence].
Qed.

(** [SongsDeleted] on a consistent index returns, leaves a consistent index
    with nothing added, and unregisters exactly the songs of the batch. *)
Lemma SongsDeleted_spec songs m :
  consistent m →
  total (SongsDeleted songs) m (λ _ m',
    consistent m' ∧ pruned m m'
    ∧ ∀ id, song_nodes_ m' !! id
            = if bool_decide (id ∈ map Song.id songs) then None
              else song_nodes_ m !! id).
Proof.
  intros Hcs. unfold SongsDeleted. apply total_bind.
  eapply total_mono.
  { apply delete_song_nodes_spec; [done|apply NoDup_nil_2|].
    by intros p Hp%elem_of_nil. }
  intros parents m1 (Hcs1 & Hnd1 & Hlive1 & Hpr1 & Hsongs1). cbn beta.
  apply total_bind, total_get. apply total_bind.
  eapply total_mono; [apply delete_empty_parents_spec; [done|done|done|lia]|].
  intros dk m2 (Hcs2 & Hpr2 & Hsongs2). cbn beta.
  eapply total_mono; [by apply delete_empty_dividers_spec|].
  intros ? m3 (Hcs3 & Hpr3 & Hsongs3).
  split; [done|]. split; [eapply pruned_trans; [|done]; by eapply pruned_trans|].
  intros id. by rewrite Hsongs3, Hsongs2.
Qed.

(** *** [Reset] *)

Lemma consistent_Reset m : consistent (Reset m).
Proof.
  split.
  - split; cbn -[singletonM].
    + rewrite lookup_singleton_eq. eauto.
    + intros p [i Hp]. destruct (decide (p = next_ptr m)) as [->|Hne]; [lia|].
      by rewrite lookup_singleton_ne in Hp.
    + intros i nodes k c Hn Hk. unfold container_nodes_ in Hn. cbn in Hn.
      destruct (i =? 0)%Z; [|destruct (i =? 1)%Z; [|destruct (i =? 2)%Z; [|done]]];
        injection Hn as <-; by rewrite lookup_empty in Hk.
    + intros p i va Hp Hslot. apply lookup_singleton_Some in Hp as [_ <-]. done.
    + apply lookup_empty.
  - eexists. split; [apply lookup_singleton_eq|]. done.
  - intros i nodes k c Hn Hk. unfold container_nodes_ in Hn. cbn in Hn.
    destruct (i =? 0)%Z; [|destruct (i =? 1)%Z; [|destruct (i =? 2)%Z; [|done]]];
      injection Hn as <-; by rewrite lookup_empty in Hk.
  - intros id n Hn. unfold Reset in Hn. cbn [song_nodes_] in Hn.
    by rewrite lookup_empty in Hn.
  - intros k d Hd. unfold Reset in Hd. cbn [divider_nodes_] in Hd.
    by rewrite lookup_empty in Hd.
  - intros p i va Hp Hslot. cbn -[singletonM] in Hp.
    apply lookup_singleton_Some in Hp as [_ <-]. done.
  - intros c it p Hc Hpar. cbn -[singletonM] in Hc.
    apply lookup_singleton_Some in Hc as [_ <-]. done.
  - intros p pi k c Hp Hk. cbn -[singletonM] in Hp.
    apply lookup_singleton_Some in Hp as [_ <-]. cbn [children] in Hk.
    by rewrite lookup_nil in Hk.
  - intros c it Hc _. cbn -[singletonM] in Hc.
    by apply lookup_singleton_Some in Hc as [<- _].
  - intros p pi k c Hp Hk. cbn -[singletonM] in Hp.
    apply lookup_singleton_Some in Hp as [_ <-]. by left.
  - intros c it Hc _. cbn -[singletonM] in Hc.
    by apply lookup_singleton_Some in Hc as [<- _].
  - intros p i va l nodes k Hp Hslot. cbn -[singletonM] in Hp.
    apply lookup_singleton_Some in Hp as [_ <-]. done.
  - intros c it p pi Hc Htc. cbn -[singletonM] in Hc.
    apply lookup_singleton_Some in Hc as [_ <-]. done.
Qed.

(** *** [SongsSlightlyChanged] *)

Lemma last_cons_is_Some {A} (l : list A) : ∀ x, is_Some (last (x :: l)).
Proof. induction l as [|y l IH]; intros x; [by eexists|]. apply (IH y). Qed.

Lemma default_last_cons {A} (d x : A) l : default d (last (x :: l)) = default x (last l).
Proof.
  destruct l as [|y l]; [done|]. destruct (last_cons_is_Some l y) as [z Hz].
  change (last (x :: y :: l)) with (last (y :: l)). by rewrite Hz.
Qed.

Lemma SongsSlightlyChanged_spec songs : ∀ m,
  consistent m →
  total (SongsSlightlyChanged songs) m (λ _ m', consistent m' ∧ refreshed songs m m').
Proof.
  induction songs as [|s songs IH]; intros m Hcs.
  - apply total_ret. split; [done|]. split; [by rewrite set_heap_id|].
    intros q. destruct (heap m !! q) as [i|]; [|done]. cbn. f_equal.
    case_bool_decide; [|done]. by destruct i.
  - cbn [SongsSlightlyChanged for_each]. apply total_bind.
    unfold SongsSlightlyChanged_body at 1. apply total_bind, total_get.
    destruct (song_nodes_ m !! Song.id s) as [node|] eqn:Hnode.
    + destruct (cs_songs m Hcs _ _ Hnode) as (it & Hit & Hty & Hid).
      eapply total_eq; [by apply update_Some|].
      match goal with |- total _ ?x _ => set (m1 := x) end.
      assert (Hcs1 : consistent m1).
      { apply (consistent_update m node it (set_metadata s it));
          [done|done|done|done|done|done|done|done|done|by symmetry|done|by left]. }
      eapply total_mono; [apply (IH m1 Hcs1)|].
      intros [] m2 (Hcs2 & Heq & Hheap).
      split; [done|]. split; [by rewrite Heq at 1|].
      intros q. rewrite Hheap.
      change (heap m1) with (<[node := set_metadata s it]> (heap m)).
      change (song_nodes_ m1) with (song_nodes_ m).
      destruct (decide (q = node)) as [->|Hq].
      * rewrite lookup_insert_eq, Hit. cbn [fmap option_fmap option_map]. f_equal.
        cbn [metadata set_metadata].
        rewrite Hid, Hnode, !bool_decide_eq_true_2 by done.
        unfold refreshed_metadata. cbn [metadata set_metadata]. rewrite Hid.
        unfold SongList. rewrite filter_cons_True by done. rewrite default_last_cons.
        by destruct it.
      * rewrite lookup_insert_ne by done.
        destruct (heap m !! q) as [i|] eqn:Hi; [|done]. cbn. f_equal.
        case_bool_decide as Hreg; [|done]. f_equal.
        unfold refreshed_metadata, SongList. rewrite filter_cons_False; [done|].
        intros Heq'. rewrite Heq' in Hnode. congruence.
    + apply total_ret.
      eapply total_mono; [apply (IH m Hcs)|].
      intros [] m2 (Hcs2 & Heq & Hheap).
      split; [done|]. split; [done|].
      intros q. rewrite Hheap.
      destruct (heap m !! q) as [i|] eqn:Hi; [|done]. cbn. f_equal.
      case_bool_decide as Hreg; [|done]. f_equal.
      unfold refreshed_metadata, SongList. rewrite filter_cons_False; [done|].
      intros Heq'. rewrite Heq' in Hnode. congruence.
Qed.

(** *** What [SongsDiscovered] registers *)

Lemma SongsDiscovered_registers songs : ∀ m,
  consistent m → valid_grouping (group_by_ m) →
  total (SongsDiscovered songs) m
    (λ _ m', consistent m' ∧ extends m m' ∧ registered_after songs m m').
Proof.
  induction songs as [|s songs IH]; intros m Hcs Hg.
  { apply total_ret. split; [done|]. split; [apply extends_refl|].
    split; [|split].
    - intros id n it Hn Hit. eauto.
    - intros id. split; [by left|]. intros [?|(song & Hin & _)]; [done|].
      by apply elem_of_nil in Hin.
    - intros id song _ Hfirst. done. }
  cbn [SongsDiscovered for_each]. apply total_bind.
  eapply total_mono; [exact (SongsDiscovered_body_consistent s m Hcs Hg)|].
  intros [] m1 (Hcs1 & Hext1 & Hdisc).
  eapply total_mono; [apply (IH m1 Hcs1); by rewrite (ext_group_by _ _ Hext1)|].
  intros [] m2 (Hcs2 & Hext2 & Hkept & Hnew & Hfirst).
  split; [done|]. split; [by eapply extends_trans|].
  rewrite (ext_query_options _ _ Hext1), (ext_now _ _ Hext1) in Hnew, Hfirst.
  assert (Hstep : (∀ id n, song_nodes_ m !! id = Some n → song_nodes_ m1 !! id = Some n)
                  ∧ ∀ id, is_Some (song_nodes_ m1 !! id)
                          ↔ is_Some (song_nodes_ m !! id)
                            ∨ (id = Song.id s
                               ∧ Matches (query_options_ m) (Model.now m) s = true)).
  { unfold discovered in Hdisc.
    destruct (Matches (query_options_ m) (Model.now m) s) eqn:Hm; cbn [negb orb] in Hdisc.
    2:{ subst m1. split; [done|]. intros id. split; [by left|].
        by intros [?|[_ ?]]. }
    case_bool_decide as Hpresent.
    { subst m1. split; [done|]. intros id. split; [by left|].
      by intros [?|[-> _]]. }
    destruct Hdisc as (leaf & it & -> & _). split.
    - intros id n Hn. rewrite lookup_insert_ne; [done|].
      intros <-. apply Hpresent. eauto.
    - intros id. destruct (decide (id = Song.id s)) as [->|Hne].
      + rewrite lookup_insert_eq. split; [by right|eauto].
      + rewrite lookup_insert_ne by done. split; [by left|]. by intros [?|[? _]]. }
  destruct Hstep as [Hkept1 Hnew1]. split; [|split].
  - intros id n it Hn Hit.
    destruct (ext_heap _ _ Hext1 n it Hit) as (it1 & Hit1 & _ & _ & _ & _ & _ & Hmd & _).
    destruct (Hkept id n it1 (Hkept1 id n Hn) Hit1) as (Hn2 & it2 & Hit2 & Hmd2).
    split; [done|]. exists it2. split; [done|congruence].
  - intros id. rewrite Hnew, Hnew1. split.
    + intros [[?|[-> Hm]]|(song & Hin & Hid & Hm)].
      * by left.
      * right. exists s. split; [by left|done].
      * right. exists song. split; [by right|done].
    + intros [?|(song & Hin & Hid & Hm)]; [by left; left|].
      apply elem_of_cons in Hin as [->|Hin].
      * left. right. done.
      * right. eauto.
  - intros id song Hnone Hsong. unfold first_match, SongList in Hsong.
    destruct (decide (Song.id s = id
                      ∧ Matches (query_options_ m) (Model.now m) s = true))
      as [[<- Hm]|Hno].
    + rewrite filter_cons_True in Hsong by done. injection Hsong as <-.
      unfold discovered in Hdisc. rewrite Hm in Hdisc. cbn [negb orb] in Hdisc.
      rewrite bool_decide_eq_false_2 in Hdisc
        by (rewrite Hnone; by intros [? ?]).
      destruct Hdisc as (leaf & it & Hreg & _ & Hleaf & _ & Hmd).
      destruct (Hkept (Song.id s) leaf it) as (Hn2 & it2 & Hit2 & Hmd2);
        [by rewrite Hreg, lookup_insert_eq|done|].
      exists leaf, it2. split; [done|]. split; [done|]. split; [|congruence].
      destruct (cs_songs m2 Hcs2 _ _ Hn2) as (it' & Hit' & Hty & _).
      by assert (it' = it2) as -> by congruence.
    + rewrite filter_cons_False in Hsong by done.
      apply (Hfirst id song); [|done].
      destruct (song_nodes_ m1 !! id) as [n|] eqn:Hn1; [|done].
      assert (is_Some (song_nodes_ m1 !! id)) as Hsome by (rewrite Hn1; eauto).
      apply Hnew1 in Hsome as [Hsome|[-> Hm]].
      * rewrite Hnone in Hsome. by destruct Hsome.
      * by destruct Hno.
Qed.

(** *** Every state of the index is consistent *)

Lemma reachable_consistent g o now m :
  valid_grouping g → reachable g o now m →
  consistent m ∧ group_by_ m = g ∧ query_options_ m = o ∧ Model.now m = now.
Proof.
  intros Hg. induction 1 as
    [sd
    |m songs m' _ (Hcs & Hgm & Hqo & Hnow) Hstep
    |m songs m' _ (Hcs & Hgm & Hqo & Hnow) Hstep
    |m songs m' _ (Hcs & Hgm & Hqo & Hnow) Hstep
    |m _ (Hcs & Hgm & Hqo & Hnow)
    |m sd _ (Hcs & Hgm & Hqo & Hnow)
    |m songs id init_id_ m' _ (Hcs & Hgm & Hqo & Hnow) Hstep].
  - split; [apply consistent_new_model|done].
  - destruct (SongsDiscovered_consistent songs m Hcs) as ([] & m2 & Heq & Hcs2 & Hext);
      [by rewrite Hgm|].
    assert (m2 = m') as -> by congruence. split; [done|].
    by rewrite (ext_group_by _ _ Hext), (ext_query_options _ _ Hext),
      (ext_now _ _ Hext).
  - destruct (SongsDeleted_spec songs m Hcs) as ([] & m2 & Heq & Hcs2 & Hpr & _).
    assert (m2 = m') as -> by congruence. split; [done|].
    by rewrite (pr_group_by _ _ Hpr), (pr_query_options _ _ Hpr), (pr_now _ _ Hpr).
  - destruct (SongsSlightlyChanged_spec songs m Hcs) as ([] & m2 & Heq & Hcs2 & Hm2 & _).
    assert (m2 = m') as -> by congruence. split; [done|]. by rewrite Hm2.
  - split; [apply consistent_Reset|done].
  - unfold set_show_dividers. case_bool_decide; [|done].
    split; [apply consistent_Reset|done].
  - unfold ResetAsyncFinished in Hstep. case_bool_decide.
    { assert (m' = m) as -> by (unfold ret in Hstep; congruence). done. }
    change (SongsDiscovered songs (Reset m) = Some (tt, m')) in Hstep.
    destruct (SongsDiscovered_consistent songs (Reset m) (consistent_Reset m))
      as ([] & m2 & Heq & Hcs2 & Hext); [by rewrite <- Hgm in Hg|].
    assert (m2 = m') as -> by congruence. split; [done|].
    by rewrite (ext_group_by _ _ Hext), (ext_query_options _ _ Hext),
      (ext_now _ _ Hext).
Qed.

(** *** Where a song is filed *)

Lemma container_nodes_set_eq m m1 i nodes v :
  container_nodes_ m i = Some nodes →
  container_nodes_ (set_container_nodes_ i v m1) i = Some v.
Proof.
  unfold container_nodes_, set_container_nodes_. cbn.
  destruct (i =? 0)%Z; [done|]. destruct (i =? 1)%Z; [done|].
  by destruct (i =? 2)%Z.
Qed.

Lemma container_nodes_set_ne m1 i l v :
  l ≠ i → container_nodes_ (set_container_nodes_ i v m1) l = container_nodes_ m1 l.
Proof.
  intros Hne. unfold container_nodes_, set_container_nodes_. cbn.
  destruct (l =? 0)%Z eqn:L0.
  { destruct (i =? 0)%Z eqn:I0; [lia|done]. }
  destruct (l =? 1)%Z eqn:L1.
  { destruct (i =? 1)%Z eqn:I1; [lia|done]. }
  destruct (l =? 2)%Z eqn:L2; [|done].
  destruct (i =? 2)%Z eqn:I2; [lia|done].
Qed.

Lemma registrations_kept_refl m : registrations_kept m m.
Proof. intros l nodes k c Hn Hk. eauto. Qed.

Lemma registrations_kept_trans m1 m2 m3 :
  registrations_kept m1 m2 → registrations_kept m2 m3 → registrations_kept m1 m3.
Proof.
  intros H12 H23 l nodes k c Hn Hk.
  destruct (H12 l nodes k c Hn Hk) as (nodes2 & Hn2 & Hk2).
  apply (H23 l nodes2 k c Hn2 Hk2).
Qed.

Lemma registrations_kept_register m m1 i nodes K c :
  (∀ l, container_nodes_ m1 l = container_nodes_ m l) →
  container_nodes_ m i = Some nodes → nodes !! K = None →
  registrations_kept m (set_container_nodes_ i (<[K := c]> nodes) m1).
Proof.
  intros Hsame Hn HK l nodes0 k c0 Hn0 Hk0.
  destruct (decide (l = i)) as [->|Hne].
  - rewrite (container_nodes_set_eq m m1 i nodes _ Hn).
    eexists. split; [done|]. assert (nodes0 = nodes) as -> by congruence.
    rewrite lookup_insert_ne; [done|]. intros <-. congruence.
  - rewrite (container_nodes_set_ne m1 i l _ Hne), Hsame. eauto.
Qed.

Lemma find_container_filed n :
  ∀ i song container key0 m ci at_,
    consistent m → valid_grouping (group_by_ m) → plain (group_by_ m) song →
    heap m !! container = Some ci → key ci = key0 →
    Model.type ci = Type_Root ∨ Model.type ci = Type_Container →
    (0 ≤ i)%Z → (i + Z.of_nat n ≤ 3)%Z → filed_at m container at_ →
    total (find_container n i song container key0) m
      (λ c m', consistent m' ∧ extends m m' ∧ song_nodes_ m' = song_nodes_ m
               ∧ registrations_kept m m'
               ∧ filed_at m' c (key_path (group_by_ m) song n i key0 at_)
               ∧ ∃ ci', heap m' !! c = Some ci'
                        ∧ (Model.type ci' = Type_Root
                           ∨ Model.type ci' = Type_Container)).
Proof.
  induction n as [|n IH];
    intros i song container key0 m ci at_ Hcs Hg Hplain Hc Hkey Hct Hi Hn Hat.
  { apply total_ret. split; [done|]. split; [apply extends_refl|]. split; [done|].
    split; [apply registrations_kept_refl|]. split; [done|]. eauto. }
  pose proof (cs_wf m Hcs) as Hwf.
  cbn [find_container key_path]. apply total_bind, total_get.
  destruct (bool_decide (Grouping_at (group_by_ m) i = GroupBy_None)) eqn:Hnone.
  { apply total_ret. split; [done|]. split; [apply extends_refl|]. split; [done|].
    split; [apply registrations_kept_refl|]. split; [done|]. eauto. }
  apply bool_decide_eq_false_1 in Hnone.
  pose proof (Grouping_at_valid _ i Hg) as Hcount.
  rewrite (Hplain i).
  set (type := Grouping_at (group_by_ m) i) in *.
  destruct (Insertion.container_nodes_in_range m i) as [nodes Hnodes]; [lia|].
  rewrite Hnodes.
  set (K := (if negb (Qt.isEmpty key0) then key0 +:+ "-" else key0)
            +:+ ContainerKey type song).
  destruct (nodes !! K) as [c'|] eqn:Hlook.
  - destruct (cs_containers m Hcs i nodes K c' Hnodes Hlook)
      as (it & Hit & Htc & Hk & _).
    apply (IH (i + 1)%Z song c' K m it (Some (i, K))); try done; try lia.
    + by right.
    + by exists nodes.
  - apply total_bind.
    assert (Hdiv : (i =? 0)%Z = true → type = first (group_by_ m)).
    { intros Hi0. apply Z.eqb_eq in Hi0. unfold type. by rewrite Hi0. }
    eapply total_mono;
      [exact (total_and _ _ _ _
                (ItemFromSong_consistent type (i =? 0)%Z container song i ci m
                   Hcs Hc Hct Hdiv ltac:(lia))
                (Insertion.ItemFromSong_spec type (i =? 0)%Z container song i ci m
                   Hwf Hc))|].
    intros item m1 ((Hcs1 & Hun1 & it & Hit & Hk)
                    & -> & _ & Hext1 & Hidx & Hc0 & _ & it' & Hit' & Hty & _ & Hl & _).
    assert (it' = it) as -> by congruence.
    rewrite (switch_ContainerKey _ _ _ _ _ Hnone Hcount) in Hk.
    rewrite (registered_key m container ci key0 _ Hcs Hc Hkey) in Hk.
    rewrite bool_decide_eq_false_2 in Hty by done.
    apply total_bind, total_modify.
    set (m2 := set_container_nodes_ i _ m1).
    assert (Hsame : ∀ l, container_nodes_ m1 l = container_nodes_ m l)
      by (intros l; apply (Insertion.container_nodes_same m m1 l Hidx Hc0)).
    assert (Hcs2 : consistent m2).
    { apply (consistent_register_container m1 i nodes K (next_ptr m) it);
        try done. by rewrite Hsame. }
    assert (Hg2 : group_by_ m2 = group_by_ m) by (cbn; apply (ext_group_by _ _ Hext1)).
    eapply total_mono;
      [apply (IH (i + 1)%Z song (next_ptr m) K m2 it (Some (i, K)));
       [done|by rewrite Hg2|by rewrite Hg2|done|done|by right|lia|lia|]|].
    { eexists. split; [apply (container_nodes_set_eq m m1 i nodes _ Hnodes)|].
      apply lookup_insert_eq. }
    intros c2 m' (Hcs' & Hext' & Hsongs' & Hkept' & Hat' & Hlive').
    rewrite Hg2 in Hat'.
    split; [done|].
    assert (Hext2 : extends m1 m2) by (by apply extends_config).
    split; [eapply extends_trans; [exact Hext1|];
            eapply extends_trans; [exact Hext2|done]|].
    split; [rewrite Hsongs'; cbn; apply Hidx|].
    split; [|done].
    eapply registrations_kept_trans; [|exact Hkept'].
    by apply registrations_kept_register.
Qed.

Lemma ItemFromSong_leaf c song p m :
  wf m → heap m !! c = Some p →
  total (ItemFromSong GroupBy_None false c song (-1)) m
    (λ item m', ∃ it, heap m' !! item = Some it
                      ∧ display_text it = Ext.TitleWithCompilationArtist song
                      ∧ sort_text it = SortTextForSong song).
Proof.
  intros Hwf Hp. pose proof (wf_fresh_None m Hwf) as Hfresh.
  unfold ItemFromSong.
  apply total_bind.
  eapply total_eq; [exact (Insertion.InitItem_Some GroupBy_None c (-1) p m Hwf Hp)|].
  apply total_bind, total_get.
  apply total_bind. eapply total_deref; [apply allocated_lookup_parent|].
  apply total_bind. eapply total_deref; [by apply allocated_lookup_item|].
  apply total_bind.
  eapply total_eq; [apply update_Some, allocated_lookup_item; done|].
  rewrite (allocated_set _ _ _ _ _ _ m (next_ptr m) Hp Hfresh eq_refl).
  apply total_bind. unfold FinishItem. apply total_bind, total_get.
  cbn [andb]. apply total_ret, total_ret.
  eexists. split; [by apply allocated_lookup_item|]. done.
Qed.

Lemma SongsDiscovered_body_filed song m :
  consistent m → valid_grouping (group_by_ m) → plain (group_by_ m) song →
  Matches (query_options_ m) (Model.now m) song = true →
  song_nodes_ m !! Song.id song = None →
  total (SongsDiscovered_body song) m (λ _ m', filed m song m').
Proof.
  intros Hcs Hg Hplain Hm Hnew. pose proof (cs_wf m Hcs) as Hwf.
  unfold SongsDiscovered_body. apply total_bind, total_get.
  rewrite Hm. cbn [negb].
  rewrite bool_decide_eq_false_2 by (rewrite Hnew; by intros [? ?]).
  destruct (cs_root m Hcs) as (r & Hr & Hrt & Hkr & _).
  apply total_bind.
  eapply total_mono;
    [exact (find_container_filed 3 0%Z song (root_ m) EmptyString m r None
              Hcs Hg Hplain Hr Hkr (or_introl Hrt) ltac:(lia) ltac:(lia) eq_refl)|].
  intros c m1 (Hcs1 & Hext1 & Hsong1 & Hkept1 & Hat1 & ci & Hci & Hcit).
  pose proof (cs_wf m1 Hcs1) as Hwf1. unfold filed.
  set (target := key_path (group_by_ m) song 3 0 EmptyString None) in *.
  clearbody target.
  apply total_bind.
  eapply total_mono;
    [exact (total_and _ _ _ _
              (ItemFromSong_leaf c song ci m1 Hwf1 Hci)
              (Insertion.ItemFromSong_spec GroupBy_None false c song (-1) ci m1
                 Hwf1 Hci))|].
  intros node m2 ((it0 & Hit0 & Hdisplay & Hsort)
                  & -> & _ & Hext2 & Hidx & Hc0 & _ & it & Hit & Hty & Hpar & _ & Hmeta).
  assert (it0 = it) as -> by congruence.
  apply total_modify.
  exists (next_ptr m1), it, c. cbn.
  split; [destruct Hidx as (_ & _ & ->); by rewrite Hsong1|].
  split.
  { destruct (heap m !! next_ptr m1) eqn:E; [|done].
    pose proof (wf_fresh m Hwf _ (mk_is_Some _ _ E)).
    pose proof (ext_next _ _ Hext1). lia. }
  split; [done|]. split; [done|]. split; [by rewrite Hmeta|].
  split; [done|]. split; [done|]. split; [done|].
  assert (Hsame : ∀ l, container_nodes_ m2 l = container_nodes_ m1 l)
    by (intros l; apply (Insertion.container_nodes_same m1 m2 l Hidx Hc0)).
  split.
  - unfold filed_at in *. destruct target as [[l k]|].
    + destruct Hat1 as (nodes & Hn & Hk).
      exists nodes.
      split; [|done]. change (container_nodes_ m2 l = Some nodes). by rewrite Hsame.
    + cbn. by rewrite (ext_root _ _ Hext2).
  - intros l nodes k c0 Hn Hk.
    destruct (Hkept1 l nodes k c0 Hn Hk) as (nodes1 & Hn1 & Hk1).
    exists nodes1. split; [|done].
    change (container_nodes_ m2 l = Some nodes1). by rewrite Hsame.
Qed.

(** *** A batch whose songs are all there *)

Lemma SongsDiscovered_present songs m :
  (∀ s, s ∈ songs → Matches (query_options_ m) (Model.now m) s = true →
        is_Some (song_nodes_ m !! Song.id s)) →
  SongsDiscovered songs m = Some (tt, m).
Proof.
  induction songs as [|s songs IH]; intros Hall; [done|].
  cbn [SongsDiscovered for_each]. rewrite (bind_Some _ _ m tt m).
  - apply IH. intros s' Hs'. apply Hall. by right.
  - unfold SongsDiscovered_body. rewrite (bind_Some get _ m m m eq_refl).
    destruct (Matches (query_options_ m) (Model.now m) s) eqn:Hm; cbn [negb]; [|done].
    rewrite bool_decide_eq_true_2; [done|]. apply Hall; [by left|done].
Qed.

End WithText.

End Consistency.

(* ===================================================================== *)
(** ** Properties of the index in every state *)
(* ===================================================================== *)

Module IndexProperties.
Import Model Index Lifecycle ModelLogic Consistency IndexExamples.

Lemma valid_by_albumartist_album : valid_grouping by_albumartist_album.
Proof. by repeat split. Qed.

Lemma valid_by_year : valid_grouping by_year.
Proof. by repeat split. Qed.

Lemma scenario_B_reachable :
  reachable (H := Latin1.text) by_albumartist_album options_all 0 scenario_B.
Proof.
  apply (reachable_SongsDiscovered _ _ _ _ [compilation_track] _
           (reachable_new _ _ _ true)).
  vm_compute. reflexivity.
Qed.

Lemma year_index_reachable :
  reachable (H := Latin1.text) by_year options_all 0 year_index.
Proof.
  apply (reachable_SongsDiscovered _ _ _ _ [track_of_1999] _
           (reachable_new _ _ _ true)).
  vm_compute. reflexivity.
Qed.

Section WithText.
Context `{Ext.Text}.

(** X1.  In every state of the index, each entry of [song_nodes_], of the
    three [container_nodes_] maps and of [divider_nodes_] points to a live
    item of the right kind: a childless Song item that holds a song with the
    id it is registered under; a Container with the key and the level it is
    registered under; a childless Divider below the root with the key it is
    registered under and the display text of that key. *)
Theorem X1_registered_nodes_are_live_items g o now m :
  valid_grouping g → reachable g o now m →
  (∀ id n, song_nodes_ m !! id = Some n →
           ∃ it, heap m !! n = Some it ∧ Model.type it = Type_Song
                 ∧ Song.id (metadata it) = id ∧ children it = [])
  ∧ (∀ i nodes k c, container_nodes_ m i = Some nodes → nodes !! k = Some c →
                    ∃ it, heap m !! c = Some it ∧ Model.type it = Type_Container
                          ∧ key it = k ∧ container_level it = i)
  ∧ (∀ k d, divider_nodes_ m !! k = Some d →
            ∃ it, heap m !! d = Some it ∧ Model.type it = Type_Divider
                  ∧ key it = k ∧ parent it = Some (root_ m) ∧ children it = []
                  ∧ display_text it = DividerDisplayText (first g) k).
Proof.
  intros Hg Hr. destruct (reachable_consistent g o now m Hg Hr) as (Hcs & <- & _).
  split; [|split].
  - intros id n Hn. destruct (cs_songs m Hcs id n Hn) as (it & Hit & Hty & Hid).
    exists it. split; [done|]. split; [done|]. split; [done|].
    apply (leaf_children m n it Hcs Hit); by rewrite Hty.
  - apply (cs_containers m Hcs).
  - intros k d Hd.
    destruct (cs_dividers m Hcs k d Hd) as (it & Hit & Hty & Hk & Hpar & Htext).
    exists it. split; [done|]. split; [done|]. split; [done|]. split; [done|].
    split; [|done]. apply (leaf_children m d it Hcs Hit); by rewrite Hty.
Qed.

(** X2.  In every state of the index the links of the tree agree: an item
    with a parent is the child at its own [row] of that parent, which is live
    and is the root or a container; every child of a live item is live, names
    that item as its parent and has its position as [row]; no item is twice
    among the children of an item; and the root is the one item without a
    parent. *)
Theorem X2_tree_links_agree g o now m :
  valid_grouping g → reachable g o now m →
  (∀ c it p, heap m !! c = Some it → parent it = Some p →
             ∃ pi, heap m !! p = Some pi ∧ children pi !! row it = Some c
                   ∧ (Model.type pi = Type_Root ∨ Model.type pi = Type_Container))
  ∧ (∀ p pi k c, heap m !! p = Some pi → children pi !! k = Some c →
                 ∃ it, heap m !! c = Some it ∧ parent it = Some p ∧ row it = k)
  ∧ (∀ p pi, heap m !! p = Some pi → NoDup (children pi))
  ∧ (∀ c it, heap m !! c = Some it → parent it = None ↔ c = root_ m).
Proof.
  intros Hg Hr. destruct (reachable_consistent g o now m Hg Hr) as (Hcs & _).
  split; [|split; [|split]].
  - intros c it p Hc Hpar.
    destruct (cs_parent m Hcs c it p Hc Hpar) as (pi & Hpi & Hrow).
    exists pi. split; [done|]. split; [done|].
    apply (cs_fertile m Hcs p pi _ c Hpi Hrow).
  - apply (cs_children m Hcs).
  - intros p pi Hp. apply (NoDup_children m p pi).
    intros k c Hk. apply (cs_children m Hcs p pi k c Hp Hk).
  - intros c it Hc. split; [apply (cs_orphan m Hcs c it Hc)|].
    intros ->. destruct (cs_root m Hcs) as (r & Hroot & _ & _ & Hpar).
    by assert (r = it) as -> by congruence.
Qed.

(** X3.  In every state of the index a [compilation_artist_node_] that is
    set points to a live Container that is a child of the item that holds the
    pointer, has the sort text " various" and is in none of the
    [container_nodes_] maps: [SongsDeleted] clears the pointer when it
    deletes the node, so the pointer never dangles. *)
Theorem X3_compilation_artist_node_never_dangles g o now m :
  valid_grouping g → reachable g o now m →
  ∀ p i va, heap m !! p = Some i → compilation_artist_node_ i = Some va →
    ∃ v, heap m !! va = Some v ∧ Model.type v = Type_Container
         ∧ parent v = Some p ∧ children i !! row v = Some va
         ∧ sort_text v = " various"
         ∧ ∀ l nodes k, container_nodes_ m l = Some nodes → nodes !! k ≠ Some va.
Proof.
  intros Hg Hr p i va Hp Hva.
  destruct (reachable_consistent g o now m Hg Hr) as (Hcs & _).
  destruct (cs_various m Hcs p i va Hp Hva) as (v & Hv & Hty & Hpar).
  destruct (wf_various m (cs_wf m Hcs) p i va Hp Hva) as (v' & Hv' & Hsort).
  assert (v' = v) as -> by congruence.
  destruct (cs_parent m Hcs va v p Hv Hpar) as (pi & Hpi & Hrow).
  assert (pi = i) as -> by congruence.
  exists v. split; [done|]. split; [done|]. split; [done|]. split; [done|].
  split; [done|]. intros l nodes k Hn.
  apply (cs_unregistered m Hcs p i va l nodes k Hp Hva Hn).
Qed.

(** X4.  In every state of the index [SongsDeleted] returns normally for any
    batch.  Afterwards exactly the ids of the batch are gone from
    [song_nodes_]; every item that is left is an item that was there, with
    its type, parent, key, texts, level and song; no map has a new entry; and
    no item was allocated. *)
Theorem X4_SongsDeleted_returns_and_only_removes g o now m songs :
  valid_grouping g → reachable g o now m →
  ∃ m', SongsDeleted songs m = Some (tt, m')
        ∧ unregistered_after songs m m' ∧ pruned m m'.
Proof.
  intros Hg Hr. destruct (reachable_consistent g o now m Hg Hr) as (Hcs & _).
  destruct (SongsDeleted_spec songs m Hcs) as ([] & m' & Heq & _ & Hpr & Hsongs).
  exists m'. done.
Qed.

(** X5.  In every state of the index [SongsDiscovered] returns normally for
    any batch.  It leaves every registration of a song and the song cached
    there as they were, so a song whose id is registered is not updated; it
    registers exactly the ids of the songs of the batch that pass the filter,
    each new id with a Song item that holds the first such song of the batch;
    and every item that was there keeps its type, parent, key and display
    text. *)
Theorem X5_SongsDiscovered_returns_and_registers g o now m songs :
  valid_grouping g → reachable g o now m →
  ∃ m', SongsDiscovered songs m = Some (tt, m')
        ∧ registered_after songs m m' ∧ extends m m'.
Proof.
  intros Hg Hr. destruct (reachable_consistent g o now m Hg Hr) as (Hcs & Hgm & _).
  destruct (SongsDiscovered_registers songs m Hcs) as ([] & m' & Heq & _ & Hext & Hreg);
    [by rewrite Hgm|].
  exists m'. done.
Qed.

(** X6.  Delivering a batch to [SongsDiscovered] a second time changes
    nothing: the second call returns the state the first one left. *)
Theorem X6_SongsDiscovered_twice_is_once g o now m songs :
  valid_grouping g → reachable g o now m →
  ∃ m', SongsDiscovered songs m = Some (tt, m')
        ∧ SongsDiscovered songs m' = Some (tt, m').
Proof.
  intros Hg Hr. destruct (reachable_consistent g o now m Hg Hr) as (Hcs & Hgm & _).
  destruct (SongsDiscovered_registers songs m Hcs)
    as ([] & m' & Heq & _ & Hext & _ & Hnew & _); [by rewrite Hgm|].
  exists m'. split; [done|]. apply SongsDiscovered_present.
  intros s Hs Hm. apply Hnew. right. exists s. split; [done|]. split; [done|].
  by rewrite <- (ext_query_options _ _ Hext), <- (ext_now _ _ Hext).
Qed.

(** X7.  [SongsDiscovered] followed by [SongsDeleted] of the same batch
    returns normally, and leaves in [song_nodes_] the registrations that were
    there before, less the ids of the batch. *)
Theorem X7_discovered_then_deleted g o now m songs :
  valid_grouping g → reachable g o now m →
  ∃ m1 m2, SongsDiscovered songs m = Some (tt, m1)
           ∧ SongsDeleted songs m1 = Some (tt, m2)
           ∧ unregistered_after songs m m2.
Proof.
  intros Hg Hr. destruct (reachable_consistent g o now m Hg Hr) as (Hcs & Hgm & _).
  destruct (SongsDiscovered_registers songs m Hcs)
    as ([] & m1 & Heq1 & Hcs1 & _ & Hkept & Hnew & _); [by rewrite Hgm|].
  destruct (SongsDeleted_spec songs m1 Hcs1) as ([] & m2 & Heq2 & _ & _ & Hsongs).
  exists m1, m2. split; [done|]. split; [done|].
  intros id. rewrite Hsongs. case_bool_decide as Hid; [done|].
  destruct (song_nodes_ m !! id) as [n|] eqn:Hn.
  - destruct (cs_songs m Hcs id n Hn) as (it & Hit & _).
    by destruct (Hkept id n it Hn Hit) as [? _].
  - destruct (song_nodes_ m1 !! id) as [n1|] eqn:Hn1; [|done].
    assert (is_Some (song_nodes_ m1 !! id)) as Hsome by (rewrite Hn1; eauto).
    apply Hnew in Hsome as [Hsome|(song & Hin & <- & _)].
    + rewrite Hn in Hsome. by destruct Hsome.
    + destruct Hid. apply list_elem_of_In, in_map, list_elem_of_In, Hin.
Qed.

(** X8.  In every state of the index [SongsSlightlyChanged] returns normally
    for any batch.  It replaces the song cached in the node of every
    registered id of the batch by the last song of the batch with that id,
    and changes nothing else: the maps, the tree, and the key, display text
    and sort text of every item, also of the refreshed ones, stay as they
    were. *)
Theorem X8_SongsSlightlyChanged_refreshes_the_cached_songs g o now m songs :
  valid_grouping g → reachable g o now m →
  ∃ m', SongsSlightlyChanged songs m = Some (tt, m') ∧ refreshed songs m m'.
Proof.
  intros Hg Hr. destruct (reachable_consistent g o now m Hg Hr) as (Hcs & _).
  destruct (SongsSlightlyChanged_spec songs m Hcs) as ([] & m' & Heq & _ & Href).
  exists m'. done.
Qed.

(** X12.  A song that passes the filter, has no node yet and is not sent to
    a compilation-artist node by any level of the grouping is filed by
    [SongsDiscovered] in a new Song item that holds the song, shows
    [TitleWithCompilationArtist] and sorts by [SortTextForSong]; the parent
    of that item is the container registered at the last grouping level
    under the key path of the song (the keys of the levels joined by "-"),
    or the root when the grouping has no level; and every container that was
    registered stays registered under its key. *)
Theorem X12_song_is_filed_under_its_key_path g o now m song :
  valid_grouping g → reachable g o now m → plain g song →
  Matches o now song = true → song_nodes_ m !! Song.id song = None →
  ∃ m', SongsDiscovered [song] m = Some (tt, m') ∧ filed m song m'.
Proof.
  intros Hg Hr Hplain Hm Hnew.
  destruct (reachable_consistent g o now m Hg Hr) as (Hcs & Hgm & Hqo & Hnow).
  destruct (SongsDiscovered_body_filed song m Hcs) as ([] & m' & Heq & Hfiled);
    [by rewrite Hgm|by rewrite Hgm|by rewrite Hqo, Hnow|done|].
  exists m'. split; [|done].
  cbn [SongsDiscovered for_each]. by rewrite (bind_Some _ _ _ _ _ Heq).
Qed.

End WithText.

Lemma X1_registered_nodes_are_live_items_witness :
  (∀ id n, song_nodes_ scenario_B !! id = Some n →
           ∃ it, heap scenario_B !! n = Some it ∧ Model.type it = Type_Song
                 ∧ Song.id (metadata it) = id ∧ children it = [])
  ∧ (∀ i nodes k c, container_nodes_ scenario_B i = Some nodes → nodes !! k = Some c →
                    ∃ it, heap scenario_B !! c = Some it
                          ∧ Model.type it = Type_Container
                          ∧ key it = k ∧ container_level it = i)
  ∧ (∀ k d, divider_nodes_ scenario_B !! k = Some d →
            ∃ it, heap scenario_B !! d = Some it ∧ Model.type it = Type_Divider
                  ∧ key it = k ∧ parent it = Some (root_ scenario_B)
                  ∧ children it = []
                  ∧ display_text it
                    = DividerDisplayText (H := Latin1.text)
                        (first by_albumartist_album) k).
Proof.
  exact (X1_registered_nodes_are_live_items (H := Latin1.text)
           by_albumartist_album options_all 0 scenario_B
           valid_by_albumartist_album scenario_B_reachable).
Defined.

Lemma X2_tree_links_agree_witness :
  (∀ c it p, heap scenario_B !! c = Some it → parent it = Some p →
             ∃ pi, heap scenario_B !! p = Some pi ∧ children pi !! row it = Some c
                   ∧ (Model.type pi = Type_Root ∨ Model.type pi = Type_Container))
  ∧ (∀ p pi k c, heap scenario_B !! p = Some pi → children pi !! k = Some c →
                 ∃ it, heap scenario_B !! c = Some it ∧ parent it = Some p
                       ∧ row it = k)
  ∧ (∀ p pi, heap scenario_B !! p = Some pi → NoDup (children pi))
  ∧ (∀ c it, heap scenario_B !! c = Some it →
             parent it = None ↔ c = root_ scenario_B).
Proof.
  exact (X2_tree_links_agree (H := Latin1.text)
           by_albumartist_album options_all 0 scenario_B
           valid_by_albumartist_album scenario_B_reachable).
Defined.

Lemma X3_compilation_artist_node_never_dangles_witness :
  ∃ v, heap scenario_B !! 1%nat = Some v ∧ Model.type v = Type_Container
       ∧ parent v = Some 0%nat
       ∧ children (default (item_sorted_as EmptyString) (heap scenario_B !! 0%nat))
           !! row v = Some 1%nat
       ∧ sort_text v = " various"
       ∧ ∀ l nodes k, container_nodes_ scenario_B l = Some nodes →
                      nodes !! k ≠ Some 1%nat.
Proof.
  apply (X3_compilation_artist_node_never_dangles (H := Latin1.text)
           by_albumartist_album options_all 0 scenario_B
           valid_by_albumartist_album scenario_B_reachable 0%nat
           (default (item_sorted_as EmptyString) (heap scenario_B !! 0%nat)) 1%nat).
  - vm_compute. reflexivity.
  - vm_compute. reflexivity.
Defined.

Lemma X4_SongsDeleted_returns_and_only_removes_witness :
  ∃ m', SongsDeleted (H := Latin1.text) [track_of_1999] year_index = Some (tt, m')
        ∧ unregistered_after [track_of_1999] year_index m' ∧ pruned year_index m'.
Proof.
  exact (X4_SongsDeleted_returns_and_only_removes (H := Latin1.text)
           by_year options_all 0 year_index [track_of_1999]
           valid_by_year year_index_reachable).
Defined.

Lemma X5_SongsDiscovered_returns_and_registers_witness :
  ∃ m', SongsDiscovered (H := Latin1.text) [unknown_track; compilation_track]
          scenario_B = Some (tt, m')
        ∧ registered_after [unknown_track; compilation_track] scenario_B m'
        ∧ extends scenario_B m'.
Proof.
  exact (X5_SongsDiscovered_returns_and_registers (H := Latin1.text)
           by_albumartist_album options_all 0 scenario_B
           [unknown_track; compilation_track]
           valid_by_albumartist_album scenario_B_reachable).
Defined.

Lemma X6_SongsDiscovered_twice_is_once_witness :
  ∃ m', SongsDiscovered (H := Latin1.text) [unknown_track; compilation_track]
          scenario_B = Some (tt, m')
        ∧ SongsDiscovered (H := Latin1.text) [unknown_track; compilation_track] m'
          = Some (tt, m').
Proof.
  exact (X6_SongsDiscovered_twice_is_once (H := Latin1.text)
           by_albumartist_album options_all 0 scenario_B
           [unknown_track; compilation_track]
           valid_by_albumartist_album scenario_B_reachable).
Defined.

Lemma X7_discovered_then_deleted_witness :
  ∃ m1 m2, SongsDiscovered (H := Latin1.text) [unknown_track] scenario_B
           = Some (tt, m1)
           ∧ SongsDeleted (H := Latin1.text) [unknown_track] m1 = Some (tt, m2)
           ∧ unregistered_after [unknown_track] scenario_B m2.
Proof.
  exact (X7_discovered_then_deleted (H := Latin1.text)
           by_albumartist_album options_all 0 scenario_B [unknown_track]
           valid_by_albumartist_album scenario_B_reachable).
Defined.

Lemma X8_SongsSlightlyChanged_refreshes_the_cached_songs_witness :
  ∃ m', SongsSlightlyChanged [Song.set_year 2001 track_of_1999; unknown_track]
          year_index = Some (tt, m')
        ∧ refreshed [Song.set_year 2001 track_of_1999; unknown_track] year_index m'.
Proof.
  exact (X8_SongsSlightlyChanged_refreshes_the_cached_songs (H := Latin1.text)
           by_year options_all 0 year_index
           [Song.set_year 2001 track_of_1999; unknown_track]
           valid_by_year year_index_reachable).
Defined.

Lemma X12_song_is_filed_under_its_key_path_witness :
  ∃ m', SongsDiscovered (H := Latin1.text) [unknown_track] scenario_B = Some (tt, m')
        ∧ filed (H := Latin1.text) scenario_B unknown_track m'.
Proof.
  apply (X12_song_is_filed_under_its_key_path (H := Latin1.text)
           by_albumartist_album options_all 0 scenario_B unknown_track
           valid_by_albumartist_album scenario_B_reachable).
  - intros i. destruct (IsArtistGroupBy _); reflexivity.
  - reflexivity.
  - vm_compute. reflexivity.
Defined.

End IndexProperties.

(* ===================================================================== *)
(** ** Properties of the backend's write slots *)
(* ===================================================================== *)

Module BackendProperties.
Import Backend BackendLogic Spec Override.



(** *** [ForceCompilation] *)

Lemma album_artist_matches_forced album artist on r :
  album_artist_matches album artist (set_row_compilation_forced on r)
  = album_artist_matches album artist r.
Proof. by destruct r as [? [] ? ?]. Qed.

Lemma set_row_compilation_forced_idem on r :
  set_row_compilation_forced on (set_row_compilation_forced on r)
  = set_row_compilation_forced on r.
Proof. by destruct r as [? [] ? ?]. Qed.

Lemma InitFromQuery_forced on r :
  InitFromQuery (set_row_compilation_forced on r) = force_song on (InitFromQuery r).
Proof. by destruct r as [? [] ? ?]. Qed.

Lemma filter_forced album artist on (c : Row → bool) rows :
  filter (λ r, album_artist_matches album artist r = true)
         (map (λ r, if c r then set_row_compilation_forced on r else r) rows)
  = map (λ r, if c r then set_row_compilation_forced on r else r)
        (filter (λ r, album_artist_matches album artist r = true) rows).
Proof.
  induction rows as [|r rows IH]; [done|]. cbn [map].
  assert (album_artist_matches album artist
            (if c r then set_row_compilation_forced on r else r)
          = album_artist_matches album artist r) as Hm
    by (destruct (c r); [apply album_artist_matches_forced|done]).
  destruct (album_artist_matches album artist r) eqn:Hr.
  - rewrite !filter_cons_True by (by rewrite ?Hm). cbn [map]. by rewrite IH.
  - rewrite !filter_cons_False by (by rewrite ?Hm, ?Hr). exact IH.
Qed.

Lemma ForceCompilation_body_ok album on artist acc w :
  pending w = [] →
  let before := map InitFromQuery
                    (filter (λ r, album_artist_matches album artist r = true)
                            (songs (db w))) in
  ∃ w', ForceCompilation_body album on artist acc w
        = (Ok (mkDelta (added_songs acc ++ map (force_song on) before)
                       (deleted_songs acc ++ before)), w')
        ∧ pending w' = [] ∧ emitted w' = emitted w
        ∧ songs (db w')
          = map (λ r, if album_artist_matches album artist r
                      then set_row_compilation_forced on r else r) (songs (db w)).
Proof.
  intros Hp before. unfold ForceCompilation_body, select_by_album.
  unfold bind at 1 2. unfold get_db.
  rewrite MatchKey.bind_exec_or_return_ok by done. unfold ret at 1.
  rewrite MatchKey.bind_exec_or_return_ok by done.
  unfold bind at 1 2. unfold get_db.
  rewrite MatchKey.bind_exec_or_return_ok by done. unfold ret.
  eexists. split; [apply f_equal2; [|reflexivity]|].
  - f_equal. f_equal. f_equal.
    cbn [db songs sql_update_compilation_forced set_songs].
    rewrite filter_forced. fold before. unfold before.
    rewrite !map_map. apply map_ext_in. intros r Hr.
    apply list_elem_of_In, list_elem_of_filter in Hr as [-> _].
    apply InitFromQuery_forced.
  - split; [reflexivity|]. split; reflexivity.
Qed.

Lemma forced_rows_step album artist artists on rows :
  forced_rows album artists on
    (map (λ r, if album_artist_matches album artist r
               then set_row_compilation_forced on r else r) rows)
  = forced_rows album (artist :: artists) on rows.
Proof.
  unfold forced_rows. rewrite map_map. apply map_ext. intros r.
  unfold selected. cbn [existsb].
  destruct (album_artist_matches album artist r) eqn:Hr; cbn [orb]; [|done].
  assert (existsb (λ a, album_artist_matches album a (set_row_compilation_forced on r))
                  artists
          = existsb (λ a, album_artist_matches album a r) artists) as ->.
  { induction artists as [|a l IH]; [done|]. cbn [existsb].
    by rewrite IH, album_artist_matches_forced. }
  destruct (existsb _ artists); [apply set_row_compilation_forced_idem|done].
Qed.

Lemma forced_rows_nil album on rows : forced_rows album [] on rows = rows.
Proof. unfold forced_rows. cbn [selected existsb]. by rewrite map_id. Qed.

Lemma reported_cons album artist artists on rows :
  reported album (artist :: artists) on rows
  = map InitFromQuery (filter (λ r, album_artist_matches album artist r = true) rows)
    ++ reported album artists on
         (map (λ r, if album_artist_matches album artist r
                    then set_row_compilation_forced on r else r) rows).
Proof.
  unfold reported. rewrite imap_cons. cbn [concat take].
  rewrite forced_rows_nil. f_equal. f_equal. apply imap_ext.
  intros i a _. cbn [compose take]. by rewrite forced_rows_step.
Qed.

Lemma ForceCompilation_loop_ok album on artists : ∀ acc w,
  pending w = [] →
  let deleted := reported album artists on (songs (db w)) in
  ∃ w', for_each artists (ForceCompilation_body album on) acc w
        = (Ok (mkDelta (added_songs acc ++ map (force_song on) deleted)
                       (deleted_songs acc ++ deleted)), w')
        ∧ emitted w' = emitted w
        ∧ songs (db w') = forced_rows album artists on (songs (db w)).
Proof.
  induction artists as [|artist artists IH]; intros acc w Hp deleted; subst deleted.
  - exists w. cbn [for_each]. unfold reported. cbn [imap concat map].
    rewrite !app_nil_r, forced_rows_nil. by destruct acc.
  - destruct (ForceCompilation_body_ok album on artist acc w Hp)
      as (w1 & Hbody & Hp1 & Hem1 & Hrows1).
    match type of Hbody with _ = (Ok ?a, _) =>
      destruct (IH a w1 Hp1) as (w2 & Hrest & Hem2 & Hrows2) end.
    exists w2. cbn [for_each].
    rewrite (MatchKey.bind_Ok _ _ _ _ _ Hbody), Hrest.
    cbn [added_songs deleted_songs].
    rewrite reported_cons, Hrows1, map_app, <- !app_assoc.
    split; [done|]. split; [congruence|].
    rewrite Hrows2, Hrows1. apply forced_rows_step.
Qed.

Lemma Song_id_InitFromQuery r : Song.id (InitFromQuery r) = ROWID r.
Proof. by destruct r as [? [] ? ?]. Qed.

Lemma ROWID_forced on r : ROWID (set_row_compilation_forced on r) = ROWID r.
Proof. done. Qed.

Lemma selected_spec album artists r :
  selected album artists r = true
  ↔ ∃ i artist, artists !! i = Some artist
                ∧ album_artist_matches album artist r = true.
Proof.
  unfold selected. rewrite existsb_exists. split.
  - intros (artist & Hin & Hm).
    apply list_elem_of_In, list_elem_of_lookup in Hin as [i Hi]. eauto.
  - intros (i & artist & Hi & Hm). exists artist. split; [|done].
    apply list_elem_of_In, list_elem_of_lookup. eauto.
Qed.

(** The songs read before the updates are the songs of the selected rows. *)
Lemma reported_spec album artists on rows s :
  s ∈ reported album artists on rows
  ↔ ∃ i artist r,
      artists !! i = Some artist ∧ r ∈ rows
      ∧ album_artist_matches album artist r = true
      ∧ s = InitFromQuery (if selected album (take i artists) r
                           then set_row_compilation_forced on r else r).
Proof.
  unfold reported. rewrite list_elem_of_In, in_concat. split.
  - intros (l & Hl & Hs).
    apply list_elem_of_In, elem_of_lookup_imap in Hl as (i & artist & -> & Hi).
    apply list_elem_of_In, list_elem_of_fmap in Hs as (r' & -> & Hr').
    apply list_elem_of_filter in Hr' as [Hm Hr'].
    unfold forced_rows in Hr'. apply list_elem_of_fmap in Hr' as (r & -> & Hr).
    exists i, artist, r. split; [done|]. split; [done|]. split; [|done].
    destruct (selected album (take i artists) r);
      [by rewrite album_artist_matches_forced in Hm|done].
  - intros (i & artist & r & Hi & Hr & Hm & ->).
    eexists. split.
    + apply list_elem_of_In, elem_of_lookup_imap. exists i, artist. split; [done|done].
    + apply list_elem_of_In, list_elem_of_fmap. eexists. split; [done|].
      apply list_elem_of_filter. split.
      * destruct (selected album (take i artists) r);
          [by rewrite album_artist_matches_forced|done].
      * unfold forced_rows. apply list_elem_of_fmap. by exists r.
Qed.

(** X10.  When every statement succeeds, [ForceCompilation(album, artists,
    on)] overrides exactly the available rows of that album whose artist is
    one of [artists] (any artist for an empty name): such a row gets
    [compilation_on = on], [compilation_off = !on] and
    [compilation_effective = on], whatever was detected, and every other row
    stays as it is.  The songs reported in [SongsDeleted] are the songs
    [reported]: artist by artist, the rows that match the artist as they are
    read before its update; each of them is the song of a selected row, and
    every selected row is reported.  The songs reported in
    [SongsDiscovered] are the same songs with the new flags, in the same
    order, and nothing is emitted when no row was selected. *)
Theorem X10_ForceCompilation_overrides_the_selected_rows (w : World)
    (album : string) (artists : list string) (on : bool) :
  pending w = [] →
  let w' := ForceCompilation album artists on w in
  let deleted := reported album artists on (songs (db w)) in
  songs (db w') = forced_rows album artists on (songs (db w))
  ∧ (∀ r, compilation_effective (set_row_compilation_forced on r) = on
          ∧ Song.compilation_on (cols (set_row_compilation_forced on r)) = on
          ∧ Song.compilation_off (cols (set_row_compilation_forced on r)) = negb on
          ∧ Song.is_compilation (force_song on (InitFromQuery r)) = on)
  ∧ emitted w'
    = emitted w ++ (if bool_decide (deleted ≠ [])
                    then [SongsDeleted deleted;
                          SongsDiscovered (map (force_song on) deleted)]
                    else [])
  ∧ (∀ s, s ∈ deleted →
          ∃ r, r ∈ songs (db w) ∧ selected album artists r = true
               ∧ Song.id s = ROWID r)
  ∧ (∀ r, r ∈ songs (db w) → selected album artists r = true →
          ∃ s, s ∈ deleted ∧ Song.id s = ROWID r)
  ∧ ((∀ r, r ∈ songs (db w) → selected album artists r = false) →
     emitted w' = emitted w).
Proof.
  intros Hp w' deleted.
  assert (Hin : ∀ s, s ∈ deleted →
            ∃ r, r ∈ songs (db w) ∧ selected album artists r = true
                 ∧ Song.id s = ROWID r).
  { intros s (i & artist & r & Hi & Hr & Hm & ->)%reported_spec.
    exists r. split; [done|]. split; [apply selected_spec; eauto|].
    rewrite Song_id_InitFromQuery. by destruct (selected album (take i artists) r). }
  assert (Hemit : emitted w'
    = emitted w ++ (if bool_decide (deleted ≠ [])
                    then [SongsDeleted deleted;
                          SongsDiscovered (map (force_song on) deleted)]
                    else [])).
  { subst w'. unfold ForceCompilation.
    destruct (ForceCompilation_loop_ok album on artists (mkDelta [] []) w Hp)
      as (w1 & -> & Hem & Hrows).
    fold deleted. cbn [added_songs deleted_songs app].
    case_bool_decide as Hne.
    - rewrite bool_decide_eq_true_2.
      + unfold emit. cbn [emitted]. by rewrite Hem, <- app_assoc.
      + destruct Hne as [Hne|Hne]; [|done]. intros E. rewrite E in Hne.
        by apply Hne.
    - rewrite bool_decide_eq_false_2; [by rewrite app_nil_r|].
      intros Hd. apply Hne. by right. }
  split; [|split; [|split; [|split; [|split]]]].
  - subst w'. unfold ForceCompilation.
    destruct (ForceCompilation_loop_ok album on artists (mkDelta [] []) w Hp)
      as (w1 & -> & Hem & Hrows).
    match goal with |- context [bool_decide ?P] => destruct (bool_decide P) end;
      exact Hrows.
  - intros r. destruct r as [? [] ? ?].
    unfold Song.is_compilation, force_song, InitFromQuery.
    repeat split; destruct on; cbn; by rewrite ?orb_true_r, ?andb_false_r.
  - exact Hemit.
  - exact Hin.
  - intros r Hr (i & artist & Hi & Hm)%selected_spec.
    eexists. split.
    + apply reported_spec. exists i, artist, r. done.
    + rewrite Song_id_InitFromQuery.
      by destruct (selected album (take i artists) r).
  - intros Hnone. rewrite Hemit.
    rewrite bool_decide_eq_false_2; [by rewrite app_nil_r|].
    intros Hne. destruct deleted as [|s l] eqn:Hd; [done|].
    destruct (Hin s) as (r & Hr & Hsel & _); [by left|].
    by rewrite Hnone in Hsel.
Qed.

Lemma X10_ForceCompilation_overrides_the_selected_rows_witness :
  let w' := ForceCompilation "X" ["A"] true Examples.scenario_A in
  let deleted := reported "X" ["A"] true (songs (db Examples.scenario_A)) in
  songs (db w') = forced_rows "X" ["A"] true (songs (db Examples.scenario_A))
  ∧ (∀ r, compilation_effective (set_row_compilation_forced true r) = true
          ∧ Song.compilation_on (cols (set_row_compilation_forced true r)) = true
          ∧ Song.compilation_off (cols (set_row_compilation_forced true r)) = negb true
          ∧ Song.is_compilation (force_song true (InitFromQuery r)) = true)
  ∧ emitted w'
    = emitted Examples.scenario_A
      ++ (if bool_decide (deleted ≠ [])
          then [SongsDeleted deleted;
                SongsDiscovered (map (force_song true) deleted)]
          else [])
  ∧ (∀ s, s ∈ deleted →
          ∃ r, r ∈ songs (db Examples.scenario_A) ∧ selected "X" ["A"] r = true
               ∧ Song.id s = ROWID r)
  ∧ (∀ r, r ∈ songs (db Examples.scenario_A) → selected "X" ["A"] r = true →
          ∃ s, s ∈ deleted ∧ Song.id s = ROWID r)
  ∧ ((∀ r, r ∈ songs (db Examples.scenario_A) → selected "X" ["A"] r = false) →
     emitted w' = emitted Examples.scenario_A).
Proof.
  apply (X10_ForceCompilation_overrides_the_selected_rows Examples.scenario_A
           "X" ["A"] true).
  reflexivity.
Defined.

End BackendProperties.

(* ===================================================================== *)
(** ** The placeholders of a CollectionQuery *)
(* ===================================================================== *)

Module QueryProperties.
Import Query.

Lemma placeholders_append a b :
  placeholders (a +:+ b) = (placeholders a + placeholders b)%nat.
Proof.
  induction a as [|c a IH]; [done|].
  change (placeholders (String c a +:+ b))
    with ((if Ascii.eqb c "?" then 1 else 0) + placeholders (a +:+ b))%nat.
  rewrite IH. cbn [placeholders]. lia.
Qed.

Lemma placeholders_concat sep l :
  placeholders sep = 0%nat →
  placeholders (String.concat sep l) = sum_list (map placeholders l).
Proof.
  intros Hsep. induction l as [|x l IH]; [done|].
  destruct l as [|y l]; [cbn; lia|].
  change (String.concat sep (x :: y :: l))
    with (x +:+ sep +:+ String.concat sep (y :: l)).
  rewrite !placeholders_append, Hsep, IH. cbn. lia.
Qed.

Lemma sum_list_app l1 l2 : sum_list (l1 ++ l2) = (sum_list l1 + sum_list l2)%nat.
Proof. induction l1 as [|x l1 IH]; [done|]. cbn. rewrite IH. lia. Qed.

Lemma placeholders_forall_chars (p : ascii → bool) s :
  p "?"%char = false → Qt.forall_chars p s = true → placeholders s = 0%nat.
Proof.
  intros Hp. induction s as [|c s IH]; [done|]. cbn.
  intros [Hc Hs]%andb_prop. rewrite (IH Hs).
  destruct (Ascii.eqb_spec c "?") as [->|]; [congruence|done].
Qed.

Lemma placeholders_string_of_uint u :
  placeholders (NilZero.string_of_uint u) = 0%nat.
Proof.
  unfold NilZero.string_of_uint. destruct u; try done;
    apply (placeholders_forall_chars Qt.is_decimal_digit); try done;
    apply Numbers.string_of_uint_digits.
Qed.

Lemma placeholders_number n : placeholders (Qt.number n) = 0%nat.
Proof.
  unfold Qt.number, NilZero.string_of_int.
  destruct (Z.to_int n); [|cbn [placeholders Ascii.eqb]];
    rewrite ?placeholders_string_of_uint; done.
Qed.

Lemma placeholders_question_marks (values : list string) :
  placeholders (String.concat "," (map (λ _ : string, "?") values)) = length values.
Proof.
  rewrite placeholders_concat by done.
  induction values as [|v values IH]; [done|]. cbn. by rewrite IH.
Qed.

Lemma startsWith_cons c s a x :
  Qt.startsWith (String c s) (String a x) = true → a = c ∧ Qt.startsWith s x = true.
Proof.
  cbn. destruct (Ascii.eqb_spec a c) as [->|]; [done|discriminate].
Qed.

Lemma placeholders_replace_from before after s : ∀ skip,
  before ≠ EmptyString →
  placeholders before = 0%nat → placeholders after = 0%nat →
  (∃ x, Qt.startsWith s x = true ∧ String.length x = skip ∧ placeholders x = 0%nat) →
  placeholders (replace_from before after s skip) = placeholders s.
Proof.
  intros skip Hne Hb Ha. revert skip.
  induction s as [|c s IH]; intros skip (x & Hx & Hlen & Hpx); [done|].
  destruct skip as [|k]; cbn [replace_from].
  - destruct (Qt.startsWith (String c s) before) eqn:Hstart.
    + rewrite placeholders_append, Ha. destruct before as [|a b]; [done|].
      apply startsWith_cons in Hstart as [-> Hstart].
      cbn [String.length Nat.sub]. rewrite Nat.sub_0_r.
      cbn [placeholders] in Hb |- *.
      rewrite (IH (String.length b)); [lia|].
      exists b. split; [done|]. split; [done|]. lia.
    + cbn [placeholders]. rewrite (IH 0%nat); [done|].
      exists EmptyString. split; [by destruct s|done].
  - destruct x as [|a x]; [done|].
    apply startsWith_cons in Hx as [-> Hx]. cbn [String.length] in Hlen.
    cbn [placeholders] in Hpx |- *.
    rewrite (IH k); [lia|]. exists x. split; [done|]. split; lia.
Qed.

Lemma placeholders_replace before after s :
  before ≠ EmptyString →
  placeholders before = 0%nat → placeholders after = 0%nat →
  placeholders (replace before after s) = placeholders s.
Proof.
  intros Hne Hb Ha. apply placeholders_replace_from; [done..|].
  exists EmptyString. split; [by destruct s|done].
Qed.

Lemma well_bound_add_clause clause values q :
  well_bound q → placeholders clause = length values →
  well_bound (add_clause clause values q).
Proof.
  unfold well_bound. cbn [where_clauses_ bound_values_ add_clause].
  rewrite !placeholders_concat by done. intros Hq Hc.
  rewrite map_app, sum_list_app, length_app, Hq. simpl. rewrite Hc. lia.
Qed.

(** X11.  Every positional placeholder of a query has its bound value, in
    every query built from the constructor by [AddWhere] (for a column and an
    operator without a question mark), [AddWhereArtist] and
    [AddCompilationRequirement]: the number of question marks in the WHERE
    clauses is the number of bound values, and so is the number of question
    marks in the statement that [Exec] prepares when the column spec, the
    table name and the ORDER BY text have none.  Integers are written into
    the clause and never bound, and a null string is bound as the empty
    string. *)
Theorem X11_placeholders_match_bound_values :
  (∀ now songs_table options, well_bound (new now songs_table options))
  ∧ (∀ q column value op,
       well_bound q → placeholders column = 0%nat → placeholders op = 0%nat →
       well_bound (AddWhere column value op q))
  ∧ (∀ q value, well_bound q → well_bound (AddWhereArtist value q))
  ∧ (∀ q compilation, well_bound q → well_bound (AddCompilationRequirement compilation q))
  ∧ (∀ q, well_bound q → placeholders (column_spec_ q) = 0%nat →
          placeholders (songs_table_ q) = 0%nat → placeholders (order_by_ q) = 0%nat →
          placeholders (sql q) = length (bound_values_ q))
  ∧ (∀ q column n op, is_IN op = false →
       bound_values_ (AddWhere column (VInt n) op q) = bound_values_ q)
  ∧ (∀ q column op, is_IN op = false →
       bound_values_ (AddWhere column (VString None) op q)
       = bound_values_ q ++ [VString (Some EmptyString)]).
Proof.
  split; [|split; [|split; [|split; [|split; [|split]]]]].
  - intros now songs_table options. unfold new, well_bound.
    destruct (bool_decide (max_age options ≠ -1)),
      (bool_decide (query_mode options = QueryMode_Untagged)); reflexivity.
  - intros q column value op Hq Hc Ho. unfold AddWhere.
    destruct (is_IN op).
    + apply well_bound_add_clause; [done|].
      rewrite !placeholders_append, Hc, placeholders_question_marks, length_map.
      cbn. lia.
    + assert (Hbind : placeholders (column +:+ " " +:+ op +:+ " ?") = 1%nat).
      { rewrite !placeholders_append, Hc, Ho. done. }
      destruct value as [n|n|[s|]|l]; apply well_bound_add_clause; try done.
      rewrite !placeholders_append, Hc, Ho, placeholders_number. done.
  - intros q value Hq. by apply well_bound_add_clause.
  - intros q compilation Hq. apply well_bound_add_clause; [done|].
    by destruct compilation.
  - intros q Hq Hcs Hst Hob. unfold sql.
    rewrite placeholders_replace by done.
    assert (Hinner : placeholders (GetInnerQuery q) = 0%nat)
      by (unfold GetInnerQuery; by destruct (duplicates_only_ q)).
    assert (Hhead : placeholders ("SELECT " +:+ column_spec_ q +:+ " FROM "
                                  +:+ songs_table_ q +:+ " " +:+ GetInnerQuery q)
                    = 0%nat).
    { rewrite !placeholders_append, Hcs, Hst, Hinner. done. }
    set (head := "SELECT " +:+ column_spec_ q +:+ " FROM " +:+ songs_table_ q +:+ " "
                 +:+ GetInnerQuery q) in *.
    set (where_clauses := if negb (include_unavailable_ q)
                          then where_clauses_ q ++ ["unavailable = 0"]
                          else where_clauses_ q).
    assert (Hwhere : placeholders (String.concat " AND " where_clauses)
                     = length (bound_values_ q)).
    { unfold where_clauses, well_bound in *.
      destruct (include_unavailable_ q); cbn [negb]; [done|].
      rewrite placeholders_concat in Hq |- * by done.
      rewrite map_app, sum_list_app, Hq. cbn. lia. }
    set (sql1 := if negb (bool_decide (where_clauses = []))
                 then head +:+ " WHERE " +:+ String.concat " AND " where_clauses
                 else head).
    assert (H1 : placeholders sql1 = length (bound_values_ q)).
    { unfold sql1. case_bool_decide as Hnil; cbn [negb].
      - rewrite Hnil in Hwhere. cbn in Hwhere. by rewrite Hhead.
      - rewrite !placeholders_append, Hhead, Hwhere. done. }
    set (sql2 := if negb (Qt.isEmpty (order_by_ q))
                 then sql1 +:+ " ORDER BY " +:+ order_by_ q else sql1).
    assert (H2 : placeholders sql2 = length (bound_values_ q)).
    { unfold sql2. destruct (Qt.isEmpty (order_by_ q)); cbn [negb]; [done|].
      rewrite !placeholders_append, H1, Hob. cbn. lia. }
    case_bool_decide; [|done].
    rewrite !placeholders_append, H2, placeholders_number. cbn. lia.
  - intros q column n op Hop. unfold AddWhere. rewrite Hop.
    cbn [add_clause bound_values_]. apply app_nil_r.
  - intros q column op Hop. unfold AddWhere. by rewrite Hop.
Qed.

Lemma X11_placeholders_match_bound_values_witness :
  placeholders (sql by_album_and_artist) = length (bound_values_ by_album_and_artist).
Proof.
  destruct X11_placeholders_match_bound_values as (_ & Hadd & _ & _ & Hsql & _).
  apply Hsql; [|reflexivity|reflexivity|reflexivity].
  apply Hadd; [|reflexivity|reflexivity].
  apply Hadd; [|reflexivity|reflexivity].
  reflexivity.
Defined.

End QueryProperties.

(* ===================================================================== *)
(** ** The cache size setting *)
(* ===================================================================== *)

Module CacheProperties.
Import Cache.

Lemma scale_closed_form fuel : ∀ size unit,
  (Z.to_nat unit < fuel)%nat →
  (∀ j, 1 ≤ j ≤ Z.max 1 unit → qint64_min ≤ size * 1024 ^ j ≤ qint64_max) →
  scale fuel size unit = Some (size * 1024 ^ Z.max 1 unit).
Proof.
  induction fuel as [|fuel IH]; intros size unit Hfuel Hfit; [lia|].
  cbn [scale].
  pose proof (Hfit 1 ltac:(lia)) as H1. rewrite Z.pow_1_r in H1.
  rewrite (proj2 (Z.leb_le _ _) (proj1 H1)), (proj2 (Z.leb_le _ _) (proj2 H1)).
  cbn [andb]. destruct (0 <? unit - 1) eqn:Hu.
  - apply Z.ltb_lt in Hu. rewrite IH.
    + f_equal. rewrite !Z.max_r by lia.
      replace unit with (1 + (unit - 1)) at 2 by lia.
      rewrite Z.pow_add_r by lia. rewrite Z.pow_1_r. lia.
    + lia.
    + intros j Hj. rewrite Z.max_r in Hj by lia.
      specialize (Hfit (1 + j) ltac:(lia)).
      rewrite Z.pow_add_r, Z.pow_1_r in Hfit by lia. lia.
  - apply Z.ltb_ge in Hu. f_equal. rewrite Z.max_l by lia. by rewrite Z.pow_1_r.
Qed.

Lemma fits_below size j k :
  1 ≤ j ≤ k → qint64_min ≤ size * 1024 ^ k ≤ qint64_max →
  qint64_min ≤ size * 1024 ^ j ≤ qint64_max.
Proof.
  intros Hj Hk. unfold qint64_min, qint64_max in *.
  assert (1024 ^ j ≤ 1024 ^ k) by (apply Z.pow_le_mono_r; lia).
  assert (0 < 1024 ^ j) by (apply Z.pow_pos_nonneg; lia).
  nia.
Qed.

(** X13.  [MaximumCacheSize] multiplies the size setting by 1024 once more
    than the unit setting says, and at least once: the result is
    [size * 1024 ^ max(1, unit + 1)] whenever that number is a [qint64] (and
    [unit + 1] an [int]), so unit 0 gives KB, unit 1 MB, and a unit setting
    below 0 still counts as KB. *)
Theorem X13_MaximumCacheSize_closed_form (size_setting unit_setting : Z) :
  unit_setting < Qt.int_max →
  qint64_min ≤ size_setting * 1024 ^ Z.max 1 (unit_setting + 1) ≤ qint64_max →
  MaximumCacheSize size_setting unit_setting
  = Some (size_setting * 1024 ^ Z.max 1 (unit_setting + 1)).
Proof.
  intros Hunit Hfit. unfold MaximumCacheSize.
  rewrite (proj2 (Z.ltb_ge _ _)) by lia. apply scale_closed_form; [lia|].
  intros j Hj. by apply (fits_below size_setting j (Z.max 1 (unit_setting + 1))).
Qed.

Lemma X13_MaximumCacheSize_closed_form_witness :
  MaximumCacheSize 80 1 = Some (80 * 1024 ^ Z.max 1 (1 + 1))
  ∧ MaximumCacheSize 80 (-5) = Some (80 * 1024 ^ Z.max 1 (-5 + 1)).
Proof.
  split; apply X13_MaximumCacheSize_closed_form;
    first [reflexivity | vm_compute; split; discriminate].
Defined.

End CacheProperties.

(* ===================================================================== *)
(** ** The songs below an item *)
(* ===================================================================== *)

Module ChildSongsProperties.
Import Model Index Lifecycle ModelLogic Consistency ChildSongs.

(** *** The items stay ordered *)

Lemma bind_inv {A C} (c : M A) (k : A → M C) m b m' :
  bind c k m = Some (b, m') → ∃ a m1, c m = Some (a, m1) ∧ k a m1 = Some (b, m').
Proof.
  unfold bind. destruct (c m) as [[a m1]|]; [|done]. intros Hk. eauto.
Qed.

Lemma keeps_ret {A} (a : A) : keeps_order (ret a).
Proof. intros m a' m' [= <- <-]. done. Qed.

Lemma keeps_crash {A} : keeps_order (@crash A).
Proof. intros m a m' Hc. discriminate Hc. Qed.

Lemma keeps_get : keeps_order get.
Proof. intros m a m' [= <- <-]. done. Qed.

Lemma keeps_deref p : keeps_order (deref p).
Proof.
  intros m a m'. unfold deref. destruct (heap m !! p); [|done].
  by intros [= <- <-].
Qed.

Lemma keeps_bind {A C} (c : M A) (k : A → M C) :
  keeps_order c → (∀ a, keeps_order (k a)) → keeps_order (bind c k).
Proof.
  intros Hc Hk m b m' Hb Ho.
  apply bind_inv in Hb as (a & m1 & Ha & Hb).
  apply (Hk a m1 b m' Hb). apply (Hc m a m1 Ha Ho).
Qed.

Lemma keeps_modify f :
  (∀ m, heap (f m) = heap m ∧ next_ptr (f m) = next_ptr m) → keeps_order (modify f).
Proof.
  intros Hf m a m' [= <- <-] Ho c it. destruct (Hf m) as [-> ->]. apply Ho.
Qed.

Lemma keeps_update p f :
  (∀ i, parent (f i) = parent i) → keeps_order (update p f).
Proof.
  intros Hf m a m'. unfold update. intros Hb Ho.
  apply bind_inv in Hb as (i & m1 & Hi & Hb).
  unfold deref in Hi. destruct (heap m !! p) as [i'|] eqn:Hp; [|done].
  injection Hi as <- <-. injection Hb as <- <-.
  intros c it. cbn. destruct (decide (p = c)) as [<-|Hne].
  - rewrite lookup_insert_eq. intros [= <-]. rewrite Hf. apply (Ho p i' Hp).
  - rewrite lookup_insert_ne by done. apply Ho.
Qed.

Lemma keeps_new_CollectionItem ty parent_ : keeps_order (new_CollectionItem ty parent_).
Proof.
  intros m a m' Hb Ho. unfold new_CollectionItem in Hb.
  apply bind_inv in Hb as (p & m0 & Hp & Hb).
  unfold deref in Hp. destruct (heap m !! parent_) as [p'|] eqn:Hparent; [|done].
  injection Hp as <- <-.
  destruct (Ho parent_ p' Hparent) as [Hlt Hpp].
  rewrite (bind_Some get _ m m m eq_refl) in Hb.
  unfold bind at 1, modify at 1 in Hb.
  apply bind_inv in Hb as ([] & m2 & Hu & Hb). injection Hb as <- <-.
  rewrite (update_Some parent_ _ p') in Hu
    by (cbn; rewrite lookup_insert_ne by lia; done).
  injection Hu as <-. intros c it. cbn.
  destruct (decide (parent_ = c)) as [<-|Hne].
  - rewrite lookup_insert_eq. intros [= <-]. split; [lia|]. apply Hpp.
  - rewrite lookup_insert_ne by done.
    destruct (decide (next_ptr m = c)) as [<-|Hne'].
    + rewrite lookup_insert_eq. intros [= <-]. split; [lia|].
      intros q [= <-]. done.
    + rewrite lookup_insert_ne by done. intros Hc.
      destruct (Ho c it Hc) as [? ?]. split; [lia|done].
Qed.

Lemma keeps_for_each {A} (l : list A) (body : A → M unit) :
  (∀ x, keeps_order (body x)) → keeps_order (for_each l body).
Proof.
  intros Hb. induction l as [|x l IH]; [apply keeps_ret|].
  cbn [for_each]. apply keeps_bind; [apply Hb|]. intros _. exact IH.
Qed.

Ltac keep :=
  repeat first
    [ progress intros
    | apply keeps_ret | apply keeps_crash | apply keeps_get | apply keeps_deref
    | apply keeps_new_CollectionItem
    | apply keeps_update; intros; reflexivity
    | apply keeps_modify; intros; split; reflexivity
    | apply keeps_for_each
    | apply keeps_bind
    | match goal with
      | |- keeps_order (match ?x with _ => _ end) => destruct x
      | |- keeps_order (if ?b then _ else _) => destruct b
      end ].

Section WithText.
Context `{Ext.Text}.

Lemma keeps_CreateCompilationArtistNode parent_ :
  keeps_order (CreateCompilationArtistNode parent_).
Proof. unfold CreateCompilationArtistNode. keep. Qed.

Lemma keeps_FinishItem type create_divider item :
  keeps_order (FinishItem type create_divider item).
Proof. unfold FinishItem. keep. Qed.

Lemma keeps_ItemFromSong type create_divider parent_ s level :
  keeps_order (ItemFromSong type create_divider parent_ s level).
Proof.
  unfold ItemFromSong, InitItem, FinishItem. keep.
Qed.

Lemma keeps_find_container n : ∀ i song container key,
  keeps_order (find_container n i song container key).
Proof.
  induction n as [|n IH]; intros i song container key; [apply keeps_ret|].
  cbn [find_container]. apply keeps_bind; [apply keeps_get|]. intros m.
  destruct (bool_decide _); [apply keeps_ret|].
  destruct (_ && _).
  - apply keeps_bind; [apply keeps_deref|]. intros c.
    apply keeps_bind.
    + destruct (compilation_artist_node_ c);
        [apply keeps_ret|apply keeps_CreateCompilationArtistNode].
    + intros va. apply keeps_bind; [apply keeps_deref|]. intros v. apply IH.
  - destruct (container_nodes_ m i) as [nodes|]; [|apply keeps_crash].
    destruct (nodes !! _); [apply IH|].
    apply keeps_bind; [apply keeps_ItemFromSong|]. intros c.
    apply keeps_bind; [|intros; apply IH].
    apply keeps_modify. intros; split; reflexivity.
Qed.

Lemma keeps_SongsDiscovered songs : keeps_order (SongsDiscovered songs).
Proof.
  unfold SongsDiscovered. apply keeps_for_each. intros song.
  unfold SongsDiscovered_body. apply keeps_bind; [apply keeps_get|]. intros m.
  destruct (negb _); [apply keeps_ret|]. destruct (bool_decide _); [apply keeps_ret|].
  apply keeps_bind; [apply keeps_find_container|]. intros container.
  apply keeps_bind; [apply keeps_ItemFromSong|]. intros node.
  apply keeps_modify. intros; split; reflexivity.
Qed.

Lemma keeps_SongsSlightlyChanged songs : keeps_order (SongsSlightlyChanged songs).
Proof. unfold SongsSlightlyChanged, SongsSlightlyChanged_body. keep. Qed.

Lemma ordered_Reset m : ordered (Reset m).
Proof.
  intros c it Hc. cbn -[singletonM] in Hc.
  apply lookup_singleton_Some in Hc as [<- <-]. cbn. split; [lia|done].
Qed.

Lemma ordered_pruned m m' : ordered m → pruned m m' → ordered m'.
Proof.
  intros Ho Hpr c it' Hc.
  destruct (pr_heap _ _ Hpr c it' Hc) as (it & Hit & _ & Hpar & _).
  rewrite (pr_next _ _ Hpr), Hpar. apply (Ho c it Hit).
Qed.

Lemma reachable_ordered g o now m :
  valid_grouping g → reachable g o now m → ordered m.
Proof.
  intros Hg. induction 1 as
    [sd
    |m songs m' Hr IH Hstep
    |m songs m' Hr IH Hstep
    |m songs m' Hr IH Hstep
    |m Hr IH
    |m sd Hr IH
    |m songs id init_id_ m' Hr IH Hstep].
  - apply ordered_Reset.
  - apply (keeps_SongsDiscovered songs m tt m' Hstep IH).
  - destruct (reachable_consistent g o now m Hg Hr) as (Hcs & _).
    destruct (SongsDeleted_spec songs m Hcs) as ([] & m2 & Heq & _ & Hpr & _).
    assert (m2 = m') as -> by congruence. by apply (ordered_pruned m).
  - apply (keeps_SongsSlightlyChanged songs m tt m' Hstep IH).
  - apply ordered_Reset.
  - unfold set_show_dividers. case_bool_decide; [apply ordered_Reset|done].
  - unfold ResetAsyncFinished in Hstep. case_bool_decide.
    { assert (m' = m) as -> by (unfold ret in Hstep; congruence). done. }
    apply (keeps_SongsDiscovered songs (Reset m) tt m' Hstep), ordered_Reset.
Qed.

End WithText.

(** *** What [GetChildSongs] collects *)

Lemma song_below_app m l1 l2 s :
  song_below m (l1 ++ l2) s ↔ song_below m l1 s ∨ song_below m l2 s.
Proof.
  unfold song_below. split.
  - intros (item & leaf & it & Hin & Hrest). apply elem_of_app in Hin as [Hin|Hin];
      [left|right]; eauto 10.
  - intros [(item & leaf & it & Hin & Hrest)|(item & leaf & it & Hin & Hrest)];
      exists item, leaf, it; (split; [apply elem_of_app; auto|done]).
Qed.

Lemma song_below_nil m s : ¬ song_below m [] s.
Proof. intros (item & leaf & it & Hin & _). by apply elem_of_nil in Hin. Qed.

Lemma collected_from_nil m acc : coherent acc → collected_from m [] acc acc.
Proof.
  intros Hc. split; [done|]. split; [by left|].
  intros id. split; [by left|]. intros [?|(s & Hs & _)]; [done|].
  by apply song_below_nil in Hs.
Qed.

Lemma collected_from_cons m c l acc acc1 acc2 :
  collected_from m [c] acc acc1 → collected_from m l acc1 acc2 →
  collected_from m (c :: l) acc acc2.
Proof.
  intros (Hc1 & Hs1 & Hi1) (Hc2 & Hs2 & Hi2). split; [done|]. split.
  - intros s Hs. change (c :: l) with ([c] ++ l). rewrite song_below_app.
    destruct (Hs2 s Hs) as [Hs'|?]; [|by right; right].
    destruct (Hs1 s Hs') as [?|?]; [by left|by right; left].
  - intros id. rewrite Hi2, Hi1. change (c :: l) with ([c] ++ l).
    split.
    + intros [[?|(s & Hs & Hid)]|(s & Hs & Hid)]; [by left| |];
        right; exists s; (split; [|done]); apply song_below_app; auto.
    + intros [?|(s & Hs & Hid)]; [by left; left|].
      apply song_below_app in Hs as [Hs|Hs]; [left; right|right]; eauto.
Qed.

Lemma collected_from_items m l l' acc acc' :
  (∀ s, song_below m l s ↔ song_below m l' s) →
  collected_from m l acc acc' → collected_from m l' acc acc'.
Proof.
  intros Heq (Hc & Hs & Hi). split; [done|]. split.
  - intros s Hin. destruct (Hs s Hin) as [?|?]; [by left|right; by apply Heq].
  - intros id. rewrite Hi. split; intros [?|(s & Hs' & Hid)]; try (by left);
      right; exists s; (split; [by apply Heq|done]).
Qed.

Section Sorting.
Context `{Ext.Text}.
Variable sort : (ptr → ptr → bool) → list ptr → list ptr.
Hypothesis sort_permutes : ∀ lt l, sort lt l ≡ₚ l.
Variable m : CollectionModel.
Hypothesis Hcs : consistent m.
Hypothesis Hordered : ordered m.

Lemma collect_children fuel (l : list ptr) :
  (∀ c acc, c ∈ l → coherent acc →
            ∃ acc', GetChildSongs sort fuel m c acc = Some acc'
                    ∧ collected_from m [c] acc acc') →
  ∀ acc, coherent acc →
    ∃ acc', fold_left (λ acc child,
                         match acc with
                         | Some acc => GetChildSongs sort fuel m child acc
                         | None => None
                         end) l (Some acc) = Some acc'
            ∧ collected_from m l acc acc'.
Proof.
  induction l as [|c l IH]; intros Hbody acc Hacc.
  - exists acc. split; [done|]. by apply collected_from_nil.
  - destruct (Hbody c acc) as (acc1 & Heq1 & Hfrom1); [by left|done|].
    destruct (IH (λ c' acc' Hin, Hbody c' acc' (list_elem_of_further _ _ _ Hin))
                 acc1 (proj1 Hfrom1)) as (acc2 & Heq2 & Hfrom2).
    exists acc2. cbn [fold_left]. rewrite Heq1. split; [done|].
    by apply (collected_from_cons m c l acc acc1 acc2).
Qed.

Lemma below_leaf item i leaf :
  heap m !! item = Some i → Model.type i ≠ Type_Container →
  below m item leaf → leaf = item.
Proof.
  intros Hi Hty Hb. destruct Hb as [|item i' child leaf Hi' Hty' _ _]; [done|].
  assert (i' = i) as -> by congruence. done.
Qed.

Lemma GetChildSongs_spec fuel : ∀ (item : ptr) acc,
  is_Some (heap m !! item) → (next_ptr m ≤ item + fuel)%nat → coherent acc →
  ∃ acc', GetChildSongs sort fuel m item acc = Some acc'
          ∧ collected_from m [item] acc acc'.
Proof.
  induction fuel as [|fuel IH]; intros item acc [i Hi] Hfuel Hacc.
  { destruct (Hordered item i Hi) as [? _]. lia. }
  cbn [GetChildSongs]. setoid_rewrite Hi.
  destruct (Model.type i) eqn:Hty.
  - (* the root *)
    exists acc. split; [done|]. apply (collected_from_items m []);
      [|by apply collected_from_nil].
    intros s. split; [by intros ?%song_below_nil|].
    intros (item' & leaf & it & ->%list_elem_of_singleton & Hb & Hit & Hsong & _).
    rewrite (below_leaf item i leaf Hi) in Hit by (done || congruence).
    congruence.
  - (* a divider *)
    exists acc. split; [done|]. apply (collected_from_items m []);
      [|by apply collected_from_nil].
    intros s. split; [by intros ?%song_below_nil|].
    intros (item' & leaf & it & ->%list_elem_of_singleton & Hb & Hit & Hsong & _).
    rewrite (below_leaf item i leaf Hi) in Hit by (done || congruence).
    congruence.
  - (* a container *)
    assert (Hlive : ∀ c, c ∈ children i →
              ∃ it, heap m !! c = Some it ∧ parent it = Some item).
    { intros c [k Hk]%list_elem_of_lookup.
      destruct (cs_children m Hcs item i k c Hi Hk) as (it & Hit & Hpar & _). eauto. }
    rewrite (proj2 (forallb_forall _ _)).
    2:{ intros c Hc%list_elem_of_In. destruct (Hlive c Hc) as (it & -> & _).
        apply bool_decide_eq_true_2. eauto. }
    destruct (collect_children fuel (sort (CompareItems m) (children i)))
      with (acc := acc) as (acc' & Heq & Hfrom); [|done|].
    { intros c acc0 Hc Hacc0. rewrite sort_permutes in Hc.
      destruct (Hlive c Hc) as (it & Hit & Hpar).
      destruct (Hordered c it Hit) as [_ Hlt]. specialize (Hlt item Hpar).
      apply IH; [eauto|lia|done]. }
    exists acc'. split; [done|].
    apply (collected_from_items m (sort (CompareItems m) (children i))); [|done].
    intros s. split.
    + intros (c & leaf & it & Hc & Hb & Hit & Hsong & Hmd).
      rewrite sort_permutes in Hc.
      exists item, leaf, it. split; [by left|]. split; [|done].
      by apply (below_child m item i c leaf).
    + intros (item' & leaf & it & ->%list_elem_of_singleton & Hb & Hit & Hsong & Hmd).
      destruct Hb as [|item i' child leaf Hi' Hty' Hchild Hb].
      * assert (it = i) as -> by congruence. congruence.
      * assert (i' = i) as -> by congruence.
        exists child, leaf, it. split; [by rewrite sort_permutes|done].
  - (* a song *)
    assert (Hbelow : ∀ s, song_below m [item] s ↔ s = metadata i).
    { intros s. split.
      - intros (item' & leaf & it & ->%list_elem_of_singleton & Hb & Hit & _ & Hmd).
        rewrite (below_leaf item i leaf Hi) in Hit by (done || congruence).
        congruence.
      - intros ->. exists item, item, i. split; [by left|].
        split; [apply below_refl|done]. }
    destruct Hacc as [Hnd Hids].
    case_bool_decide as Hin.
    + eexists. split; [done|]. split; [done|]. split; [by left|].
      intros id. cbn [song_ids]. split; [by left|].
      intros [?|(s & Hs%Hbelow & <-)]; [done|by subst s].
    + eexists. split; [done|].
      assert (Hnew : Song.id (metadata i) ∉ map Song.id (songs acc))
        by (by rewrite <- Hids).
      split; [split|split].
      * cbn [songs]. rewrite map_app. apply NoDup_app. split; [done|].
        split; [|apply NoDup_singleton].
        intros id Hid ->%list_elem_of_singleton. done.
      * intros id. cbn [songs song_ids]. rewrite map_app, !elem_of_app, Hids. done.
      * intros s. cbn [songs]. rewrite elem_of_app, list_elem_of_singleton, Hbelow. done.
      * intros id. cbn [song_ids]. rewrite elem_of_app, list_elem_of_singleton.
        split.
        -- intros [ ? | -> ]; [by left|]. right. exists (metadata i). by rewrite Hbelow.
        -- intros [?|(s & Hs%Hbelow & <-)]; [by left|right; by subst s].
  - (* a loading indicator *)
    exists acc. split; [done|]. apply (collected_from_items m []);
      [|by apply collected_from_nil].
    intros s. split; [by intros ?%song_below_nil|].
    intros (item' & leaf & it & ->%list_elem_of_singleton & Hb & Hit & Hsong & _).
    rewrite (below_leaf item i leaf Hi) in Hit by (done || congruence).
    congruence.
Qed.

Lemma GetChildSongs_of_spec items :
  (∀ item, item ∈ items → is_Some (heap m !! item)) →
  ∃ songs, GetChildSongs_of sort m items = Some songs
           ∧ NoDup (map Song.id songs)
           ∧ (∀ s, s ∈ songs → song_below m items s)
           ∧ (∀ s, song_below m items s → Song.id s ∈ map Song.id songs).
Proof.
  intros Hlive. unfold GetChildSongs_of.
  destruct (collect_children (next_ptr m) items) with (acc := mkCollected [] [] [])
    as (acc' & Heq & (Hnd & Hids) & Hsongs & Hall).
  { intros c acc Hc Hacc. apply GetChildSongs_spec; [by apply Hlive|lia|done]. }
  { split; [apply NoDup_nil_2|done]. }
  rewrite Heq. exists (songs acc'). split; [done|]. split; [done|]. split.
  - intros s Hs. destruct (Hsongs s Hs) as [Hnil|?]; [|done].
    by apply elem_of_nil in Hnil.
  - intros s Hs. apply Hids, Hall. right. eauto.
Qed.

End Sorting.

Lemma insert_sorted_permutes {A} (lt : A → A → bool) x l :
  insert_sorted lt x l ≡ₚ x :: l.
Proof.
  induction l as [|y l IH]; [done|]. cbn [insert_sorted].
  destruct (lt y x); [|done]. rewrite IH. apply Permutation_swap.
Qed.

Lemma insertion_sort_permutes {A} (lt : A → A → bool) l :
  insertion_sort lt l ≡ₚ l.
Proof.
  induction l as [|x l IH]; [done|]. unfold insertion_sort in *.
  cbn [foldr]. rewrite insert_sorted_permutes. by rewrite IH.
Qed.

(** X14.  In every state the index reaches from the empty one, and whatever
    order [std::sort] gives the children, [GetChildSongs(indexes)] on live
    items returns, and returns each song cached at or below the items exactly
    once by id: the result has no two songs with the same id, every song of
    it is cached in a song item at or below one of the items, and the id of
    every song cached there is the id of a song of the result. *)
Theorem X14_GetChildSongs_returns_each_song_below_once `{Ext.Text}
    (sort : (ptr → ptr → bool) → list ptr → list ptr) g o now m items :
  (∀ lt l, sort lt l ≡ₚ l) →
  valid_grouping g → reachable g o now m →
  (∀ item, item ∈ items → is_Some (heap m !! item)) →
  ∃ songs, GetChildSongs_of sort m items = Some songs
           ∧ NoDup (map Song.id songs)
           ∧ (∀ s, s ∈ songs → song_below m items s)
           ∧ (∀ s, song_below m items s → Song.id s ∈ map Song.id songs).
Proof.
  intros Hsort Hg Hreach Hlive.
  apply GetChildSongs_of_spec; [done| | |done].
  - by destruct (reachable_consistent g o now m Hg Hreach).
  - by apply (reachable_ordered g o now).
Qed.

Lemma X14_GetChildSongs_returns_each_song_below_once_witness :
  ∃ songs, GetChildSongs_of insertion_sort IndexExamples.scenario_B [1; 3]%nat
           = Some songs
           ∧ NoDup (map Song.id songs)
           ∧ (∀ s, s ∈ songs → song_below IndexExamples.scenario_B [1; 3]%nat s)
           ∧ (∀ s, song_below IndexExamples.scenario_B [1; 3]%nat s →
                   Song.id s ∈ map Song.id songs).
Proof.
  apply (X14_GetChildSongs_returns_each_song_below_once (H := Latin1.text)
           insertion_sort IndexExamples.by_albumartist_album
           IndexExamples.options_all 0 IndexExamples.scenario_B [1; 3]%nat
           (@insertion_sort_permutes ptr)
           IndexProperties.valid_by_albumartist_album
           IndexProperties.scenario_B_reachable).
  intros item Hin. apply elem_of_cons in Hin as [->|Hin];
    [vm_compute; eauto|].
  apply list_elem_of_singleton in Hin as ->. vm_compute. eauto.
Defined.

End ChildSongsProperties.

(* ===================================================================== *)
(** ** The order of zero-padded sort texts *)
(* ===================================================================== *)

Module OrderProperties.
Import Model ChildSongs.

Lemma ascii_compare_refl a : Ascii.compare a a = Eq.
Proof. unfold Ascii.compare. apply N.compare_refl. Qed.

Lemma ascii_compare_lt_trans a b c :
  Ascii.compare a b = Lt → Ascii.compare b c = Lt → Ascii.compare a c = Lt.
Proof.
  unfold Ascii.compare. rewrite !N.compare_lt_iff. apply N.lt_trans.
Qed.

Lemma string_compare_lt_trans s : ∀ t u,
  String.compare s t = Lt → String.compare t u = Lt → String.compare s u = Lt.
Proof.
  induction s as [|a s IH]; intros [|b t] [|c u]; cbn [String.compare]; try done.
  destruct (Ascii.compare a b) eqn:Hab; [|clear IH|done].
  - apply Ascii.compare_eq_iff in Hab as ->.
    destruct (Ascii.compare b c); [apply IH|done|done].
  - intros _. destruct (Ascii.compare b c) eqn:Hbc; [| |done].
    + apply Ascii.compare_eq_iff in Hbc as <-. by rewrite Hab.
    + by rewrite (ascii_compare_lt_trans a b c).
Qed.

Lemma string_compare_prefix p s t :
  String.compare (p +:+ s) (p +:+ t) = String.compare s t.
Proof.
  induction p as [|c p IH]; [done|].
  change (String c p +:+ s) with (String c (p +:+ s)).
  change (String c p +:+ t) with (String c (p +:+ t)).
  cbn [String.compare]. by rewrite ascii_compare_refl.
Qed.

Lemma string_compare_suffix s : ∀ t u v,
  String.length s = String.length t → String.compare s t = Lt →
  String.compare (s +:+ u) (t +:+ v) = Lt.
Proof.
  induction s as [|a s IH]; intros [|b t] u v; cbn [String.length]; try done.
  intros [= Hlen].
  change (String a s +:+ u) with (String a (s +:+ u)).
  change (String b t +:+ v) with (String b (t +:+ v)).
  cbn [String.compare].
  destruct (Ascii.compare a b); [by apply IH|done|done].
Qed.

Lemma SortTextForNumber_steps :
  forallb (λ k, match String.compare (SortTextForNumber (Z.of_nat k))
                                      (SortTextForNumber (Z.of_nat (S k))) with
                | Lt => true
                | _ => false
                end
                && (String.length (SortTextForNumber (Z.of_nat k)) =? 4)%nat
                && (String.length (SortTextForNumber (Z.of_nat (S k))) =? 4)%nat)
          (seq 0 (Z.to_nat 9999)) = true.
Proof. vm_compute. reflexivity. Qed.

Lemma SortTextForNumber_step k :
  (k < Z.to_nat 9999)%nat →
  String.compare (SortTextForNumber (Z.of_nat k))
                 (SortTextForNumber (Z.of_nat (S k))) = Lt
  ∧ String.length (SortTextForNumber (Z.of_nat k)) = 4%nat
  ∧ String.length (SortTextForNumber (Z.of_nat (S k))) = 4%nat.
Proof.
  intros Hk. pose proof SortTextForNumber_steps as Hall.
  rewrite forallb_forall in Hall.
  assert (Hin : In k (seq 0 (Z.to_nat 9999))) by (apply in_seq; lia).
  apply Hall in Hin. apply andb_prop in Hin as [Hin Hl2].
  apply andb_prop in Hin as [Hlt Hl1].
  apply Nat.eqb_eq in Hl1, Hl2.
  by destruct (String.compare _ _).
Qed.

Lemma SortTextForNumber_increasing (d k : nat) :
  (k + S d < Z.to_nat 10000)%nat →
  String.compare (SortTextForNumber (Z.of_nat k))
                 (SortTextForNumber (Z.of_nat (k + S d))) = Lt
  ∧ String.length (SortTextForNumber (Z.of_nat k)) = 4%nat
  ∧ String.length (SortTextForNumber (Z.of_nat (k + S d))) = 4%nat.
Proof.
  induction d as [|d IH]; intros Hk.
  - replace (k + 1)%nat with (S k) by lia. apply SortTextForNumber_step. lia.
  - destruct IH as (Hlt & Hl1 & _); [lia|].
    destruct (SortTextForNumber_step (k + S d)) as (Hlt' & _ & Hl2); [lia|].
    replace (S (k + S d)) with (k + S (S d))%nat in * by lia.
    split; [|done]. by eapply string_compare_lt_trans.
Qed.

Lemma SortTextForNumber_lt x y p u v :
  0 ≤ x → x < y → y < 10000 →
  String.compare (p +:+ SortTextForNumber x +:+ u)
                 (p +:+ SortTextForNumber y +:+ v) = Lt.
Proof.
  intros Hx Hxy Hy. rewrite string_compare_prefix.
  destruct (SortTextForNumber_increasing (Z.to_nat (y - x - 1)) (Z.to_nat x))
    as (Hlt & Hl1 & Hl2); [lia|].
  replace (Z.of_nat (Z.to_nat x + S (Z.to_nat (y - x - 1)))) with y in * by lia.
  rewrite Z2Nat.id in * by done.
  apply string_compare_suffix; [congruence|done].
Qed.

(** X15.  Two items whose sort texts are, after a common prefix, the
    zero-padded sort texts of two different numbers between 0 and 9999
    (followed by anything) are ordered by [CompareItems] as the numbers
    are. *)
Theorem X15_zero_padded_sort_texts_order_as_the_numbers
    (m : CollectionModel) (a b : ptr) ia ib (p u v : string) (x y : Z) :
  heap m !! a = Some ia → heap m !! b = Some ib →
  sort_text ia = p +:+ SortTextForNumber x +:+ u →
  sort_text ib = p +:+ SortTextForNumber y +:+ v →
  0 ≤ x < 10000 → 0 ≤ y < 10000 → x ≠ y →
  CompareItems m a b = (x <? y).
Proof.
  intros Ha Hb Hsa Hsb Hx Hy Hne. unfold CompareItems. rewrite Ha, Hb, Hsa, Hsb.
  destruct (Z.ltb_spec x y) as [Hlt|Hge].
  - by rewrite SortTextForNumber_lt by lia.
  - rewrite String.compare_antisym, (SortTextForNumber_lt y x) by lia. done.
Qed.

Lemma X15_zero_padded_sort_texts_order_as_the_numbers_witness :
  CompareItems OrderExamples.two_years 4%nat 1%nat = (1990 <? 2000)
  ∧ CompareItems OrderExamples.two_years 1%nat 4%nat = (2000 <? 1990).
Proof.
  split.
  - eapply (X15_zero_padded_sort_texts_order_as_the_numbers
              OrderExamples.two_years 4%nat 1%nat _ _ EmptyString " 1999 " " 2005 " 1990 2000);
      [vm_compute; reflexivity|vm_compute; reflexivity|reflexivity|reflexivity
      |lia|lia|lia].
  - eapply (X15_zero_padded_sort_texts_order_as_the_numbers
              OrderExamples.two_years 1%nat 4%nat _ _ EmptyString " 2005 " " 1999 " 2000 1990);
      [vm_compute; reflexivity|vm_compute; reflexivity|reflexivity|reflexivity
      |lia|lia|lia].
Defined.

End OrderProperties.
